(** * A shallow embedding of the shooter game (shooter.py, shooter2.py)

    The two Python modules are embedded as two Rocq modules, [Shooter] and
    [Shooter2], with one sub-module per Python class.  Conventions:

    - Python floats are exact rationals ([Q]); Python ints are [Z] or [nat].
    - numpy arrays are lists.  Scalar and index-array accesses that numpy
      bound-checks return a [result]; slices, which numpy clamps, are total.
    - A slice or a boolean-mask selection on the right of an assignment is a
      copy in the model; where the source writes through a view (the window of
      [Wave.current], [ialive[:n]]), the write is put back into the base
      array explicitly.
    - The hooks of a wave ([leaving], [entering], [newpage]/[newcontent]) reach
      the game through [self.game]; the attributes they can touch are gathered
      in the record [Shared], which is threaded through the update.
    - Randomness ([numpy.random]) and the wall clock are inputs of a frame. *)

From Stdlib Require Import String Ascii DecimalString.
From Stdlib Require Import List ZArith QArith Qabs Qminmax Qround Lia Lqa Bool Arith.
From Stdlib Require Import Sorted.
Import ListNotations.

Set Implicit Arguments.
Open Scope nat_scope.

(* ================================================================== *)
(** * Python and numpy primitives *)
(* ================================================================== *)

Inductive PyError : Set := IndexError | ZeroDivisionError | ValueError.

Inductive result (A : Type) : Type :=
| Ok : A -> result A
| Raise : PyError -> result A.
Arguments Ok {A} _.
Arguments Raise {A} _.

Definition bind {A B} (r : result A) (k : A -> result B) : result B :=
  match r with
  | Ok a => k a
  | Raise e => Raise e
  end.

Notation "x <- c ;; k" := (bind c (fun x => k))
  (at level 61, c at next level, right associativity).
Notation "' p <- c ;; k" := (bind c (fun x => let p := x in k))
  (at level 61, p pattern, c at next level, right associativity).

Fixpoint mapM {A B} (f : A -> result B) (l : list A) : result (list B) :=
  match l with
  | [] => Ok []
  | a :: l' => b <- f a ;; bs <- mapM f l' ;; Ok (b :: bs)
  end.


(** ** Scalars *)

(** [a / b] on Python floats. *)
Definition truediv (a b : Q) : result Q :=
  if Qeq_bool b 0 then Raise ZeroDivisionError else Ok (a / b)%Q.

(** [int(x)] on a float: truncation toward zero. *)
Definition py_int (q : Q) : Z := Z.quot (Qnum q) (Zpos (Qden q)).

Definition Qlt_bool (x y : Q) : bool := negb (Qle_bool y x).

(** [numpy.clip(x, lo, hi)] is [minimum(maximum(x, lo), hi)]. *)
Definition clip (x lo hi : Q) : Q := Qmin (Qmax x lo) hi.
Definition clipZ (x lo hi : Z) : Z := Z.min (Z.max x lo) hi.

(** ** Arrays *)

(** [l[i]] for a non-negative scalar index. *)
Definition index {A} (l : list A) (i : nat) : result A :=
  match nth_error l i with
  | Some a => Ok a
  | None => Raise IndexError
  end.

(** [l[i]] for a Python integer: negative indices count from the end. *)
Definition py_index {A} (l : list A) (i : Z) : result A :=
  let len := Z.of_nat (length l) in
  if (0 <=? i)%Z then index l (Z.to_nat i)
  else if (- len <=? i)%Z then index l (Z.to_nat (len + i))
  else Raise IndexError.

Fixpoint set_nth {A} (l : list A) (i : nat) (x : A) : list A :=
  match l, i with
  | [], _ => []
  | _ :: l', O => x :: l'
  | a :: l', S i' => a :: set_nth l' i' x
  end.

(** [l[i] = x] for a non-negative scalar index. *)
Definition store {A} (l : list A) (i : nat) (x : A) : result (list A) :=
  if i <? length l then Ok (set_nth l i x) else Raise IndexError.

(** [l[lo:hi]] *)
Definition slice {A} (lo hi : nat) (l : list A) : list A :=
  firstn (hi - lo) (skipn lo l).

(** [l[lo:hi] = vals], for [vals] as long as the slice. *)
Definition set_slice {A} (lo hi : nat) (vals l : list A) : list A :=
  firstn lo l ++ vals ++ skipn hi l.

(** [l[idx]] for an index array. *)
Definition gather {A} (l : list A) (idx : list nat) : result (list A) :=
  mapM (index l) idx.

Definition py_gather {A} (l : list A) (idx : list Z) : result (list A) :=
  mapM (py_index l) idx.

(** [l[idx] = v] for an index array and a scalar. *)
Fixpoint fill {A} (idx : list nat) (v : A) (l : list A) : result (list A) :=
  match idx with
  | [] => Ok l
  | i :: idx' => l' <- store l i v ;; fill idx' v l'
  end.

(** [l[idx] = vals] for an index array and an array of values: the
    values are computed first, then written in order. *)
Fixpoint scatter {A} (idx : list nat) (vals : list A) (l : list A)
  : result (list A) :=
  match idx, vals with
  | i :: idx', v :: vals' => l' <- store l i v ;; scatter idx' vals' l'
  | _, _ => Ok l
  end.

Fixpoint py_fill {A} (idx : list Z) (v : A) (l : list A) : result (list A) :=
  match idx with
  | [] => Ok l
  | i :: idx' =>
      let len := Z.of_nat (length l) in
      l' <- (if (0 <=? i)%Z then store l (Z.to_nat i) v
             else if (- len <=? i)%Z then store l (Z.to_nat (len + i)) v
             else Raise IndexError) ;;
      py_fill idx' v l'
  end.

Fixpoint py_scatter {A} (idx : list Z) (vals : list A) (l : list A)
  : result (list A) :=
  match idx, vals with
  | i :: idx', v :: vals' =>
      let len := Z.of_nat (length l) in
      l' <- (if (0 <=? i)%Z then store l (Z.to_nat i) v
             else if (- len <=? i)%Z then store l (Z.to_nat (len + i)) v
             else Raise IndexError) ;;
      py_scatter idx' vals' l'
  | _, _ => Ok l
  end.

(** [nonzero(mask)[0]]: the positions of the true entries. *)
Fixpoint nonzero_from (i : nat) (mask : list bool) : list nat :=
  match mask with
  | [] => []
  | b :: mask' =>
      if b then i :: nonzero_from (S i) mask' else nonzero_from (S i) mask'
  end.
Definition nonzero (mask : list bool) : list nat := nonzero_from 0 mask.

(** [l[mask]] for a boolean mask, which must be as long as [l]. *)
Fixpoint select_mask {A} (l : list A) (mask : list bool) : list A :=
  match l, mask with
  | a :: l', b :: mask' =>
      if b then a :: select_mask l' mask' else select_mask l' mask'
  | _, _ => []
  end.
Definition select {A} (l : list A) (mask : list bool) : result (list A) :=
  if length l =? length mask then Ok (select_mask l mask)
  else Raise IndexError.

(** [concatenate((xs[:,newaxis], ys), axis=1)] for a column [ys]: the two
    must have as many rows. *)
Definition hstack {A B} (xs : list A) (ys : list B) : result (list (A * B)) :=
  if length xs =? length ys then Ok (combine xs ys)
  else Raise ValueError.

(** [any(mask)] and [sum(mask)] *)
Definition any (mask : list bool) : bool := existsb (fun b => b) mask.
Definition count_true (mask : list bool) : nat :=
  length (List.filter (fun b => b) mask).

(** Elementwise binary operation on arrays of one shape. *)
Fixpoint map2 {A B C} (f : A -> B -> C) (l1 : list A) (l2 : list B) : list C :=
  match l1, l2 with
  | a :: l1', b :: l2' => f a b :: map2 f l1' l2'
  | _, _ => []
  end.

Definition mat_map {A B} (f : A -> B) (m : list (list A)) : list (list B) :=
  map (map f) m.

Definition mat_map2 {A B C} (f : A -> B -> C)
  (m1 : list (list A)) (m2 : list (list B)) : list (list C) :=
  map2 (map2 f) m1 m2.

(** Broadcasting a column [col[:,newaxis]] against a row [row[newaxis,:]]:
    entry (i,j) combines [col[i]] and [row[j]]. *)
Definition outer {A B C} (f : A -> B -> C) (col : list A) (row : list B)
  : list (list C) :=
  map (fun c => map (fun r => f c r) row) col.

(** [nonzero] of a boolean matrix: the (row, column) pairs of the true
    entries in row-major order, as the two index arrays. *)
Fixpoint nonzero2_from (i : nat) (m : list (list bool)) : list (nat * nat) :=
  match m with
  | [] => []
  | row :: m' =>
      map (fun j => (i, j)) (nonzero row) ++ nonzero2_from (S i) m'
  end.
Definition nonzero2 (m : list (list bool)) : list nat * list nat :=
  let ps := nonzero2_from 0 m in (map fst ps, map snd ps).

(** [zeros((k,))]: negative dimensions are refused. *)
Definition zeros {A} (zero : A) (k : Z) : result (list A) :=
  if (k <? 0)%Z then Raise ValueError else Ok (repeat zero (Z.to_nat k)).

(** [linspace(0., 1., k)] *)
Definition linspace01 (k : nat) : list Q :=
  match k with
  | O => []
  | S O => [0%Q]
  | _ => map (fun i => (inject_Z (Z.of_nat i) / inject_Z (Z.of_nat (k - 1)))%Q)
             (seq 0 k)
  end.

(** [l[::step]] *)
Fixpoint every {A} (k i : nat) (l : list A) : list A :=
  match l with
  | [] => []
  | a :: l' =>
      match i with
      | O => a :: every k (k - 1) l'
      | S i' => every k i' l'
      end
  end.
Definition slice_step {A} (step : Z) (l : list A) : result (list A) :=
  if (step =? 0)%Z then Raise ValueError
  else if (0 <? step)%Z then Ok (every (Z.to_nat step) 0 l)
  else Ok (every (Z.to_nat (- step)) 0 (rev l)).

(** [arange(start, stop, step)] on integers. *)
Definition arange (start stop step : Z) : result (list Z) :=
  if (step =? 0)%Z then Raise ZeroDivisionError
  else
    let len := Z.to_nat (- ((- (stop - start)) / step))%Z in
    Ok (map (fun k => (start + Z.of_nat k * step)%Z) (seq 0 len)).

(** [cumsum] *)
Fixpoint cumsum_from (acc : Z) (l : list Z) : list Z :=
  match l with
  | [] => []
  | x :: l' => (acc + x)%Z :: cumsum_from (acc + x)%Z l'
  end.
Definition cumsum (l : list Z) : list Z := cumsum_from 0%Z l.

(** A scalar or an array on the right of a slice assignment. *)
Inductive rhs (A : Type) : Type :=
| Scalar : A -> rhs A
| Array : list A -> rhs A.

Definition broadcast {A} (k : nat) (v : rhs A) : list A :=
  match v with
  | Scalar a => repeat a k
  | Array l => l
  end.

(** [l[lo:] = v] *)
Definition set_from {A} (lo : nat) (v : rhs A) (l : list A) : list A :=
  firstn lo l ++ broadcast (length l - lo) v.

(** ** The random source and the clock *)

(** One call of [numpy.random]: [uniform r c] is entry (r, c) of a
    [uniform(0., 1., shape)] draw, [geometric k] entry [k] of a
    [geometric(p, shape)] draw, whose support is 1, 2, 3, ... *)
Record Random : Type := mkRandom {
  uniform : nat -> nat -> Q;
  geometric : nat -> positive
}.

Definition uniform_row (rnd : Random) (r len : nat) : list Q :=
  map (uniform rnd r) (seq 0 len).
Definition geometric_draw (rnd : Random) (len : nat) : list Z :=
  map (fun k => Zpos (geometric rnd k)) (seq 0 len).

(** What a frame transition reads from outside: the two readings of
    [clock()] and the random source. *)
Record Env : Type := mkEnv {
  clock_start : Q;
  clock_end : Q;
  random : Random
}.

(** ** String formatting *)

Definition str_of_N (k : N) : string := NilZero.string_of_uint (N.to_uint k).
Definition str_of_nat (k : nat) : string := str_of_N (N.of_nat k).

Fixpoint pad_left (width : nat) (c : ascii) (s : string) : string :=
  if width <=? String.length s then s
  else match width with
       | O => s
       | S w => String c (pad_left w c s)
       end.

(** Rounding to the nearest integer, ties to even. *)
Definition round_half_even (q : Q) : Z :=
  let fl := Qfloor q in
  match Qcompare (q - inject_Z fl) (1 # 2) with
  | Lt => fl
  | Gt => (fl + 1)%Z
  | Eq => if Z.even fl then fl else (fl + 1)%Z
  end.

(** ["{:.<prec>f}".format(q)] *)
Definition format_f (prec : nat) (q : Q) : string :=
  let scale := (10 ^ Z.of_nat prec)%Z in
  let scaled := round_half_even (Qabs q * inject_Z scale) in
  let ip := str_of_N (Z.to_N (scaled / scale)) in
  let fp := pad_left prec "0"%char (str_of_N (Z.to_N (scaled mod scale))) in
  let body := match prec with
              | O => ip
              | _ => String.append ip (String.append "." fp)
              end in
  if Qlt_bool q 0 then String.append "-" body else body.

(** ["{:0<width>.<prec>f}".format(q)]: zero padding goes after the sign. *)
Definition format_0f (width prec : nat) (q : Q) : string :=
  if Qlt_bool q 0
  then String.append "-" (pad_left (width - 1) "0"%char (format_f prec (Qabs q)))
  else pad_left width "0"%char (format_f prec q).

(** ["{:.<prec>%}".format(q)] *)
Definition format_pct (prec : nat) (q : Q) : string :=
  String.append (format_f prec (q * 100)) "%".

(* ================================================================== *)
(** * shooter.py *)
(* ================================================================== *)

Module Shooter.

(** ** class Avatar *)
Module Avatar.

Record t : Type := mk { pos_x : Q; pos_y : Q; xspeed : Q }.

Definition init (fps : Z) (x y v : Q) : result t :=
  xs <- truediv v (inject_Z fps) ;;
  Ok (mk x y xs).

Definition update (tr_move : Z) (a : t) : t :=
  mk (clip (pos_x a + inject_Z tr_move * xspeed a)%Q 0%Q 1%Q)
     (pos_y a) (xspeed a).

(** The offsets given to the artist. *)
Definition display (a : t) : list (Q * Q) := [(pos_x a, pos_y a)].

End Avatar.

(** The attributes of the game object that its components read or write
    through [self.game]. *)
Record Shared : Type := mkShared {
  fps : Z;
  tr_move : Z;
  tr_quit : bool;
  tr_hits : bool;
  tr_miss : bool;
  avatar : Avatar.t
}.

Definition set_tr_miss (b : bool) (g : Shared) : Shared :=
  mkShared (fps g) (tr_move g) (tr_quit g) (tr_hits g) b (avatar g).
Definition set_tr_hits (b : bool) (g : Shared) : Shared :=
  mkShared (fps g) (tr_move g) (tr_quit g) b (tr_miss g) (avatar g).
Definition set_avatar (a : Avatar.t) (g : Shared) : Shared :=
  mkShared (fps g) (tr_move g) (tr_quit g) (tr_hits g) (tr_miss g) a.

(** ** class Wave *)
Module Wave.

(** [E] holds the attributes a subclass adds. *)
Record t (E : Type) : Type := mk {
  N : nat;
  n : nat;
  orient : Z;
  xpos : list Q;
  xspeed : list Q;
  visible : list bool;
  ypos : list Q;
  ext : E
}.

(** What [newpage] returns. *)
Record page : Type := mkPage {
  page_xpos : rhs Q;
  page_xspeed : rhs Q;
  page_visible : rhs bool
}.

Section Fields.
Context {E : Type}.

Definition set_n (k : nat) (w : t E) : t E :=
  mk (N w) k (orient w) (xpos w) (xspeed w) (visible w) (ypos w) (ext w).
Definition set_xpos (l : list Q) (w : t E) : t E :=
  mk (N w) (n w) (orient w) l (xspeed w) (visible w) (ypos w) (ext w).
Definition set_xspeed (l : list Q) (w : t E) : t E :=
  mk (N w) (n w) (orient w) (xpos w) l (visible w) (ypos w) (ext w).
Definition set_visible (l : list bool) (w : t E) : t E :=
  mk (N w) (n w) (orient w) (xpos w) (xspeed w) l (ypos w) (ext w).
Definition set_ext (e : E) (w : t E) : t E :=
  mk (N w) (n w) (orient w) (xpos w) (xspeed w) (visible w) (ypos w) e.

(** [self.xpos[N:], self.xspeed[N:], self.visible[N:] = page] *)
Definition install_page (k : nat) (p : page) (w : t E) : t E :=
  set_visible (set_from k (page_visible p) (visible w))
    (set_xspeed (set_from k (page_xspeed p) (xspeed w))
       (set_xpos (set_from k (page_xpos p) (xpos w)) w)).

(** [self.xpos[:N], self.xspeed[:N], self.visible[:N] =
     self.xpos[N:], self.xspeed[N:], self.visible[N:]] *)
Definition shift_page (k : nat) (w : t E) : t E :=
  set_visible (set_slice 0 k (skipn k (visible w)) (visible w))
    (set_xspeed (set_slice 0 k (skipn k (xspeed w)) (xspeed w))
       (set_xpos (set_slice 0 k (skipn k (xpos w)) (xpos w)) w)).

Definition current (w : t E) : list Q * list Q * list bool :=
  let lo := n w in
  let hi := n w + N w in
  (slice lo hi (xpos w), slice lo hi (xspeed w), slice lo hi (visible w)).

(** The offsets given to the artist: one point per visible sprite of
    the window. *)
Definition display (w : t E) : result (list (Q * Q)) :=
  let '(xpos, xspeed, visible) := current w in
  pts <- hstack xpos (ypos w) ;;
  select pts visible.
End Fields.

Section Methods.
Context {E : Type}.
(** The methods a subclass overrides. *)
Variable leaving entering : nat -> t E -> Shared -> result (t E * Shared).
Variable newpage : t E -> result page.

Definition init (fps : Z) (v : Q) (orient : Z) (e : E) : result (t E) :=
  q <- truediv (inject_Z fps) v ;;
  let Nz := py_int q in
  xp <- zeros 0%Q (2 * Nz) ;;
  xs <- zeros 0%Q (2 * Nz) ;;
  vis <- zeros false (2 * Nz) ;;
  let k := Z.to_nat Nz in
  yp <- slice_step orient (linspace01 k) ;;
  let w := mk k 0 orient xp xs vis yp e in
  p <- newpage w ;;
  Ok (install_page k p w).

(** The two hook calls of [update], for the slot [n0] that leaves the
    window and the slot [n0 + N0] that enters it. *)
Definition fire (n0 N0 : nat) (w : t E) (g : Shared)
  : result (t E * Shared) :=
  vn <- index (visible w) n0 ;;
  '(w1, g1) <- (if vn : bool then leaving n0 w g else Ok (w, g)) ;;
  vm <- index (visible w1) (n0 + N0) ;;
  if vm : bool then entering (n0 + N0) w1 g1 else Ok (w1, g1).

(** The rest of [update]: the window moves, the cursor advances, and
    the page is turned when the cursor reaches [N0]. *)
Definition step (n0 N0 : nat) (w : t E) : result (t E) :=
  let m := n0 + N0 in
  let w3 :=
    set_xpos (set_slice n0 m
                (map2 Qplus (slice n0 m (xpos w)) (slice n0 m (xspeed w)))
                (xpos w)) w in
  let n1 := n0 + 1 in
  if n1 =? N0 then
    let w4 := shift_page N0 w3 in
    p <- newpage w4 ;;
    Ok (set_n 0 (install_page N0 p w4))
  else Ok (set_n n1 w3).

Definition update (w : t E) (g : Shared) : result (t E * Shared) :=
  let n0 := n w in
  let N0 := N w in
  '(w2, g2) <- fire n0 N0 w g ;;
  w' <- step n0 N0 w2 ;;
  Ok (w', g2).
End Methods.

(** [def entering(self,n): pass] and [def leaving(self,n): pass] *)
Definition pass {E} (i : nat) (w : t E) (g : Shared)
  : result (t E * Shared) := Ok (w, g).

End Wave.

(** ** class Targets (Wave) *)
Module Targets.

Record ext : Type := mkExt { rate : Q; width : Q; score : nat }.
Definition t : Type := Wave.t ext.

Definition newpage (rnd : Random) (w : t) : result Wave.page :=
  let N := Wave.N w in
  let xpos := uniform_row rnd 0 N in
  let xposc := uniform_row rnd 1 N in
  let visible := uniform_row rnd 2 N in
  let xspeed :=
    map (fun d => (d / inject_Z (Z.of_nat N))%Q) (map2 Qminus xposc xpos) in
  Ok (Wave.mkPage (Array xpos) (Array xspeed)
        (Array (map (fun u => Qlt_bool u (rate (Wave.ext w))) visible))).

Definition leaving (i : nat) (w : t) (g : Shared) : result (t * Shared) :=
  let e := Wave.ext w in
  Ok (Wave.set_ext (mkExt (rate e) (width e) (score e + 1)) w,
      set_tr_miss true g).

Definition init (rnd : Random) (fps : Z) (v rate width : Q) : result t :=
  r <- truediv rate (inject_Z fps) ;;
  Wave.init (newpage rnd) fps v 1 (mkExt r width 0).

Definition update (rnd : Random) (w : t) (g : Shared)
  : result (t * Shared) :=
  Wave.update leaving (@Wave.pass ext) (newpage rnd) w g.

End Targets.

(** ** class Bullets (Wave) *)
Module Bullets.

Record ext : Type := mkExt { rload : Z }.
Definition t : Type := Wave.t ext.

Definition newpage (w : t) : result Wave.page :=
  let N := Wave.N w in
  idx <- arange 0 (Z.of_nat N) (rload (Wave.ext w)) ;;
  visible <- py_fill idx true (repeat false N) ;;
  Ok (Wave.mkPage (Scalar (1 # 2)%Q) (Scalar 0%Q) (Array visible)).

Definition entering (i : nat) (w : t) (g : Shared) : result (t * Shared) :=
  xp <- store (Wave.xpos w) i (Avatar.pos_x (avatar g)) ;;
  Ok (Wave.set_xpos xp w, g).

Definition init (fps : Z) (v rload : Q) : result t :=
  Wave.init newpage fps v (-1)
    (mkExt (py_int (rload * inject_Z fps)%Q)).

Definition update (w : t) (g : Shared) : result (t * Shared) :=
  Wave.update (@Wave.pass ext) entering newpage w g.

End Bullets.

(** ** class Hits *)
Module Hits.

Record t : Type := mk {
  timeout : Z;
  tol : Q;
  clashmat : list (list Q);
  ypos : list Q;
  xpos : list Q;
  weight : list Z;
  score : nat
}.

Definition init (fps : Z) (width : Q) (N : nat) (r : list Q)
  (N1 : nat) (r1 : list Q) (timeout : Q) : result t :=
  iN <- truediv 1%Q (inject_Z (Z.of_nat N)) ;;
  iN1 <- truediv 1%Q (inject_Z (Z.of_nat N1)) ;;
  Ok (mk (py_int (timeout * inject_Z fps)%Q)
         (width / 2)%Q
         (mat_map (fun d => (d / (iN + iN1))%Q) (outer Qminus r r1))
         r
         (repeat 0%Q N)
         (repeat 0%Z N)
         0).

(** [(abs(dx+dv*m)<self.tol)&(m>=0.)&(m<=1.)] *)
Definition clashes (tol : Q) (dx dv m : list (list Q)) : list (list bool) :=
  mat_map2 andb
    (mat_map2 andb
       (mat_map (fun e => Qlt_bool (Qabs e) tol)
          (mat_map2 Qplus dx (mat_map2 Qmult dv m)))
       (mat_map (fun e => Qle_bool 0%Q e) m))
    (mat_map (fun e => Qle_bool e 1%Q) m).

(** [self.weight -= 1; clip(self.weight,0,self.timeout,self.weight)] *)
Definition age (h : t) : t :=
  mk (timeout h) (tol h) (clashmat h) (ypos h) (xpos h)
     (map (fun w => clipZ (w - 1) 0 (timeout h)) (weight h))
     (score h).

(** The index arrays [nz, nz1] of the colliding pairs among the visible
    targets [(x, v, visible)] and the visible bullets [(x1, v1, visible1)]. *)
Definition detect (h : t)
  (x v : list Q) (visible : list bool)
  (x1 v1 : list Q) (visible1 : list bool) : result (list nat * list nat) :=
  x1v <- select x1 visible1 ;;
  xv <- select x visible ;;
  let dx := outer (fun a b => (b - a)%Q) xv x1v in
  v1v <- select v1 visible1 ;;
  vv <- select v visible ;;
  let dv := outer (fun a b => (b - a)%Q) vv v1v in
  rows <- select (clashmat h) visible ;;
  m <- mapM (fun row => select row visible1) rows ;;
  Ok (nonzero2 (clashes (tol h) dx dv m)).

Definition update {E E1} (tg : Wave.t E) (bl : Wave.t E1) (h : t) (g : Shared)
  : result (Wave.t E * Wave.t E1 * t * Shared) :=
  let '(x, v, visible) := Wave.current tg in
  let '(x1, v1, visible1) := Wave.current bl in
  '(tg', bl', h', g') <-
    (if any visible && any visible1 then
       '(nz, nz1) <- detect h x v visible x1 v1 visible1 ;;
       if 0 <? length nz then
         s <- gather (nonzero visible) nz ;;
         visible' <- fill s false visible ;;
         weight' <- fill s (timeout h) (weight h) ;;
         xs <- gather x s ;;
         xpos' <- scatter s xs (xpos h) ;;
         s1 <- gather (nonzero visible1) nz1 ;;
         visible1' <- fill s1 false visible1 ;;
         let lo := Wave.n tg in
         let lo1 := Wave.n bl in
         Ok (Wave.set_visible
               (set_slice lo (lo + Wave.N tg) visible' (Wave.visible tg)) tg,
             Wave.set_visible
               (set_slice lo1 (lo1 + Wave.N bl) visible1' (Wave.visible bl)) bl,
             mk (timeout h) (tol h) (clashmat h) (ypos h) xpos' weight'
                (score h + length nz),
             set_tr_hits true g)
       else Ok (tg, bl, h, g)
     else Ok (tg, bl, h, g)) ;;
  Ok (tg', bl', age h', g').

(** [m = self.weight>0]: the rows whose marker is drawn by [display]. *)
Definition displayed (h : t) : list bool :=
  map (fun w => (0 <? w)%Z) (weight h).

Definition display (h : t) : result (list (Q * Q)) :=
  let m := displayed h in
  xs <- select (xpos h) m ;;
  ys <- select (ypos h) m ;;
  hstack xs ys.

End Hits.

(** ** class Game *)
Module Game.

Record t (T B H : Type) : Type := mk {
  shared : Shared;
  nstep : nat;
  gameover : bool;
  status : string;
  perf : Q;
  targets : T;
  bullets : B;
  hits : H
}.

(** [Factory]: the classes of the components.  What [Game.update] uses of
    them is their [update] and the two [score] attributes. *)
Record Factory (T B H : Type) : Type := mkFactory {
  targets_update : Random -> T -> Shared -> result (T * Shared);
  bullets_update : B -> Shared -> result (B * Shared);
  hits_update : T -> B -> H -> Shared -> result (T * B * H * Shared);
  targets_score : T -> nat;
  hits_score : H -> nat
}.

Section Methods.
Context {T B H : Type}.
Variable F : Factory T B H.

(** [for cn,c in self.components: c.update()] *)
Definition components_update (env : Env) (g : t T B H)
  : result (t T B H) :=
  let sh := shared g in
  let sh0 := set_avatar (Avatar.update (tr_move sh) (avatar sh)) sh in
  '(tg1, sh1) <- targets_update F (random env) (targets g) sh0 ;;
  '(bl2, sh2) <- bullets_update F (bullets g) sh1 ;;
  '(tg3, bl3, h3, sh3) <- hits_update F tg1 bl2 (hits g) sh2 ;;
  Ok (mk sh3 (nstep g) (gameover g) (status g) (perf g) tg3 bl3 h3).

Definition score_text (hit miss : nat) : result string :=
  let total := miss + hit in
  if total =? 0 then Ok "*"%string
  else
    q <- truediv (100 * inject_Z (Z.of_nat hit))%Q
                 (inject_Z (Z.of_nat total)) ;;
    Ok (format_f 2 q).

Definition gameover_text (g : t T B H) : string :=
  String.append "Game over. Efficiency (logic): "
    (format_pct 2 (perf g * inject_Z (fps (shared g)))%Q).

Definition running_text (time : Q) (hit miss : nat) (score : string)
  : string :=
  String.append "time: " (String.append (format_0f 6 1 time)
  (String.append "; hit: " (String.append (str_of_nat hit)
  (String.append "; miss: " (String.append (str_of_nat miss)
  (String.append "; score: " score)))))).

Definition update (env : Env) (g : t T B H) : result (t T B H) :=
  if tr_quit (shared g) then
    Ok (mk (shared g) (nstep g) true (gameover_text g) (perf g)
           (targets g) (bullets g) (hits g))
  else
    g1 <- components_update env g ;;
    let hit := hits_score F (hits g1) in
    let miss := targets_score F (targets g1) in
    score <- score_text hit miss ;;
    let nstep1 := nstep g1 + 1 in
    time <- truediv (inject_Z (Z.of_nat nstep1))
                    (inject_Z (fps (shared g1))) ;;
    let status1 := running_text time hit miss score in
    d <- truediv (clock_end env - clock_start env - perf g1)%Q
                 (inject_Z (Z.of_nat nstep1)) ;;
    Ok (mk (shared g1) nstep1 (gameover g1) status1 (perf g1 + d)%Q
           (targets g1) (bullets g1) (hits g1)).
End Methods.

(** The configuration: [fps] and one parameter group per component. *)
Record Config : Type := mkConfig {
  cfg_fps : Z;
  avatar_x : Q; avatar_y : Q; avatar_v : Q;
  targets_v : Q; targets_rate : Q; targets_width : Q;
  bullets_v : Q; bullets_rload : Q;
  hits_timeout : Q
}.

Definition Factory1 : Factory Targets.t Bullets.t Hits.t :=
  mkFactory Targets.update Bullets.update (@Hits.update _ _)
    (fun tg => Targets.score (Wave.ext tg)) Hits.score.

Definition init (rnd : Random) (c : Config)
  : result (t Targets.t Bullets.t Hits.t) :=
  av <- Avatar.init (cfg_fps c) (avatar_x c) (avatar_y c) (avatar_v c) ;;
  tg <- Targets.init rnd (cfg_fps c) (targets_v c) (targets_rate c)
          (targets_width c) ;;
  bl <- Bullets.init (cfg_fps c) (bullets_v c) (bullets_rload c) ;;
  h <- Hits.init (cfg_fps c) (Targets.width (Wave.ext tg))
         (Wave.N tg) (Wave.ypos tg) (Wave.N bl) (Wave.ypos bl)
         (hits_timeout c) ;;
  Ok (mk (mkShared (cfg_fps c) 0 false false false av)
         0 false "time: 0"%string 0%Q tg bl h).

(** What one call of [display] gives the artists: the status text, then
    the offsets of each component, in the order of [components]. *)
Record Frame : Type := mkFrame {
  frame_status : string;
  frame_avatar : list (Q * Q);
  frame_targets : list (Q * Q);
  frame_bullets : list (Q * Q);
  frame_hits : list (Q * Q)
}.

Definition display_with {T B H : Type}
  (dt : T -> result (list (Q * Q))) (db : B -> result (list (Q * Q)))
  (dh : H -> result (list (Q * Q))) (g : t T B H) : result Frame :=
  let av := Avatar.display (avatar (shared g)) in
  tg <- dt (targets g) ;;
  bl <- db (bullets g) ;;
  h <- dh (hits g) ;;
  Ok (mkFrame (status g) av tg bl h).

Definition display (g : t Targets.t Bullets.t Hits.t) : result Frame :=
  display_with (@Wave.display _) (@Wave.display _) Hits.display g.

End Game.

(** ** class GameManager *)
Module GameManager.

Definition KEY_MOVELEFT : Z := 1.
Definition KEY_MOVERIGHT : Z := 2.
Definition KEY_BOOST : Z := 4.
Definition KEY_TERMINATE : Z := 8.

Definition pressed (keys key : Z) : bool := negb (Z.land keys key =? 0)%Z.

Definition move_command (keys : Z) : Z :=
  let m := (Z.b2z (pressed keys KEY_MOVERIGHT)
            - Z.b2z (pressed keys KEY_MOVELEFT))%Z in
  if pressed keys KEY_BOOST then (m * 2)%Z else m.

Definition userinput {T B H} (keys : Z) (g : Game.t T B H) : Game.t T B H :=
  let sh := Game.shared g in
  Game.mk
    (mkShared (fps sh) (move_command keys) (pressed keys KEY_TERMINATE)
       false false (avatar sh))
    (Game.nstep g) (Game.gameover g) (Game.status g) (Game.perf g)
    (Game.targets g) (Game.bullets g) (Game.hits g).

(** [KEYS.get(name,0)] *)
Definition KEYS (name : string) : Z :=
  if String.eqb name "left" then KEY_MOVELEFT
  else if String.eqb name "right" then KEY_MOVERIGHT
  else if String.eqb name "control" then KEY_BOOST
  else if String.eqb name "alt" then KEY_BOOST
  else if String.eqb name " " then KEY_TERMINATE
  else 0%Z.

(** [key.rsplit('+',1)[-1]]: what follows the last '+' of [key], all
    of [key] when it has none.  [acc] is what follows the last '+' read
    so far. *)
Fixpoint rsplit_last (acc key : string) : string :=
  match key with
  | EmptyString => acc
  | String c rest =>
      if Ascii.eqb c "+" then rsplit_last EmptyString rest
      else rsplit_last (String.append acc (String c EmptyString)) rest
  end.

(** [kpress] and [krelease] of [play], on the bit-vector [self.keys]. *)
Definition kpress (keys : Z) (key : string) : Z :=
  Z.lor keys (KEYS (rsplit_last EmptyString key)).
Definition krelease (keys : Z) (key : string) : Z :=
  Z.land keys (Z.lnot (KEYS (rsplit_last EmptyString key))).

(** The sounds [useroutput] asks for. *)
Definition useroutput {T B H} (g : Game.t T B H) : list string :=
  (if tr_hits (Game.shared g) then ["hits"%string] else []) ++
  (if tr_miss (Game.shared g) then ["miss"%string] else []).

(** The generator [loop] of [Game.setup], driven by the animation: one
    item of [inputs] (the keys held and the environment) per frame
    transition; frames stop at the first one that finds [gameover] set. *)
Fixpoint loop {T B H} (F : Game.Factory T B H)
  (inputs : list (Z * Env)) (g : Game.t T B H) : result (Game.t T B H) :=
  match inputs with
  | [] => Ok g
  | (keys, env) :: rest =>
      if Game.gameover g then Ok g
      else
        g' <- Game.update F env (userinput keys g) ;;
        loop F rest g'
  end.

End GameManager.

End Shooter.

(* ================================================================== *)
(** * shooter2.py *)
(* ================================================================== *)

Module Shooter2.

Import Shooter.

(** ** class Wave *)
Module Wave.

Record t (E : Type) : Type := mk {
  N : nat;
  M : nat;
  orient : Z;
  born : list Z;
  xpos : list Q;
  xspeed : list Q;
  alive : list bool;
  ialive : list nat;
  nalive : nat;
  nborn : nat;
  tborn : Z;
  ypos : list Q;
  cslice : Z * Z;
  ext : E
}.

Section Fields.
Context {E : Type}.

Definition set_born (l : list Z) (w : t E) : t E :=
  mk (N w) (M w) (orient w) l (xpos w) (xspeed w) (alive w) (ialive w)
     (nalive w) (nborn w) (tborn w) (ypos w) (cslice w) (ext w).
Definition set_xpos (l : list Q) (w : t E) : t E :=
  mk (N w) (M w) (orient w) (born w) l (xspeed w) (alive w) (ialive w)
     (nalive w) (nborn w) (tborn w) (ypos w) (cslice w) (ext w).
Definition set_xspeed (l : list Q) (w : t E) : t E :=
  mk (N w) (M w) (orient w) (born w) (xpos w) l (alive w) (ialive w)
     (nalive w) (nborn w) (tborn w) (ypos w) (cslice w) (ext w).
Definition set_alive (l : list bool) (w : t E) : t E :=
  mk (N w) (M w) (orient w) (born w) (xpos w) (xspeed w) l (ialive w)
     (nalive w) (nborn w) (tborn w) (ypos w) (cslice w) (ext w).
Definition set_ialive (l : list nat) (w : t E) : t E :=
  mk (N w) (M w) (orient w) (born w) (xpos w) (xspeed w) (alive w) l
     (nalive w) (nborn w) (tborn w) (ypos w) (cslice w) (ext w).
Definition set_nalive (k : nat) (w : t E) : t E :=
  mk (N w) (M w) (orient w) (born w) (xpos w) (xspeed w) (alive w)
     (ialive w) k (nborn w) (tborn w) (ypos w) (cslice w) (ext w).
Definition set_nborn (k : nat) (w : t E) : t E :=
  mk (N w) (M w) (orient w) (born w) (xpos w) (xspeed w) (alive w)
     (ialive w) (nalive w) k (tborn w) (ypos w) (cslice w) (ext w).
Definition set_tborn (b : Z) (w : t E) : t E :=
  mk (N w) (M w) (orient w) (born w) (xpos w) (xspeed w) (alive w)
     (ialive w) (nalive w) (nborn w) b (ypos w) (cslice w) (ext w).
Definition set_ypos (l : list Q) (w : t E) : t E :=
  mk (N w) (M w) (orient w) (born w) (xpos w) (xspeed w) (alive w)
     (ialive w) (nalive w) (nborn w) (tborn w) l (cslice w) (ext w).
Definition set_cslice (c : Z * Z) (w : t E) : t E :=
  mk (N w) (M w) (orient w) (born w) (xpos w) (xspeed w) (alive w)
     (ialive w) (nalive w) (nborn w) (tborn w) (ypos w) c (ext w).
Definition set_ext (e : E) (w : t E) : t E :=
  mk (N w) (M w) (orient w) (born w) (xpos w) (xspeed w) (alive w)
     (ialive w) (nalive w) (nborn w) (tborn w) (ypos w) (cslice w) e.

(** [self.alive[:] = True] *)
Definition revive (w : t E) : t E :=
  set_alive (map (fun _ => true) (alive w)) w.

Definition current (w : t E) : list nat := firstn (nalive w) (ialive w).

(** The offsets given to the artist: a sprite born at frame [b] is on
    row [b - t] of [ypos]. *)
Definition display (w : t E) : result (list (Q * Q)) :=
  let a := current w in
  let t := fst (cslice w) in
  xs <- gather (xpos w) a ;;
  ba <- gather (born w) a ;;
  ys <- py_gather (ypos w) (map (fun b => (b - t)%Z) ba) ;;
  hstack xs ys.
End Fields.

Section Methods.
Context {E : Type}.
(** The methods a subclass overrides. *)
Variable leaving entering : nat -> t E -> Shared -> result (t E * Shared).
Variable newcontent : nat -> Z -> t E -> result (t E).

(** The attributes assigned after the call of [newcontent] hold their
    final values from the start; [newcontent] does not read them. *)
Definition init (fps : Z) (v : Q) (orient : Z) (e : E) : result (t E) :=
  q <- truediv (inject_Z fps) v ;;
  let Nz := py_int q in
  let Mz := (2 * Nz)%Z in
  bo <- zeros 0%Z Mz ;;
  xp <- zeros 0%Q Mz ;;
  xs <- zeros 0%Q Mz ;;
  al <- zeros false Mz ;;
  ia <- zeros 0 Nz ;;
  let k := Z.to_nat Nz in
  let w0 := mk k (Z.to_nat Mz) orient bo xp xs al ia 0 0 0%Z []
               (0%Z, Nz) e in
  w1 <- newcontent 0 (Nz - 1)%Z w0 ;;
  let w2 := revive w1 in
  tb <- index (born w2) 0 ;;
  yp <- slice_step orient (linspace01 k) ;;
  Ok (set_ypos yp (set_tborn tb w2)).

(** The first block of [update]: the sprite ageing out leaves, the
    sprites no longer alive are compacted out of [ialive[:n]]. *)
Definition expire (tbeg : Z) (w : t E) (g : Shared)
  : result (t E * Shared * nat) :=
  let n0 := nalive w in
  if 0 <? n0 then
    let a := firstn n0 (ialive w) in
    s <- gather (alive w) a ;;
    a0 <- index a 0 ;;
    b0 <- index (born w) a0 ;;
    '(w1, g1, s1) <-
      (if (b0 =? tbeg)%Z then
         s0 <- index s 0 ;;
         if s0 : bool then
           '(w', g') <- leaving a0 w g ;;
           Ok (w', g', set_nth s 0 false)
         else Ok (w, g, s)
       else Ok (w, g, s)) ;;
    let n1 := count_true s1 in
    kept <- select (firstn n0 (ialive w1)) s1 ;;
    Ok (set_ialive (set_slice 0 n1 kept (ialive w1)) w1, g1, n1)
  else Ok (w, g, n0).

(** The compaction of the backing arrays once [nborn] reaches [M]. *)
Definition recycle (n : nat) (tend : Z) (w : t E) : result (t E) :=
  let a := firstn n (ialive w) in
  bo <- gather (born w) a ;;
  let w1 := set_born (set_slice 0 n bo (born w)) w in
  xp <- gather (xpos w1) a ;;
  let w2 := set_xpos (set_slice 0 n xp (xpos w1)) w1 in
  xs <- gather (xspeed w2) a ;;
  let w3 := set_xspeed (set_slice 0 n xs (xspeed w2)) w2 in
  let w4 := set_ialive (set_slice 0 n (seq 0 n) (ialive w3)) w3 in
  let w5 := set_nborn n w4 in
  w6 <- newcontent n tend w5 ;;
  Ok (revive w6).

(** The second block: the next sprite is admitted when its birth frame
    comes. *)
Definition arrive (tend : Z) (n : nat) (w : t E) (g : Shared)
  : result (t E * Shared * nat) :=
  if (tborn w =? tend)%Z then
    ia <- store (ialive w) n (nborn w) ;;
    let w1 := set_ialive ia w in
    let n1 := n + 1 in
    '(w2, g2) <- entering (nborn w1) w1 g ;;
    let w3 := set_nborn (nborn w2 + 1) w2 in
    w4 <- (if nborn w3 =? M w3 then recycle n1 tend w3 else Ok w3) ;;
    tb <- index (born w4) (nborn w4) ;;
    Ok (set_tborn tb w4, g2, n1)
  else Ok (w, g, n).

(** The third block: the alive sprites move. *)
Definition advance (w : t E) : result (t E) :=
  let n := nalive w in
  if 0 <? n then
    let a := firstn n (ialive w) in
    xa <- gather (xpos w) a ;;
    va <- gather (xspeed w) a ;;
    xp <- scatter a (map2 Qplus xa va) (xpos w) ;;
    Ok (set_xpos xp w)
  else Ok w.

Definition update (w : t E) (g : Shared) : result (t E * Shared) :=
  let '(tbeg, tend) := cslice w in
  '(w1, g1, n1) <- expire tbeg w g ;;
  '(w2, g2, n2) <- arrive tend n1 w1 g1 ;;
  w3 <- advance (set_nalive n2 w2) ;;
  Ok (set_cslice ((tbeg + 1)%Z, (tend + 1)%Z) w3, g2).
End Methods.

Definition pass {E} (i : nat) (w : t E) (g : Shared)
  : result (t E * Shared) := Ok (w, g).

End Wave.

(** ** class Targets (Wave) *)
Module Targets.

Record ext : Type := mkExt { rate : Q; width : Q; score : nat }.
Definition t : Type := Wave.t ext.

(** [geometric] refuses a probability outside (0, 1]. *)
Definition newcontent (rnd : Random) (n : nat) (tm : Z) (w : t)
  : result t :=
  let M := Wave.M w in
  if M <? n then Raise ValueError
  else
    let k := M - n in
    let xpos := uniform_row rnd 0 k in
    let xposc := uniform_row rnd 1 k in
    let w1 := Wave.set_xpos (set_from n (Array xpos) (Wave.xpos w)) w in
    let xspeed :=
      map (fun d => (d / inject_Z (Z.of_nat (Wave.N w1)))%Q)
          (map2 Qminus xposc xpos) in
    let w2 := Wave.set_xspeed (set_from n (Array xspeed) (Wave.xspeed w1)) w1 in
    let p := rate (Wave.ext w2) in
    if Qlt_bool 0 p && Qle_bool p 1 then
      let births := map (fun c => (tm + c)%Z) (cumsum (geometric_draw rnd k)) in
      Ok (Wave.set_born (set_from n (Array births) (Wave.born w2)) w2)
    else Raise ValueError.

Definition leaving (i : nat) (w : t) (g : Shared) : result (t * Shared) :=
  let e := Wave.ext w in
  Ok (Wave.set_ext (mkExt (rate e) (width e) (score e + 1)) w,
      set_tr_miss true g).

Definition init (rnd : Random) (fps : Z) (v rate width : Q) : result t :=
  r <- truediv rate (inject_Z fps) ;;
  Wave.init (newcontent rnd) fps v 1 (mkExt r width 0).

Definition update (rnd : Random) (w : t) (g : Shared)
  : result (t * Shared) :=
  Wave.update leaving (@Wave.pass ext) (newcontent rnd) w g.

End Targets.

(** ** class Bullets (Wave) *)
Module Bullets.

Record ext : Type := mkExt { rload : Z }.
Definition t : Type := Wave.t ext.

Definition newcontent (n : nat) (tm : Z) (w : t) : result t :=
  let w1 := Wave.set_xpos (set_from n (Scalar (1 # 2)%Q) (Wave.xpos w)) w in
  let w2 := Wave.set_xspeed (set_from n (Scalar 0%Q) (Wave.xspeed w1)) w1 in
  ks <- arange 1 (Z.of_nat (Wave.M w2) - Z.of_nat n + 1) 1 ;;
  let births := map (fun k => (tm + rload (Wave.ext w2) * k)%Z) ks in
  Ok (Wave.set_born (set_from n (Array births) (Wave.born w2)) w2).

Definition entering (i : nat) (w : t) (g : Shared) : result (t * Shared) :=
  xp <- store (Wave.xpos w) i (Avatar.pos_x (avatar g)) ;;
  Ok (Wave.set_xpos xp w, g).

Definition init (fps : Z) (v rload : Q) : result t :=
  Wave.init newcontent fps v (-1)
    (mkExt (py_int (rload * inject_Z fps)%Q)).

Definition update (w : t) (g : Shared) : result (t * Shared) :=
  Wave.update (@Wave.pass ext) entering newcontent w g.

End Bullets.

(** ** class Hits

    [__init__] and [display] repeat those of shooter.py word for word. *)
Module Hits.

Definition t : Type := Shooter.Hits.t.
Definition init := Shooter.Hits.init.
Definition displayed := Shooter.Hits.displayed.
Definition display := Shooter.Hits.display.

(** The index arrays [nz, nz1] of the colliding pairs among the targets
    [a] of [tg] and the bullets [a1] of [bl], and the rows [r] of the
    targets. *)
Definition detect {E E1} (h : t) (tg : Wave.t E) (bl : Wave.t E1)
  (a a1 : list nat) : result (list nat * list nat * list Z) :=
  x1 <- gather (Wave.xpos bl) a1 ;;
  x <- gather (Wave.xpos tg) a ;;
  let dx := outer (fun p q => (q - p)%Q) x x1 in
  v1 <- gather (Wave.xspeed bl) a1 ;;
  v <- gather (Wave.xspeed tg) a ;;
  let dv := outer (fun p q => (q - p)%Q) v v1 in
  ba <- gather (Wave.born tg) a ;;
  let r := map (fun b => (b - fst (Wave.cslice tg))%Z) ba in
  ba1 <- gather (Wave.born bl) a1 ;;
  let r1 := map (fun b => (b - fst (Wave.cslice bl))%Z) ba1 in
  rows <- py_gather (Shooter.Hits.clashmat h) r ;;
  m <- mapM (fun row => py_gather row r1) rows ;;
  let '(nz, nz1) := nonzero2 (Shooter.Hits.clashes (Shooter.Hits.tol h) dx dv m) in
  Ok (nz, nz1, r).

Definition update {E E1} (tg : Wave.t E) (bl : Wave.t E1) (h : t) (g : Shared)
  : result (Wave.t E * Wave.t E1 * t * Shared) :=
  let a := Wave.current tg in
  let a1 := Wave.current bl in
  '(tg', bl', h', g') <-
    (if (0 <? length a) && (0 <? length a1) then
       '(nz, nz1, r) <- detect h tg bl a a1 ;;
       if 0 <? length nz then
         it <- gather (Wave.ialive tg) nz ;;
         alive' <- fill it false (Wave.alive tg) ;;
         ib <- gather (Wave.ialive bl) nz1 ;;
         alive1' <- fill ib false (Wave.alive bl) ;;
         rnz <- gather r nz ;;
         weight' <- py_fill rnz (Shooter.Hits.timeout h) (Shooter.Hits.weight h) ;;
         xs <- gather (Wave.xpos tg) it ;;
         xpos' <- py_scatter rnz xs (Shooter.Hits.xpos h) ;;
         Ok (Wave.set_alive alive' tg,
             Wave.set_alive alive1' bl,
             Shooter.Hits.mk (Shooter.Hits.timeout h) (Shooter.Hits.tol h)
               (Shooter.Hits.clashmat h) (Shooter.Hits.ypos h) xpos' weight'
               (Shooter.Hits.score h + length nz),
             set_tr_hits true g)
       else Ok (tg, bl, h, g)
     else Ok (tg, bl, h, g)) ;;
  Ok (tg', bl', Shooter.Hits.age h', g').

End Hits.

(** ** class Game (BaseGame) *)
Module Game.

Definition Factory2 : Game.Factory Targets.t Bullets.t Hits.t :=
  Game.mkFactory Targets.update Bullets.update (@Hits.update _ _)
    (fun tg => Targets.score (Wave.ext tg)) Shooter.Hits.score.

Definition init (rnd : Random) (c : Game.Config)
  : result (Game.t Targets.t Bullets.t Hits.t) :=
  av <- Avatar.init (Game.cfg_fps c) (Game.avatar_x c) (Game.avatar_y c)
          (Game.avatar_v c) ;;
  tg <- Targets.init rnd (Game.cfg_fps c) (Game.targets_v c)
          (Game.targets_rate c) (Game.targets_width c) ;;
  bl <- Bullets.init (Game.cfg_fps c) (Game.bullets_v c)
          (Game.bullets_rload c) ;;
  h <- Hits.init (Game.cfg_fps c) (Targets.width (Wave.ext tg))
         (Wave.N tg) (Wave.ypos tg) (Wave.N bl) (Wave.ypos bl)
         (Game.hits_timeout c) ;;
  Ok (Game.mk (mkShared (Game.cfg_fps c) 0 false false false av)
        0 false "time: 0"%string 0%Q tg bl h).

Definition display (g : Game.t Targets.t Bullets.t Hits.t)
  : result Game.Frame :=
  Game.display_with (@Wave.display _) (@Wave.display _) Hits.display g.

End Game.

End Shooter2.

(* ================================================================== *)
(** * Executions *)
(* ================================================================== *)

Unset Implicit Arguments.

(** The avatar after a sequence of move commands, one per frame. *)
Definition Avatar_run (moves : list Z) (a : Shooter.Avatar.t) : Shooter.Avatar.t :=
  fold_left (fun a m => Shooter.Avatar.update m a) moves a.

(** The weight of a hit marker after [k] further calls of [Hits.update]
    that do not strike its row again. *)
Fixpoint marker_decay (timeout : Z) (k : nat) (w : Z) : Z :=
  match k with
  | O => w
  | S k' => marker_decay timeout k' (clipZ (w - 1) 0 timeout)
  end.

(** ** A small session

    Two frames per second; both waves cross the field in one second, so
    [N = 2]; a bullet at every frame; a hit stays for one second, that is
    [timeout = 2] frames.  In the visibility draw only the first target of a
    page comes out visible. *)
Definition demo_config : Shooter.Game.Config :=
  Shooter.Game.mkConfig 2 (1 # 2) (-1 # 20) (1 # 8) 1 1 (1 # 25) 1 (1 # 2) 1.

Definition demo_random : Random :=
  mkRandom (fun r c => match r, c with
                       | 2, S _ => (9 # 10)%Q
                       | 2, O => 0%Q
                       | _, _ => (1 # 2)%Q
                       end)
           (fun _ => 1%positive).

Definition demo_env : Env := mkEnv 0 (1 # 100) demo_random.

Definition ok_or {A} (d : A) (r : result A) : A :=
  match r with Ok a => a | Raise _ => d end.

Definition blank_game : Shooter.Game.t Shooter.Targets.t Shooter.Bullets.t Shooter.Hits.t :=
  Shooter.Game.mk
    (Shooter.mkShared 1 0 false false false (Shooter.Avatar.mk 0 0 0))
    0 false EmptyString 0%Q
    (Shooter.Wave.mk 0 0 1 [] [] [] [] (Shooter.Targets.mkExt 0 0 0))
    (Shooter.Wave.mk 0 0 (-1) [] [] [] [] (Shooter.Bullets.mkExt 0))
    (Shooter.Hits.mk 0 0 [] [] [] [] 0).

(** The session after its construction and after [k] frames with no key
    pressed. *)
Definition demo_game (k : nat) : Shooter.Game.t Shooter.Targets.t Shooter.Bullets.t Shooter.Hits.t :=
  ok_or blank_game
    (g <- Shooter.Game.init demo_random demo_config ;;
     Shooter.GameManager.loop Shooter.Game.Factory1
       (repeat (0%Z, demo_env) k) g).

(** [100*float(hit)/float(total)] *)
Definition percentage (hit miss : nat) : Q :=
  (100 * inject_Z (Z.of_nat hit) / inject_Z (Z.of_nat (miss + hit)))%Q.

(** Entry (i, j) of a matrix. *)
Definition entry {A} (m : list (list A)) (i j : nat) : option A :=
  match nth_error m i with
  | Some row => nth_error row j
  | None => None
  end.

(** The position, among the true entries of a mask, of its entry [p]. *)
Definition rank (mask : list bool) (p : nat) : nat :=
  count_true (firstn p mask).

(** The test of one target/bullet pair: separation [dx], relative speed
    [dv], coincidence time [m]. *)
Definition collide (tol dx dv m : Q) : Prop :=
  (0 <= m /\ m <= 1 /\ Qabs (dx + dv * m) < tol)%Q.

(** ** shooter.py: well-formed waves and their windows *)

Definition Wave1_wf {E} (w : Shooter.Wave.t E) : Prop :=
  length (Shooter.Wave.xpos w) = 2 * Shooter.Wave.N w
  /\ length (Shooter.Wave.xspeed w) = 2 * Shooter.Wave.N w
  /\ length (Shooter.Wave.visible w) = 2 * Shooter.Wave.N w
  /\ Shooter.Wave.n w < Shooter.Wave.N w.

Definition rhs_fits {A} (k : nat) (v : rhs A) : Prop :=
  match v with
  | Scalar _ => True
  | Array l => length l = k
  end.

Definition page_fits (k : nat) (p : Shooter.Wave.page) : Prop :=
  rhs_fits k (Shooter.Wave.page_xpos p)
  /\ rhs_fits k (Shooter.Wave.page_xspeed p)
  /\ rhs_fits k (Shooter.Wave.page_visible p).

Definition window_xpos {E} (w : Shooter.Wave.t E) : list Q :=
  fst (fst (Shooter.Wave.current w)).
Definition window_xspeed {E} (w : Shooter.Wave.t E) : list Q :=
  snd (fst (Shooter.Wave.current w)).
Definition window_visible {E} (w : Shooter.Wave.t E) : list bool :=
  snd (Shooter.Wave.current w).

(** A bullets update of the demo session, taken apart from the frame. *)
Definition demo_bullets_update : Shooter.Bullets.t * Shooter.Shared :=
  let g := demo_game 0 in
  ok_or (Shooter.Game.bullets g, Shooter.Game.shared g)
    (Shooter.Bullets.update (Shooter.Game.bullets g) (Shooter.Game.shared g)).

(** ** shooter2.py: the invariant of a wave *)

(** The birth frames of the first [n] sprites of [ialive], in order; with
    [n = nalive] they are those of the alive-index list. *)
Definition births_upto {E} (n : nat) (w : Shooter2.Wave.t E) : list Z :=
  map (fun i => nth i (Shooter2.Wave.born w) 0%Z)
      (firstn n (Shooter2.Wave.ialive w)).

Definition births {E} (w : Shooter2.Wave.t E) : list Z :=
  births_upto (Shooter2.Wave.nalive w) w.

(** The invariant, for the first [n] entries of [ialive] and a window
    [lo, hi) of birth frames; inside [update] these are not yet the
    attributes [nalive] and [cslice]. *)
Record Wave2_core {E} (w : Shooter2.Wave.t E) (n : nat) (lo hi : Z)
  : Prop := mkWave2_core {
  inv_M : Shooter2.Wave.M w = 2 * Shooter2.Wave.N w;
  inv_N : 0 < Shooter2.Wave.N w;
  inv_born : length (Shooter2.Wave.born w) = Shooter2.Wave.M w;
  inv_xpos : length (Shooter2.Wave.xpos w) = Shooter2.Wave.M w;
  inv_xspeed : length (Shooter2.Wave.xspeed w) = Shooter2.Wave.M w;
  inv_alive : length (Shooter2.Wave.alive w) = Shooter2.Wave.M w;
  inv_ialive : length (Shooter2.Wave.ialive w) = Shooter2.Wave.N w;
  inv_nborn : Shooter2.Wave.nborn w < Shooter2.Wave.M w;
  inv_tborn : nth_error (Shooter2.Wave.born w) (Shooter2.Wave.nborn w)
              = Some (Shooter2.Wave.tborn w);
(** the sprites not admitted yet are born later and later, none before
    the end of the window *)
inv_next : (hi <= Shooter2.Wave.tborn w)%Z;
inv_future : forall i j a b,
    Shooter2.Wave.nborn w <= i -> i < j ->
    nth_error (Shooter2.Wave.born w) i = Some a ->
    nth_error (Shooter2.Wave.born w) j = Some b -> (a < b)%Z;
(** the listed sprites were admitted, were born in the window, and are
    listed from the oldest to the youngest *)
inv_count : n <= Shooter2.Wave.N w;
inv_entered : Forall (fun i => i < Shooter2.Wave.nborn w)
                 (firstn n (Shooter2.Wave.ialive w));
inv_window : Forall (fun b => (lo <= b < hi)%Z) (births_upto n w);
inv_sorted : StronglySorted Z.lt (births_upto n w)
}.

Definition Wave2_inv {E} (w : Shooter2.Wave.t E) : Prop :=
  Wave2_core w (Shooter2.Wave.nalive w)
    (fst (Shooter2.Wave.cslice w)) (snd (Shooter2.Wave.cslice w))
  /\ snd (Shooter2.Wave.cslice w)
     = (fst (Shooter2.Wave.cslice w) + Z.of_nat (Shooter2.Wave.N w))%Z.

(** A wave that never admits a sprite: the next birth frame is already
    behind the window. *)
Definition Wave2_idle {E} (w : Shooter2.Wave.t E) : Prop :=
  Shooter2.Wave.nalive w = 0
  /\ (Shooter2.Wave.tborn w < snd (Shooter2.Wave.cslice w))%Z.

(** What a hook may change: the positions, and the attributes of the
    subclass. *)
Definition hook_frame {E} (w w' : Shooter2.Wave.t E) : Prop :=
  Shooter2.Wave.N w' = Shooter2.Wave.N w
  /\ Shooter2.Wave.M w' = Shooter2.Wave.M w
  /\ Shooter2.Wave.born w' = Shooter2.Wave.born w
  /\ Shooter2.Wave.alive w' = Shooter2.Wave.alive w
  /\ Shooter2.Wave.ialive w' = Shooter2.Wave.ialive w
  /\ Shooter2.Wave.nalive w' = Shooter2.Wave.nalive w
  /\ Shooter2.Wave.nborn w' = Shooter2.Wave.nborn w
  /\ Shooter2.Wave.tborn w' = Shooter2.Wave.tborn w
  /\ Shooter2.Wave.cslice w' = Shooter2.Wave.cslice w
  /\ length (Shooter2.Wave.xpos w') = length (Shooter2.Wave.xpos w)
  /\ Shooter2.Wave.xspeed w' = Shooter2.Wave.xspeed w.

(** What [newcontent(n, t)] does: the slots from [n] on get birth frames
    after [t], later and later. *)
Definition content_ok {E} (n : nat) (t : Z) (w w' : Shooter2.Wave.t E) : Prop :=
  Shooter2.Wave.N w' = Shooter2.Wave.N w
  /\ Shooter2.Wave.M w' = Shooter2.Wave.M w
  /\ Shooter2.Wave.alive w' = Shooter2.Wave.alive w
  /\ Shooter2.Wave.ialive w' = Shooter2.Wave.ialive w
  /\ Shooter2.Wave.nalive w' = Shooter2.Wave.nalive w
  /\ Shooter2.Wave.nborn w' = Shooter2.Wave.nborn w
  /\ Shooter2.Wave.tborn w' = Shooter2.Wave.tborn w
  /\ Shooter2.Wave.cslice w' = Shooter2.Wave.cslice w
  /\ Shooter2.Wave.ext w' = Shooter2.Wave.ext w
  /\ length (Shooter2.Wave.xpos w') = length (Shooter2.Wave.xpos w)
  /\ length (Shooter2.Wave.xspeed w') = length (Shooter2.Wave.xspeed w)
  /\ length (Shooter2.Wave.born w') = length (Shooter2.Wave.born w)
  /\ firstn n (Shooter2.Wave.born w') = firstn n (Shooter2.Wave.born w)
  /\ (forall i b, n <= i -> nth_error (Shooter2.Wave.born w') i = Some b ->
                  (t < b)%Z)
  /\ (forall i j a b, n <= i -> i < j ->
        nth_error (Shooter2.Wave.born w') i = Some a ->
        nth_error (Shooter2.Wave.born w') j = Some b -> (a < b)%Z).

(** The first block of [Wave.update], read off the wave: whether [leaving]
    fires, and the mask [s] used by the compaction. *)
Definition expire_fires {E} (w : Shooter2.Wave.t E) : bool :=
  match Shooter2.Wave.current w with
  | [] => false
  | i :: _ =>
      (nth i (Shooter2.Wave.born w) 0 =? fst (Shooter2.Wave.cslice w))%Z
      && nth i (Shooter2.Wave.alive w) false
  end.

Definition expire_mask {E} (w : Shooter2.Wave.t E) : list bool :=
  let s := map (fun i => nth i (Shooter2.Wave.alive w) false)
               (Shooter2.Wave.current w) in
  if expire_fires w then set_nth s 0 false else s.




(** What a wave of shooter2.py needs of its subclass: a probability that
    [geometric] accepts; a reload of at least one frame. *)
Definition Targets2_good (e : Shooter2.Targets.ext) : Prop :=
  Qlt_bool 0 (Shooter2.Targets.rate e) && Qle_bool (Shooter2.Targets.rate e) 1
  = true.

Definition Bullets2_good (e : Shooter2.Bullets.ext) : Prop :=
  (1 <= Shooter2.Bullets.rload e)%Z.

(** The targets and the bullets of the demo session in shooter2.py. *)
Definition demo2_targets : Shooter2.Targets.t :=
  ok_or (Shooter2.Wave.mk 0 0 1 [] [] [] [] [] 0 0 0%Z [] (0%Z, 0%Z)
           (Shooter2.Targets.mkExt 0 0 0))
    (Shooter2.Targets.init demo_random 2 1 1 (1 # 25)).

Definition demo2_bullets : Shooter2.Bullets.t :=
  ok_or (Shooter2.Wave.mk 0 0 (-1) [] [] [] [] [] 0 0 0%Z [] (0%Z, 0%Z)
           (Shooter2.Bullets.mkExt 0))
    (Shooter2.Bullets.init 2 1 (1 # 2)).

(** The demo session in shooter2.py: its construction, then the two waves
    of its first frame once updated, before and after [Hits.update]. *)
Definition demo2_game : Shooter.Game.t Shooter2.Targets.t Shooter2.Bullets.t Shooter2.Hits.t :=
  ok_or (Shooter.Game.mk
           (Shooter.mkShared 1 0 false false false (Shooter.Avatar.mk 0 0 0))
           0 false EmptyString 0%Q demo2_targets demo2_bullets
           (Shooter.Hits.mk 0 0 [] [] [] [] 0))
    (Shooter2.Game.init demo_random demo_config).

Definition demo2_waves : Shooter2.Targets.t * Shooter2.Bullets.t :=
  let g := demo2_game in
  let sh := Shooter.Game.shared g in
  (fst (ok_or (Shooter.Game.targets g, sh)
          (Shooter2.Targets.update demo_random (Shooter.Game.targets g) sh)),
   fst (ok_or (Shooter.Game.bullets g, sh)
          (Shooter2.Bullets.update (Shooter.Game.bullets g) sh))).

Definition demo2_struck
  : Shooter2.Targets.t * Shooter2.Bullets.t * Shooter2.Hits.t * Shooter.Shared :=
  let g := demo2_game in
  ok_or (fst demo2_waves, snd demo2_waves, Shooter.Game.hits g,
         Shooter.Game.shared g)
    (Shooter2.Hits.update (fst demo2_waves) (snd demo2_waves)
       (Shooter.Game.hits g) (Shooter.Game.shared g)).


(** ** The end of the game *)

(** The demo session when the quit key is held at its first frame, and
    one more call of [Game.update] after that with no key held. *)
Definition demo_quit : Shooter.Game.t Shooter.Targets.t Shooter.Bullets.t Shooter.Hits.t :=
  ok_or blank_game
    (Shooter.Game.update Shooter.Game.Factory1 demo_env
       (Shooter.GameManager.userinput Shooter.GameManager.KEY_TERMINATE
          (demo_game 0))).

Definition demo_resumed : Shooter.Game.t Shooter.Targets.t Shooter.Bullets.t Shooter.Hits.t :=
  ok_or blank_game
    (Shooter.Game.update Shooter.Game.Factory1 demo_env
       (Shooter.GameManager.userinput 0 demo_quit)).

(** ** Configurations at the edge *)



(** ** Sessions, and what they do to each target *)

(** A session: the state after its construction, then any sequence of key
    readings and frame updates.  It carries the targets counted as a miss so
    far and the targets deactivated so far, as [missed] and [struck] read
    them off each update. *)
Section Sessions.
Context {T B H : Type}.
Variable F : Shooter.Game.Factory T B H.
Variables missed struck :
  Shooter.Game.t T B H -> Shooter.Game.t T B H -> list Z.

Inductive Session (g0 : Shooter.Game.t T B H)
  : Shooter.Game.t T B H -> list Z -> list Z -> Prop :=
| session_start : Session g0 g0 [] []
| session_input g ms ss keys :
    Session g0 g ms ss ->
    Session g0 (Shooter.GameManager.userinput keys g) ms ss
| session_update g ms ss env g' :
    Session g0 g ms ss ->
    Shooter.Game.update F env g = Ok g' ->
    Session g0 g' (missed g g' ++ ms) (struck g g' ++ ss).
End Sessions.

(** shooter.py has no name for a target.  Here a target is named by the
    frame transition that brings it into the window: after [nstep]
    transitions the slot at the cursor [n] holds target [nstep - N], and
    the slot [n + j] holds target [nstep - N + j]. *)
Definition cursor1 {B H} (g : Shooter.Game.t Shooter.Targets.t B H) : Z :=
  (Z.of_nat (Shooter.Game.nstep g)
   - Z.of_nat (Shooter.Wave.N (Shooter.Game.targets g)))%Z.

(** The [visible] flag of target [k]. *)
Definition flag1 {B H} (g : Shooter.Game.t Shooter.Targets.t B H) (k : Z)
  : option bool :=
  if (cursor1 g <=? k)%Z then
    nth_error (Shooter.Wave.visible (Shooter.Game.targets g))
      (Shooter.Wave.n (Shooter.Game.targets g) + Z.to_nat (k - cursor1 g))
  else None.

(** The targets in the window. *)
Definition window1 {B H} (g : Shooter.Game.t Shooter.Targets.t B H) : list Z :=
  map (fun j => (cursor1 g + Z.of_nat j)%Z)
      (seq 0 (Shooter.Wave.N (Shooter.Game.targets g))).

(** The target counted as a miss between [g] and [g']: the one at the
    cursor, when the score of the targets went up. *)
Definition missed1 {B H} (g g' : Shooter.Game.t Shooter.Targets.t B H)
  : list Z :=
  if Shooter.Targets.score (Shooter.Wave.ext (Shooter.Game.targets g))
     <? Shooter.Targets.score (Shooter.Wave.ext (Shooter.Game.targets g'))
  then [cursor1 g] else [].

(** The targets deactivated between [g] and [g']: those of the window of
    [g'] that were visible in [g] and no longer are. *)
Definition struck1 {B H} (g g' : Shooter.Game.t Shooter.Targets.t B H)
  : list Z :=
  filter (fun k => match flag1 g k, flag1 g' k with
                   | Some true, Some false => true
                   | _, _ => false
                   end)
         (window1 g').

(** In shooter2.py a target has a name, its birth frame.  The listed
    targets that are alive, and those that are not. *)
Definition live2 (w : Shooter2.Targets.t) : list Z :=
  map (fun i => nth i (Shooter2.Wave.born w) 0%Z)
      (filter (fun i => nth i (Shooter2.Wave.alive w) false)
              (Shooter2.Wave.current w)).

Definition dead2 (w : Shooter2.Targets.t) : list Z :=
  map (fun i => nth i (Shooter2.Wave.born w) 0%Z)
      (filter (fun i => negb (nth i (Shooter2.Wave.alive w) false))
              (Shooter2.Wave.current w)).

(** The target counted as a miss between [g] and [g']: the one born at
    the start of the window, when the score of the targets went up. *)
Definition missed2 {B H} (g g' : Shooter.Game.t Shooter2.Targets.t B H)
  : list Z :=
  if Shooter2.Targets.score (Shooter2.Wave.ext (Shooter.Game.targets g))
     <? Shooter2.Targets.score (Shooter2.Wave.ext (Shooter.Game.targets g'))
  then [fst (Shooter2.Wave.cslice (Shooter.Game.targets g))] else [].

(** The targets deactivated between [g] and [g']: those listed and not
    alive in [g'] that were not so in [g]. *)
Definition struck2 {B H} (g g' : Shooter.Game.t Shooter2.Targets.t B H)
  : list Z :=
  filter (fun k => negb (existsb (Z.eqb k)
                           (dead2 (Shooter.Game.targets g))))
         (dead2 (Shooter.Game.targets g')).

(** What the sessions keep true of the targets of shooter.py: the missed
    targets are behind the cursor, and a struck target still in the window
    is not visible. *)
Definition Ledger1 {B H} (g : Shooter.Game.t Shooter.Targets.t B H)
  (ms ss : list Z) : Prop :=
  Wave1_wf (Shooter.Game.targets g)
  /\ Shooter.Targets.score (Shooter.Wave.ext (Shooter.Game.targets g))
     = length ms
  /\ Forall (fun k => (k < cursor1 g)%Z) ms
  /\ Forall (fun k =>
               (k < Z.of_nat (Shooter.Game.nstep g))%Z
               /\ ((cursor1 g <= k)%Z -> flag1 g k = Some false)) ss.

(** The same of shooter2.py: the missed targets were born before the
    window, and a struck target is not among the listed alive ones. *)
Definition Ledger2 {B H} (g : Shooter.Game.t Shooter2.Targets.t B H)
  (ms ss : list Z) : Prop :=
  let w := Shooter.Game.targets g in
  Wave2_inv w /\ Targets2_good (Shooter2.Wave.ext w)
  /\ Shooter2.Targets.score (Shooter2.Wave.ext w) = length ms
  /\ Forall (fun k => (k < fst (Shooter2.Wave.cslice w))%Z) ms
  /\ Forall (fun k => (k < snd (Shooter2.Wave.cslice w))%Z
                      /\ ~ In k (live2 w)) ss.

(** A session run on given inputs, one key reading and one update per
    item, from [g] and the two ledgers so far; it stops at an update that
    raises. *)
Fixpoint run_session {T B H} (F : Shooter.Game.Factory T B H)
  (missed struck : Shooter.Game.t T B H -> Shooter.Game.t T B H -> list Z)
  (inputs : list (Z * Env)) (g : Shooter.Game.t T B H) (ms ss : list Z)
  : Shooter.Game.t T B H * list Z * list Z :=
  match inputs with
  | [] => (g, ms, ss)
  | (keys, env) :: rest =>
      let gi := Shooter.GameManager.userinput keys g in
      match Shooter.Game.update F env gi with
      | Ok g' =>
          run_session F missed struck rest g'
            (missed gi g' ++ ms) (struck gi g' ++ ss)
      | Raise _ => (g, ms, ss)
      end
  end.

(** Five frames of the demo: no key held, then the avatar sent to the
    right (right and boost held). *)
Definition demo_inputs : list (Z * Env) :=
  map (fun keys => (keys, demo_env)) [0; 6; 6; 6; 6]%Z.

(** ** The frames of the loop *)

(** Inputs none of which holds the quit key, and the time that their
    updates take by the two readings of the clock. *)
Definition no_quit (inputs : list (Z * Env)) : Prop :=
  Forall (fun ke => Shooter.GameManager.pressed (fst ke)
                      Shooter.GameManager.KEY_TERMINATE = false) inputs.

Definition busy (inputs : list (Z * Env)) : Q :=
  fold_right (fun ke acc => (clock_end (snd ke) - clock_start (snd ke) + acc)%Q)
             0%Q inputs.

(** ** Games that run *)

(** The arrays of the hits have the shape of the two windows: [N] rows
    for the targets, [N1] columns for the bullets. *)
Definition Hits_fits (h : Shooter.Hits.t) (N N1 : nat) : Prop :=
  length (Shooter.Hits.clashmat h) = N
  /\ Forall (fun row => length row = N1) (Shooter.Hits.clashmat h)
  /\ length (Shooter.Hits.weight h) = N
  /\ length (Shooter.Hits.xpos h) = N.

(** What the construction of a game of shooter.py establishes, and every
    update keeps. *)
Definition Game1_sound
  (g : Shooter.Game.t Shooter.Targets.t Shooter.Bullets.t Shooter.Hits.t)
  : Prop :=
  ~ (inject_Z (Shooter.fps (Shooter.Game.shared g)) == 0)%Q
  /\ Wave1_wf (Shooter.Game.targets g)
  /\ Wave1_wf (Shooter.Game.bullets g)
  /\ Shooter.Bullets.rload (Shooter.Wave.ext (Shooter.Game.bullets g)) <> 0%Z
  /\ Hits_fits (Shooter.Game.hits g)
       (Shooter.Wave.N (Shooter.Game.targets g))
       (Shooter.Wave.N (Shooter.Game.bullets g)).

(** The same of shooter2.py; the bullets either keep the invariant of a
    wave, with a reload of at least one frame, or are idle. *)
Definition Game2_sound
  (g : Shooter.Game.t Shooter2.Targets.t Shooter2.Bullets.t Shooter2.Hits.t)
  : Prop :=
  ~ (inject_Z (Shooter.fps (Shooter.Game.shared g)) == 0)%Q
  /\ Wave2_inv (Shooter.Game.targets g)
  /\ Targets2_good (Shooter2.Wave.ext (Shooter.Game.targets g))
  /\ ((Wave2_inv (Shooter.Game.bullets g)
       /\ Bullets2_good (Shooter2.Wave.ext (Shooter.Game.bullets g)))
      \/ Wave2_idle (Shooter.Game.bullets g))
  /\ Hits_fits (Shooter.Game.hits g)
       (Shooter2.Wave.N (Shooter.Game.targets g))
       (Shooter2.Wave.N (Shooter.Game.bullets g)).

(** ** shooter.py: the two waves of the demo session's first frame, once
    updated, before and after [Hits.update] *)

Definition demo_waves : Shooter.Targets.t * Shooter.Bullets.t :=
  let g := demo_game 0 in
  let sh := Shooter.Game.shared g in
  (fst (ok_or (Shooter.Game.targets g, sh)
          (Shooter.Targets.update demo_random (Shooter.Game.targets g) sh)),
   fst demo_bullets_update).

Definition demo_struck
  : Shooter.Targets.t * Shooter.Bullets.t * Shooter.Hits.t * Shooter.Shared :=
  let g := demo_game 0 in
  ok_or (fst demo_waves, snd demo_waves, Shooter.Game.hits g,
         Shooter.Game.shared g)
    (Shooter.Hits.update (fst demo_waves) (snd demo_waves)
       (Shooter.Game.hits g) (Shooter.Game.shared g)).

(** ** shooter.py: the reload of the bullets *)

(** The flag that [Bullets.newpage] gives slot [j] of a page. *)
Definition reload_flag (rload : Z) (j : nat) : bool :=
  (0 <? rload)%Z && (Z.of_nat j mod rload =? 0)%Z.

(** The slots of the bullets that have not entered the window yet hold the
    flags of their page. *)
Definition Reload_ahead (w : Shooter.Bullets.t) : Prop :=
  forall s,
    Shooter.Wave.n w + Shooter.Wave.N w <= s < 2 * Shooter.Wave.N w ->
    nth_error (Shooter.Wave.visible w) s
    = Some (reload_flag (Shooter.Bullets.rload (Shooter.Wave.ext w))
              (s - Shooter.Wave.N w)).

(** The cursor of the bullets follows the frame count. *)
Definition Reload_sync
  (g : Shooter.Game.t Shooter.Targets.t Shooter.Bullets.t Shooter.Hits.t)
  : Prop :=
  Reload_ahead (Shooter.Game.bullets g)
  /\ Shooter.Wave.n (Shooter.Game.bullets g)
     = Shooter.Game.nstep g mod Shooter.Wave.N (Shooter.Game.bullets g).

(** ** shooter2.py: the reload of the bullets *)

(** The bullets not admitted yet are born one reload after the other. *)
Definition Reload2_ahead (w : Shooter2.Bullets.t) : Prop :=
  forall k,
    Shooter2.Wave.nborn w + k < Shooter2.Wave.M w ->
    nth_error (Shooter2.Wave.born w) (Shooter2.Wave.nborn w + k)
    = Some (Shooter2.Wave.tborn w
            + Shooter2.Bullets.rload (Shooter2.Wave.ext w) * Z.of_nat k)%Z.

(** With a reload of at least one frame the next birth frame is on the
    grid of the reloads, less than one reload after the end of the window;
    otherwise it is behind the window. *)
Definition Reload2_phase (w : Shooter2.Bullets.t) : Prop :=
  let r := Shooter2.Bullets.rload (Shooter2.Wave.ext w) in
  let tend := snd (Shooter2.Wave.cslice w) in
  if (1 <=? r)%Z then
    (tend <= Shooter2.Wave.tborn w < tend + r)%Z
    /\ ((Shooter2.Wave.tborn w - Z.of_nat (Shooter2.Wave.N w) + 1) mod r
        = 0)%Z
  else (Shooter2.Wave.tborn w < tend)%Z.

(** Whether the update that follows [t] frame transitions admits a bullet. *)
Definition reload2_flag (rload : Z) (t : nat) : bool :=
  (1 <=? rload)%Z && ((Z.of_nat t + 1) mod rload =? 0)%Z.

Definition Reload2_sync
  (g : Shooter.Game.t Shooter2.Targets.t Shooter2.Bullets.t Shooter2.Hits.t)
  : Prop :=
  let bl := Shooter.Game.bullets g in
  Shooter2.Wave.cslice bl
  = (Z.of_nat (Shooter.Game.nstep g),
     (Z.of_nat (Shooter.Game.nstep g) + Z.of_nat (Shooter2.Wave.N bl))%Z)
  /\ Reload2_phase bl
  /\ ((1 <= Shooter2.Bullets.rload (Shooter2.Wave.ext bl))%Z ->
      Reload2_ahead bl).

(** ** The rows of the display *)

(** shooter.py: the heights of the rows are those given at construction:
    the row of a target rises with its offset in the window, the row of a
    bullet falls with it. *)
Definition Rows1
  (g : Shooter.Game.t Shooter.Targets.t Shooter.Bullets.t Shooter.Hits.t)
  : Prop :=
  Shooter.Wave.ypos (Shooter.Game.targets g)
  = linspace01 (Shooter.Wave.N (Shooter.Game.targets g))
  /\ Shooter.Wave.ypos (Shooter.Game.bullets g)
     = rev (linspace01 (Shooter.Wave.N (Shooter.Game.bullets g)))
  /\ Shooter.Hits.ypos (Shooter.Game.hits g)
     = linspace01 (Shooter.Wave.N (Shooter.Game.targets g)).

(** The same of shooter2.py. *)
Definition Rows2
  (g : Shooter.Game.t Shooter2.Targets.t Shooter2.Bullets.t Shooter2.Hits.t)
  : Prop :=
  Shooter2.Wave.ypos (Shooter.Game.targets g)
  = linspace01 (Shooter2.Wave.N (Shooter.Game.targets g))
  /\ Shooter2.Wave.ypos (Shooter.Game.bullets g)
     = rev (linspace01 (Shooter2.Wave.N (Shooter.Game.bullets g)))
  /\ Shooter.Hits.ypos (Shooter.Game.hits g)
     = linspace01 (Shooter2.Wave.N (Shooter.Game.targets g)).

(** shooter2.py: the point drawn for the sprite [i] of a wave, with the
    heights [ys] of the rows. *)
Definition sprite2 {E} (w : Shooter2.Wave.t E) (ys : list Q) (i : nat)
  : Q * Q :=
  (nth i (Shooter2.Wave.xpos w) 0%Q,
   nth (Z.to_nat (nth i (Shooter2.Wave.born w) 0%Z
                  - fst (Shooter2.Wave.cslice w)))
       ys 0%Q).

(** ** Positions on the screen *)

(** The draws of [uniform(0., 1., shape)]. *)
Definition unit_draws (rnd : Random) : Prop :=
  forall r c, (0 <= uniform rnd r c <= 1)%Q.

(** shooter.py: how many times slot [s] is still moved by [Wave.update]
    when the cursor is [n]. *)
Definition moves_left (N n s : nat) : nat := Nat.min (s - n + 1) N.

(** Every slot from the cursor on is within the screen, and still is after
    the moves it has left. *)
Definition On_course {E} (w : Shooter.Wave.t E) : Prop :=
  forall s x v,
    Shooter.Wave.n w <= s ->
    nth_error (Shooter.Wave.xpos w) s = Some x ->
    nth_error (Shooter.Wave.xspeed w) s = Some v ->
    (0 <= x <= 1)%Q
    /\ (0 <= x + inject_Z (Z.of_nat
                             (moves_left (Shooter.Wave.N w)
                                (Shooter.Wave.n w) s)) * v <= 1)%Q.

(** Every slot is within the screen and does not move. *)
Definition At_rest {E} (w : Shooter.Wave.t E) : Prop :=
  forall s x v,
    nth_error (Shooter.Wave.xpos w) s = Some x ->
    nth_error (Shooter.Wave.xspeed w) s = Some v ->
    (0 <= x <= 1)%Q /\ (v == 0)%Q.

Definition On_screen1
  (g : Shooter.Game.t Shooter.Targets.t Shooter.Bullets.t Shooter.Hits.t)
  : Prop :=
  On_course (Shooter.Game.targets g)
  /\ At_rest (Shooter.Game.bullets g)
  /\ Forall (fun x => (0 <= x <= 1)%Q)
       (Shooter.Hits.xpos (Shooter.Game.hits g)).

(** A point within the unit square of the screen. *)
Definition in_unit_square (pt : Q * Q) : Prop :=
  (0 <= fst pt <= 1)%Q /\ (0 <= snd pt <= 1)%Q.

(** shooter2.py: a listed target is within the screen, and still is after
    the moves it has left, as many as its row [born - cslice[0]]; a target
    not admitted yet has [N] moves left. *)
Definition Course2 (w : Shooter2.Targets.t) : Prop :=
  (forall i, In i (Shooter2.Wave.current w) ->
     let x := nth i (Shooter2.Wave.xpos w) 0%Q in
     let v := nth i (Shooter2.Wave.xspeed w) 0%Q in
     let r := (nth i (Shooter2.Wave.born w) 0
               - fst (Shooter2.Wave.cslice w))%Z in
     (0 <= x <= 1)%Q /\ (0 <= x + inject_Z r * v <= 1)%Q)
  /\ (forall i,
        Shooter2.Wave.nborn w <= i < Shooter2.Wave.M w ->
        let x := nth i (Shooter2.Wave.xpos w) 0%Q in
        let v := nth i (Shooter2.Wave.xspeed w) 0%Q in
        (0 <= x <= 1)%Q
        /\ (0 <= x + inject_Z (Z.of_nat (Shooter2.Wave.N w)) * v <= 1)%Q).

(** Every bullet is within the screen and does not move. *)
Definition Rest2 (w : Shooter2.Bullets.t) : Prop :=
  Forall (fun x => (0 <= x <= 1)%Q) (Shooter2.Wave.xpos w)
  /\ Forall (fun v => (v == 0)%Q) (Shooter2.Wave.xspeed w).

Definition On_screen2
  (g : Shooter.Game.t Shooter2.Targets.t Shooter2.Bullets.t Shooter2.Hits.t)
  : Prop :=
  Course2 (Shooter.Game.targets g)
  /\ Rest2 (Shooter.Game.bullets g)
  /\ Forall (fun x => (0 <= x <= 1)%Q)
       (Shooter.Hits.xpos (Shooter.Game.hits g)).
(* ================================================================== *)
(** * Properties of the primitives *)
(* ================================================================== *)

Lemma bind_Ok {A B} (r : result A) (k : A -> result B) (b : B) :
  bind r k = Ok b -> exists a, r = Ok a /\ k a = Ok b.
Proof. destruct r as [a|e]; simpl; intros H; [eauto | discriminate]. Qed.

Ltac inv_bind H :=
  let a := fresh "r" in
  let Ha := fresh "E" a in
  apply bind_Ok in H; destruct H as (a & Ha & H).

Lemma Ok_inj {A} (a b : A) : Ok a = Ok b -> a = b.
Proof. intros H. injection H as H. exact H. Qed.

Tactic Notation "bind_inv" hyp(H) "as" simple_intropattern(a) ident(Ha) :=
  apply bind_Ok in H; destruct H as (a & Ha & H).

Ltac inv_Ok H := injection H as H; try subst.

Lemma Qlt_bool_iff (x y : Q) : Qlt_bool x y = true <-> (x < y)%Q.
Proof.
  unfold Qlt_bool. rewrite negb_true_iff. split; intros H.
  - apply Qnot_le_lt. intros Hle. apply Qle_bool_iff in Hle. congruence.
  - destruct (Qle_bool y x) eqn:E; [|reflexivity].
    apply Qle_bool_iff in E. exfalso. exact (Qlt_not_le _ _ H E).
Qed.

Lemma clip_bounds (x lo hi : Q) : (lo <= hi)%Q -> (lo <= clip x lo hi <= hi)%Q.
Proof.
  intros H. unfold clip. split.
  - apply Q.min_glb; [apply Q.le_max_r | exact H].
  - apply Q.le_min_r.
Qed.

Lemma clipZ_bounds (x lo hi : Z) : (lo <= hi)%Z -> (lo <= clipZ x lo hi <= hi)%Z.
Proof. unfold clipZ. lia. Qed.

Lemma truediv_Ok (a b : Q) : ~ (b == 0)%Q -> truediv a b = Ok (a / b)%Q.
Proof.
  intros Hb. unfold truediv. destruct (Qeq_bool b 0) eqn:E; [|reflexivity].
  apply Qeq_bool_iff in E. contradiction.
Qed.

Lemma truediv_inv (a b q : Q) :
  truediv a b = Ok q -> ~ (b == 0)%Q /\ q = (a / b)%Q.
Proof.
  unfold truediv. destruct (Qeq_bool b 0) eqn:E; [discriminate|].
  intros H. inv_Ok H. split; [|reflexivity].
  intros Hb. apply Qeq_bool_iff in Hb. congruence.
Qed.

Lemma inject_nat_nonzero (k : nat) : k <> 0 -> ~ (inject_Z (Z.of_nat k) == 0)%Q.
Proof.
  intros Hk H. unfold Qeq in H. simpl in H. lia.
Qed.

(* ================================================================== *)
(** * C8: the avatar stays in the playfield *)
(* ================================================================== *)

Section AvatarClamp.
Import Shooter.

Lemma Avatar_update_bounds (m : Z) (a : Avatar.t) :
  (0 <= Avatar.pos_x (Avatar.update m a) <= 1)%Q.
Proof. simpl. apply clip_bounds. discriminate. Qed.

Lemma Avatar_run_snoc (moves : list Z) (m : Z) (a : Avatar.t) :
  Avatar_run (moves ++ [m]) a = Avatar.update m (Avatar_run moves a).
Proof. unfold Avatar_run. rewrite fold_left_app. reflexivity. Qed.

(** C8.  Each [Avatar.update] adds [moveCommand * xspeed] to [x] and clamps
    the sum to [0, 1]; so after every update, whatever the sequence of move
    commands before it (in particular commands in -2..2), the horizontal
    position lies in [0, 1] inclusive. *)
Theorem C8_avatar_clamp (a : Avatar.t) (moves : list Z) (m : Z) :
  Avatar.pos_x (Avatar.update m a)
  = clip (Avatar.pos_x a + inject_Z m * Avatar.xspeed a)%Q 0%Q 1%Q
  /\ (0 <= Avatar.pos_x (Avatar_run (moves ++ [m]) a) <= 1)%Q.
Proof.
  split; [reflexivity|].
  rewrite Avatar_run_snoc. apply Avatar_update_bounds.
Qed.
End AvatarClamp.

(** ** Lists as arrays *)

Lemma mapM_Forall2 {A B} (f : A -> result B) (l : list A) (r : list B) :
  mapM f l = Ok r -> Forall2 (fun a b => f a = Ok b) l r.
Proof.
  revert r. induction l as [|a l IH]; intros r H; simpl in H.
  - inv_Ok H. constructor.
  - inv_bind H. inv_bind H. inv_Ok H. constructor; auto.
Qed.

Lemma Forall2_mapM {A B} (f : A -> result B) (l : list A) (r : list B) :
  Forall2 (fun a b => f a = Ok b) l r -> mapM f l = Ok r.
Proof.
  induction 1 as [|a b l r Hab _ IH]; simpl; [reflexivity|].
  rewrite Hab. simpl. rewrite IH. reflexivity.
Qed.

Lemma Forall2_nth_l {A B} (P : A -> B -> Prop) l r i a :
  Forall2 P l r -> nth_error l i = Some a ->
  exists b, nth_error r i = Some b /\ P a b.
Proof.
  intros H. revert i. induction H as [|x y l r Hxy _ IH]; intros [|i] Hi;
    simpl in *; try discriminate.
  - inv_Ok Hi. eauto.
  - eauto.
Qed.

Lemma Forall2_nth_r {A B} (P : A -> B -> Prop) l r i b :
  Forall2 P l r -> nth_error r i = Some b ->
  exists a, nth_error l i = Some a /\ P a b.
Proof.
  intros H. revert i. induction H as [|x y l r Hxy _ IH]; intros [|i] Hi;
    simpl in *; try discriminate.
  - inv_Ok Hi. eauto.
  - eauto.
Qed.

Lemma index_Ok {A} (l : list A) i a : index l i = Ok a <-> nth_error l i = Some a.
Proof.
  unfold index. destruct (nth_error l i); split; intros H;
    try discriminate; congruence.
Qed.

Lemma index_lt {A} (l : list A) i : i < length l -> exists a, index l i = Ok a.
Proof.
  intros H. unfold index. destruct (nth_error l i) eqn:E; [eauto|].
  apply nth_error_None in E. lia.
Qed.

Lemma gather_length {A} (l : list A) idx r :
  gather l idx = Ok r -> length r = length idx.
Proof.
  intros H. apply mapM_Forall2 in H. symmetry. eapply Forall2_length; eauto.
Qed.

Lemma gather_nth {A} (l : list A) idx r k a :
  gather l idx = Ok r ->
  (nth_error r k = Some a
   <-> exists i, nth_error idx k = Some i /\ nth_error l i = Some a).
Proof.
  intros H. apply mapM_Forall2 in H. split.
  - intros Hk. destruct (Forall2_nth_r _ _ _ _ _ H Hk) as (i & Hi & Hia).
    apply index_Ok in Hia. eauto.
  - intros (i & Hi & Hia). destruct (Forall2_nth_l _ _ _ _ _ H Hi) as (b & Hb & Hib).
    apply index_Ok in Hib. congruence.
Qed.

Lemma gather_ok {A} (l : list A) idx :
  Forall (fun i => i < length l) idx -> exists r, gather l idx = Ok r.
Proof.
  intros H. induction H as [|i idx Hi _ IH]; [exists []; reflexivity|].
  destruct IH as (r & IH). destruct (index_lt l _ Hi) as (a & Ha).
  exists (a :: r). unfold gather in *. simpl. rewrite Ha. simpl.
  rewrite IH. reflexivity.
Qed.

Lemma combine_nth {A B} (l : list A) (r : list B) k a b :
  nth_error (combine l r) k = Some (a, b)
  <-> nth_error l k = Some a /\ nth_error r k = Some b.
Proof.
  revert r k. induction l as [|x l IH]; intros [|y r] [|k]; simpl;
    try (split; [discriminate | intros [? ?]; discriminate]).
  - split; [intros H; inv_Ok H; auto | intros [H1 H2]; congruence].
  - apply IH.
Qed.

Lemma In_combine_nth {A B} (l : list A) (r : list B) a b :
  In (a, b) (combine l r)
  <-> exists k, nth_error l k = Some a /\ nth_error r k = Some b.
Proof.
  split.
  - intros H. apply In_nth_error in H. destruct H as (k & Hk).
    exists k. apply combine_nth. exact Hk.
  - intros (k & Hk). apply combine_nth in Hk. eapply nth_error_In; eauto.
Qed.

Lemma combine_fst_snd {A B} (ps : list (A * B)) :
  combine (map fst ps) (map snd ps) = ps.
Proof. induction ps as [|[a b] ps IH]; simpl; congruence. Qed.

Lemma map2_nth {A B C} (f : A -> B -> C) l1 l2 i :
  nth_error (map2 f l1 l2) i
  = match nth_error l1 i, nth_error l2 i with
    | Some a, Some b => Some (f a b)
    | _, _ => None
    end.
Proof.
  revert l2 i. induction l1 as [|a l1 IH]; intros [|b l2] [|i]; simpl;
    try reflexivity.
  - destruct (nth_error l1 i); reflexivity.
  - apply IH.
Qed.

Lemma map2_length {A B C} (f : A -> B -> C) l1 l2 :
  length (map2 f l1 l2) = Nat.min (length l1) (length l2).
Proof.
  revert l2. induction l1 as [|a l1 IH]; intros [|b l2]; simpl; auto.
Qed.

(** ** Matrices *)

Lemma entry_mat_map {A B} (f : A -> B) m i j :
  entry (mat_map f m) i j = option_map f (entry m i j).
Proof.
  unfold entry, mat_map. rewrite nth_error_map.
  destruct (nth_error m i); simpl; [apply nth_error_map | reflexivity].
Qed.

Lemma entry_mat_map2 {A B C} (f : A -> B -> C) m1 m2 i j :
  entry (mat_map2 f m1 m2) i j
  = match entry m1 i j, entry m2 i j with
    | Some a, Some b => Some (f a b)
    | _, _ => None
    end.
Proof.
  unfold entry, mat_map2. rewrite map2_nth.
  destruct (nth_error m1 i) as [r1|], (nth_error m2 i) as [r2|]; simpl;
    try reflexivity.
  - apply map2_nth.
  - destruct (nth_error r1 j); reflexivity.
Qed.

Lemma entry_outer {A B C} (f : A -> B -> C) col row i j :
  entry (outer f col row) i j
  = match nth_error col i, nth_error row j with
    | Some c, Some r => Some (f c r)
    | _, _ => None
    end.
Proof.
  unfold entry, outer. rewrite nth_error_map.
  destruct (nth_error col i); simpl; [|reflexivity].
  rewrite nth_error_map. destruct (nth_error row j); reflexivity.
Qed.

(** ** Masks *)

Lemma count_true_cons (b : bool) mask :
  count_true (b :: mask) = (if b then 1 else 0) + count_true mask.
Proof. unfold count_true. simpl. destruct b; reflexivity. Qed.

Lemma nonzero_from_nth (mask : list bool) (k i p : nat) :
  nth_error (nonzero_from k mask) i = Some p
  <-> exists p', p = k + p' /\ nth_error mask p' = Some true
                 /\ i = rank mask p'.
Proof.
  unfold rank. revert k i. induction mask as [|b mask IH]; intros k i; simpl.
  - split.
    + destruct i; discriminate.
    + intros (p' & _ & H & _). destruct p'; discriminate.
  - destruct b.
    + destruct i as [|i]; simpl.
      * split.
        -- intros H. inv_Ok H. exists 0. repeat split; auto.
        -- intros (p' & -> & Hp & Hi). destruct p' as [|p']; simpl in *.
           ++ f_equal. lia.
           ++ rewrite count_true_cons in Hi. discriminate.
      * rewrite IH. split.
        -- intros (p' & -> & Hp & ->). exists (S p'). simpl.
           rewrite count_true_cons. repeat split; auto; lia.
        -- intros (p' & -> & Hp & Hi). destruct p' as [|p']; simpl in *.
           ++ discriminate.
           ++ rewrite count_true_cons in Hi. exists p'.
              repeat split; auto; lia.
    + rewrite IH. split.
      * intros (p' & -> & Hp & ->). exists (S p'). simpl.
        rewrite count_true_cons. repeat split; auto; lia.
      * intros (p' & -> & Hp & Hi). destruct p' as [|p']; simpl in *.
        -- discriminate.
        -- rewrite count_true_cons in Hi. exists p'. repeat split; auto; lia.
Qed.

Lemma nonzero_nth (mask : list bool) (i p : nat) :
  nth_error (nonzero mask) i = Some p
  <-> nth_error mask p = Some true /\ i = rank mask p.
Proof.
  unfold nonzero. rewrite nonzero_from_nth. split.
  - intros (p' & -> & H). exact H.
  - intros H. exists p. split; [reflexivity | exact H].
Qed.

Lemma In_nonzero (mask : list bool) (p : nat) :
  In p (nonzero mask) <-> nth_error mask p = Some true.
Proof.
  split.
  - intros H. apply In_nth_error in H. destruct H as (i & Hi).
    apply nonzero_nth in Hi. tauto.
  - intros H. apply nth_error_In with (n := rank mask p).
    apply nonzero_nth. auto.
Qed.

Lemma select_mask_rank {A} (l : list A) (mask : list bool) (p : nat) :
  nth_error mask p = Some true ->
  nth_error (select_mask l mask) (rank mask p) = nth_error l p.
Proof.
  unfold rank. revert l p. induction mask as [|b mask IH]; intros l p Hp.
  - destruct p; discriminate.
  - destruct l as [|a l].
    + simpl. rewrite !nth_error_nil. reflexivity.
    + destruct p as [|p]; simpl in *.
      * inv_Ok Hp. reflexivity.
      * rewrite count_true_cons. destruct b; simpl; apply IH; exact Hp.
Qed.

Lemma select_Ok {A} (l : list A) (mask : list bool) r :
  select l mask = Ok r -> length l = length mask /\ r = select_mask l mask.
Proof.
  unfold select. destruct (length l =? length mask) eqn:E; [|discriminate].
  apply Nat.eqb_eq in E. intros H. inv_Ok H. auto.
Qed.

Lemma any_true (mask : list bool) :
  any mask = true <-> exists p, nth_error mask p = Some true.
Proof.
  unfold any. rewrite existsb_exists. split.
  - intros (b & Hb & ->). apply In_nth_error in Hb. exact Hb.
  - intros (p & Hp). exists true. split; [|reflexivity].
    eapply nth_error_In; eauto.
Qed.

Lemma nonzero2_from_In (m : list (list bool)) (k i j : nat) :
  In (i, j) (nonzero2_from k m)
  <-> exists i', i = k + i' /\ entry m i' j = Some true.
Proof.
  unfold entry. revert k. induction m as [|row m IH]; intros k; simpl.
  - split; [tauto|]. intros (i' & _ & H). destruct i'; discriminate.
  - rewrite in_app_iff, in_map_iff, IH. split.
    + intros [(j' & Hj & Hin) | (i' & -> & H)].
      * inv_Ok Hj. exists 0. split; [lia|]. simpl.
        apply In_nonzero. exact Hin.
      * exists (S i'). split; [lia | exact H].
    + intros ([|i'] & -> & H); simpl in H.
      * left. exists j. split; [f_equal; lia|]. apply In_nonzero. exact H.
      * right. exists i'. split; [lia | exact H].
Qed.

Lemma nonzero2_In (m : list (list bool)) nz nz1 (i j : nat) :
  nonzero2 m = (nz, nz1) ->
  (In (i, j) (combine nz nz1) <-> entry m i j = Some true).
Proof.
  unfold nonzero2. intros H. inv_Ok H. rewrite combine_fst_snd.
  rewrite nonzero2_from_In. split.
  - intros (i' & -> & H). exact H.
  - intros H. exists i. auto.
Qed.

(* ================================================================== *)
(** * C7: the percentage in the status text *)
(* ================================================================== *)

Section ScoreText.
Import Shooter.

Lemma score_text_total (hit miss : nat) :
  Game.score_text hit miss
  = Ok (if miss + hit =? 0 then "*"%string
        else format_f 2 (percentage hit miss)).
Proof.
  unfold Game.score_text. destruct (miss + hit =? 0) eqn:E; [reflexivity|].
  apply Nat.eqb_neq in E.
  rewrite truediv_Ok by (apply inject_nat_nonzero; exact E).
  reflexivity.
Qed.

Lemma Game_update_running {T B H} (F : Game.Factory T B H) env g g' :
  tr_quit (Game.shared g) = false ->
  Game.update F env g = Ok g' ->
  exists g1 time d,
    Game.components_update F env g = Ok g1 /\
    g' = Game.mk (Game.shared g1) (Game.nstep g1 + 1) (Game.gameover g1)
           (Game.running_text time (Game.hits_score F (Game.hits g1))
              (Game.targets_score F (Game.targets g1))
              (if Game.targets_score F (Game.targets g1)
                  + Game.hits_score F (Game.hits g1) =? 0
               then "*"%string
               else format_f 2
                      (percentage (Game.hits_score F (Game.hits g1))
                         (Game.targets_score F (Game.targets g1)))))
           (Game.perf g1 + d)%Q
           (Game.targets g1) (Game.bullets g1) (Game.hits g1).
Proof.
  intros Hq Hu. unfold Game.update in Hu. rewrite Hq in Hu.
  inv_bind Hu. rewrite score_text_total in Hu. simpl in Hu.
  inv_bind Hu. inv_bind Hu. inv_Ok Hu.
  exists r, r0, r1. split; [assumption | reflexivity].
Qed.

(** C7.  In a frame transition that is not the quit one, the percentage
    written in the status text is the sentinel "*" when
    [hits.score + targets.score] is 0, with no division evaluated (a
    division by zero would raise), and otherwise [100*hit/total], formatted
    with two decimals. *)
Theorem C7_score_sentinel {T B H} (F : Game.Factory T B H) env g g' :
  tr_quit (Game.shared g) = false ->
  Game.update F env g = Ok g' ->
  let hit := Game.hits_score F (Game.hits g') in
  let miss := Game.targets_score F (Game.targets g') in
  Game.score_text hit miss
  = Ok (if miss + hit =? 0 then "*"%string
        else format_f 2 (percentage hit miss))
  /\ exists time,
      Game.status g'
      = Game.running_text time hit miss
          (if miss + hit =? 0 then "*"%string
           else format_f 2 (percentage hit miss)).
Proof.
  intros Hq Hu hit miss. split; [apply score_text_total|].
  destruct (Game_update_running F env g g' Hq Hu) as (g1 & time & d & _ & ->).
  exists time. reflexivity.
Qed.

Lemma C7_score_sentinel_witness :
  Game.status (demo_game 1)
  = "time: 0000.5; hit: 1; miss: 0; score: 100.00"%string
  /\ exists time,
      Game.status (demo_game 1)
      = Game.running_text time 1 0 (format_f 2 (percentage 1 0)).
Proof.
  split; [vm_compute; reflexivity|].
  exact (proj2 (@C7_score_sentinel _ _ _ Game.Factory1 demo_env
                  (GameManager.userinput 0 (demo_game 0)) (demo_game 1)
                  ltac:(vm_compute; reflexivity)
                  ltac:(vm_compute; reflexivity))).
Defined.
End ScoreText.

(* ================================================================== *)
(** * C2: the decay of a hit marker *)
(* ================================================================== *)

Section MarkerDecay.
Import Shooter.

Lemma age_weight (h : Hits.t) :
  Hits.weight (Hits.age h)
  = map (fun w => marker_decay (Hits.timeout h) 1 w) (Hits.weight h).
Proof. reflexivity. Qed.

Lemma marker_decay_closed (timeout : Z) (k : nat) (w : Z) :
  (0 <= w <= timeout)%Z ->
  marker_decay timeout k w = Z.max 0 (w - Z.of_nat k).
Proof.
  revert w. induction k as [|k IH]; intros w Hw.
  - simpl. lia.
  - cbn [marker_decay]. rewrite IH by (unfold clipZ; lia).
    unfold clipZ. lia.
Qed.

(** A weight set to [timeout] goes through the decrement of the very update
    that sets it: at the display of the [k]-th frame after the collision it
    is [max 0 (timeout - 1 - k)]. *)
Lemma marker_decay_struck (timeout : Z) (k : nat) :
  (0 <= timeout)%Z ->
  marker_decay timeout (S k) timeout = Z.max 0 (timeout - 1 - Z.of_nat k).
Proof.
  intros Ht. cbn [marker_decay].
  rewrite marker_decay_closed by (unfold clipZ; lia).
  unfold clipZ. lia.
Qed.

(** C2, at the failing input.  In the demo session [timeout] is 2 and the
    first frame has a collision on row 1.  Its marker is drawn at that frame
    with weight 1, and is no longer drawn at the next frame, which is frame
    F + timeout - 1; in general a marker is drawn at the [timeout - 1]
    frames F .. F + timeout - 2 only, and its weight is never negative. *)
Theorem C2_marker_one_frame_short :
  Hits.timeout (Game.hits (demo_game 0)) = 2%Z
  /\ Hits.score (Game.hits (demo_game 0)) = 0
  /\ Hits.score (Game.hits (demo_game 1)) = 1
  /\ Hits.weight (Game.hits (demo_game 1)) = [0%Z; 1%Z]
  /\ Hits.displayed (Game.hits (demo_game 1)) = [false; true]
  /\ Hits.score (Game.hits (demo_game 2)) = 1
  /\ Hits.displayed (Game.hits (demo_game 2)) = [false; false]
  /\ forall (timeout : Z) (k : nat),
      (0 <= marker_decay (Z.max 0 timeout) (S k) (Z.max 0 timeout))%Z
      /\ ((0 <? marker_decay (Z.max 0 timeout) (S k) (Z.max 0 timeout))%Z = true
          <-> (Z.of_nat k < timeout - 1)%Z).
Proof.
  repeat (split; [vm_compute; reflexivity|]).
  intros timeout k. rewrite marker_decay_struck by lia.
  rewrite Z.ltb_lt. lia.
Qed.
End MarkerDecay.

(* ================================================================== *)
(** * C1: the collision test *)
(* ================================================================== *)

Section Collision.
Import Shooter.

Lemma entry_clashes tol dx dv m i j :
  entry (Hits.clashes tol dx dv m) i j
  = match entry dx i j, entry dv i j, entry m i j with
    | Some a, Some b, Some c =>
        Some (Qlt_bool (Qabs (a + b * c)) tol && Qle_bool 0 c && Qle_bool c 1)
    | _, _, _ => None
    end.
Proof.
  unfold Hits.clashes.
  rewrite !entry_mat_map2, !entry_mat_map, !entry_mat_map2.
  destruct (entry dx i j), (entry dv i j), (entry m i j); reflexivity.
Qed.

Lemma collide_bool tol a b c :
  Qlt_bool (Qabs (a + b * c)) tol && Qle_bool 0 c && Qle_bool c 1 = true
  <-> collide tol a b c.
Proof.
  unfold collide.
  rewrite !andb_true_iff, Qlt_bool_iff, !Qle_bool_iff. tauto.
Qed.

(** The three matrices combined at one entry. *)
Lemma clashes_In tol dx dv m nz nz1 i j a b c :
  nonzero2 (Hits.clashes tol dx dv m) = (nz, nz1) ->
  entry dx i j = Some a -> entry dv i j = Some b -> entry m i j = Some c ->
  (In (i, j) (combine nz nz1) <-> collide tol a b c).
Proof.
  intros Hnz Ha Hb Hc. rewrite (nonzero2_In _ _ _ _ _ Hnz).
  rewrite entry_clashes, Ha, Hb, Hc. rewrite <- collide_bool.
  split; [intros H; inv_Ok H; assumption | intros ->; reflexivity].
Qed.

Lemma Hits_init_tol fps width N r N1 r1 timeout h :
  Hits.init fps width N r N1 r1 timeout = Ok h ->
  Hits.tol h = (width / 2)%Q.
Proof.
  unfold Hits.init. intros H. inv_bind H. inv_bind H. inv_Ok H. reflexivity.
Qed.

(** shooter.py: [p] and [q] are the rows (window offsets) of a visible
    target and of a visible bullet. *)
Lemma Hits1_detect_spec h x v visible x1 v1 visible1 nz nz1 s s1 :
  Hits.detect h x v visible x1 v1 visible1 = Ok (nz, nz1) ->
  gather (nonzero visible) nz = Ok s ->
  gather (nonzero visible1) nz1 = Ok s1 ->
  forall p q xp vp xq vq row m,
    nth_error visible p = Some true -> nth_error visible1 q = Some true ->
    nth_error x p = Some xp -> nth_error v p = Some vp ->
    nth_error x1 q = Some xq -> nth_error v1 q = Some vq ->
    nth_error (Hits.clashmat h) p = Some row -> nth_error row q = Some m ->
    (In (p, q) (combine s s1)
     <-> collide (Hits.tol h) (xq - xp) (vq - vp) m).
Proof.
  intros Hd Hs Hs1 p q xp vp xq vq row m Hp Hq Hxp Hvp Hxq Hvq Hrow Hm.
  unfold Hits.detect in Hd.
  inv_bind Hd. apply select_Ok in Er. destruct Er as (_ & ->).
  inv_bind Hd. apply select_Ok in Er. destruct Er as (_ & ->).
  inv_bind Hd. apply select_Ok in Er. destruct Er as (_ & ->).
  inv_bind Hd. apply select_Ok in Er. destruct Er as (_ & ->).
  inv_bind Hd. apply select_Ok in Er. destruct Er as (_ & ->).
  inv_bind Hd. apply mapM_Forall2 in Er. apply Ok_inj in Hd.
  set (i := rank visible p). set (j := rank visible1 q).
  assert (Hij : In (i, j) (combine nz nz1)
                <-> collide (Hits.tol h) (xq - xp) (vq - vp) m).
  { eapply clashes_In; [eassumption | | |].
    - rewrite entry_outer. unfold i, j.
      rewrite !select_mask_rank, Hxp, Hxq by assumption. reflexivity.
    - rewrite entry_outer. unfold i, j.
      rewrite !select_mask_rank, Hvp, Hvq by assumption. reflexivity.
    - unfold entry.
      assert (Hr : nth_error (select_mask (Hits.clashmat h) visible) i
                   = Some row).
      { unfold i. rewrite select_mask_rank by assumption. exact Hrow. }
      destruct (Forall2_nth_l _ _ _ _ _ Er Hr) as (mrow & -> & Hsel).
      apply select_Ok in Hsel. destruct Hsel as (_ & ->).
      unfold j. rewrite select_mask_rank by assumption. exact Hm. }
  rewrite <- Hij. rewrite !In_combine_nth. split.
  - intros (k & Hk & Hk1). exists k.
    apply (gather_nth _ _ _ _ _ Hs) in Hk. destruct Hk as (i' & Hi' & Hk).
    apply (gather_nth _ _ _ _ _ Hs1) in Hk1. destruct Hk1 as (j' & Hj' & Hk1).
    apply nonzero_nth in Hk. apply nonzero_nth in Hk1.
    destruct Hk as (_ & ->), Hk1 as (_ & ->). auto.
  - intros (k & Hk & Hk1). exists k. split.
    + apply (gather_nth _ _ _ _ _ Hs). exists i. split; [assumption|].
      apply nonzero_nth. auto.
    + apply (gather_nth _ _ _ _ _ Hs1). exists j. split; [assumption|].
      apply nonzero_nth. auto.
Qed.

(** shooter2.py: [i] and [j] are the positions of a target and of a bullet
    in the alive-index lists; their rows are [born - tbeg]. *)
Lemma Hits2_detect_spec {E E1} h (tg : Shooter2.Wave.t E)
  (bl : Shooter2.Wave.t E1) a a1 nz nz1 r :
  Shooter2.Hits.detect h tg bl a a1 = Ok (nz, nz1, r) ->
  forall i j it ib xi vi xj vj bi bj row m,
    nth_error a i = Some it -> nth_error a1 j = Some ib ->
    nth_error (Shooter2.Wave.xpos tg) it = Some xi ->
    nth_error (Shooter2.Wave.xspeed tg) it = Some vi ->
    nth_error (Shooter2.Wave.xpos bl) ib = Some xj ->
    nth_error (Shooter2.Wave.xspeed bl) ib = Some vj ->
    nth_error (Shooter2.Wave.born tg) it = Some bi ->
    nth_error (Shooter2.Wave.born bl) ib = Some bj ->
    py_index (Hits.clashmat h) (bi - fst (Shooter2.Wave.cslice tg)) = Ok row ->
    py_index row (bj - fst (Shooter2.Wave.cslice bl)) = Ok m ->
    (In (i, j) (combine nz nz1)
     <-> collide (Hits.tol h) (xj - xi) (vj - vi) m).
Proof.
  intros Hd i j it ib xi vi xj vj bi bj row m
    Hi Hj Hxi Hvi Hxj Hvj Hbi Hbj Hrow Hm.
  unfold Shooter2.Hits.detect in Hd.
  inv_bind Hd. rename r0 into x1, Er0 into Ex1.
  inv_bind Hd. rename r0 into x, Er0 into Ex.
  inv_bind Hd. rename r0 into v1, Er0 into Ev1.
  inv_bind Hd. rename r0 into v, Er0 into Ev.
  inv_bind Hd. rename r0 into ba, Er0 into Eba.
  inv_bind Hd. rename r0 into ba1, Er0 into Eba1.
  inv_bind Hd. rename r0 into rows, Er0 into Erows.
  inv_bind Hd. rename r0 into mm, Er0 into Emm.
  destruct (nonzero2 _) as [nz' nz1'] eqn:Enz. inv_Ok Hd.
  eapply clashes_In; [eassumption | | |].
  - rewrite entry_outer.
    rewrite (proj2 (gather_nth _ _ _ i xi Ex)) by eauto.
    rewrite (proj2 (gather_nth _ _ _ j xj Ex1)) by eauto. reflexivity.
  - rewrite entry_outer.
    rewrite (proj2 (gather_nth _ _ _ i vi Ev)) by eauto.
    rewrite (proj2 (gather_nth _ _ _ j vj Ev1)) by eauto. reflexivity.
  - unfold entry. apply mapM_Forall2 in Erows, Emm.
    assert (Hr : nth_error
                   (map (fun b => (b - fst (Shooter2.Wave.cslice tg))%Z) ba) i
                 = Some (bi - fst (Shooter2.Wave.cslice tg))%Z).
    { rewrite nth_error_map.
      rewrite (proj2 (gather_nth _ _ _ i bi Eba)) by eauto. reflexivity. }
    destruct (Forall2_nth_l _ _ _ _ _ Erows Hr) as (row' & Hrow' & Hpy).
    rewrite Hrow in Hpy. inv_Ok Hpy.
    destruct (Forall2_nth_l _ _ _ _ _ Emm Hrow') as (mrow & -> & Hg).
    apply mapM_Forall2 in Hg.
    assert (Hr1 : nth_error
                    (map (fun b => (b - fst (Shooter2.Wave.cslice bl))%Z) ba1) j
                  = Some (bj - fst (Shooter2.Wave.cslice bl))%Z).
    { rewrite nth_error_map.
      rewrite (proj2 (gather_nth _ _ _ j bj Eba1)) by eauto. reflexivity. }
    destruct (Forall2_nth_l _ _ _ _ _ Hg Hr1) as (m' & -> & Hpy).
    congruence.
Qed.

(** C1.  The tolerance is half the configured target width, and in
    [Hits.update] of both variants an exposed target/bullet pair is among
    the collisions declared if and only if its row-derived coincidence time
    [m] satisfies [0 <= m <= 1] and [|dx + dv*m| < tol], for its horizontal
    separation [dx] and relative horizontal speed [dv]. *)
Theorem C1_collision_test :
  (forall fps width N r N1 r1 timeout h,
      Hits.init fps width N r N1 r1 timeout = Ok h ->
      Hits.tol h = (width / 2)%Q)
  /\ (forall h x v visible x1 v1 visible1 nz nz1 s s1,
        Hits.detect h x v visible x1 v1 visible1 = Ok (nz, nz1) ->
        gather (nonzero visible) nz = Ok s ->
        gather (nonzero visible1) nz1 = Ok s1 ->
        forall p q xp vp xq vq row m,
          nth_error visible p = Some true ->
          nth_error visible1 q = Some true ->
          nth_error x p = Some xp -> nth_error v p = Some vp ->
          nth_error x1 q = Some xq -> nth_error v1 q = Some vq ->
          nth_error (Hits.clashmat h) p = Some row ->
          nth_error row q = Some m ->
          (In (p, q) (combine s s1)
           <-> collide (Hits.tol h) (xq - xp) (vq - vp) m))
  /\ (forall h (tg : Shooter2.Targets.t) (bl : Shooter2.Bullets.t)
        a a1 nz nz1 r,
        Shooter2.Hits.detect h tg bl a a1 = Ok (nz, nz1, r) ->
        forall i j it ib xi vi xj vj bi bj row m,
          nth_error a i = Some it -> nth_error a1 j = Some ib ->
          nth_error (Shooter2.Wave.xpos tg) it = Some xi ->
          nth_error (Shooter2.Wave.xspeed tg) it = Some vi ->
          nth_error (Shooter2.Wave.xpos bl) ib = Some xj ->
          nth_error (Shooter2.Wave.xspeed bl) ib = Some vj ->
          nth_error (Shooter2.Wave.born tg) it = Some bi ->
          nth_error (Shooter2.Wave.born bl) ib = Some bj ->
          py_index (Hits.clashmat h)
            (bi - fst (Shooter2.Wave.cslice tg)) = Ok row ->
          py_index row (bj - fst (Shooter2.Wave.cslice bl)) = Ok m ->
          (In (i, j) (combine nz nz1)
           <-> collide (Hits.tol h) (xj - xi) (vj - vi) m)).
Proof.
  split; [exact Hits_init_tol|].
  split; [exact Hits1_detect_spec|].
  intros h tg bl. apply Hits2_detect_spec.
Qed.

Lemma C1_collision_test_witness :
  In (0, 0) (combine [0] [0])
  <-> collide (1 # 50) ((1 # 2) - (1 # 2)) (0 - 0) 0.
Proof.
  exact (proj1 (proj2 C1_collision_test)
           (Hits.mk 2 (1 # 50) [[0%Q]] [0%Q] [0%Q] [0%Z] 0)
           [(1 # 2)%Q] [0%Q] [true] [(1 # 2)%Q] [0%Q] [true]
           [0] [0] [0] [0] eq_refl eq_refl eq_refl
           0 0 (1 # 2)%Q 0%Q (1 # 2)%Q 0%Q [0%Q] 0%Q
           eq_refl eq_refl eq_refl eq_refl eq_refl eq_refl eq_refl eq_refl).
Defined.
End Collision.

(* ================================================================== *)
(** * shooter.py: the window of a wave *)
(* ================================================================== *)

Lemma slice_nth {A} lo hi (l : list A) j :
  nth_error (slice lo hi l) j
  = if j <? hi - lo then nth_error l (lo + j) else None.
Proof. unfold slice. rewrite nth_error_firstn, nth_error_skipn. reflexivity. Qed.


Lemma slice_length {A} lo hi (l : list A) :
  hi <= length l -> length (slice lo hi l) = hi - lo.
Proof. intros H. unfold slice. rewrite length_firstn, length_skipn. lia. Qed.

Lemma set_slice_length {A} lo hi vals (l : list A) :
  lo <= hi -> hi <= length l -> length vals = hi - lo ->
  length (set_slice lo hi vals l) = length l.
Proof.
  intros H1 H2 H3. unfold set_slice.
  rewrite !length_app, length_firstn, length_skipn. lia.
Qed.

Lemma set_slice_nth {A} lo hi vals (l : list A) i :
  lo <= hi -> hi <= length l -> length vals = hi - lo ->
  nth_error (set_slice lo hi vals l) i
  = if i <? lo then nth_error l i
    else if i <? hi then nth_error vals (i - lo)
    else nth_error l i.
Proof.
  intros H1 H2 H3. unfold set_slice.
  rewrite nth_error_app, length_firstn, Nat.min_l by lia.
  destruct (i <? lo) eqn:E1.
  - rewrite nth_error_firstn, E1. reflexivity.
  - apply Nat.ltb_ge in E1. rewrite nth_error_app, H3.
    destruct (i <? hi) eqn:E2.
    + apply Nat.ltb_lt in E2.
      destruct (i - lo <? hi - lo) eqn:E3; [reflexivity|].
      apply Nat.ltb_ge in E3. lia.
    + apply Nat.ltb_ge in E2.
      destruct (i - lo <? hi - lo) eqn:E3.
      * apply Nat.ltb_lt in E3. lia.
      * rewrite nth_error_skipn. f_equal. lia.
Qed.

Lemma broadcast_length {A} k (v : rhs A) :
  rhs_fits k v -> length (broadcast k v) = k.
Proof. destruct v; simpl; [intros _; apply repeat_length | auto]. Qed.

Lemma set_from_length {A} lo (v : rhs A) (l : list A) :
  lo <= length l -> rhs_fits (length l - lo) v ->
  length (set_from lo v l) = length l.
Proof.
  intros H1 H2. unfold set_from.
  rewrite length_app, length_firstn, broadcast_length by assumption. lia.
Qed.

Lemma set_from_nth_lt {A} lo (v : rhs A) (l : list A) i :
  lo <= length l -> i < lo ->
  nth_error (set_from lo v l) i = nth_error l i.
Proof.
  intros H1 H2. unfold set_from.
  rewrite nth_error_app1 by (rewrite length_firstn; lia).
  rewrite nth_error_firstn.
  destruct (i <? lo) eqn:E; [reflexivity|]. apply Nat.ltb_ge in E. lia.
Qed.

Section Window1.
Import Shooter.
Context {E : Type}.

(** What [step] does to one of the three arrays, seen through the window
    of the wave it returns: offset [j] of the new window is slot
    [n0 + 1 + j] of the array before the page is turned. *)
Lemma turn_window {A} (n0 N0 : nat) (arr : list A) (v : rhs A) (j : nat) :
  length arr = 2 * N0 -> n0 + 1 = N0 -> j < N0 ->
  nth_error
    (slice 0 N0 (set_from N0 v (set_slice 0 N0 (skipn N0 arr) arr))) j
  = nth_error arr (n0 + 1 + j).
Proof.
  intros Hlen Hn Hj.
  assert (Hl : length (set_slice 0 N0 (skipn N0 arr) arr) = 2 * N0).
  { rewrite set_slice_length; rewrite ?length_skipn; lia. }
  rewrite slice_nth. replace (j <? N0 - 0) with true
    by (symmetry; apply Nat.ltb_lt; lia).
  simpl (0 + j). rewrite set_from_nth_lt by lia.
  rewrite set_slice_nth by (rewrite ?length_skipn; lia).
  change (j <? 0) with false. cbv iota. replace (j <? N0) with true
    by (symmetry; apply Nat.ltb_lt; lia).
  rewrite nth_error_skipn. f_equal. lia.
Qed.

Lemma moved_nth (n0 m : nat) (xs vs : list Q) (i : nat) :
  n0 <= m -> m <= length xs -> length vs = length xs ->
  nth_error
    (set_slice n0 m (map2 Qplus (slice n0 m xs) (slice n0 m vs)) xs) i
  = if (n0 <=? i) && (i <? m)
    then match nth_error xs i, nth_error vs i with
         | Some x, Some v => Some (x + v)%Q
         | _, _ => None
         end
    else nth_error xs i.
Proof.
  intros H1 H2 H3.
  rewrite set_slice_nth;
    [| lia | lia
     | rewrite map2_length, !slice_length by lia; lia].
  destruct (i <? n0) eqn:E1.
  - apply Nat.ltb_lt in E1.
    replace (n0 <=? i) with false by (symmetry; apply Nat.leb_gt; lia).
    reflexivity.
  - apply Nat.ltb_ge in E1.
    replace (n0 <=? i) with true by (symmetry; apply Nat.leb_le; lia).
    simpl. destruct (i <? m) eqn:E2; [|reflexivity].
    apply Nat.ltb_lt in E2. rewrite map2_nth, !slice_nth.
    replace (i - n0 <? m - n0) with true
      by (symmetry; apply Nat.ltb_lt; lia).
    replace (n0 + (i - n0)) with i by lia. reflexivity.
Qed.

Lemma moved_length (n0 m : nat) (xs vs : list Q) :
  n0 <= m -> m <= length xs -> length vs = length xs ->
  length (set_slice n0 m (map2 Qplus (slice n0 m xs) (slice n0 m vs)) xs)
  = length xs.
Proof.
  intros H1 H2 H3. apply set_slice_length; try lia.
  rewrite map2_length, !slice_length by lia. lia.
Qed.

Variable newpage : Wave.t E -> result Wave.page.

Lemma step_inv (n0 N0 : nat) (w w' : Wave.t E) :
  Wave.step newpage n0 N0 w = Ok w' ->
  let w3 := Wave.set_xpos
              (set_slice n0 (n0 + N0)
                 (map2 Qplus (slice n0 (n0 + N0) (Wave.xpos w))
                    (slice n0 (n0 + N0) (Wave.xspeed w)))
                 (Wave.xpos w)) w in
  (n0 + 1 = N0 /\ exists p,
      newpage (Wave.shift_page N0 w3) = Ok p
      /\ w' = Wave.set_n 0 (Wave.install_page N0 p (Wave.shift_page N0 w3)))
  \/ (n0 + 1 <> N0 /\ w' = Wave.set_n (n0 + 1) w3).
Proof.
  intros H. cbv zeta. unfold Wave.step in H.
  destruct (n0 + 1 =? N0) eqn:En.
  - apply Nat.eqb_eq in En. inv_bind H. inv_Ok H. left. eauto.
  - apply Nat.eqb_neq in En. inv_Ok H. right. auto.
Qed.

Lemma step_fields (n0 N0 : nat) (w w' : Wave.t E) :
  Wave.step newpage n0 N0 w = Ok w' ->
  Wave.N w' = Wave.N w /\ Wave.ext w' = Wave.ext w
  /\ Wave.n w' = (if n0 + 1 =? N0 then 0 else n0 + 1).
Proof.
  intros H. destruct (step_inv _ _ _ _ H) as [(En & p & _ & ->) | (En & ->)].
  - apply Nat.eqb_eq in En. rewrite En. auto.
  - apply Nat.eqb_neq in En. rewrite En. auto.
Qed.

Lemma step_window_xpos (n0 N0 : nat) (w w' : Wave.t E) (j : nat) :
  length (Wave.xpos w) = 2 * N0 -> length (Wave.xspeed w) = 2 * N0 ->
  n0 < N0 -> Wave.N w = N0 -> j < N0 ->
  Wave.step newpage n0 N0 w = Ok w' ->
  nth_error (window_xpos w') j
  = if j <? N0 - 1
    then match nth_error (Wave.xpos w) (n0 + 1 + j),
               nth_error (Wave.xspeed w) (n0 + 1 + j) with
         | Some x, Some v => Some (x + v)%Q
         | _, _ => None
         end
    else nth_error (Wave.xpos w) (n0 + N0).
Proof.
  intros Hx Hv Hn HN Hj H.
  assert (Hmid : nth_error (window_xpos w') j
                 = nth_error
                     (set_slice n0 (n0 + N0)
                        (map2 Qplus (slice n0 (n0 + N0) (Wave.xpos w))
                           (slice n0 (n0 + N0) (Wave.xspeed w)))
                        (Wave.xpos w)) (n0 + 1 + j)).
  { destruct (step_inv _ _ _ _ H) as [(En & p & _ & ->) | (En & ->)];
      unfold window_xpos, Wave.current; simpl; rewrite HN.
    - apply turn_window; try assumption.
      rewrite moved_length; lia.
    - rewrite slice_nth.
      replace (j <? n0 + 1 + N0 - (n0 + 1)) with true
        by (symmetry; apply Nat.ltb_lt; lia).
      reflexivity. }
  rewrite Hmid, moved_nth by lia.
  replace (n0 <=? n0 + 1 + j) with true by (symmetry; apply Nat.leb_le; lia).
  simpl. destruct (j <? N0 - 1) eqn:Ej.
  - apply Nat.ltb_lt in Ej.
    replace (n0 + 1 + j <? n0 + N0) with true
      by (symmetry; apply Nat.ltb_lt; lia).
    reflexivity.
  - apply Nat.ltb_ge in Ej.
    replace (n0 + 1 + j <? n0 + N0) with false
      by (symmetry; apply Nat.ltb_ge; lia).
    f_equal. lia.
Qed.

Lemma step_window_visible (n0 N0 : nat) (w w' : Wave.t E) (j : nat) :
  length (Wave.visible w) = 2 * N0 ->
  n0 < N0 -> Wave.N w = N0 -> j < N0 ->
  Wave.step newpage n0 N0 w = Ok w' ->
  nth_error (window_visible w') j = nth_error (Wave.visible w) (n0 + 1 + j).
Proof.
  intros Hv Hn HN Hj H.
  destruct (step_inv _ _ _ _ H) as [(En & p & _ & ->) | (En & ->)];
    unfold window_visible, Wave.current; simpl; rewrite HN.
  - apply turn_window; assumption.
  - rewrite slice_nth.
    replace (j <? n0 + 1 + N0 - (n0 + 1)) with true
      by (symmetry; apply Nat.ltb_lt; lia).
    reflexivity.
Qed.

Lemma step_wf (n0 N0 : nat) (w w' : Wave.t E) :
  length (Wave.xpos w) = 2 * N0 -> length (Wave.xspeed w) = 2 * N0 ->
  length (Wave.visible w) = 2 * N0 ->
  n0 < N0 -> Wave.N w = N0 ->
  (forall w4 p, newpage w4 = Ok p -> page_fits (Wave.N w4) p) ->
  Wave.step newpage n0 N0 w = Ok w' ->
  Wave1_wf w'.
Proof.
  intros Hx Hs Hv Hn HN Hpage H.
  pose proof (moved_length n0 (n0 + N0) (Wave.xpos w) (Wave.xspeed w)
                ltac:(lia) ltac:(lia) ltac:(lia)) as Hm.
  destruct (step_inv _ _ _ _ H) as [(En & p & Hp & ->) | (En & ->)];
    unfold Wave1_wf; simpl; rewrite HN.
  - apply Hpage in Hp. simpl in Hp. rewrite HN in Hp.
    destruct Hp as (P1 & P2 & P3).
    assert (L : forall {A} (arr : list A) v,
               length arr = 2 * N0 -> rhs_fits N0 v ->
               length (set_from N0 v (set_slice 0 N0 (skipn N0 arr) arr))
               = 2 * N0).
    { intros A arr v Ha Hf.
      assert (Hl : length (set_slice 0 N0 (skipn N0 arr) arr) = 2 * N0).
      { rewrite set_slice_length; rewrite ?length_skipn; lia. }
      rewrite set_from_length; rewrite ?Hl; try lia.
      replace (2 * N0 - N0) with N0 by lia. assumption. }
    repeat split; try lia;
      (etransitivity; [apply L; [lia | assumption] | lia]).
  - repeat split; try assumption; try lia.
Qed.
End Window1.

Lemma set_nth_length {A} (l : list A) i x : length (set_nth l i x) = length l.
Proof.
  revert i. induction l as [|a l IH]; intros [|i]; simpl; auto.
Qed.

Lemma set_nth_nth {A} (l : list A) i x j :
  nth_error (set_nth l i x) j
  = if j =? i then (if i <? length l then Some x else None)
    else nth_error l j.
Proof.
  revert i j. induction l as [|a l IH]; intros [|i] [|j]; simpl; auto.
  all: try (destruct (j =? i); reflexivity).
  all: try (rewrite IH; reflexivity).
Qed.

Lemma store_Ok {A} (l : list A) i x l' :
  store l i x = Ok l' -> i < length l /\ l' = set_nth l i x.
Proof.
  unfold store. destruct (i <? length l) eqn:E; [|discriminate].
  apply Nat.ltb_lt in E. intros H. inv_Ok H. auto.
Qed.

Lemma store_lt {A} (l : list A) i x :
  i < length l -> store l i x = Ok (set_nth l i x).
Proof.
  intros H. unfold store. apply Nat.ltb_lt in H. rewrite H. reflexivity.
Qed.

Lemma fill_length {A} idx (v : A) l l' :
  fill idx v l = Ok l' -> length l' = length l.
Proof.
  revert l. induction idx as [|i idx IH]; intros l H; simpl in H.
  - inv_Ok H. reflexivity.
  - inv_bind H. apply store_Ok in Er. destruct Er as (_ & ->).
    rewrite (IH _ H). apply set_nth_length.
Qed.

Lemma py_fill_length {A} idx (v : A) l l' :
  py_fill idx v l = Ok l' -> length l' = length l.
Proof.
  revert l. induction idx as [|i idx IH]; intros l H; simpl in H.
  - inv_Ok H. reflexivity.
  - inv_bind H. rewrite (IH _ H).
    destruct (0 <=? i)%Z;
      [| destruct (- Z.of_nat (length l) <=? i)%Z; [|discriminate]];
      apply store_Ok in Er; destruct Er as (_ & ->); apply set_nth_length.
Qed.


Section Waves1.
Import Shooter.

Lemma Targets1_fire_inv n0 N0 (w w2 : Targets.t) g g2 :
  Wave.fire Targets.leaving (@Wave.pass Targets.ext) n0 N0 w g = Ok (w2, g2) ->
  exists vn vm,
    nth_error (Wave.visible w) n0 = Some vn
    /\ nth_error (Wave.visible w) (n0 + N0) = Some vm
    /\ w2 = (if vn : bool
             then Wave.set_ext
                    (Targets.mkExt (Targets.rate (Wave.ext w))
                       (Targets.width (Wave.ext w))
                       (Targets.score (Wave.ext w) + 1)) w
             else w)
    /\ g2 = (if vn : bool then set_tr_miss true g else g).
Proof.
  unfold Wave.fire. intros H. bind_inv H as vn Evn. apply index_Ok in Evn.
  bind_inv H as [w1 g1] Ew1. bind_inv H as vm Evm. apply index_Ok in Evm.
  exists vn, vm.
  assert (Hw1 : w1 = (if vn
                      then Wave.set_ext
                             (Targets.mkExt (Targets.rate (Wave.ext w))
                                (Targets.width (Wave.ext w))
                                (Targets.score (Wave.ext w) + 1)) w
                      else w)
                /\ g1 = (if vn then set_tr_miss true g else g)).
  { destruct vn; unfold Targets.leaving in Ew1; inv_Ok Ew1; auto. }
  destruct Hw1 as (-> & ->).
  assert (Hv : nth_error (Wave.visible w) (n0 + N0) = Some vm)
    by (destruct vn; exact Evm).
  destruct vm; unfold Wave.pass in H; inv_Ok H; auto.
Qed.

Lemma Bullets1_fire_inv n0 N0 (w w2 : Bullets.t) g g2 :
  Wave.fire (@Wave.pass Bullets.ext) Bullets.entering n0 N0 w g = Ok (w2, g2) ->
  exists vn vm,
    nth_error (Wave.visible w) n0 = Some vn
    /\ nth_error (Wave.visible w) (n0 + N0) = Some vm
    /\ g2 = g
    /\ w2 = (if vm : bool
             then Wave.set_xpos
                    (set_nth (Wave.xpos w) (n0 + N0) (Avatar.pos_x (avatar g))) w
             else w)
    /\ (vm = true -> n0 + N0 < length (Wave.xpos w)).
Proof.
  unfold Wave.fire. intros H. bind_inv H as vn Evn. apply index_Ok in Evn.
  bind_inv H as [w1 g1] Ew1. bind_inv H as vm Evm. apply index_Ok in Evm.
  exists vn, vm.
  assert (Hw1 : w1 = w /\ g1 = g)
    by (destruct vn; unfold Wave.pass in Ew1; inv_Ok Ew1; auto).
  destruct Hw1 as (-> & ->).
  destruct vm.
  - unfold Bullets.entering in H. bind_inv H as xp Exp. inv_Ok H.
    apply store_Ok in Exp. destruct Exp as (Hlt & ->). auto 10.
  - inv_Ok H. repeat split; auto. discriminate.
Qed.

Lemma Targets1_newpage_fits rnd (w : Targets.t) p :
  Targets.newpage rnd w = Ok p -> page_fits (Wave.N w) p.
Proof.
  unfold Targets.newpage. intros H. inv_Ok H.
  unfold page_fits, uniform_row; simpl.
  rewrite !length_map, map2_length, !length_map, !length_seq. lia.
Qed.

Lemma Bullets1_newpage_fits (w : Bullets.t) p :
  Bullets.newpage w = Ok p -> page_fits (Wave.N w) p.
Proof.
  unfold Bullets.newpage. intros H.
  bind_inv H as idx Eidx. bind_inv H as vis Evis. inv_Ok H.
  unfold page_fits; simpl. apply py_fill_length in Evis.
  rewrite Evis, repeat_length. auto.
Qed.

Lemma Targets1_update_wf rnd (w w' : Targets.t) g g' :
  Wave1_wf w -> Targets.update rnd w g = Ok (w', g') -> Wave1_wf w'.
Proof.
  intros (Hx & Hs & Hv & Hn) H.
  unfold Targets.update, Wave.update in H.
  bind_inv H as [w2 g2] Ef. bind_inv H as w3 Es. inv_Ok H.
  apply Targets1_fire_inv in Ef. destruct Ef as (vn & vm & _ & _ & -> & _).
  eapply step_wf; [| | | | | | exact Es]; try eassumption;
    try (destruct vn; simpl; assumption); try (destruct vn; reflexivity).
  intros w4 p. apply Targets1_newpage_fits.
Qed.

Lemma Bullets1_update_wf (w w' : Bullets.t) g g' :
  Wave1_wf w -> Bullets.update w g = Ok (w', g') -> Wave1_wf w'.
Proof.
  intros (Hx & Hs & Hv & Hn) H.
  unfold Bullets.update, Wave.update in H.
  bind_inv H as [w2 g2] Ef. bind_inv H as w3 Es. inv_Ok H.
  apply Bullets1_fire_inv in Ef.
  destruct Ef as (vn & vm & _ & _ & _ & -> & _).
  eapply step_wf; [| | | | | | exact Es]; try eassumption;
    try (destruct vm; simpl; rewrite ?set_nth_length; assumption);
    try (destruct vm; reflexivity).
  intros w4 p. apply Bullets1_newpage_fits.
Qed.


Lemma Bullets1_enter_at_avatar (w w' : Bullets.t) g g' :
  Wave1_wf w ->
  Bullets.update w g = Ok (w', g') ->
  nth_error (Wave.visible w) (Wave.n w + Wave.N w) = Some true ->
  nth_error (window_xpos w') (Wave.N w - 1) = Some (Avatar.pos_x (avatar g)).
Proof.
  intros (Hx & Hs & Hv & Hn) H Hvis.
  unfold Bullets.update, Wave.update in H.
  bind_inv H as [w2 g2] Ef. bind_inv H as w3 Es. inv_Ok H.
  apply Bullets1_fire_inv in Ef.
  destruct Ef as (vn & vm & _ & Hvm & _ & -> & Hlt).
  rewrite Hvis in Hvm. inv_Ok Hvm. specialize (Hlt eq_refl).
  pose proof (step_window_xpos Bullets.newpage (Wave.n w) (Wave.N w)
                (Wave.set_xpos
                   (set_nth (Wave.xpos w) (Wave.n w + Wave.N w)
                      (Avatar.pos_x (avatar g))) w)
                w' (Wave.N w - 1)) as HW.
  simpl in HW. rewrite set_nth_length in HW.
  specialize (HW Hx Hs Hn eq_refl ltac:(lia) Es).
  rewrite HW, Nat.ltb_irrefl.
  simpl. rewrite set_nth_nth, Nat.eqb_refl.
  apply Nat.ltb_lt in Hlt. rewrite Hlt. reflexivity.
Qed.

(** C10.  In shooter.py the part of [Wave.update] that follows the two
    hooks advances the slots [n, n+N) only: in the window it leaves, the
    offsets below [N-1] hold the positions of slots [n+1, n+N) plus their
    speeds, and the last offset holds the position of slot [n+N] as the
    hooks left it.  So a bullet made visible at its entry shows in the
    window at exactly the avatar's horizontal position captured by
    [entering]. *)
Theorem C10_entering_unmoved :
  (forall E (newpage : Wave.t E -> result Wave.page) n0 N0 (w w' : Wave.t E),
      length (Wave.xpos w) = 2 * N0 -> length (Wave.xspeed w) = 2 * N0 ->
      n0 < N0 -> Wave.N w = N0 ->
      Wave.step newpage n0 N0 w = Ok w' ->
      nth_error (window_xpos w') (N0 - 1) = nth_error (Wave.xpos w) (n0 + N0)
      /\ forall j, j < N0 - 1 ->
           nth_error (window_xpos w') j
           = match nth_error (Wave.xpos w) (n0 + 1 + j),
                   nth_error (Wave.xspeed w) (n0 + 1 + j) with
             | Some x, Some v => Some (x + v)%Q
             | _, _ => None
             end)
  /\ (forall (w w' : Bullets.t) g g',
        Wave1_wf w ->
        Bullets.update w g = Ok (w', g') ->
        nth_error (Wave.visible w) (Wave.n w + Wave.N w) = Some true ->
        nth_error (window_xpos w') (Wave.N w - 1)
        = Some (Avatar.pos_x (avatar g))).
Proof.
  split; [|exact Bullets1_enter_at_avatar].
  intros E newpage n0 N0 w w' Hx Hs Hn HN H. split.
  - rewrite (step_window_xpos newpage n0 N0 w w' (N0 - 1)) by (auto; lia).
    rewrite Nat.ltb_irrefl. reflexivity.
  - intros j Hj.
    rewrite (step_window_xpos newpage n0 N0 w w' j) by (auto; lia).
    apply Nat.ltb_lt in Hj. rewrite Hj. reflexivity.
Qed.

Lemma C10_entering_unmoved_witness :
  nth_error (window_xpos (fst demo_bullets_update)) 1
  = Some (Avatar.pos_x (avatar (Game.shared (demo_game 0)))).
Proof.
  exact (proj2 C10_entering_unmoved
           (Game.bullets (demo_game 0)) (fst demo_bullets_update)
           (Game.shared (demo_game 0)) (snd demo_bullets_update)
           ltac:(vm_compute; repeat split; lia)
           ltac:(vm_compute; reflexivity)
           ltac:(vm_compute; reflexivity)).
Defined.
End Waves1.

(* ================================================================== *)
(** * shooter2.py: the alive-index list of a wave *)
(* ================================================================== *)

Lemma gather_map {A} (l : list A) idx r (d : A) :
  gather l idx = Ok r -> r = map (fun i => nth i l d) idx.
Proof.
  revert r. induction idx as [|i idx IH]; intros r H; unfold gather in *;
    simpl in H.
  - inv_Ok H. reflexivity.
  - bind_inv H as a Ea. bind_inv H as r' Er'. inv_Ok H. simpl. f_equal.
    + apply index_Ok in Ea. symmetry. apply nth_error_nth. exact Ea.
    + apply IH. exact Er'.
Qed.

Lemma gather_valid {A} (l : list A) idx r :
  gather l idx = Ok r -> Forall (fun i => i < length l) idx.
Proof.
  revert r. induction idx as [|i idx IH]; intros r H; unfold gather in *;
    simpl in H; [constructor|].
  bind_inv H as a Ea. bind_inv H as r' Er'. constructor; [|eauto].
  apply index_Ok in Ea. apply nth_error_Some. congruence.
Qed.

Lemma gather_total {A} (l : list A) idx (d : A) :
  Forall (fun i => i < length l) idx ->
  gather l idx = Ok (map (fun i => nth i l d) idx).
Proof.
  intros H. destruct (gather_ok l idx H) as (r & Hr).
  rewrite Hr. f_equal. apply gather_map. exact Hr.
Qed.

Lemma scatter_length {A} idx (vals l l' : list A) :
  scatter idx vals l = Ok l' -> length l' = length l.
Proof.
  revert vals l. induction idx as [|i idx IH]; intros [|v vals] l H;
    simpl in H; try (inv_Ok H; reflexivity).
  bind_inv H as l1 E1. apply store_Ok in E1. destruct E1 as (_ & ->).
  rewrite (IH _ _ H). apply set_nth_length.
Qed.

Lemma scatter_ok {A} idx (vals l : list A) :
  Forall (fun i => i < length l) idx -> exists l', scatter idx vals l = Ok l'.
Proof.
  revert vals l. induction idx as [|i idx IH]; intros [|v vals] l H; simpl;
    eauto.
  inversion H as [|? ? Hi Hidx]; subst. rewrite store_lt by assumption. simpl.
  apply IH. rewrite set_nth_length. exact Hidx.
Qed.

Lemma select_mask_map {A B} (f : A -> B) l mask :
  select_mask (map f l) mask = map f (select_mask l mask).
Proof.
  revert mask. induction l as [|a l IH]; intros [|b mask]; simpl; auto.
  destruct b; simpl; rewrite IH; reflexivity.
Qed.

Lemma select_mask_Forall {A} (P : A -> Prop) l mask :
  Forall P l -> Forall P (select_mask l mask).
Proof.
  intros H. revert mask. induction H as [|a l Ha _ IH]; intros [|b mask];
    simpl; auto.
  destruct b; auto.
Qed.

Lemma select_mask_sorted l mask :
  StronglySorted Z.lt l -> StronglySorted Z.lt (select_mask l mask).
Proof.
  intros H. revert mask. induction H as [|a l _ IH Ha]; intros [|b mask];
    simpl; try constructor.
  destruct b; auto. constructor; auto. apply select_mask_Forall. exact Ha.
Qed.

Lemma select_mask_length {A} (l : list A) mask :
  length l = length mask -> length (select_mask l mask) = count_true mask.
Proof.
  revert mask. induction l as [|a l IH]; intros [|b mask] H; simpl in *;
    try discriminate; auto.
  rewrite count_true_cons. destruct b; simpl; rewrite IH by lia; reflexivity.
Qed.

Lemma select_mask_In {A} (l : list A) mask a :
  In a (select_mask l mask) ->
  exists k, nth_error l k = Some a /\ nth_error mask k = Some true.
Proof.
  revert mask. induction l as [|x l IH]; intros [|b mask] H; simpl in H;
    try contradiction.
  destruct b.
  - destruct H as [-> | H].
    + exists 0. auto.
    + destruct (IH _ H) as (k & Hk). exists (S k). exact Hk.
  - destruct (IH _ H) as (k & Hk). exists (S k). exact Hk.
Qed.

(** Distinct integers of an interval are no more than its length. *)
Lemma sorted_bounded (l : list Z) (lo hi : Z) :
  (lo <= hi)%Z -> StronglySorted Z.lt l ->
  Forall (fun b => (lo <= b < hi)%Z) l ->
  (Z.of_nat (length l) <= hi - lo)%Z.
Proof.
  intros Hlh Hs. revert lo Hlh. induction Hs as [|a l _ IH Ha]; intros lo Hlh Hb.
  - simpl. lia.
  - inversion Hb as [|? ? Hab Hbl]; subst.
    assert (Hl : Forall (fun b => (a + 1 <= b < hi)%Z) l).
    { rewrite Forall_forall in *. intros b Hin.
      specialize (Ha b Hin). specialize (Hbl b Hin). lia. }
    specialize (IH (a + 1)%Z ltac:(lia) Hl).
    simpl length. lia.
Qed.

Lemma sorted_snoc (l : list Z) (x : Z) :
  StronglySorted Z.lt l -> Forall (fun b => (b < x)%Z) l ->
  StronglySorted Z.lt (l ++ [x]).
Proof.
  intros Hs. induction Hs as [|a l _ IH Ha]; intros Hb; simpl.
  - constructor; constructor.
  - inversion Hb; subst. constructor; auto.
    apply Forall_app. split; [exact Ha | constructor; auto].
Qed.

Section Wave2.
Import Shooter2.
Context {E : Type}.
Variables leaving entering :
  nat -> Wave.t E -> Shooter.Shared -> result (Wave.t E * Shooter.Shared).
Variable newcontent : nat -> Z -> Wave.t E -> result (Wave.t E).

Hypothesis leaving_frame :
  forall i w g w' g', leaving i w g = Ok (w', g') -> hook_frame w w'.
Hypothesis entering_frame :
  forall i w g w' g', entering i w g = Ok (w', g') -> hook_frame w w'.
(** [good] is what the wave needs of the attributes of its subclass. *)
Variable good : E -> Prop.
Hypothesis leaving_good :
  forall i w g w' g', leaving i w g = Ok (w', g') ->
                      good (Wave.ext w) -> good (Wave.ext w').
Hypothesis entering_good :
  forall i w g w' g', entering i w g = Ok (w', g') ->
                      good (Wave.ext w) -> good (Wave.ext w').
Hypothesis newcontent_spec :
  forall n t w w',
    newcontent n t w = Ok w' -> good (Wave.ext w) ->
    n <= Wave.M w ->
    length (Wave.born w) = Wave.M w ->
    length (Wave.xpos w) = Wave.M w ->
    length (Wave.xspeed w) = Wave.M w ->
    content_ok n t w w'.

Lemma set_ialive_same (w : Wave.t E) : Wave.set_ialive (Wave.ialive w) w = w.
Proof. destruct w; reflexivity. Qed.

Lemma expire_spec (w : Wave.t E) g w1 g1 n1 :
  Wave.expire leaving (fst (Wave.cslice w)) w g = Ok (w1, g1, n1) ->
  exists w',
    (if expire_fires w
     then exists i, hd_error (Wave.current w) = Some i
                    /\ leaving i w g = Ok (w', g1)
     else w' = w /\ g1 = g)
    /\ n1 = count_true (expire_mask w)
    /\ n1 = length (select_mask (Wave.current w) (expire_mask w))
    /\ w1 = Wave.set_ialive
              (set_slice 0 n1 (select_mask (Wave.current w) (expire_mask w))
                 (Wave.ialive w')) w'.
Proof.
  unfold Wave.expire. intros H.
  destruct (0 <? Wave.nalive w) eqn:En.
  - fold (Wave.current w) in H.
    bind_inv H as s Es. bind_inv H as a0 Ea0. bind_inv H as b0 Eb0.
    bind_inv H as [[w' g'] s1] Ehook. bind_inv H as kept Ekept.
    apply Ok_inj in H.
    rewrite (gather_map _ _ _ false Es) in *. clear Es.
    apply index_Ok in Ea0, Eb0.
    destruct (Wave.current w) as [|i rest] eqn:Ecur; [discriminate|].
    simpl in Ea0. inv_Ok Ea0.
    assert (Hb0 : nth a0 (Wave.born w) 0%Z = b0)
      by (apply nth_error_nth; exact Eb0).
    assert (Hhook :
              (if expire_fires w
               then exists i, hd_error (a0 :: rest) = Some i
                              /\ leaving i w g = Ok (w', g')
               else w' = w /\ g' = g)
              /\ s1 = expire_mask w).
    { unfold expire_mask, expire_fires. rewrite Ecur, Hb0.
      destruct (b0 =? fst (Wave.cslice w))%Z.
      - bind_inv Ehook as s0 Es0. apply index_Ok in Es0. simpl in Es0.
        inv_Ok Es0. simpl andb.
        destruct (nth a0 (Wave.alive w) false).
        + bind_inv Ehook as [w2 g2] El.
          apply Ok_inj in Ehook. injection Ehook as <- <- <-.
          split; [exists a0; auto | reflexivity].
        + apply Ok_inj in Ehook. injection Ehook as <- <- <-. simpl. auto.
      - apply Ok_inj in Ehook. injection Ehook as <- <- <-. simpl. auto. }
    destruct Hhook as (Hhook & ->).
    assert (Hia : Wave.ialive w' = Wave.ialive w).
    { destruct (expire_fires w).
      - destruct Hhook as (i & _ & Hl). apply leaving_frame in Hl.
        unfold hook_frame in Hl. tauto.
      - destruct Hhook as (-> & _). reflexivity. }
    rewrite Hia in Ekept. fold (Wave.current w) in Ekept.
    rewrite Ecur in Ekept.
    apply select_Ok in Ekept. destruct Ekept as (Hlen & ->).
    exists w'. injection H as <- <- <-.
    assert (Hg : (if expire_fires w
                  then exists i, hd_error (a0 :: rest) = Some i
                                 /\ leaving i w g = Ok (w', g')
                  else w' = w /\ g' = g)) by exact Hhook.
    repeat split; auto.
    symmetry. apply select_mask_length. exact Hlen.
  - apply Nat.ltb_ge in En. inv_Ok H.
    assert (Ecur : Wave.current w1 = []).
    { unfold Wave.current. replace (Wave.nalive w1) with 0 by lia.
      reflexivity. }
    assert (Hn0 : Wave.nalive w1 = 0) by lia.
    exists w1. unfold expire_mask, expire_fires. rewrite Ecur, Hn0. simpl.
    repeat split.
    unfold set_slice. simpl. symmetry. apply set_ialive_same.
Qed.

Lemma hook_frame_refl (w : Wave.t E) : hook_frame w w.
Proof. unfold hook_frame. repeat split. Qed.

Lemma expire_frame (w : Wave.t E) g w1 g1 n1 :
  Wave.expire leaving (fst (Wave.cslice w)) w g = Ok (w1, g1, n1) ->
  exists w',
    hook_frame w w'
    /\ n1 = length (select_mask (Wave.current w) (expire_mask w))
    /\ w1 = Wave.set_ialive
              (set_slice 0 n1 (select_mask (Wave.current w) (expire_mask w))
                 (Wave.ialive w)) w'.
Proof.
  intros H. apply expire_spec in H.
  destruct H as (w' & Hhook & _ & Hn & Hw).
  assert (Hf : hook_frame w w').
  { destruct (expire_fires w).
    - destruct Hhook as (i & _ & Hl). eapply leaving_frame; eauto.
    - destruct Hhook as (-> & _). apply hook_frame_refl. }
  exists w'. split; [exact Hf|]. split; [exact Hn|].
  rewrite Hw. f_equal. f_equal. unfold hook_frame in Hf. tauto.
Qed.

(** The compaction keeps alive sprites only. *)
Lemma expire_mask_alive (w : Wave.t E) (i : nat) :
  In i (select_mask (Wave.current w) (expire_mask w)) ->
  In i (Wave.current w) /\ nth i (Wave.alive w) false = true.
Proof.
  intros H. apply select_mask_In in H. destruct H as (k & Hk & Hm).
  split; [eapply nth_error_In; eauto|].
  assert (Hs : nth_error
                 (map (fun i => nth i (Wave.alive w) false) (Wave.current w)) k
               = Some true).
  { unfold expire_mask in Hm. destruct (expire_fires w); [|exact Hm].
    rewrite set_nth_nth in Hm. destruct (k =? 0); [|exact Hm].
    destruct (0 <? _); discriminate. }
  rewrite nth_error_map, Hk in Hs. simpl in Hs. congruence.
Qed.

Lemma kept_window (bs : list Z) (mask : list bool) (tbeg tend : Z) :
  StronglySorted Z.lt bs ->
  Forall (fun b => (tbeg <= b < tend)%Z) bs ->
  (forall b0, hd_error bs = Some b0 -> hd_error mask = Some true ->
              b0 <> tbeg) ->
  Forall (fun b => (tbeg + 1 <= b < tend)%Z) (select_mask bs mask).
Proof.
  intros Hs Hw Hhd. destruct bs as [|b0 bs]; [constructor|].
  destruct mask as [|m0 mask]; [constructor|].
  inversion Hs as [|? ? _ Hlt]; subst. inversion Hw as [|? ? Hb0 Hbs]; subst.
  assert (Hrest : Forall (fun b => (tbeg + 1 <= b < tend)%Z)
                    (select_mask bs mask)).
  { apply select_mask_Forall. rewrite Forall_forall in *.
    intros b Hin. specialize (Hlt b Hin). specialize (Hbs b Hin). lia. }
  simpl. destruct m0; [|exact Hrest].
  constructor; [|exact Hrest].
  specialize (Hhd b0 eq_refl eq_refl). lia.
Qed.

Lemma expire_mask_head (w : Wave.t E) (b0 : Z) :
  hd_error (births w) = Some b0 ->
  hd_error (expire_mask w) = Some true ->
  b0 <> fst (Wave.cslice w).
Proof.
  unfold births, births_upto, expire_mask, expire_fires.
  fold (Wave.current w).
  destruct (Wave.current w) as [|i rest]; [discriminate|].
  simpl. intros Hb. inv_Ok Hb.
  destruct (nth i (Wave.born w) 0 =? fst (Wave.cslice w))%Z eqn:Eb;
    simpl.
  - destruct (nth i (Wave.alive w) false); simpl; discriminate.
  - intros _. apply Z.eqb_neq. exact Eb.
Qed.

Lemma set_slice_head {A} n (kept l : list A) :
  length kept = n -> firstn n (set_slice 0 n kept l) = kept.
Proof.
  intros H. unfold set_slice. simpl.
  rewrite firstn_app, H, Nat.sub_diag. simpl.
  rewrite app_nil_r. rewrite <- H. apply firstn_all.
Qed.

Lemma set_slice_head_length {A} n (kept l : list A) :
  length kept = n -> n <= length l ->
  length (set_slice 0 n kept l) = length l.
Proof.
  intros H Hn. apply set_slice_length; lia.
Qed.

Lemma expire_core (w : Wave.t E) g w1 g1 n1 :
  Wave2_inv w ->
  Wave.expire leaving (fst (Wave.cslice w)) w g = Ok (w1, g1, n1) ->
  Wave2_core w1 n1 (fst (Wave.cslice w) + 1) (snd (Wave.cslice w))
  /\ n1 < Wave.N w
  /\ Wave.N w1 = Wave.N w
  /\ Wave.cslice w1 = Wave.cslice w
  /\ Wave.alive w1 = Wave.alive w
  /\ Wave.born w1 = Wave.born w
  /\ Wave.tborn w1 = Wave.tborn w
  /\ Wave.nborn w1 = Wave.nborn w
  /\ firstn n1 (Wave.ialive w1)
     = select_mask (Wave.current w) (expire_mask w).
Proof.
  intros (Hc & Hcs) H. apply expire_frame in H.
  destruct H as (w' & Hf & Hn & ->).
  destruct Hf as (fN & fM & fborn & falive & fialive & fnalive & fnborn
                  & ftborn & fcslice & fxpos & fxspeed).
  destruct Hc as [cM cN cborn cxpos cxspeed calive cialive cnborn ctborn
                    cnext cfuture ccount cadm cwin csort].
  set (kept := select_mask (Wave.current w) (expire_mask w)) in *.
  assert (Hb : map (fun i => nth i (Wave.born w) 0%Z) kept
               = select_mask (births w) (expire_mask w)).
  { unfold kept, births, births_upto. fold (Wave.current w).
    symmetry. apply select_mask_map. }
  assert (Hwin : Forall (fun b => (fst (Wave.cslice w) + 1 <= b
                                   < snd (Wave.cslice w))%Z)
                   (map (fun i => nth i (Wave.born w) 0%Z) kept)).
  { rewrite Hb. apply kept_window; auto. apply expire_mask_head. }
  assert (Hsort : StronglySorted Z.lt
                    (map (fun i => nth i (Wave.born w) 0%Z) kept)).
  { rewrite Hb. apply select_mask_sorted. exact csort. }
  assert (Hlt : n1 < Wave.N w).
  { pose proof (sorted_bounded _ (fst (Wave.cslice w) + 1)
                  (snd (Wave.cslice w)) ltac:(lia) Hsort Hwin) as Hbd.
    rewrite length_map in Hbd. lia. }
  assert (Hhead : firstn n1
                    (set_slice 0 n1 kept (Wave.ialive w)) = kept)
    by (apply set_slice_head; auto).
  repeat split; simpl; try congruence; try lia.
  all: try exact Hhead.
  - rewrite set_slice_head_length; auto; lia.
  - rewrite fnborn, fborn. exact cfuture.
  - rewrite Hhead, fnborn. apply select_mask_Forall. exact cadm.
  - unfold births_upto. simpl. rewrite Hhead, fborn. exact Hwin.
  - unfold births_upto. simpl. rewrite Hhead, fborn. exact Hsort.
Qed.

Lemma firstn_set_nth {A} (l : list A) n x :
  firstn n (set_nth l n x) = firstn n l.
Proof.
  revert n. induction l as [|a l IH]; intros [|n]; simpl; auto.
  rewrite IH. reflexivity.
Qed.

Lemma firstn_set_nth_snoc {A} (l : list A) n x :
  n < length l -> firstn (n + 1) (set_nth l n x) = firstn n l ++ [x].
Proof.
  revert n. induction l as [|a l IH]; intros [|n] H; simpl in *; try lia.
  - reflexivity.
  - rewrite IH by lia. reflexivity.
Qed.

Lemma map_nth_seq {A} (l : list A) (d : A) n :
  n <= length l -> map (fun i => nth i l d) (seq 0 n) = firstn n l.
Proof.
  revert l. induction n as [|n IH]; intros l H; [reflexivity|].
  destruct l as [|a l]; simpl in H; [lia|].
  simpl. f_equal. rewrite <- seq_shift, map_map. apply IH. lia.
Qed.

Lemma recycle_spec (n : nat) (tend : Z) (w w' : Wave.t E) :
  Wave.recycle newcontent n tend w = Ok w' ->
  good (Wave.ext w) -> n <= Wave.M w ->
  length (Wave.born w) = Wave.M w -> length (Wave.xpos w) = Wave.M w ->
  length (Wave.xspeed w) = Wave.M w -> n <= length (Wave.ialive w) ->
  Wave.N w' = Wave.N w /\ Wave.M w' = Wave.M w
  /\ Wave.nalive w' = Wave.nalive w /\ Wave.cslice w' = Wave.cslice w
  /\ Wave.tborn w' = Wave.tborn w /\ Wave.ext w' = Wave.ext w
  /\ Wave.nborn w' = n
  /\ Wave.ialive w' = set_slice 0 n (seq 0 n) (Wave.ialive w)
  /\ Wave.alive w' = map (fun _ => true) (Wave.alive w)
  /\ length (Wave.born w') = length (Wave.born w)
  /\ length (Wave.xpos w') = length (Wave.xpos w)
  /\ length (Wave.xspeed w') = length (Wave.xspeed w)
  /\ firstn n (Wave.born w')
     = map (fun i => nth i (Wave.born w) 0%Z) (firstn n (Wave.ialive w))
  /\ (forall i b, n <= i -> nth_error (Wave.born w') i = Some b ->
                  (tend < b)%Z)
  /\ (forall i j a b, n <= i -> i < j ->
        nth_error (Wave.born w') i = Some a ->
        nth_error (Wave.born w') j = Some b -> (a < b)%Z).
Proof.
  unfold Wave.recycle. intros H Hg HM Hb Hx Hs Hi.
  bind_inv H as bo Ebo. bind_inv H as xp Exp. bind_inv H as xs Exs.
  bind_inv H as w6 E6. inv_Ok H.
  simpl in Exp, Exs.
  pose proof (gather_length _ _ _ Ebo) as Lbo.
  pose proof (gather_length _ _ _ Exp) as Lxp.
  pose proof (gather_length _ _ _ Exs) as Lxs.
  rewrite length_firstn, Nat.min_l in Lbo, Lxp, Lxs by lia.
  rewrite (gather_map _ _ _ 0%Z Ebo) in *.
  apply newcontent_spec in E6;
    [| simpl; rewrite ?set_slice_head_length; auto; lia ..].
  destruct E6 as (eN & eM & ealive & eialive & enalive & enborn & etborn
                  & ecslice & eext & exl & esl & ebl & ehead & eafter & einc).
  simpl in *.
  repeat split; simpl; try congruence.
  - rewrite ebl. apply set_slice_head_length; auto; lia.
  - rewrite exl. apply set_slice_head_length; auto; lia.
  - rewrite esl. apply set_slice_head_length; auto; lia.
  - rewrite ehead. apply set_slice_head. exact Lbo.
  - exact eafter.
  - exact einc.
Qed.

Lemma arrive_core (w1 : Wave.t E) g1 n1 lo tend w2 g2 n2 :
  Wave2_core w1 n1 lo tend -> (lo <= tend)%Z -> n1 < Wave.N w1 ->
  good (Wave.ext w1) ->
  Wave.arrive entering newcontent tend n1 w1 g1 = Ok (w2, g2, n2) ->
  Wave2_core w2 n2 lo (tend + 1)
  /\ Wave.N w2 = Wave.N w1
  /\ Wave.cslice w2 = Wave.cslice w1
  /\ n2 = (if (Wave.tborn w1 =? tend)%Z then n1 + 1 else n1)
  /\ births_upto n2 w2
     = births_upto n1 w1
       ++ (if (Wave.tborn w1 =? tend)%Z then [tend] else []).
Proof.
  intros Hc Hlo Hn1 Hg H.
  destruct Hc as [cM cN cborn cxpos cxspeed calive cialive cnborn ctborn
                    cnext cfuture ccount cadm cwin csort].
  unfold Wave.arrive in H. destruct (Wave.tborn w1 =? tend)%Z eqn:Et.
  - apply Z.eqb_eq in Et.
    bind_inv H as ia Eia. apply store_Ok in Eia. destruct Eia as (Hlt & ->).
    simpl in H. bind_inv H as [w' g'] Eent.
    pose proof (entering_good _ _ _ _ _ Eent Hg) as Hg'.
    apply entering_frame in Eent.
    destruct Eent as (fN & fM & fborn & falive & fialive & fnalive & fnborn
                      & ftborn & fcslice & fxpos & fxspeed).
    simpl in *.
    bind_inv H as w4 E4. bind_inv H as tb Etb. apply index_Ok in Etb.
    apply Ok_inj in H. injection H as <- <- <-.
    assert (Hcur : firstn (n1 + 1) (Wave.ialive w')
                   = firstn n1 (Wave.ialive w1) ++ [Wave.nborn w1]).
    { rewrite fialive. apply firstn_set_nth_snoc. lia. }
    assert (Hbirths : map (fun i => nth i (Wave.born w1) 0%Z)
                        (firstn (n1 + 1) (Wave.ialive w'))
                      = births_upto n1 w1 ++ [tend]).
    { rewrite Hcur, map_app. simpl. unfold births_upto. do 2 f_equal.
      rewrite <- Et. apply nth_error_nth. exact ctborn. }
    assert (Hwin' : Forall (fun b => (lo <= b < tend + 1)%Z)
                      (births_upto n1 w1 ++ [tend])).
    { apply Forall_app. split.
      - eapply Forall_impl; [|exact cwin]. simpl. intros; lia.
      - constructor; [lia | constructor]. }
    assert (Hsort' : StronglySorted Z.lt (births_upto n1 w1 ++ [tend])).
    { apply sorted_snoc; auto.
      eapply Forall_impl; [|exact cwin]. simpl. intros; lia. }
    destruct (Wave.nborn w' + 1 =? Wave.M w') eqn:EM.
    + apply Nat.eqb_eq in EM.
      apply recycle_spec in E4;
        [| first [exact Hg'
                 | simpl; rewrite ?fborn, ?fxpos, ?fxspeed, ?fialive,
                     ?set_nth_length; lia] ..].
      destruct E4 as (rN & rM & rnalive & rcslice & rtborn & rext & rnborn
                      & rialive & ralive & rbl & rxl & rsl & rhead & rafter
                      & rinc).
      simpl in *.
      assert (Hlen4 : length (Wave.ialive w4) = Wave.N w1).
      { rewrite rialive, set_slice_head_length;
          rewrite ?length_seq; try lia;
          rewrite fialive, set_nth_length; lia. }
      assert (Hcur4 : firstn (n1 + 1) (Wave.ialive w4) = seq 0 (n1 + 1)).
      { rewrite rialive. apply set_slice_head. apply length_seq. }
      assert (Hb4 : births_upto (n1 + 1) (Wave.set_tborn tb w4)
                    = births_upto n1 w1 ++ [tend]).
      { unfold births_upto. simpl.
        rewrite Hcur4, map_nth_seq by (rewrite rbl, fborn, cborn; lia).
        rewrite rhead, fborn. exact Hbirths. }
      assert (Htb : (tend < tb)%Z).
      { apply (rafter (Wave.nborn w4) tb); [lia | exact Etb]. }
      assert (A1 : length (Wave.alive w4) = Wave.M w4)
        by (rewrite ralive, length_map; congruence).
      assert (A2 : forall i j a b, Wave.nborn w4 <= i -> i < j ->
                     nth_error (Wave.born w4) i = Some a ->
                     nth_error (Wave.born w4) j = Some b -> (a < b)%Z)
        by (rewrite rnborn; exact rinc).
      assert (A3 : Forall (fun i => i < Wave.nborn w4)
                     (firstn (n1 + 1) (Wave.ialive w4))).
      { rewrite Hcur4, rnborn. apply Forall_forall. intros i Hi.
        apply in_seq in Hi. lia. }
      rewrite <- Hb4 in Hwin', Hsort'.
      split; [| split; [simpl; congruence
                       | split; [simpl; congruence
                                | split; [reflexivity | exact Hb4]]]].
      constructor; simpl;
        solve [assumption | congruence | lia | rewrite rnborn; exact Etb].
    + apply Nat.eqb_neq in EM. apply Ok_inj in E4. subst w4. simpl in *.
      assert (Hb4 : births_upto (n1 + 1)
                      (Wave.set_tborn tb (Wave.set_nborn (Wave.nborn w' + 1) w'))
                    = births_upto n1 w1 ++ [tend]).
      { unfold births_upto. simpl. rewrite fborn. exact Hbirths. }
      assert (Htb : (tend < tb)%Z).
      { rewrite <- Et. apply (cfuture (Wave.nborn w1) (Wave.nborn w1 + 1));
          try lia; congruence. }
      assert (A1 : length (Wave.ialive w') = Wave.N w')
        by (rewrite fialive, set_nth_length; congruence).
      assert (A2 : forall i j a b, Wave.nborn w' + 1 <= i -> i < j ->
                     nth_error (Wave.born w') i = Some a ->
                     nth_error (Wave.born w') j = Some b -> (a < b)%Z)
        by (intros i j a b Hi Hj; rewrite fborn; apply cfuture; lia).
      assert (A3 : Forall (fun i => i < Wave.nborn w' + 1)
                     (firstn (n1 + 1) (Wave.ialive w'))).
      { rewrite Hcur. apply Forall_app. split.
        - eapply Forall_impl; [|exact cadm]. simpl. intros; lia.
        - constructor; [lia | constructor]. }
      rewrite <- Hb4 in Hwin', Hsort'.
      split; [| split; [simpl; congruence
                       | split; [simpl; congruence
                                | split; [reflexivity | exact Hb4]]]].
      constructor; simpl; solve [assumption | congruence | lia].
  - apply Ok_inj in H. injection H as <- <- <-.
    apply Z.eqb_neq in Et. rewrite app_nil_r.
    split; [|repeat split].
    constructor; auto; try lia.
    eapply Forall_impl; [|exact cwin]. simpl. intros; lia.
Qed.

Lemma expire_good (w : Wave.t E) g w1 g1 n1 :
  Wave.expire leaving (fst (Wave.cslice w)) w g = Ok (w1, g1, n1) ->
  good (Wave.ext w) -> good (Wave.ext w1).
Proof.
  intros H Hg. apply expire_spec in H.
  destruct H as (w' & Hhook & _ & _ & ->). simpl.
  destruct (expire_fires w).
  - destruct Hhook as (i & _ & Hl). eapply leaving_good; eauto.
  - destruct Hhook as (-> & _). exact Hg.
Qed.

Lemma core_transfer (w w' : Wave.t E) n lo hi :
  Wave2_core w n lo hi ->
  Wave.N w' = Wave.N w -> Wave.M w' = Wave.M w ->
  Wave.born w' = Wave.born w ->
  length (Wave.xpos w') = length (Wave.xpos w) ->
  length (Wave.xspeed w') = length (Wave.xspeed w) ->
  length (Wave.alive w') = length (Wave.alive w) ->
  Wave.ialive w' = Wave.ialive w ->
  Wave.nborn w' = Wave.nborn w -> Wave.tborn w' = Wave.tborn w ->
  Wave2_core w' n lo hi.
Proof.
  intros [cM cN cborn cxpos cxspeed calive cialive cnborn ctborn
            cnext cfuture ccount cadm cwin csort] eN eM eb ex es ea ei enb etb.
  unfold births_upto in *.
  constructor; unfold births_upto; rewrite ?eN, ?eM, ?eb, ?ei, ?enb, ?etb;
    solve [assumption | congruence | lia].
Qed.

Lemma advance_spec (w w3 : Wave.t E) :
  Wave.advance w = Ok w3 ->
  exists xp, length xp = length (Wave.xpos w) /\ w3 = Wave.set_xpos xp w.
Proof.
  unfold Wave.advance. intros H. destruct (0 <? Wave.nalive w).
  - bind_inv H as xa Exa. bind_inv H as va Eva. bind_inv H as xp Exp.
    inv_Ok H. exists xp. split; [|reflexivity].
    eapply scatter_length; eauto.
  - inv_Ok H. exists (Wave.xpos w3). split; [reflexivity|].
    destruct w3; reflexivity.
Qed.

Lemma births_select (w w1 : Wave.t E) n1 :
  Wave.born w1 = Wave.born w ->
  firstn n1 (Wave.ialive w1) = select_mask (Wave.current w) (expire_mask w) ->
  births_upto n1 w1 = select_mask (births w) (expire_mask w).
Proof.
  intros Hb Hf. unfold births_upto, births, births_upto.
  fold (Wave.current w). rewrite Hb, Hf. symmetry. apply select_mask_map.
Qed.

(** One update keeps the invariant; the births of the new alive-index
    list are those the compaction kept, then the one admitted. *)
Lemma update_inv (w : Wave.t E) g w' g' :
  Wave2_inv w -> good (Wave.ext w) ->
  Wave.update leaving entering newcontent w g = Ok (w', g') ->
  Wave2_inv w'
  /\ Wave.N w' = Wave.N w
  /\ Wave.cslice w'
     = ((fst (Wave.cslice w) + 1)%Z, (snd (Wave.cslice w) + 1)%Z)
  /\ births w'
     = select_mask (births w) (expire_mask w)
       ++ (if (Wave.tborn w =? snd (Wave.cslice w))%Z
           then [snd (Wave.cslice w)] else []).
Proof.
  intros Hinv Hg H. unfold Wave.update in H.
  destruct (Wave.cslice w) as [tbeg tend] eqn:Ecs.
  bind_inv H as [[w1 g1] n1] E1. bind_inv H as [[w2 g2] n2] E2.
  bind_inv H as w3 E3. apply Ok_inj in H. injection H as <- <-.
  replace tbeg with (fst (Wave.cslice w)) in E1 by (rewrite Ecs; reflexivity).
  pose proof (expire_good _ _ _ _ _ E1 Hg) as Hg1.
  pose proof (expire_core _ _ _ _ _ Hinv E1)
    as (Hc1 & Hn1 & eN1 & ecs1 & eal1 & ebo1 & etb1 & enb1 & ecur1).
  destruct Hinv as (Hc & Hcs). rewrite Ecs in *. simpl in *.
  pose proof (arrive_core _ _ _ _ _ _ _ _ Hc1 ltac:(lia) ltac:(lia) Hg1 E2)
    as (Hc2 & eN2 & ecs2 & en2 & eb2).
  apply advance_spec in E3. destruct E3 as (xp & Lxp & ->).
  simpl. split; [|split; [congruence | split; [reflexivity|]]].
  - split; simpl; [| rewrite eN2, eN1; lia].
    eapply core_transfer; [exact Hc2 | | | | | | | | |]; simpl; auto.
  - unfold births. simpl.
    replace (births_upto n2 _) with (births_upto n2 w2) by reflexivity.
    rewrite eb2, etb1. f_equal.
    apply births_select; assumption.
Qed.

(** *** No update raises *)

Hypothesis leaving_total :
  forall i w g, exists w' g', leaving i w g = Ok (w', g').
Hypothesis entering_total :
  forall i w g, i < length (Wave.xpos w) ->
                exists w' g', entering i w g = Ok (w', g').
Hypothesis newcontent_total :
  forall n t w, n <= Wave.M w -> good (Wave.ext w) ->
                exists w', newcontent n t w = Ok w'.
Lemma expire_ok (w : Wave.t E) g :
  Wave2_inv w ->
  exists w1 g1 n1,
    Wave.expire leaving (fst (Wave.cslice w)) w g = Ok (w1, g1, n1).
Proof.
  intros (Hc & _).
  destruct Hc as [cM cN cborn cxpos cxspeed calive cialive cnborn ctborn
                    cnext cfuture ccount cadm cwin csort].
  unfold Wave.expire. destruct (0 <? Wave.nalive w) eqn:En; [|eauto].
  apply Nat.ltb_lt in En. fold (Wave.current w) in *.
  assert (Hlen : length (Wave.current w) = Wave.nalive w).
  { unfold Wave.current. rewrite length_firstn. lia. }
  rewrite (gather_total _ _ false)
    by (eapply Forall_impl; [|exact cadm]; simpl; intros; lia).
  simpl bind.
  destruct (Wave.current w) as [|a0 rest] eqn:Ecur; [simpl in Hlen; lia|].
  inversion cadm as [|? ? Ha0 _]; subst.
  change (index (a0 :: rest) 0) with (Ok a0). cbn [bind].
  destruct (index_lt (Wave.born w) a0 ltac:(lia)) as (b0 & ->). cbn [bind].
  assert (Hsel : forall (w' : Wave.t E) s,
             Wave.ialive w' = Wave.ialive w ->
             length s = length (a0 :: rest) ->
             exists kept,
               select (firstn (Wave.nalive w) (Wave.ialive w')) s = Ok kept).
  { intros w' s Hia Hs. rewrite Hia. fold (Wave.current w). rewrite Ecur.
    unfold select. rewrite Hs, Nat.eqb_refl. eauto. }
  assert (Hs0 : index (map (fun i => nth i (Wave.alive w) false) (a0 :: rest)) 0
                = Ok (nth a0 (Wave.alive w) false)) by reflexivity.
  assert (Hsl : length (map (fun i => nth i (Wave.alive w) false) (a0 :: rest))
                = length (a0 :: rest)) by apply length_map.
  destruct (b0 =? fst (Wave.cslice w))%Z.
  - rewrite Hs0. cbn [bind].
    destruct (nth a0 (Wave.alive w) false).
    + destruct (leaving_total a0 w g) as (w' & g' & Hl). rewrite Hl.
      cbn [bind].
      match goal with
      | |- context [select _ ?s] => destruct (Hsel w' s) as (kept & ->)
      end.
      * apply leaving_frame in Hl. unfold hook_frame in Hl. tauto.
      * rewrite set_nth_length. exact Hsl.
      * cbn [bind]. eauto.
    + cbn [bind].
      match goal with
      | |- context [select _ ?s] => destruct (Hsel w s) as (kept & ->)
      end; [reflexivity | exact Hsl |].
      cbn [bind]. eauto.
  - cbn [bind].
    match goal with
    | |- context [select _ ?s] => destruct (Hsel w s) as (kept & ->)
    end; [reflexivity | exact Hsl |].
    cbn [bind]. eauto.
Qed.

Lemma recycle_ok (n : nat) (tend : Z) (w : Wave.t E) :
  Forall (fun i => i < length (Wave.born w)) (firstn n (Wave.ialive w)) ->
  length (Wave.xpos w) = length (Wave.born w) ->
  length (Wave.xspeed w) = length (Wave.born w) ->
  n <= Wave.M w -> good (Wave.ext w) ->
  exists w', Wave.recycle newcontent n tend w = Ok w'.
Proof.
  intros Hidx Hx Hs Hn Hg. unfold Wave.recycle.
  rewrite (gather_total _ _ 0%Z) by exact Hidx. cbn [bind].
  rewrite (gather_total _ _ 0%Q) by (simpl; rewrite Hx; exact Hidx).
  cbn [bind].
  rewrite (gather_total _ _ 0%Q) by (simpl; rewrite Hs; exact Hidx).
  cbn [bind].
  match goal with
  | |- context [newcontent n tend ?w5] =>
      destruct (newcontent_total n tend w5) as (w6 & ->)
  end; [exact Hn | exact Hg |].
  cbn [bind]. eauto.
Qed.

Lemma arrive_ok (w1 : Wave.t E) g1 n1 lo tend :
  Wave2_core w1 n1 lo tend -> n1 < Wave.N w1 -> good (Wave.ext w1) ->
  exists w2 g2 n2,
    Wave.arrive entering newcontent tend n1 w1 g1 = Ok (w2, g2, n2)
    /\ good (Wave.ext w2).
Proof.
  intros Hc Hn1 Hg.
  destruct Hc as [cM cN cborn cxpos cxspeed calive cialive cnborn ctborn
                    cnext cfuture ccount cadm cwin csort].
  unfold Wave.arrive. destruct (Wave.tborn w1 =? tend)%Z; [|eauto 6].
  rewrite store_lt by lia. cbn [bind].
  match goal with
  | |- context [entering ?i ?w] =>
      destruct (entering_total i w g1) as (w' & g' & He)
  end; [simpl; lia|].
  rewrite He. cbn [bind].
  pose proof (entering_good _ _ _ _ _ He Hg) as Hg'.
  apply entering_frame in He.
  destruct He as (fN & fM & fborn & falive & fialive & fnalive & fnborn
                  & ftborn & fcslice & fxpos & fxspeed).
  simpl in *.
  assert (Hidx : Forall (fun i => i < length (Wave.born w'))
                   (firstn (n1 + 1) (Wave.ialive w'))).
  { rewrite fialive, firstn_set_nth_snoc by lia. apply Forall_app. split.
    - eapply Forall_impl; [|exact cadm]. simpl. intros. rewrite fborn. lia.
    - constructor; [rewrite fborn; lia | constructor]. }
  destruct (Wave.nborn w' + 1 =? Wave.M w') eqn:EM.
  - destruct (recycle_ok (n1 + 1) tend
                (Wave.set_nborn (Wave.nborn w' + 1) w'))
      as (w4 & E4); simpl; try assumption; try lia.
    + rewrite fxpos, fborn. lia.
    + rewrite fxspeed, fborn. lia.
    + rewrite E4. cbn [bind].
      apply recycle_spec in E4;
        [| first [exact Hg'
                 | simpl; rewrite ?fborn, ?fxpos, ?fxspeed, ?fialive,
                     ?set_nth_length; lia] ..].
      destruct E4 as (rN & rM & rnalive & rcslice & rtborn & rext & rnborn
                      & rialive & ralive & rbl & rxl & rsl & _).
      simpl in *.
      destruct (index_lt (Wave.born w4) (Wave.nborn w4)) as (tb & ->).
      { rewrite rbl, fborn, rnborn. lia. }
      cbn [bind]. do 3 eexists. split; [reflexivity|]. simpl. congruence.
  - apply Nat.eqb_neq in EM. cbn [bind].
    destruct (index_lt (Wave.born w') (Wave.nborn w' + 1)) as (tb & Htb).
    { rewrite fborn. lia. }
    simpl. rewrite Htb. cbn [bind].
    do 3 eexists. split; [reflexivity|]. simpl. exact Hg'.
Qed.

Lemma advance_ok (w : Wave.t E) :
  Forall (fun i => i < length (Wave.xpos w))
    (firstn (Wave.nalive w) (Wave.ialive w)) ->
  length (Wave.xspeed w) = length (Wave.xpos w) ->
  exists w3, Wave.advance w = Ok w3.
Proof.
  intros Hidx Hs. unfold Wave.advance.
  destruct (0 <? Wave.nalive w); [|eauto].
  rewrite (gather_total _ _ 0%Q) by exact Hidx. cbn [bind].
  rewrite (gather_total _ _ 0%Q) by (rewrite Hs; exact Hidx). cbn [bind].
  match goal with
  | |- context [scatter ?a ?v ?l] =>
      destruct (scatter_ok a v l Hidx) as (xp & ->)
  end.
  cbn [bind]. eauto.
Qed.

(** One update of a wave that satisfies the invariant raises nothing: in
    particular the write [self.ialive[n]] is within the array. *)
Lemma update_ok (w : Wave.t E) g :
  Wave2_inv w -> good (Wave.ext w) ->
  exists w' g',
    Wave.update leaving entering newcontent w g = Ok (w', g')
    /\ good (Wave.ext w').
Proof.
  intros Hinv Hg. unfold Wave.update.
  destruct (Wave.cslice w) as [tbeg tend] eqn:Ecs.
  destruct (expire_ok w g Hinv) as (w1 & g1 & n1 & E1).
  pose proof (expire_good _ _ _ _ _ E1 Hg) as Hg1.
  pose proof (expire_core _ _ _ _ _ Hinv E1)
    as (Hc1 & Hn1 & eN1 & ecs1 & eal1 & ebo1 & etb1 & enb1 & ecur1).
  rewrite Ecs in E1, Hc1. simpl in E1, Hc1. rewrite E1. cbn [bind].
  destruct (arrive_ok w1 g1 n1 _ _ Hc1 ltac:(lia) Hg1)
    as (w2 & g2 & n2 & E2 & Hg2).
  rewrite E2. cbn [bind].
  destruct Hinv as (Hc & Hcs). rewrite Ecs in Hcs. simpl in Hcs.
  pose proof (arrive_core _ _ _ _ _ _ _ _ Hc1 ltac:(lia) ltac:(lia) Hg1 E2)
    as (Hc2 & eN2 & ecs2 & en2 & eb2).
  destruct Hc2 as [cM cN cborn cxpos cxspeed calive cialive cnborn ctborn
                     cnext cfuture ccount cadm cwin csort].
  destruct (advance_ok (Wave.set_nalive n2 w2)) as (w3 & E3).
  { simpl. eapply Forall_impl; [|exact cadm]. simpl. intros. lia. }
  { simpl. lia. }
  rewrite E3. cbn [bind]. do 2 eexists. split; [reflexivity|].
  apply advance_spec in E3. destruct E3 as (xp & _ & ->). simpl. exact Hg2.
Qed.

(** *** Construction *)

Lemma zeros_Ok {A} (z : A) k l :
  zeros z k = Ok l -> (0 <= k)%Z /\ l = repeat z (Z.to_nat k).
Proof.
  unfold zeros. destruct (k <? 0)%Z eqn:Ek; [discriminate|].
  apply Z.ltb_ge in Ek. intros H. inv_Ok H. auto.
Qed.

Lemma init_inv fps v orient e (w : Wave.t E) :
  Wave.init newcontent fps v orient e = Ok w ->
  good e -> Wave2_inv w /\ good (Wave.ext w).
Proof.
  unfold Wave.init. intros H Hg.
  bind_inv H as q Eq. remember (py_int q) as Nz eqn:ENz.
  remember (2 * Nz)%Z as Mz eqn:EMz.
  bind_inv H as bo Ebo. bind_inv H as xp Exp.
  bind_inv H as xs Exs. bind_inv H as al Eal. bind_inv H as ia Eia.
  bind_inv H as w1 E1. bind_inv H as tb Etb. bind_inv H as yp Eyp.
  apply Ok_inj in H. subst w.
  apply zeros_Ok in Ebo, Exp, Exs, Eal, Eia.
  destruct Ebo as (HM & ->), Exp as (_ & ->), Exs as (_ & ->),
           Eal as (_ & ->), Eia as (HN & ->).
  apply newcontent_spec in E1;
    simpl; rewrite ?repeat_length; try lia; try exact Hg.
  destruct E1 as (eN & eM & ealive & eialive & enalive & enborn & etborn
                  & ecslice & eext & exl & esl & ebl & ehead & eafter & einc).
  simpl in eN, eM, ealive, eialive, enalive, enborn, etborn, ecslice,
    eext, exl, esl, ebl, ehead, eafter, einc, Etb |- *.
  rewrite repeat_length in *.
  apply index_Ok in Etb.
  assert (HM0 : 0 < length (Wave.born w1))
    by (apply nth_error_Some; congruence).
  assert (Htb : (Nz - 1 < tb)%Z) by (apply (eafter 0 tb); [lia | exact Etb]).
  split; [|simpl; congruence].
  split; simpl; [|rewrite ecslice, eN; simpl; lia].
  rewrite ecslice, enalive. simpl.
  constructor; simpl; unfold births_upto; simpl;
    rewrite ?length_map, ?eN, ?eM, ?enborn, ?eialive, ?repeat_length;
    try solve [assumption | lia | constructor].
  all: try (rewrite ealive, repeat_length; lia).
  all: try (intros i j a b _; apply einc; lia).
Qed.

Lemma struck_inv (w : Wave.t E) al :
  Wave2_inv w -> length al = length (Wave.alive w) ->
  Wave2_inv (Wave.set_alive al w).
Proof.
  intros (Hc & Hcs) Hl. split; [|exact Hcs]. simpl.
  eapply core_transfer; [exact Hc | ..]; simpl; auto.
Qed.

End Wave2.

(* ================================================================== *)
(** * shooter2.py: targets and bullets *)
(* ================================================================== *)

Lemma set_from_firstn {A} lo (v : rhs A) (l : list A) :
  lo <= length l -> firstn lo (set_from lo v l) = firstn lo l.
Proof.
  intros H. unfold set_from.
  rewrite firstn_app, length_firstn, Nat.min_l, Nat.sub_diag by lia.
  simpl. rewrite app_nil_r. apply firstn_firstn_same || idtac.
  rewrite firstn_firstn. f_equal. lia.
Qed.

Lemma set_from_nth_ge {A} lo (vals l : list A) i :
  lo <= length l -> lo <= i ->
  nth_error (set_from lo (Array vals) l) i = nth_error vals (i - lo).
Proof.
  intros H Hi. unfold set_from. simpl.
  rewrite nth_error_app2; rewrite length_firstn, Nat.min_l by lia; auto.
Qed.

Lemma cumsum_from_length acc l : length (cumsum_from acc l) = length l.
Proof. revert acc. induction l; intros acc; simpl; auto. Qed.

Lemma cumsum_from_above acc l i b :
  Forall (fun x => (0 < x)%Z) l ->
  nth_error (cumsum_from acc l) i = Some b -> (acc < b)%Z.
Proof.
  intros H. revert acc i. induction H as [|x l Hx _ IH]; intros acc i Hb.
  - destruct i; discriminate.
  - destruct i as [|i]; simpl in Hb.
    + inv_Ok Hb. lia.
    + apply IH in Hb. lia.
Qed.

Lemma cumsum_from_increasing acc l i j a b :
  Forall (fun x => (0 < x)%Z) l -> i < j ->
  nth_error (cumsum_from acc l) i = Some a ->
  nth_error (cumsum_from acc l) j = Some b -> (a < b)%Z.
Proof.
  intros H. revert acc i j. induction H as [|x l Hx Hl IH]; intros acc i j Hij Ha Hb.
  - destruct i; discriminate.
  - destruct j as [|j]; [lia|]. destruct i as [|i]; simpl in Ha, Hb.
    + inv_Ok Ha. eapply cumsum_from_above; eauto.
    + eapply IH; [| exact Ha | exact Hb]. lia.
Qed.

Lemma geometric_draw_positive rnd k :
  Forall (fun x => (0 < x)%Z) (geometric_draw rnd k).
Proof.
  unfold geometric_draw. apply Forall_forall. intros x Hx.
  apply in_map_iff in Hx. destruct Hx as (j & <- & _). lia.
Qed.

Lemma arange_unit (k : nat) :
  arange 1 (Z.of_nat k + 1) 1
  = Ok (map (fun j => (1 + Z.of_nat j * 1)%Z) (seq 0 k)).
Proof.
  unfold arange. simpl Z.eqb. cbv iota.
  replace (- (- (Z.of_nat k + 1 - 1) / 1))%Z with (Z.of_nat k)
    by (rewrite Z.div_1_r; lia).
  rewrite Nat2Z.id. reflexivity.
Qed.

Ltac wave2_fields :=
  cbn [Shooter2.Wave.N Shooter2.Wave.M Shooter2.Wave.orient Shooter2.Wave.born
       Shooter2.Wave.xpos Shooter2.Wave.xspeed Shooter2.Wave.alive
       Shooter2.Wave.ialive Shooter2.Wave.nalive Shooter2.Wave.nborn
       Shooter2.Wave.tborn Shooter2.Wave.ypos Shooter2.Wave.cslice
       Shooter2.Wave.ext Shooter2.Wave.set_born Shooter2.Wave.set_xpos
       Shooter2.Wave.set_xspeed Shooter2.Wave.set_alive
       Shooter2.Wave.set_ialive Shooter2.Wave.set_nalive
       Shooter2.Wave.set_nborn Shooter2.Wave.set_tborn Shooter2.Wave.set_ypos
       Shooter2.Wave.set_cslice Shooter2.Wave.set_ext Shooter2.Wave.revive].

Ltac wave2_fields_in H :=
  cbn [Shooter2.Wave.N Shooter2.Wave.M Shooter2.Wave.orient Shooter2.Wave.born
       Shooter2.Wave.xpos Shooter2.Wave.xspeed Shooter2.Wave.alive
       Shooter2.Wave.ialive Shooter2.Wave.nalive Shooter2.Wave.nborn
       Shooter2.Wave.tborn Shooter2.Wave.ypos Shooter2.Wave.cslice
       Shooter2.Wave.ext Shooter2.Wave.set_born Shooter2.Wave.set_xpos
       Shooter2.Wave.set_xspeed Shooter2.Wave.set_alive
       Shooter2.Wave.set_ialive Shooter2.Wave.set_nalive
       Shooter2.Wave.set_nborn Shooter2.Wave.set_tborn Shooter2.Wave.set_ypos
       Shooter2.Wave.set_cslice Shooter2.Wave.set_ext Shooter2.Wave.revive]
    in H.

Section Waves2.
Import Shooter2.

Lemma pass_frame {E} i (w : Wave.t E) g w' g' :
  Wave.pass i w g = Ok (w', g') -> hook_frame w w'.
Proof.
  unfold Wave.pass. intros H. inv_Ok H. unfold hook_frame. repeat split.
Qed.

Lemma pass_ext {E} i (w : Wave.t E) g w' g' :
  Wave.pass i w g = Ok (w', g') -> Wave.ext w' = Wave.ext w.
Proof. unfold Wave.pass. intros H. inv_Ok H. reflexivity. Qed.

Lemma pass_total {E} i (w : Wave.t E) g :
  exists w' g', Wave.pass i w g = Ok (w', g').
Proof. unfold Wave.pass. eauto. Qed.

(** *** Targets *)

Lemma Targets2_leaving_frame i (w : Targets.t) g w' g' :
  Targets.leaving i w g = Ok (w', g') -> hook_frame w w'.
Proof.
  unfold Targets.leaving. intros H. inv_Ok H. unfold hook_frame.
  repeat split.
Qed.

Lemma Targets2_leaving_good i (w : Targets.t) g w' g' :
  Targets.leaving i w g = Ok (w', g') ->
  Targets2_good (Wave.ext w) -> Targets2_good (Wave.ext w').
Proof. unfold Targets.leaving. intros H. inv_Ok H. auto. Qed.

Lemma Targets2_leaving_total i (w : Targets.t) g :
  exists w' g', Targets.leaving i w g = Ok (w', g').
Proof. unfold Targets.leaving. eauto. Qed.

Lemma Targets2_newcontent_spec rnd n t (w w' : Targets.t) :
  Targets.newcontent rnd n t w = Ok w' -> Targets2_good (Wave.ext w) ->
  n <= Wave.M w ->
  length (Wave.born w) = Wave.M w ->
  length (Wave.xpos w) = Wave.M w ->
  length (Wave.xspeed w) = Wave.M w ->
  content_ok n t w w'.
Proof.
  unfold Targets.newcontent. intros H _ Hn Hb Hx Hs.
  destruct (Wave.M w <? n); [discriminate|]. simpl in H.
  destruct (Qlt_bool 0 _ && Qle_bool _ 1); [|discriminate].
  inv_Ok H. unfold content_ok. simpl.
  repeat split.
  - apply set_from_length; [lia|]. simpl. unfold uniform_row.
    rewrite length_map, length_seq. lia.
  - apply set_from_length; [lia|]. simpl. unfold uniform_row.
    rewrite length_map, map2_length, !length_map, !length_seq. lia.
  - apply set_from_length; [lia|]. simpl. unfold cumsum, geometric_draw.
    rewrite length_map, cumsum_from_length, length_map, length_seq. lia.
  - apply set_from_firstn. lia.
  - intros i b Hi. rewrite set_from_nth_ge by lia.
    rewrite nth_error_map. unfold cumsum.
    destruct (nth_error _ (i - n)) as [c|] eqn:Ec; [|discriminate].
    simpl. intros Hc. inv_Ok Hc.
    apply cumsum_from_above in Ec; [lia | apply geometric_draw_positive].
  - intros i j a b Hi Hij. rewrite !set_from_nth_ge by lia.
    rewrite !nth_error_map. unfold cumsum.
    destruct (nth_error _ (i - n)) as [c|] eqn:Ec; [|discriminate].
    destruct (nth_error _ (j - n)) as [d|] eqn:Ed; [|discriminate].
    simpl. intros Ha Hd. inv_Ok Ha. inv_Ok Hd.
    assert (c < d)%Z; [|lia].
    eapply cumsum_from_increasing;
      [apply geometric_draw_positive | | exact Ec | exact Ed]. lia.
Qed.

Lemma Targets2_newcontent_total rnd n t (w : Targets.t) :
  n <= Wave.M w -> Targets2_good (Wave.ext w) ->
  exists w', Targets.newcontent rnd n t w = Ok w'.
Proof.
  unfold Targets.newcontent, Targets2_good. intros Hn Hg.
  replace (Wave.M w <? n) with false by (symmetry; apply Nat.ltb_ge; lia).
  simpl. rewrite Hg. eauto.
Qed.

(** *** Bullets *)

Lemma Bullets2_entering_frame i (w : Bullets.t) g w' g' :
  Bullets.entering i w g = Ok (w', g') -> hook_frame w w'.
Proof.
  unfold Bullets.entering. intros H. bind_inv H as xp Exp. inv_Ok H.
  apply store_Ok in Exp. destruct Exp as (_ & ->).
  unfold hook_frame. simpl. rewrite set_nth_length. repeat split.
Qed.

Lemma Bullets2_entering_good i (w : Bullets.t) g w' g' :
  Bullets.entering i w g = Ok (w', g') ->
  Bullets2_good (Wave.ext w) -> Bullets2_good (Wave.ext w').
Proof.
  unfold Bullets.entering. intros H. bind_inv H as xp Exp. inv_Ok H. auto.
Qed.

Lemma Bullets2_entering_total i (w : Bullets.t) g :
  i < length (Wave.xpos w) -> exists w' g', Bullets.entering i w g = Ok (w', g').
Proof.
  intros H. unfold Bullets.entering. rewrite store_lt by exact H.
  simpl. eauto.
Qed.

Lemma Bullets2_newcontent_Ok n t (w : Bullets.t) :
  n <= Wave.M w ->
  Bullets.newcontent n t w
  = Ok (Wave.set_born
          (set_from n
             (Array (map (fun j => (t + Bullets.rload (Wave.ext w)
                                        * Z.succ (Z.of_nat j))%Z)
                       (seq 0 (Wave.M w - n))))
             (Wave.born w))
          (Wave.set_xspeed (set_from n (Scalar 0%Q) (Wave.xspeed w))
             (Wave.set_xpos (set_from n (Scalar (1 # 2)%Q) (Wave.xpos w)) w))).
Proof.
  intros Hn. unfold Bullets.newcontent.
  cbn [Wave.M Wave.set_xspeed Wave.set_xpos].
  replace (Z.of_nat (Wave.M w) - Z.of_nat n + 1)%Z
    with (Z.of_nat (Wave.M w - n) + 1)%Z by lia.
  rewrite arange_unit. cbn [bind]. do 4 f_equal.
  rewrite map_map. apply map_ext. intros j. do 2 f_equal. lia.
Qed.

Lemma Bullets2_newcontent_spec n t (w w' : Bullets.t) :
  Bullets.newcontent n t w = Ok w' -> Bullets2_good (Wave.ext w) ->
  n <= Wave.M w ->
  length (Wave.born w) = Wave.M w ->
  length (Wave.xpos w) = Wave.M w ->
  length (Wave.xspeed w) = Wave.M w ->
  content_ok n t w w'.
Proof.
  intros H Hg Hn Hb Hx Hs. rewrite Bullets2_newcontent_Ok in H by exact Hn.
  inv_Ok H. unfold content_ok, Bullets2_good in *. wave2_fields.
  repeat split.
  - apply set_from_length; [lia | exact I].
  - apply set_from_length; [lia | exact I].
  - apply set_from_length; [lia|]. cbn [rhs_fits].
    rewrite !length_map, length_seq. lia.
  - apply set_from_firstn. lia.
  - intros i b Hi. rewrite set_from_nth_ge by lia.
    rewrite !nth_error_map, nth_error_seq.
    destruct (i - n <? Wave.M w - n); [|discriminate].
    unfold option_map. intros Hc. inv_Ok Hc.
    match goal with
    | |- (t < t + ?r * ?k)%Z =>
        assert (0 < r * k)%Z by (apply Z.mul_pos_pos; [idtac|]; lia); lia
    end.
  - intros i j a b Hi Hij. rewrite !set_from_nth_ge by lia.
    rewrite !nth_error_map, !nth_error_seq.
    destruct (i - n <? Wave.M w - n); [|discriminate].
    destruct (j - n <? Wave.M w - n); [|discriminate].
    unfold option_map. intros Ha Hd. inv_Ok Ha. inv_Ok Hd.
    match goal with
    | |- (t + ?r * ?k1 < t + ?r * ?k2)%Z =>
        assert (r * k1 < r * k2)%Z by (apply Z.mul_lt_mono_pos_l; lia); lia
    end.
Qed.

Lemma Bullets2_newcontent_total n t (w : Bullets.t) :
  n <= Wave.M w -> Bullets2_good (Wave.ext w) ->
  exists w', Bullets.newcontent n t w = Ok w'.
Proof. intros Hn _. rewrite Bullets2_newcontent_Ok by exact Hn. eauto. Qed.

Lemma pass_good {E} (good : E -> Prop) i (w : Wave.t E) g w' g' :
  Wave.pass i w g = Ok (w', g') -> good (Wave.ext w) -> good (Wave.ext w').
Proof. unfold Wave.pass. intros H. inv_Ok H. auto. Qed.

Lemma Targets2_update_ok rnd (w : Targets.t) g :
  Wave2_inv w -> Targets2_good (Wave.ext w) ->
  exists w' g', Targets.update rnd w g = Ok (w', g')
                /\ Targets2_good (Wave.ext w').
Proof.
  exact (update_ok Targets.leaving (@Wave.pass _) (Targets.newcontent rnd)
           Targets2_leaving_frame (@pass_frame _) Targets2_good
           Targets2_leaving_good (@pass_good _ Targets2_good)
           (Targets2_newcontent_spec rnd) Targets2_leaving_total
           (fun i w g _ => pass_total i w g)
           (Targets2_newcontent_total rnd) w g).
Qed.

Lemma Targets2_update_inv rnd (w w' : Targets.t) g g' :
  Wave2_inv w -> Targets2_good (Wave.ext w) ->
  Targets.update rnd w g = Ok (w', g') ->
  Wave2_inv w' /\ Targets2_good (Wave.ext w')
  /\ Wave.N w' = Wave.N w
  /\ Wave.cslice w'
     = ((fst (Wave.cslice w) + 1)%Z, (snd (Wave.cslice w) + 1)%Z)
  /\ births w'
     = select_mask (births w) (expire_mask w)
       ++ (if (Wave.tborn w =? snd (Wave.cslice w))%Z
           then [snd (Wave.cslice w)] else []).
Proof.
  intros Hinv Hg H.
  destruct (Targets2_update_ok rnd w g Hinv Hg) as (w2 & g2 & E2 & Hg2).
  rewrite H in E2. inv_Ok E2.
  pose proof (update_inv Targets.leaving (@Wave.pass _)
                (Targets.newcontent rnd)
                Targets2_leaving_frame (@pass_frame _) Targets2_good
                Targets2_leaving_good (@pass_good _ Targets2_good)
                (Targets2_newcontent_spec rnd) w g w2 g2 Hinv Hg H)
    as (Hi & HN & Hcs & Hb).
  auto.
Qed.

Lemma Bullets2_update_ok (w : Bullets.t) g :
  Wave2_inv w -> Bullets2_good (Wave.ext w) ->
  exists w' g', Bullets.update w g = Ok (w', g')
                /\ Bullets2_good (Wave.ext w').
Proof.
  exact (update_ok (@Wave.pass _) Bullets.entering Bullets.newcontent
           (@pass_frame _) Bullets2_entering_frame Bullets2_good
           (@pass_good _ Bullets2_good) Bullets2_entering_good
           Bullets2_newcontent_spec (@pass_total _)
           Bullets2_entering_total Bullets2_newcontent_total w g).
Qed.

Lemma Bullets2_update_inv (w w' : Bullets.t) g g' :
  Wave2_inv w -> Bullets2_good (Wave.ext w) ->
  Bullets.update w g = Ok (w', g') ->
  Wave2_inv w' /\ Bullets2_good (Wave.ext w') /\ Wave.N w' = Wave.N w
  /\ births w'
     = select_mask (births w) (expire_mask w)
       ++ (if (Wave.tborn w =? snd (Wave.cslice w))%Z
           then [snd (Wave.cslice w)] else []).
Proof.
  intros Hinv Hg H.
  destruct (Bullets2_update_ok w g Hinv Hg) as (w2 & g2 & E2 & Hg2).
  rewrite H in E2. inv_Ok E2.
  pose proof (update_inv (@Wave.pass _) Bullets.entering Bullets.newcontent
                (@pass_frame _) Bullets2_entering_frame Bullets2_good
                (@pass_good _ Bullets2_good) Bullets2_entering_good
                Bullets2_newcontent_spec w g w2 g2 Hinv Hg H)
    as (Hi & HN & Hcs & Hb).
  auto.
Qed.

(** *** Construction *)

Lemma Wave2_init_content {E} nc fps v orient (e : E) w :
  Wave.init nc fps v orient e = Ok w ->
  exists w0 w1 t,
    Wave.ext w0 = e /\ Wave.nalive w0 = 0
    /\ Wave.cslice w0 = (0%Z, (t + 1)%Z)
    /\ (0 <= t + 1)%Z
    /\ Wave.M w0 = Z.to_nat (2 * (t + 1))
    /\ nc 0 t w0 = Ok w1
    /\ (exists tb yp,
          nth_error (Wave.born w1) 0 = Some tb
          /\ w = Wave.set_ypos yp (Wave.set_tborn tb (Wave.revive w1))).
Proof.
  unfold Wave.init. intros H.
  bind_inv H as q Eq. remember (py_int q) as Nz eqn:ENz.
  remember (2 * Nz)%Z as Mz eqn:EMz.
  bind_inv H as bo Ebo. bind_inv H as xp Exp.
  bind_inv H as xs Exs. bind_inv H as al Eal. bind_inv H as ia Eia.
  bind_inv H as w1 E1. bind_inv H as tb Etb. bind_inv H as yp Eyp.
  apply Ok_inj in H. subst w. apply zeros_Ok in Eia. destruct Eia as (HN & _).
  apply index_Ok in Etb.
  match type of E1 with
  | nc 0 _ ?w0 = _ => exists w0, w1, (Nz - 1)%Z
  end.
  split; [reflexivity|].
  split; [reflexivity|]. cbn [Wave.cslice Wave.M].
  replace (Nz - 1 + 1)%Z with Nz by lia.
  repeat split; try lia; try exact E1; try (subst Mz; reflexivity).
  exists tb, yp. auto.
Qed.

Lemma Targets2_newcontent_good rnd n t (w w' : Targets.t) :
  Targets.newcontent rnd n t w = Ok w' -> Targets2_good (Wave.ext w).
Proof.
  unfold Targets.newcontent, Targets2_good. intros H.
  destruct (Wave.M w <? n); [discriminate|]. cbn [Wave.ext Wave.set_xspeed
    Wave.set_xpos] in H.
  destruct (Qlt_bool 0 _ && Qle_bool _ 1); [reflexivity | discriminate].
Qed.

Lemma Targets2_init_inv rnd fps v rate width (w0 : Targets.t) :
  Targets.init rnd fps v rate width = Ok w0 ->
  Wave2_inv w0 /\ Targets2_good (Wave.ext w0).
Proof.
  unfold Targets.init. intros H. bind_inv H as r Er.
  pose proof (Wave2_init_content _ _ _ _ _ _ H)
    as (w & w1 & t & He & _ & _ & _ & _ & Hnc & _).
  apply Targets2_newcontent_good in Hnc. rewrite He in Hnc.
  exact (init_inv (Targets.newcontent rnd) Targets2_good
           (Targets2_newcontent_spec rnd) _ _ _ _ _ H Hnc).
Qed.

Lemma Bullets2_init_inv fps v rload (w0 : Bullets.t) :
  Bullets.init fps v rload = Ok w0 ->
  (1 <= py_int (rload * inject_Z fps))%Z ->
  Wave2_inv w0 /\ Bullets2_good (Wave.ext w0).
Proof.
  unfold Bullets.init. intros H Hr.
  exact (init_inv Bullets.newcontent Bullets2_good
           Bullets2_newcontent_spec _ _ _ _ _ H Hr).
Qed.

Lemma Bullets2_init_idle fps v rload (w0 : Bullets.t) :
  Bullets.init fps v rload = Ok w0 ->
  (py_int (rload * inject_Z fps) <= 0)%Z ->
  Wave2_idle w0.
Proof.
  unfold Bullets.init. intros H Hr.
  pose proof (Wave2_init_content _ _ _ _ _ _ H)
    as (w & w1 & t & He & Hna & Hcs & Ht & HM & Hnc & tb & yp & Htb & ->).
  rewrite Bullets2_newcontent_Ok in Hnc by lia. apply Ok_inj in Hnc.
  subst w1. unfold Wave2_idle. wave2_fields. wave2_fields_in Htb.
  rewrite set_from_nth_ge in Htb by lia. cbn [Nat.sub] in Htb.
  rewrite nth_error_map, nth_error_seq in Htb.
  destruct (0 <? Wave.M w - 0); [|discriminate].
  cbn [option_map] in Htb. apply Ok_inj || idtac.
  injection Htb as <-. rewrite He, Hcs, Hna. cbn [Bullets.rload snd].
  split; [reflexivity|].
  remember (py_int (rload * inject_Z fps)) as r. simpl Z.of_nat. lia.
Qed.

Lemma Wave2_idle_update {E} leaving entering newcontent (w : Wave.t E) g :
  Wave2_idle w ->
  exists w',
    Wave.update leaving entering newcontent w g = Ok (w', g)
    /\ Wave2_idle w' /\ Wave.N w' = Wave.N w.
Proof.
  intros (Hn & Ht). unfold Wave.update, Wave.expire, Wave.arrive.
  destruct (Wave.cslice w) as [tbeg tend] eqn:Ecs. simpl in Ht.
  rewrite Hn. cbn [Nat.ltb Nat.leb bind].
  replace (Wave.tborn w =? tend)%Z with false
    by (symmetry; apply Z.eqb_neq; lia).
  cbn [bind]. unfold Wave.advance. wave2_fields.
  cbn [Nat.ltb Nat.leb bind].
  eexists. split; [reflexivity|]. unfold Wave2_idle. wave2_fields.
  cbn [snd]. repeat split. lia.
Qed.

(** *** The invariant along the life of a wave *)





End Waves2.

(* ================================================================== *)
(** * C9: deactivation leaves the alive-index list alone *)
(* ================================================================== *)

Lemma fill_nth {A} idx (v : A) l l' j :
  fill idx v l = Ok l' ->
  nth_error l' j = if existsb (Nat.eqb j) idx then Some v else nth_error l j.
Proof.
  revert l. induction idx as [|i idx IH]; intros l H; simpl in H.
  - inv_Ok H. reflexivity.
  - bind_inv H as l1 E1. apply store_Ok in E1. destruct E1 as (Hi & ->).
    rewrite (IH _ H). simpl. rewrite set_nth_nth.
    destruct (existsb (Nat.eqb j) idx); [rewrite orb_true_r; reflexivity|].
    rewrite orb_false_r. destruct (j =? i) eqn:E; [|reflexivity].
    apply Nat.ltb_lt in Hi. rewrite Hi. reflexivity.
Qed.

Lemma fill_valid {A} idx (v : A) l l' :
  fill idx v l = Ok l' -> Forall (fun i => i < length l) idx.
Proof.
  revert l. induction idx as [|i idx IH]; intros l H; simpl in H;
    [constructor|].
  bind_inv H as l1 E1. apply store_Ok in E1. destruct E1 as (Hi & ->).
  constructor; [exact Hi|]. apply IH in H. rewrite set_nth_length in H.
  exact H.
Qed.

Lemma fill_ok {A} idx (v : A) l :
  Forall (fun i => i < length l) idx -> exists l', fill idx v l = Ok l'.
Proof.
  revert l. induction idx as [|i idx IH]; intros l H; simpl; [eauto|].
  inversion H as [|? ? Hi Hidx]; subst. rewrite store_lt by exact Hi.
  cbn [bind]. apply IH. rewrite set_nth_length. exact Hidx.
Qed.

Lemma existsb_eqb_In j idx : existsb (Nat.eqb j) idx = true <-> In j idx.
Proof.
  rewrite existsb_exists. split.
  - intros (x & Hx & E). apply Nat.eqb_eq in E. subst. exact Hx.
  - intros H. exists j. split; [exact H | apply Nat.eqb_refl].
Qed.

Lemma sorted_nth_inj (l : list Z) k k' b :
  StronglySorted Z.lt l ->
  nth_error l k = Some b -> nth_error l k' = Some b -> k = k'.
Proof.
  intros Hs. revert k k'. induction Hs as [|a l _ IH Ha]; intros k k' H H'.
  - destruct k; discriminate.
  - rewrite Forall_forall in Ha.
    destruct k as [|k], k' as [|k']; simpl in H, H'; auto.
    + inv_Ok H. apply nth_error_In in H'. specialize (Ha _ H'). lia.
    + inv_Ok H'. apply nth_error_In in H. specialize (Ha _ H). lia.
Qed.

Section Hits2.
Import Shooter2.

(** The rows and columns [nonzero] returns are rows and columns of the
    matrix. *)
Lemma clashes_bounds tol dx dv m nz nz1 :
  nonzero2 (Shooter.Hits.clashes tol dx dv m) = (nz, nz1) ->
  length nz = length nz1
  /\ forall k i j, nth_error nz k = Some i -> nth_error nz1 k = Some j ->
                   exists a, entry dx i j = Some a.
Proof.
  intros H. split.
  - unfold nonzero2 in H. inv_Ok H. rewrite !length_map. reflexivity.
  - intros k i j Hi Hj.
    assert (Hin : In (i, j) (combine nz nz1))
      by (apply In_combine_nth; eauto).
    apply (nonzero2_In _ _ _ _ _ H) in Hin.
    rewrite entry_clashes in Hin.
    destruct (entry dx i j); [eauto | discriminate].
Qed.

Lemma detect2_bounds {E E1} h (tg : Wave.t E) (bl : Wave.t E1) a a1 nz nz1 r :
  Hits.detect h tg bl a a1 = Ok (nz, nz1, r) ->
  length nz = length nz1
  /\ Forall (fun i => i < length a) nz
  /\ Forall (fun j => j < length a1) nz1
  /\ r = map (fun i => (nth i (Wave.born tg) 0 - fst (Wave.cslice tg))%Z) a.
Proof.
  unfold Hits.detect. intros H.
  bind_inv H as x1 Ex1. bind_inv H as x Ex. bind_inv H as v1 Ev1.
  bind_inv H as v Ev. bind_inv H as ba Eba. bind_inv H as ba1 Eba1.
  bind_inv H as rows Erows. bind_inv H as m Em.
  destruct (nonzero2 _) as [nz' nz1'] eqn:Enz. apply Ok_inj in H.
  injection H as <- <- <-.
  apply clashes_bounds in Enz. destruct Enz as (Hlen & Hent).
  apply gather_length in Ex, Ex1.
  assert (Hb : forall k i j, nth_error nz' k = Some i ->
               nth_error nz1' k = Some j -> i < length a /\ j < length a1).
  { intros k i j Hi Hj. destruct (Hent k i j Hi Hj) as (d & Hd).
    rewrite entry_outer in Hd.
    destruct (nth_error x i) eqn:Exi; [|discriminate].
    destruct (nth_error x1 j) eqn:Exj; [|discriminate].
    split; [rewrite <- Ex | rewrite <- Ex1]; apply nth_error_Some; congruence. }
  split; [exact Hlen|]. split; [|split].
  - apply Forall_forall. intros i Hi. apply In_nth_error in Hi.
    destruct Hi as (k & Hk).
    destruct (nth_error nz1' k) as [j|] eqn:Ej.
    + apply (Hb k i j Hk Ej).
    + apply nth_error_None in Ej.
      assert (k < length nz') by (apply nth_error_Some; congruence). lia.
  - apply Forall_forall. intros j Hj. apply In_nth_error in Hj.
    destruct Hj as (k & Hk).
    destruct (nth_error nz' k) as [i|] eqn:Ei.
    + apply (Hb k i j Ei Hk).
    + apply nth_error_None in Ei.
      assert (k < length nz1') by (apply nth_error_Some; congruence). lia.
  - rewrite (gather_map _ _ _ 0%Z Eba), map_map. reflexivity.
Qed.

Lemma set_alive_same {E} (w : Wave.t E) : Wave.set_alive (Wave.alive w) w = w.
Proof. destruct w; reflexivity. Qed.

Lemma gather_firstn_In (l : list nat) n idx r :
  gather l idx = Ok r -> Forall (fun i => i < length (firstn n l)) idx ->
  Forall (fun i => In i (firstn n l)) r.
Proof.
  intros H Hidx. apply Forall_forall. intros x Hx.
  apply In_nth_error in Hx. destruct Hx as (k & Hk).
  apply (gather_nth _ _ _ _ _ H) in Hk. destruct Hk as (i & Hi & Hl).
  rewrite Forall_forall in Hidx. apply nth_error_In in Hi.
  specialize (Hidx _ Hi).
  apply nth_error_In with (n := i). rewrite nth_error_firstn.
  rewrite length_firstn in Hidx.
  replace (i <? n) with true by (symmetry; apply Nat.ltb_lt; lia).
  exact Hl.
Qed.

(** What [Hits.update] of shooter2.py does to the two waves: it clears
    the [alive] flags of the sprites [it] and [ib], taken from the
    alive-index lists, and nothing else. *)
Lemma Hits2_update_inv {E E1} (tg : Wave.t E) (bl : Wave.t E1) h g
  tg' bl' h' g' :
  Hits.update tg bl h g = Ok (tg', bl', h', g') ->
  exists it ib al al1,
    fill it false (Wave.alive tg) = Ok al
    /\ fill ib false (Wave.alive bl) = Ok al1
    /\ tg' = Wave.set_alive al tg /\ bl' = Wave.set_alive al1 bl
    /\ Forall (fun i => In i (Wave.current tg)) it
    /\ Forall (fun i => In i (Wave.current bl)) ib
    /\ length it = length ib
    /\ Shooter.Hits.score h' = Shooter.Hits.score h + length it.
Proof.
  unfold Hits.update. intros H.
  bind_inv H as [[[tg1 bl1] h1] g1] Hu. apply Ok_inj in H.
  injection H as <- <- <- <-.
  assert (Hnone : exists it ib al al1,
             fill it false (Wave.alive tg) = Ok al
             /\ fill ib false (Wave.alive bl) = Ok al1
             /\ tg = Wave.set_alive al tg /\ bl = Wave.set_alive al1 bl
             /\ Forall (fun i => In i (Wave.current tg)) it
             /\ Forall (fun i => In i (Wave.current bl)) ib
             /\ length it = length ib
             /\ Shooter.Hits.score (Shooter.Hits.age h)
                = Shooter.Hits.score h + length it).
  { exists [], [], (Wave.alive tg), (Wave.alive bl). simpl.
    rewrite !set_alive_same. repeat split; auto. }
  destruct ((0 <? length (Wave.current tg))
            && (0 <? length (Wave.current bl))).
  - bind_inv Hu as [[nz nz1] r] Ed.
    destruct (0 <? length nz).
    + bind_inv Hu as it Eit. bind_inv Hu as al Eal. bind_inv Hu as ib Eib.
      bind_inv Hu as al1 Eal1. bind_inv Hu as rnz Ernz.
      bind_inv Hu as wt Ewt. bind_inv Hu as xs Exs. bind_inv Hu as xp Exp.
      apply Ok_inj in Hu. injection Hu as <- <- <- <-.
      apply detect2_bounds in Ed. destruct Ed as (Hlen & Hnz & Hnz1 & _).
      exists it, ib, al, al1. simpl.
      pose proof (gather_length _ _ _ Eit) as Lit.
      pose proof (gather_length _ _ _ Eib) as Lib.
      repeat split; auto; try lia.
      * eapply gather_firstn_In; eauto.
      * eapply gather_firstn_In; eauto.
    + apply Ok_inj in Hu. injection Hu as <- <- <- <-. exact Hnone.
  - apply Ok_inj in Hu. injection Hu as <- <- <- <-. exact Hnone.
Qed.

Lemma expire_mask_nth {E} (w : Wave.t E) k :
  nth_error (expire_mask w) k = Some true ->
  exists i, nth_error (Wave.current w) k = Some i
            /\ nth i (Wave.alive w) false = true.
Proof.
  intros Hm.
  assert (Hs : nth_error
                 (map (fun i => nth i (Wave.alive w) false) (Wave.current w)) k
               = Some true).
  { unfold expire_mask in Hm. destruct (expire_fires w); [|exact Hm].
    rewrite set_nth_nth in Hm. destruct (k =? 0); [|exact Hm].
    destruct (0 <? _); discriminate. }
  rewrite nth_error_map in Hs.
  destruct (nth_error (Wave.current w) k) as [i|]; [|discriminate].
  simpl in Hs. inv_Ok Hs. eauto.
Qed.

(** A sprite that is not alive when its wave is updated is no longer
    listed afterwards. *)
Lemma compacted_out {E} (w w2 : Wave.t E) i :
  Wave2_inv w ->
  births w2
  = select_mask (births w) (expire_mask w)
    ++ (if (Wave.tborn w =? snd (Wave.cslice w))%Z
        then [snd (Wave.cslice w)] else []) ->
  In i (Wave.current w) -> nth i (Wave.alive w) false = false ->
  ~ In (nth i (Wave.born w) 0%Z) (births w2).
Proof.
  intros (Hc & _) Hb Hi Hdead Hin.
  destruct Hc as [cM cN cborn cxpos cxspeed calive cialive cnborn ctborn
                    cnext cfuture ccount cadm cwin csort].
  fold (births w) in cwin, csort.
  apply In_nth_error in Hi. destruct Hi as (k0 & Hk0).
  assert (Hbk0 : nth_error (births w) k0 = Some (nth i (Wave.born w) 0%Z)).
  { unfold births, births_upto. fold (Wave.current w).
    rewrite nth_error_map, Hk0. reflexivity. }
  rewrite Hb in Hin. apply in_app_or in Hin. destruct Hin as [Hin | Hin].
  - apply select_mask_In in Hin. destruct Hin as (k & Hk & Hm).
    assert (k = k0) by (eapply sorted_nth_inj; eauto). subst k.
    apply expire_mask_nth in Hm. destruct Hm as (i' & Hi' & Ha).
    congruence.
  - destruct (Wave.tborn w =? snd (Wave.cslice w))%Z; [|contradiction].
    destruct Hin as [Hin | []].
    rewrite Forall_forall in cwin. apply nth_error_In in Hbk0.
    specialize (cwin _ Hbk0). lia.
Qed.

Lemma deactivated_listed {E} (w : Wave.t E) idx al i :
  fill idx false (Wave.alive w) = Ok al ->
  Forall (fun i => In i (Wave.current w)) idx ->
  nth_error (Wave.alive w) i = Some true -> nth_error al i = Some false ->
  In i (Wave.current w).
Proof.
  intros Hf Hidx Ht Hd. rewrite (fill_nth _ _ _ _ i Hf) in Hd.
  destruct (existsb (Nat.eqb i) idx) eqn:Ei; [|congruence].
  apply existsb_eqb_In in Ei. rewrite Forall_forall in Hidx. auto.
Qed.

(** C9.  In shooter2.py, [Hits.update] rewrites the [alive] flags and
    nothing else of the two waves: their alive-index lists are the same
    lists, in the same order, and every sprite it deactivates is still
    listed.  The sprite goes at the next update of its wave: a listed
    sprite that is not alive when the wave is updated is not among the
    sprites listed afterwards. *)
Theorem C9_deactivation_keeps_list :
  (forall (tg : Targets.t) (bl : Bullets.t) h g tg' bl' h' g',
      Hits.update tg bl h g = Ok (tg', bl', h', g') ->
      Wave.current tg' = Wave.current tg
      /\ Wave.current bl' = Wave.current bl
      /\ (forall i, nth_error (Wave.alive tg) i = Some true ->
                    nth_error (Wave.alive tg') i = Some false ->
                    In i (Wave.current tg'))
      /\ (forall i, nth_error (Wave.alive bl) i = Some true ->
                    nth_error (Wave.alive bl') i = Some false ->
                    In i (Wave.current bl')))
  /\ (forall rnd (w w2 : Targets.t) g g2 i,
        Wave2_inv w -> Targets2_good (Wave.ext w) ->
        Targets.update rnd w g = Ok (w2, g2) ->
        In i (Wave.current w) -> nth i (Wave.alive w) false = false ->
        ~ In (nth i (Wave.born w) 0%Z) (births w2))
  /\ (forall (w w2 : Bullets.t) g g2 i,
        Wave2_inv w -> Bullets2_good (Wave.ext w) ->
        Bullets.update w g = Ok (w2, g2) ->
        In i (Wave.current w) -> nth i (Wave.alive w) false = false ->
        ~ In (nth i (Wave.born w) 0%Z) (births w2)).
Proof.
  split; [|split].
  - intros tg bl h g tg' bl' h' g' H. apply Hits2_update_inv in H.
    destruct H as (it & ib & al & al1 & Hal & Hal1 & -> & -> & Hit & Hib & _).
    repeat split.
    + intros i. change (Wave.current (Wave.set_alive al tg))
        with (Wave.current tg). simpl. eapply deactivated_listed; eauto.
    + intros i. change (Wave.current (Wave.set_alive al1 bl))
        with (Wave.current bl). simpl. eapply deactivated_listed; eauto.
  - intros rnd w w2 g g2 i Hinv Hg Hu.
    pose proof (Targets2_update_inv _ _ _ _ _ Hinv Hg Hu)
      as (_ & _ & _ & _ & Hb).
    apply compacted_out; assumption.
  - intros w w2 g g2 i Hinv Hg Hu.
    pose proof (Bullets2_update_inv _ _ _ _ Hinv Hg Hu) as (_ & _ & _ & Hb).
    apply compacted_out; assumption.
Qed.

Lemma C9_deactivation_keeps_list_witness :
  Wave.current (fst (fst (fst demo2_struck))) = [0]
  /\ Wave.alive (fst demo2_waves) = [true; true; true; true]
  /\ Wave.alive (fst (fst (fst demo2_struck))) = [false; true; true; true]
  /\ Wave.current (fst (fst (fst demo2_struck)))
     = Wave.current (fst demo2_waves).
Proof.
  split; [vm_compute; reflexivity|].
  split; [vm_compute; reflexivity|].
  split; [vm_compute; reflexivity|].
  exact (proj1 (proj1 C9_deactivation_keeps_list
                  (fst demo2_waves) (snd demo2_waves)
                  (Shooter.Game.hits demo2_game)
                  (Shooter.Game.shared demo2_game)
                  (fst (fst (fst demo2_struck)))
                  (snd (fst (fst demo2_struck)))
                  (snd (fst demo2_struck)) (snd demo2_struck)
                  ltac:(vm_compute; reflexivity))).
Defined.
End Hits2.

(* ================================================================== *)
(** * The end of the game *)
(* ================================================================== *)

Lemma loop_gameover {T B H} (F : Shooter.Game.Factory T B H) inputs
    (g : Shooter.Game.t T B H) :
  Shooter.Game.gameover g = true ->
  Shooter.GameManager.loop F inputs g = Ok g.
Proof.
  intros Hg. destruct inputs as [|[keys env] rest]; simpl; [reflexivity|].
  rewrite Hg. reflexivity.
Qed.

Lemma Game_update_quit {T B H} (F : Shooter.Game.Factory T B H) env
    (g : Shooter.Game.t T B H) :
  Shooter.tr_quit (Shooter.Game.shared g) = true ->
  Shooter.Game.update F env g =
  Ok (Shooter.Game.mk (Shooter.Game.shared g) (Shooter.Game.nstep g) true
        (Shooter.Game.gameover_text g) (Shooter.Game.perf g)
        (Shooter.Game.targets g) (Shooter.Game.bullets g)
        (Shooter.Game.hits g)).
Proof. intros Hq. unfold Shooter.Game.update. rewrite Hq. reflexivity. Qed.

(** C6, as stated, fails: [Game.update] never reads [gameover].  In the demo
    session the quit key at the first frame sets [gameover] with both scores
    at 0; one more call of [Game.update] with no key held runs the components,
    and the hit score becomes 1 while [gameover] is still set. *)
Lemma C6_update_after_gameover :
  Shooter.Game.gameover demo_quit = true /\
  Shooter.Hits.score (Shooter.Game.hits demo_quit) = 0 /\
  exists g',
    Shooter.Game.update Shooter.Game.Factory1 demo_env
      (Shooter.GameManager.userinput 0 demo_quit) = Ok g' /\
    Shooter.Game.gameover g' = true /\
    Shooter.Hits.score (Shooter.Game.hits g') = 1.
Proof.
  split; [vm_compute; reflexivity|].
  split; [vm_compute; reflexivity|].
  exists demo_resumed. split; [|split]; vm_compute; reflexivity.
Qed.

(** C6 (amended): a call of [Game.update] with the quit command set succeeds,
    sets [gameover], makes the status the game-over text that reports
    [perf*fps], and leaves the frame count, the performance measure and the
    three components (hence both scores) as they were.  The state it returns
    is a fixed point of [Game.update] as long as the quit command stays set,
    and the frame loop of [Game.setup] makes no further call from it,
    whatever the inputs. *)
Theorem C6_gameover_terminal {T B H} (F : Shooter.Game.Factory T B H) env
    (g : Shooter.Game.t T B H) :
  Shooter.tr_quit (Shooter.Game.shared g) = true ->
  exists g',
    Shooter.Game.update F env g = Ok g' /\
    Shooter.Game.gameover g' = true /\
    Shooter.Game.status g' =
      String.append "Game over. Efficiency (logic): "
        (format_pct 2 (Shooter.Game.perf g
                       * inject_Z (Shooter.fps (Shooter.Game.shared g)))%Q) /\
    Shooter.Game.nstep g' = Shooter.Game.nstep g /\
    Shooter.Game.perf g' = Shooter.Game.perf g /\
    Shooter.Game.targets g' = Shooter.Game.targets g /\
    Shooter.Game.bullets g' = Shooter.Game.bullets g /\
    Shooter.Game.hits g' = Shooter.Game.hits g /\
    Shooter.Game.targets_score F (Shooter.Game.targets g') =
      Shooter.Game.targets_score F (Shooter.Game.targets g) /\
    Shooter.Game.hits_score F (Shooter.Game.hits g') =
      Shooter.Game.hits_score F (Shooter.Game.hits g) /\
    (forall env', Shooter.Game.update F env' g' = Ok g') /\
    (forall inputs, Shooter.GameManager.loop F inputs g' = Ok g').
Proof.
  intros Hq. eexists. split; [apply Game_update_quit; exact Hq|].
  simpl. repeat (split; [reflexivity|]). split.
  - intros env'. rewrite Game_update_quit by exact Hq. reflexivity.
  - intros inputs. apply loop_gameover. reflexivity.
Qed.

Lemma C6_gameover_terminal_witness :
  exists g',
    Shooter.Game.update Shooter.Game.Factory1 demo_env
      (Shooter.GameManager.userinput Shooter.GameManager.KEY_TERMINATE
         (demo_game 1)) = Ok g' /\
    Shooter.Game.gameover g' = true /\
    Shooter.Hits.score (Shooter.Game.hits g') = 1 /\
    forall inputs,
      Shooter.GameManager.loop Shooter.Game.Factory1 inputs g' = Ok g'.
Proof.
  destruct (C6_gameover_terminal Shooter.Game.Factory1 demo_env
              (Shooter.GameManager.userinput Shooter.GameManager.KEY_TERMINATE
                 (demo_game 1)))
    as (g' & Hu & Hg & _ & _ & _ & _ & _ & Hh & _ & _ & _ & Hl).
  - vm_compute. reflexivity.
  - exists g'. split; [exact Hu|]. split; [exact Hg|]. split; [|exact Hl].
    rewrite Hh. vm_compute. reflexivity.
Defined.

(* ================================================================== *)
(** * Construction on a configuration out of range *)
(* ================================================================== *)



















(* ================================================================== *)
(** * The two scores *)
(* ================================================================== *)

(** What one call of [Game.update] does to the components. *)
Lemma Game_update_cases {T B H} (F : Shooter.Game.Factory T B H) env g g' :
  Shooter.Game.update F env g = Ok g' ->
  (Shooter.tr_quit (Shooter.Game.shared g) = true
   /\ Shooter.Game.nstep g' = Shooter.Game.nstep g
   /\ Shooter.Game.targets g' = Shooter.Game.targets g
   /\ Shooter.Game.bullets g' = Shooter.Game.bullets g
   /\ Shooter.Game.hits g' = Shooter.Game.hits g)
  \/ (Shooter.tr_quit (Shooter.Game.shared g) = false
      /\ Shooter.Game.nstep g' = Shooter.Game.nstep g + 1
      /\ exists sh0 tg1 sh1 bl2 sh2 sh3,
          Shooter.Game.targets_update F (random env)
            (Shooter.Game.targets g) sh0 = Ok (tg1, sh1)
          /\ Shooter.Game.bullets_update F (Shooter.Game.bullets g) sh1
             = Ok (bl2, sh2)
          /\ Shooter.Game.hits_update F tg1 bl2 (Shooter.Game.hits g) sh2
             = Ok (Shooter.Game.targets g', Shooter.Game.bullets g',
                   Shooter.Game.hits g', sh3)).
Proof.
  intros Hu. destruct (Shooter.tr_quit (Shooter.Game.shared g)) eqn:Hq.
  - left. unfold Shooter.Game.update in Hu. rewrite Hq in Hu.
    apply Ok_inj in Hu. subst g'. simpl. auto.
  - right. destruct (Game_update_running F env g g' Hq Hu)
      as (g1 & time & d & Hc & ->).
    unfold Shooter.Game.components_update in Hc.
    bind_inv Hc as [tg1 sh1] Et. bind_inv Hc as [bl2 sh2] Eb.
    bind_inv Hc as [[[tg3 bl3] h3] sh3] Eh. apply Ok_inj in Hc. subst g1.
    simpl. split; [reflexivity|]. split; [reflexivity|].
    eexists _, tg1, sh1, bl2, sh2, sh3. eauto.
Qed.

Lemma set_slice_same {A} lo hi (l : list A) :
  lo <= hi -> set_slice lo hi (slice lo hi l) l = l.
Proof.
  intros H. unfold set_slice, slice.
  rewrite <- (firstn_skipn lo l) at 4. f_equal.
  rewrite <- (firstn_skipn (hi - lo) (skipn lo l)) at 2. f_equal.
  rewrite skipn_skipn. f_equal. lia.
Qed.

Section Ledger1.
Import Shooter.

(** [Targets.update] counts the target at the cursor when it is visible,
    and the flags of the new window are those of the slots after the
    cursor. *)
Lemma Targets1_update_score rnd (w w' : Targets.t) g g' :
  Targets.update rnd w g = Ok (w', g') ->
  Wave.N w' = Wave.N w
  /\ exists vn,
      nth_error (Wave.visible w) (Wave.n w) = Some vn
      /\ Targets.score (Wave.ext w')
         = Targets.score (Wave.ext w) + (if vn : bool then 1 else 0).
Proof.
  intros H. unfold Targets.update, Wave.update in H.
  bind_inv H as [w2 g2] Ef. bind_inv H as w3 Es. apply Ok_inj in H.
  injection H as <- <-.
  apply Targets1_fire_inv in Ef. destruct Ef as (vn & vm & Hn & _ & -> & _).
  apply step_fields in Es. destruct Es as (HN & He & _).
  split; [rewrite HN; destruct vn; reflexivity|].
  exists vn. split; [exact Hn|]. rewrite He.
  destruct vn; simpl; lia.
Qed.

Lemma Targets1_update_flags rnd (w w' : Targets.t) g g' (j : nat) :
  Wave1_wf w -> Targets.update rnd w g = Ok (w', g') ->
  j < Wave.N w ->
  nth_error (window_visible w') j
  = nth_error (Wave.visible w) (Wave.n w + 1 + j).
Proof.
  intros (Hx & Hs & Hv & Hn) H Hj. unfold Targets.update, Wave.update in H.
  bind_inv H as [w2 g2] Ef. bind_inv H as w3 Es. apply Ok_inj in H.
  injection H as <- <-.
  apply Targets1_fire_inv in Ef. destruct Ef as (vn & vm & _ & _ & -> & _).
  erewrite step_window_visible; [| | | | | exact Es];
    try (destruct vn; first [exact Hv | reflexivity]); try assumption.
Qed.

(** [Hits.update] rewrites the flags of the window, and only to
    [False]; it counts one hit per index it is given. *)
Lemma Hits1_update_inv {E E1} (tg : Wave.t E) (bl : Wave.t E1) h g
  tg' bl' h' g' :
  Hits.update tg bl h g = Ok (tg', bl', h', g') ->
  exists s vis',
    fill s false (window_visible tg) = Ok vis'
    /\ tg' = Wave.set_visible
               (set_slice (Wave.n tg) (Wave.n tg + Wave.N tg) vis'
                  (Wave.visible tg)) tg
    /\ Forall (fun j => nth_error (window_visible tg) j = Some true) s
    /\ Hits.score h' = Hits.score h + length s.
Proof.
  unfold Hits.update, window_visible, Wave.current. cbn [fst snd].
  intros H. bind_inv H as [[[tg1 bl1] h1] g1] Hu. apply Ok_inj in H.
  injection H as <- <- <- <-.
  set (vis := slice (Wave.n tg) (Wave.n tg + Wave.N tg) (Wave.visible tg))
    in *.
  assert (Hnone : exists s vis',
             fill s false vis = Ok vis'
             /\ tg = Wave.set_visible
                       (set_slice (Wave.n tg) (Wave.n tg + Wave.N tg) vis'
                          (Wave.visible tg)) tg
             /\ Forall (fun j => nth_error vis j = Some true) s
             /\ Hits.score (Hits.age h) = Hits.score h + length s).
  { exists [], vis. simpl. split; [reflexivity|]. split.
    - unfold vis. rewrite set_slice_same by lia. destruct tg; reflexivity.
    - split; [constructor | lia]. }
  destruct (any vis && any _).
  - bind_inv Hu as [nz nz1] Ed.
    destruct (0 <? length nz).
    + bind_inv Hu as s Es. bind_inv Hu as vis' Evis.
      bind_inv Hu as wt Ewt. bind_inv Hu as xs Exs. bind_inv Hu as xp Exp.
      bind_inv Hu as s1 Es1. bind_inv Hu as vis1' Evis1.
      apply Ok_inj in Hu. injection Hu as <- <- <- <-.
      exists s, vis'. split; [exact Evis|]. split; [reflexivity|].
      split.
      * apply Forall_forall. intros j Hj.
        apply In_nth_error in Hj. destruct Hj as (k & Hk).
        apply (proj1 (gather_nth _ _ _ k j Es)) in Hk.
        destruct Hk as (i & _ & Hi). apply nth_error_In in Hi.
        apply In_nonzero in Hi. exact Hi.
      * simpl. rewrite (gather_length _ _ _ Es). reflexivity.
    + apply Ok_inj in Hu. injection Hu as <- <- <- <-. exact Hnone.
  - apply Ok_inj in Hu. injection Hu as <- <- <- <-. exact Hnone.
Qed.

Lemma Targets1_init_wf rnd fps v rate width (w : Targets.t) :
  Targets.init rnd fps v rate width = Ok w -> Wave.N w <> 0 ->
  Wave1_wf w /\ Targets.score (Wave.ext w) = 0.
Proof.
  unfold Targets.init, Wave.init. intros H HN.
  bind_inv H as r Er. bind_inv H as q Eq.
  remember (py_int q) as Nz eqn:ENz.
  bind_inv H as xp Exp. bind_inv H as xs Exs. bind_inv H as vis Evis.
  bind_inv H as yp Eyp. bind_inv H as p Ep.
  apply Ok_inj in H. subst w. cbn [Wave.N Wave.install_page Wave.set_visible
    Wave.set_xspeed Wave.set_xpos Wave.xpos Wave.xspeed Wave.visible Wave.n
    Wave.ext Targets.score] in *.
  apply zeros_Ok in Exp, Exs, Evis.
  destruct Exp as (Hpos & ->). destruct Exs as (_ & ->).
  destruct Evis as (_ & ->).
  apply Targets1_newpage_fits in Ep. cbn [Wave.N] in Ep.
  destruct Ep as (P1 & P2 & P3).
  assert (HM : Z.to_nat (2 * Nz) = 2 * Z.to_nat Nz) by lia.
  split; [|reflexivity]. unfold Wave1_wf.
  cbn [Wave.N Wave.xpos Wave.xspeed Wave.visible Wave.n].
  unfold Wave.install_page, Wave.set_visible, Wave.set_xspeed, Wave.set_xpos.
  cbn [Wave.N Wave.xpos Wave.xspeed Wave.visible Wave.n].
  rewrite !set_from_length; rewrite ?repeat_length, ?HM;
    try lia;
    try (replace (2 * Z.to_nat Nz - Z.to_nat Nz) with (Z.to_nat Nz) by lia;
         assumption).
Qed.

Lemma Hits1_init_Ok fps width N r N1 r1 timeout h :
  Hits.init fps width N r N1 r1 timeout = Ok h -> N <> 0.
Proof.
  intros H HN. subst N. unfold Hits.init in H. discriminate H.
Qed.

Section Frames.
Context {B H : Type}.
Implicit Types g : Game.t Targets.t B H.

Lemma flag1_same g g' k :
  Game.targets g' = Game.targets g -> Game.nstep g' = Game.nstep g ->
  flag1 g' k = flag1 g k.
Proof. intros Ht Hn. unfold flag1, cursor1. rewrite Ht, Hn. reflexivity. Qed.

Lemma flag1_window g (j : nat) :
  flag1 g (cursor1 g + Z.of_nat j)
  = nth_error (Wave.visible (Game.targets g))
      (Wave.n (Game.targets g) + j).
Proof.
  unfold flag1.
  replace (cursor1 g <=? cursor1 g + Z.of_nat j)%Z with true
    by (symmetry; apply Z.leb_le; lia).
  do 2 f_equal. lia.
Qed.

Lemma struck1_none g g' :
  Game.targets g' = Game.targets g -> Game.nstep g' = Game.nstep g ->
  struck1 g g' = [].
Proof.
  intros Ht Hn. unfold struck1.
  induction (window1 g') as [|k l IH]; [reflexivity|].
  simpl. rewrite (flag1_same g g' k Ht Hn), IH.
  destruct (flag1 g k) as [[|]|]; reflexivity.
Qed.

Lemma missed1_none g g' :
  Game.targets g' = Game.targets g -> missed1 g g' = [].
Proof. intros Ht. unfold missed1. rewrite Ht, Nat.ltb_irrefl. reflexivity. Qed.

Lemma Ledger1_same g g' ms ss :
  Game.targets g' = Game.targets g -> Game.nstep g' = Game.nstep g ->
  Ledger1 g ms ss -> Ledger1 g' ms ss.
Proof.
  intros Ht Hn (Hwf & Hsc & Hm & Hs). unfold Ledger1.
  assert (Hc : cursor1 g' = cursor1 g)
    by (unfold cursor1; rewrite Ht, Hn; reflexivity).
  rewrite Ht, Hn, Hc.
  split; [exact Hwf|]. split; [exact Hsc|]. split; [exact Hm|].
  eapply Forall_impl; [|exact Hs]. intros k (H1 & H2).
  split; [exact H1|]. intros Hk.
  rewrite (flag1_same g g' k Ht Hn). auto.
Qed.
End Frames.

Lemma window1_In {B H} (g : Game.t Targets.t B H) k :
  In k (window1 g) <->
  exists j, j < Wave.N (Game.targets g) /\ k = (cursor1 g + Z.of_nat j)%Z.
Proof.
  unfold window1. rewrite in_map_iff. split.
  - intros (j & <- & Hj). apply in_seq in Hj. exists j. split; [lia | reflexivity].
  - intros (j & Hj & ->). exists j. split; [reflexivity|]. apply in_seq. lia.
Qed.

(** One frame transition of shooter.py keeps the ledger, and counts no
    target on both sides. *)
Lemma Ledger1_update env (g g' : Game.t Targets.t Bullets.t Hits.t) ms ss :
  Ledger1 g ms ss -> (forall k, In k ms -> ~ In k ss) ->
  Game.update Game.Factory1 env g = Ok g' ->
  Ledger1 g' (missed1 g g' ++ ms) (struck1 g g' ++ ss)
  /\ (forall k, In k (missed1 g g' ++ ms) -> ~ In k (struck1 g g' ++ ss))
  /\ (Hits.score (Game.hits g) < Hits.score (Game.hits g') ->
      struck1 g g' <> []).
Proof.
  intros HL Hdis Hu.
  destruct (Game_update_cases _ _ _ _ Hu)
    as [(Hq & Hn & Ht & _ & Hh)
       | (Hq & Hn & sh0 & tg1 & sh1 & bl2 & sh2 & sh3 & Et & Eb & Eh)].
  - rewrite (struck1_none g g' Ht Hn), (missed1_none g g' Ht). simpl.
    split; [exact (Ledger1_same g g' ms ss Ht Hn HL)|].
    split; [exact Hdis|]. rewrite Hh. intros Hlt. lia.
  - cbn [Game.targets_update Game.hits_update Game.Factory1] in Et, Eh.
    destruct HL as (Hwf & Hsc & Hm & Hs).
    pose proof (Targets1_update_wf _ _ _ _ _ Hwf Et) as Hwf1.
    pose proof (Targets1_update_score _ _ _ _ _ Et) as (HN1 & vn & Hvn & Hsc1).
    pose proof (fun j => Targets1_update_flags _ _ _ _ _ j Hwf Et) as Hfl1.
    apply Hits1_update_inv in Eh.
    destruct Eh as (s & vis' & Hfill & Htg' & Hstrue & Hscore).
    remember (Game.targets g) as w eqn:Ew.
    remember (Game.targets g') as w3 eqn:Ew3.
    assert (HN3 : Wave.N w3 = Wave.N w) by (rewrite Htg'; exact HN1).
    assert (Hn3 : Wave.n w3 = Wave.n tg1) by (rewrite Htg'; reflexivity).
    assert (He3 : Wave.ext w3 = Wave.ext tg1) by (rewrite Htg'; reflexivity).
    assert (Hc' : cursor1 g' = (cursor1 g + 1)%Z).
    { unfold cursor1. rewrite <- Ew, <- Ew3, HN3, Hn. lia. }
    destruct Hwf1 as (Hx1 & Hs1 & Hv1 & Hn1).
    assert (Lwin : length (window_visible tg1) = Wave.N tg1).
    { unfold window_visible, Wave.current. cbn [snd].
      rewrite slice_length by lia. lia. }
    assert (Lvis' : length vis' = Wave.N tg1).
    { rewrite (fill_length _ _ _ _ Hfill). exact Lwin. }
    assert (Hflag' : forall j, j < Wave.N w ->
               flag1 g' (cursor1 g' + Z.of_nat j) = nth_error vis' j).
    { intros j Hj. rewrite flag1_window, <- Ew3, Hn3, Htg'.
      cbn [Wave.visible Wave.set_visible].
      rewrite set_slice_nth by lia.
      replace (Wave.n tg1 + j <? Wave.n tg1) with false
        by (symmetry; apply Nat.ltb_ge; lia).
      replace (Wave.n tg1 + j <? Wave.n tg1 + Wave.N tg1) with true
        by (symmetry; apply Nat.ltb_lt; lia).
      f_equal. lia. }
    assert (Hpre : forall j, j < Wave.N w ->
               flag1 g (cursor1 g' + Z.of_nat j)
               = nth_error (window_visible tg1) j).
    { intros j Hj. rewrite (Hfl1 j Hj), Hc'.
      replace (cursor1 g + 1 + Z.of_nat j)%Z
        with (cursor1 g + Z.of_nat (1 + j))%Z by lia.
      rewrite flag1_window, <- Ew. f_equal. lia. }
    assert (Hflag : forall j, j < Wave.N w ->
               nth_error vis' j = Some false
               \/ nth_error vis' j = flag1 g (cursor1 g' + Z.of_nat j)).
    { intros j Hj. rewrite (fill_nth _ _ _ _ j Hfill).
      destruct (existsb (Nat.eqb j) s); [left; reflexivity | right].
      symmetry. apply Hpre. exact Hj. }
    assert (Hcur : flag1 g (cursor1 g) = Some vn).
    { pose proof (flag1_window g 0) as Hc0.
      change (Z.of_nat 0) with 0%Z in Hc0.
      rewrite Z.add_0_r, Nat.add_0_r, <- Ew in Hc0. congruence. }
    assert (Hmiss : missed1 g g' = if vn then [cursor1 g] else []).
    { unfold missed1. rewrite <- Ew, <- Ew3, He3, Hsc1.
      destruct vn.
      - replace (_ <? _) with true by (symmetry; apply Nat.ltb_lt; lia).
        reflexivity.
      - replace (_ <? _) with false by (symmetry; apply Nat.ltb_ge; lia).
        reflexivity. }
    assert (Hstruck : forall k, In k (struck1 g g') ->
               In k (window1 g') /\ flag1 g' k = Some false).
    { intros k Hk. unfold struck1 in Hk. apply filter_In in Hk.
      destruct Hk as (Hw & Hf). split; [exact Hw|].
      destruct (flag1 g k) as [[|]|]; try discriminate.
      destruct (flag1 g' k) as [[|]|]; try discriminate. reflexivity. }
    assert (Hwin : forall k, In k (window1 g') ->
               (cursor1 g + 1 <= k < Z.of_nat (Game.nstep g'))%Z).
    { intros k Hk. apply window1_In in Hk. destruct Hk as (j & Hj & ->).
      rewrite <- Ew3, HN3 in Hj. rewrite Hc'. unfold cursor1.
      rewrite <- Ew, Hn. lia. }
    assert (Hhit : Hits.score (Game.hits g) < Hits.score (Game.hits g') ->
                   struck1 g g' <> []).
    { intros Hlt. destruct s as [|j s']; [simpl in Hscore; lia|].
      pose proof (Forall_inv Hstrue) as Hj. cbv beta in Hj.
      assert (HjN : j < Wave.N w).
      { rewrite <- HN1, <- Lwin. apply nth_error_Some. congruence. }
      assert (Hin : In (cursor1 g' + Z.of_nat j)%Z (struck1 g g')).
      { unfold struck1. apply filter_In. split.
        - apply window1_In. exists j. rewrite <- Ew3, HN3. auto.
        - rewrite (Hpre j HjN), Hj, (Hflag' j HjN),
            (fill_nth _ _ _ _ j Hfill).
          simpl. rewrite Nat.eqb_refl. reflexivity. }
      intros Heq. rewrite Heq in Hin. contradiction. }
    unfold Ledger1. rewrite <- Ew3.
    split; [split; [|split; [|split]]|split; [|exact Hhit]].
    + unfold Wave1_wf. rewrite Htg'.
      cbn [Wave.xpos Wave.xspeed Wave.visible Wave.set_visible Wave.N Wave.n].
      rewrite set_slice_length by lia. auto.
    + rewrite He3, Hsc1, Hmiss, length_app, <- Hsc.
      destruct vn; simpl; lia.
    + apply Forall_app. split.
      * rewrite Hmiss. destruct vn; constructor; [lia | constructor].
      * eapply Forall_impl; [|exact Hm]. intros k Hk. cbv beta in *. lia.
    + apply Forall_app. split.
      * apply Forall_forall. intros k Hk. apply Hstruck in Hk.
        destruct Hk as (Hw & Hf). apply Hwin in Hw. split; [lia | auto].
      * eapply Forall_impl; [|exact Hs]. intros k (Hk1 & Hk2).
        split; [lia|]. intros Hk.
        assert (Hj : exists j, j < Wave.N w
                       /\ k = (cursor1 g' + Z.of_nat j)%Z).
        { exists (Z.to_nat (k - cursor1 g')). unfold cursor1 in *.
          rewrite <- Ew, <- Ew3, HN3, Hn in *. lia. }
        destruct Hj as (j & Hj & ->). rewrite (Hflag' j Hj).
        destruct (Hflag j Hj) as [Hf | Hf]; [exact Hf|].
        rewrite Hf. apply Hk2. lia.
    + intros k Hk Hk'. apply in_app_or in Hk. apply in_app_or in Hk'.
      rewrite Forall_forall in Hm, Hs.
      destruct Hk as [Hk | Hk]; destruct Hk' as [Hk' | Hk'].
      * rewrite Hmiss in Hk. destruct vn; [|contradiction].
        destruct Hk as [<- | []]. apply Hstruck in Hk'.
        destruct Hk' as (Hw & _). apply Hwin in Hw. lia.
      * rewrite Hmiss in Hk. destruct vn; [|contradiction].
        destruct Hk as [<- | []]. destruct (Hs _ Hk') as (_ & Hf).
        rewrite Hf in Hcur by lia. discriminate.
      * apply Hstruck in Hk'. destruct Hk' as (Hw & _). apply Hwin in Hw.
        specialize (Hm _ Hk). cbv beta in Hm. lia.
      * exact (Hdis k Hk Hk').
Qed.
End Ledger1.

Section Ledger2.
Import Shooter2.

Lemma Targets2_newcontent_ext rnd n t (w w' : Targets.t) :
  Targets.newcontent rnd n t w = Ok w' -> Wave.ext w' = Wave.ext w.
Proof.
  unfold Targets.newcontent. intros H.
  destruct (Wave.M w <? n); [discriminate|].
  destruct (Qlt_bool 0 _ && Qle_bool _ 1); [|discriminate].
  apply Ok_inj in H. subst w'. reflexivity.
Qed.

Lemma Targets2_arrive_ext rnd tend n (w : Targets.t) g w2 g2 n2 :
  Wave.arrive (@Wave.pass _) (Targets.newcontent rnd) tend n w g
  = Ok (w2, g2, n2) ->
  Wave.ext w2 = Wave.ext w.
Proof.
  unfold Wave.arrive. intros H.
  destruct (Wave.tborn w =? tend)%Z.
  - bind_inv H as ia Eia. bind_inv H as [w' g'] Eent.
    unfold Wave.pass in Eent. apply Ok_inj in Eent.
    injection Eent as <- <-.
    bind_inv H as w4 E4. bind_inv H as tb Etb. apply Ok_inj in H.
    injection H as <- <- <-. cbn [Wave.ext Wave.set_tborn].
    match type of E4 with
    | (if ?c then _ else _) = _ => destruct c
    end.
    + unfold Wave.recycle in E4.
      bind_inv E4 as bo Ebo. bind_inv E4 as xp Exp. bind_inv E4 as xs Exs.
      bind_inv E4 as w6 E6. apply Ok_inj in E4. subst w4.
      apply Targets2_newcontent_ext in E6. unfold Wave.revive.
      cbn [Wave.ext Wave.set_alive]. rewrite E6. reflexivity.
    + apply Ok_inj in E4. subst w4. reflexivity.
  - apply Ok_inj in H. injection H as <- <- <-. reflexivity.
Qed.

(** [Targets.update] counts the target at the head of the list when it
    was born at the start of the window and is alive, and no other. *)
Lemma Targets2_update_score rnd (w w' : Targets.t) g g' :
  Targets.update rnd w g = Ok (w', g') ->
  Targets.score (Wave.ext w')
  = Targets.score (Wave.ext w) + (if expire_fires w then 1 else 0).
Proof.
  unfold Targets.update, Wave.update. intros H.
  destruct (Wave.cslice w) as [tbeg tend] eqn:Ecs.
  bind_inv H as [[w1 g1] n1] E1. bind_inv H as [[w2 g2] n2] E2.
  bind_inv H as w3 E3. apply Ok_inj in H. injection H as <- <-.
  replace tbeg with (fst (Wave.cslice w)) in E1 by (rewrite Ecs; reflexivity).
  apply (expire_spec _ Targets2_leaving_frame) in E1.
  destruct E1 as (wl & Hhook & _ & _ & ->).
  apply Targets2_arrive_ext in E2.
  apply advance_spec in E3. destruct E3 as (xp & _ & ->).
  cbn [Wave.ext Wave.set_cslice Wave.set_xpos Wave.set_nalive].
  rewrite E2. cbn [Wave.ext Wave.set_ialive].
  destruct (expire_fires w).
  - destruct Hhook as (i & _ & Hl). unfold Targets.leaving in Hl.
    apply Ok_inj in Hl. injection Hl as <- _. reflexivity.
  - destruct Hhook as (-> & _). lia.
Qed.

Lemma expire_fires_live (w : Targets.t) :
  expire_fires w = true -> In (fst (Wave.cslice w)) (live2 w).
Proof.
  unfold expire_fires, live2. destruct (Wave.current w) as [|i rest];
    [discriminate|].
  intros H. apply andb_true_iff in H. destruct H as (Hb & Ha).
  apply Z.eqb_eq in Hb. simpl. rewrite Ha. left. exact Hb.
Qed.

Lemma Targets2_init_score rnd fps v rate width (w : Targets.t) :
  Targets.init rnd fps v rate width = Ok w -> Targets.score (Wave.ext w) = 0.
Proof.
  unfold Targets.init. intros H. bind_inv H as r Er.
  apply Wave2_init_content in H.
  destruct H as (w0 & w1 & t & He & _ & _ & _ & _ & Hnc & tb & yp & _ & ->).
  apply Targets2_newcontent_ext in Hnc. unfold Wave.revive.
  cbn [Wave.ext Wave.set_ypos Wave.set_tborn Wave.set_alive].
  rewrite Hnc, He. reflexivity.
Qed.

Lemma births_current (w : Targets.t) :
  births w = map (fun i => nth i (Wave.born w) 0%Z) (Wave.current w).
Proof. reflexivity. Qed.

Lemma dead2_In (w : Targets.t) k :
  In k (dead2 w) <->
  exists p i, nth_error (Wave.current w) p = Some i
              /\ nth i (Wave.alive w) false = false
              /\ nth i (Wave.born w) 0%Z = k.
Proof.
  unfold dead2. rewrite in_map_iff. split.
  - intros (i & Hk & Hi). apply filter_In in Hi. destruct Hi as (Hi & Ha).
    apply In_nth_error in Hi. destruct Hi as (p & Hp).
    apply negb_true_iff in Ha. eauto.
  - intros (p & i & Hp & Ha & Hk). exists i. split; [exact Hk|].
    apply filter_In. split; [eapply nth_error_In; eauto|].
    rewrite Ha. reflexivity.
Qed.

Lemma live2_In (w : Targets.t) k :
  In k (live2 w) <->
  exists p i, nth_error (Wave.current w) p = Some i
              /\ nth i (Wave.alive w) false = true
              /\ nth i (Wave.born w) 0%Z = k.
Proof.
  unfold live2. rewrite in_map_iff. split.
  - intros (i & Hk & Hi). apply filter_In in Hi. destruct Hi as (Hi & Ha).
    apply In_nth_error in Hi. destruct Hi as (p & Hp). eauto.
  - intros (p & i & Hp & Ha & Hk). exists i. split; [exact Hk|].
    apply filter_In. split; [eapply nth_error_In; eauto | exact Ha].
Qed.

Lemma births_nth (w : Targets.t) p i :
  nth_error (Wave.current w) p = Some i ->
  nth_error (births w) p = Some (nth i (Wave.born w) 0%Z).
Proof. intros H. rewrite births_current, nth_error_map, H. reflexivity. Qed.

Lemma dead2_window (w : Targets.t) k :
  Wave2_inv w -> In k (dead2 w) ->
  (fst (Wave.cslice w) <= k < snd (Wave.cslice w))%Z.
Proof.
  intros (Hc & _) Hk. apply dead2_In in Hk.
  destruct Hk as (p & i & Hp & _ & <-).
  pose proof (inv_window _ _ _ _ Hc) as Hw. fold (births w) in Hw.
  rewrite Forall_forall in Hw. apply Hw.
  eapply nth_error_In. apply births_nth. exact Hp.
Qed.

Lemma dead2_not_live (w : Targets.t) k :
  Wave2_inv w -> In k (dead2 w) -> ~ In k (live2 w).
Proof.
  intros (Hc & _) Hd Hl. apply dead2_In in Hd. apply live2_In in Hl.
  destruct Hd as (p & i & Hp & Ha & Hk).
  destruct Hl as (p' & i' & Hp' & Ha' & Hk').
  pose proof (inv_sorted _ _ _ _ Hc) as Hs. fold (births w) in Hs.
  apply births_nth in Hp as Hb. apply births_nth in Hp' as Hb'.
  rewrite Hk in Hb. rewrite Hk' in Hb'.
  assert (p = p') by (eapply sorted_nth_inj; eauto). subst p'.
  congruence.
Qed.

Lemma struck2_none {B H} (g g' : Shooter.Game.t Targets.t B H) :
  Shooter.Game.targets g' = Shooter.Game.targets g -> struck2 g g' = [].
Proof.
  intros Ht. unfold struck2. rewrite Ht.
  assert (L : forall l l' : list Z, incl l l' ->
             filter (fun k => negb (existsb (Z.eqb k) l')) l = []).
  { induction l as [|a l IH]; intros l' Hi; [reflexivity|].
    simpl. assert (Ha : existsb (Z.eqb a) l' = true).
    { apply existsb_exists. exists a. split; [apply Hi; left; reflexivity|].
      apply Z.eqb_refl. }
    rewrite Ha. simpl. apply IH. intros x Hx. apply Hi. right. exact Hx. }
  apply L. apply incl_refl.
Qed.

Lemma missed2_none {B H} (g g' : Shooter.Game.t Targets.t B H) :
  Shooter.Game.targets g' = Shooter.Game.targets g -> missed2 g g' = [].
Proof. intros Ht. unfold missed2. rewrite Ht, Nat.ltb_irrefl. reflexivity. Qed.

Lemma Ledger2_same {B H} (g g' : Shooter.Game.t Targets.t B H) ms ss :
  Shooter.Game.targets g' = Shooter.Game.targets g ->
  Ledger2 g ms ss -> Ledger2 g' ms ss.
Proof. intros Ht HL. unfold Ledger2 in *. rewrite Ht. exact HL. Qed.

(** One frame transition of shooter2.py keeps the ledger, and counts no
    target on both sides. *)
Lemma Ledger2_update env
    (g g' : Shooter.Game.t Targets.t Bullets.t Hits.t) ms ss :
  Ledger2 g ms ss -> (forall k, In k ms -> ~ In k ss) ->
  Shooter.Game.update Game.Factory2 env g = Ok g' ->
  Ledger2 g' (missed2 g g' ++ ms) (struck2 g g' ++ ss)
  /\ (forall k, In k (missed2 g g' ++ ms) -> ~ In k (struck2 g g' ++ ss))
  /\ (Shooter.Hits.score (Shooter.Game.hits g)
      < Shooter.Hits.score (Shooter.Game.hits g') ->
      struck2 g g' <> []).
Proof.
  intros HL Hdis Hu.
  destruct (Game_update_cases _ _ _ _ Hu)
    as [(Hq & Hn & Ht & _ & Hh)
       | (Hq & Hn & sh0 & tg1 & sh1 & bl2 & sh2 & sh3 & Et & Eb & Eh)].
  - rewrite (struck2_none g g' Ht), (missed2_none g g' Ht). simpl.
    split; [exact (Ledger2_same g g' ms ss Ht HL)|].
    split; [exact Hdis|]. rewrite Hh. intros Hlt. lia.
  - cbn [Shooter.Game.targets_update Shooter.Game.hits_update Game.Factory2]
      in Et, Eh.
    unfold Ledger2 in HL. cbv zeta in HL.
    remember (Shooter.Game.targets g) as w eqn:Ew.
    destruct HL as (Hinv & Hgood & Hsc & Hm & Hs).
    pose proof (Targets2_update_inv _ _ _ _ _ Hinv Hgood Et)
      as (Hinv1 & Hgood1 & HN1 & Hcs1 & Hb1).
    pose proof (Targets2_update_score _ _ _ _ _ Et) as Hsc1.
    apply Hits2_update_inv in Eh.
    destruct Eh as (it & ib & al & al1 & Hfill & _ & Htg' & _ & Hit & _ & _
                    & Hscore).
    remember (Shooter.Game.targets g') as w3 eqn:Ew3.
    assert (Hinv3 : Wave2_inv w3).
    { rewrite Htg'. apply struck_inv; [exact Hinv1|].
      eapply fill_length; eauto. }
    assert (He3 : Wave.ext w3 = Wave.ext tg1) by (rewrite Htg'; reflexivity).
    assert (Hcs3 : Wave.cslice w3
                   = ((fst (Wave.cslice w) + 1)%Z,
                      (snd (Wave.cslice w) + 1)%Z))
      by (rewrite Htg'; exact Hcs1).
    assert (Hb3 : births w3 = births tg1) by (rewrite Htg'; reflexivity).
    assert (Hmiss : missed2 g g'
                    = if expire_fires w then [fst (Wave.cslice w)] else []).
    { unfold missed2. rewrite <- Ew, <- Ew3, He3, Hsc1.
      destruct (expire_fires w).
      - replace (_ <? _) with true by (symmetry; apply Nat.ltb_lt; lia).
        reflexivity.
      - replace (_ <? _) with false by (symmetry; apply Nat.ltb_ge; lia).
        reflexivity. }
    assert (Hstruck : forall k, In k (struck2 g g') ->
               (fst (Wave.cslice w) + 1 <= k < snd (Wave.cslice w) + 1)%Z
               /\ ~ In k (live2 w3)).
    { intros k Hk. unfold struck2 in Hk. apply filter_In in Hk.
      destruct Hk as (Hk & _). rewrite <- Ew3 in Hk. split.
      - pose proof (dead2_window w3 k Hinv3 Hk) as Hw.
        rewrite Hcs3 in Hw. exact Hw.
      - apply dead2_not_live; assumption. }
    assert (Hold : forall k, (k < snd (Wave.cslice w))%Z ->
               ~ In k (live2 w) -> ~ In k (live2 w3)).
    { intros k Hlt Hnl Hl. apply live2_In in Hl.
      destruct Hl as (p3 & i3 & Hp3 & _ & Hk3).
      apply births_nth in Hp3. rewrite Hk3, Hb3, Hb1 in Hp3.
      apply nth_error_In in Hp3. apply in_app_or in Hp3.
      destruct Hp3 as [Hin | Hin].
      - apply select_mask_In in Hin. destruct Hin as (p & Hp & Hmask).
        apply expire_mask_nth in Hmask. destruct Hmask as (i & Hi & Ha).
        rewrite (births_nth w p i Hi) in Hp. apply Ok_inj || idtac.
        injection Hp as Hp. apply Hnl. apply live2_In. eauto.
      - destruct (Wave.tborn w =? snd (Wave.cslice w))%Z; [|contradiction].
        destruct Hin as [Hin | []]. lia. }
    assert (Hhit : Shooter.Hits.score (Shooter.Game.hits g)
                   < Shooter.Hits.score (Shooter.Game.hits g') ->
                   struck2 g g' <> []).
    { intros Hlt. destruct it as [|i it']; [simpl in Hscore; lia|].
      pose proof (Forall_inv Hit) as Hi. cbv beta in Hi.
      apply In_nth_error in Hi. destruct Hi as (p & Hp).
      assert (Hal : nth i (Wave.alive w3) false = false).
      { rewrite Htg'. cbn [Wave.alive Wave.set_alive].
        apply nth_error_nth. rewrite (fill_nth _ _ _ _ i Hfill).
        simpl. rewrite Nat.eqb_refl. reflexivity. }
      assert (Hp3 : nth_error (Wave.current w3) p = Some i)
        by (rewrite Htg'; exact Hp).
      assert (Hd3 : In (nth i (Wave.born w3) 0%Z) (dead2 w3))
        by (apply dead2_In; eauto).
      assert (Hnd : ~ In (nth i (Wave.born w3) 0%Z) (dead2 w)).
      { intros Hd. apply dead2_In in Hd.
        destruct Hd as (p0 & i0 & Hp0 & Ha0 & Hk0).
        apply nth_error_In in Hp0.
        apply (compacted_out w tg1 i0 Hinv Hb1 Hp0 Ha0).
        rewrite Hk0, <- Hb3. eapply nth_error_In. apply births_nth.
        exact Hp3. }
      assert (Hin : In (nth i (Wave.born w3) 0%Z) (struck2 g g')).
      { unfold struck2. rewrite <- Ew, <- Ew3. apply filter_In.
        split; [exact Hd3|]. apply negb_true_iff.
        destruct (existsb _ (dead2 w)) eqn:Ex; [|reflexivity].
        apply existsb_exists in Ex. destruct Ex as (x & Hx & Heq).
        apply Z.eqb_eq in Heq. subst x. contradiction. }
      intros Heq. rewrite Heq in Hin. contradiction. }
    unfold Ledger2. cbv zeta. rewrite <- Ew3.
    split; [split; [|split; [|split; [|split]]]|split; [|exact Hhit]].
    + exact Hinv3.
    + rewrite He3. exact Hgood1.
    + rewrite He3, Hsc1, Hmiss, length_app, <- Hsc.
      destruct (expire_fires w); simpl; lia.
    + rewrite Hcs3. cbn [fst]. apply Forall_app. split.
      * rewrite Hmiss. destruct (expire_fires w); constructor;
          [lia | constructor].
      * eapply Forall_impl; [|exact Hm]. intros k Hk. cbv beta in *. lia.
    + rewrite Hcs3. cbn [snd]. apply Forall_app. split.
      * apply Forall_forall. intros k Hk. apply Hstruck in Hk.
        destruct Hk as (Hw & Hnl). split; [lia | exact Hnl].
      * eapply Forall_impl; [|exact Hs]. intros k (Hk1 & Hk2).
        split; [lia | auto].
    + intros k Hk Hk'. apply in_app_or in Hk. apply in_app_or in Hk'.
      rewrite Forall_forall in Hm, Hs.
      destruct Hk as [Hk | Hk]; destruct Hk' as [Hk' | Hk'].
      * rewrite Hmiss in Hk. destruct (expire_fires w); [|contradiction].
        destruct Hk as [<- | []]. apply Hstruck in Hk'. lia.
      * rewrite Hmiss in Hk.
        destruct (expire_fires w) eqn:Ef; [|contradiction].
        destruct Hk as [<- | []]. destruct (Hs _ Hk') as (_ & Hnl).
        apply Hnl. apply expire_fires_live. exact Ef.
      * apply Hstruck in Hk'. specialize (Hm _ Hk). cbv beta in Hm. lia.
      * exact (Hdis k Hk Hk').
Qed.
End Ledger2.

(* ================================================================== *)
(** * C3: the two scores along a session *)
(* ================================================================== *)

Lemma Game1_init_ledger rnd c g0 :
  Shooter.Game.init rnd c = Ok g0 -> Ledger1 g0 [] [].
Proof.
  unfold Shooter.Game.init. intros H.
  bind_inv H as av Eav. bind_inv H as tg Etg. bind_inv H as bl Ebl.
  bind_inv H as h Eh. apply Ok_inj in H. subst g0.
  apply Hits1_init_Ok in Eh.
  destruct (Targets1_init_wf _ _ _ _ _ _ Etg Eh) as (Hwf & Hsc).
  unfold Ledger1. cbn [Shooter.Game.targets Shooter.Game.nstep].
  split; [exact Hwf|]. split; [exact Hsc|]. split; constructor.
Qed.

Lemma Game2_init_ledger rnd c g0 :
  Shooter2.Game.init rnd c = Ok g0 -> Ledger2 g0 [] [].
Proof.
  unfold Shooter2.Game.init. intros H.
  bind_inv H as av Eav. bind_inv H as tg Etg. bind_inv H as bl Ebl.
  bind_inv H as h Eh. apply Ok_inj in H. subst g0.
  destruct (Targets2_init_inv _ _ _ _ _ _ Etg) as (Hinv & Hgood).
  unfold Ledger2. cbn [Shooter.Game.targets].
  split; [exact Hinv|]. split; [exact Hgood|].
  split; [exact (Targets2_init_score _ _ _ _ _ _ Etg)|]. split; constructor.
Qed.

Lemma Session1_ledger g0 g ms ss :
  Ledger1 g0 [] [] ->
  Session Shooter.Game.Factory1 missed1 struck1 g0 g ms ss ->
  Ledger1 g ms ss /\ (forall k, In k ms -> ~ In k ss).
Proof.
  intros H0 Hs. induction Hs as [|g ms ss keys _ IH|g ms ss env g' _ IH Hu].
  - split; [exact H0 | intros k []].
  - destruct IH as (HL & Hd). split; [|exact Hd].
    exact (Ledger1_same g _ ms ss eq_refl eq_refl HL).
  - destruct IH as (HL & Hd).
    destruct (Ledger1_update env g g' ms ss HL Hd Hu) as (HL' & Hd' & _).
    auto.
Qed.

Lemma Session2_ledger g0 g ms ss :
  Ledger2 g0 [] [] ->
  Session Shooter2.Game.Factory2 missed2 struck2 g0 g ms ss ->
  Ledger2 g ms ss /\ (forall k, In k ms -> ~ In k ss).
Proof.
  intros H0 Hs. induction Hs as [|g ms ss keys _ IH|g ms ss env g' _ IH Hu].
  - split; [exact H0 | intros k []].
  - destruct IH as (HL & Hd). split; [|exact Hd].
    exact (Ledger2_same g _ ms ss eq_refl HL).
  - destruct IH as (HL & Hd).
    destruct (Ledger2_update env g g' ms ss HL Hd Hu) as (HL' & Hd' & _).
    auto.
Qed.

(** Neither score goes down in a call of [Game.update], whatever the
    state it is called in. *)
Lemma Game1_update_scores env g g' :
  Shooter.Game.update Shooter.Game.Factory1 env g = Ok g' ->
  Shooter.Hits.score (Shooter.Game.hits g)
  <= Shooter.Hits.score (Shooter.Game.hits g')
  /\ Shooter.Targets.score (Shooter.Wave.ext (Shooter.Game.targets g))
     <= Shooter.Targets.score (Shooter.Wave.ext (Shooter.Game.targets g')).
Proof.
  intros Hu.
  destruct (Game_update_cases _ _ _ _ Hu)
    as [(_ & _ & Ht & _ & Hh)
       | (_ & _ & sh0 & tg1 & sh1 & bl2 & sh2 & sh3 & Et & _ & Eh)].
  - rewrite Ht, Hh. auto.
  - cbn [Shooter.Game.targets_update Shooter.Game.hits_update
           Shooter.Game.Factory1] in Et, Eh.
    apply Targets1_update_score in Et. destruct Et as (_ & vn & _ & Hsc).
    apply Hits1_update_inv in Eh. destruct Eh as (s & vis' & _ & -> & _ & ->).
    cbn [Shooter.Wave.ext Shooter.Wave.set_visible]. lia.
Qed.

Lemma Game2_update_scores env g g' :
  Shooter.Game.update Shooter2.Game.Factory2 env g = Ok g' ->
  Shooter.Hits.score (Shooter.Game.hits g)
  <= Shooter.Hits.score (Shooter.Game.hits g')
  /\ Shooter2.Targets.score (Shooter2.Wave.ext (Shooter.Game.targets g))
     <= Shooter2.Targets.score (Shooter2.Wave.ext (Shooter.Game.targets g')).
Proof.
  intros Hu.
  destruct (Game_update_cases _ _ _ _ Hu)
    as [(_ & _ & Ht & _ & Hh)
       | (_ & _ & sh0 & tg1 & sh1 & bl2 & sh2 & sh3 & Et & _ & Eh)].
  - rewrite Ht, Hh. auto.
  - cbn [Shooter.Game.targets_update Shooter.Game.hits_update
           Shooter2.Game.Factory2] in Et, Eh.
    apply Targets2_update_score in Et.
    apply Hits2_update_inv in Eh.
    destruct Eh as (it & ib & al & al1 & _ & _ & -> & _ & _ & _ & _ & ->).
    cbn [Shooter2.Wave.ext Shooter2.Wave.set_alive]. lia.
Qed.

Lemma run_session_Session {T B H} (F : Shooter.Game.Factory T B H)
    missed struck g0 inputs :
  forall g ms ss,
    Session F missed struck g0 g ms ss ->
    Session F missed struck g0
      (fst (fst (run_session F missed struck inputs g ms ss)))
      (snd (fst (run_session F missed struck inputs g ms ss)))
      (snd (run_session F missed struck inputs g ms ss)).
Proof.
  induction inputs as [|[keys env] rest IH]; intros g ms ss Hs; simpl.
  - exact Hs.
  - destruct (Shooter.Game.update F env (Shooter.GameManager.userinput keys g))
      as [g'|e] eqn:Hu; simpl; [|exact Hs].
    apply IH. eapply session_update; [|exact Hu].
    apply session_input. exact Hs.
Qed.

(** C3.  In both files, neither [hits.score] nor [targets.score] goes down
    in a call of [Game.update], so their sum never decreases along a
    sequence of frame updates.  And along every session (the construction
    of the game, then any sequence of key readings and updates), with the
    targets counted as a miss and the targets deactivated by a collision
    logged at each update: [targets.score] is the number of targets logged
    as missed, no target is logged on both sides, in whatever order, and an
    update that raises [hits.score] logs a deactivated target. *)
Theorem C3_scores_conserved :
  (forall env g g',
      Shooter.Game.update Shooter.Game.Factory1 env g = Ok g' ->
      Shooter.Hits.score (Shooter.Game.hits g)
      + Shooter.Targets.score (Shooter.Wave.ext (Shooter.Game.targets g))
      <= Shooter.Hits.score (Shooter.Game.hits g')
         + Shooter.Targets.score (Shooter.Wave.ext (Shooter.Game.targets g')))
  /\ (forall env g g',
        Shooter.Game.update Shooter2.Game.Factory2 env g = Ok g' ->
        Shooter.Hits.score (Shooter.Game.hits g)
        + Shooter2.Targets.score (Shooter2.Wave.ext (Shooter.Game.targets g))
        <= Shooter.Hits.score (Shooter.Game.hits g')
           + Shooter2.Targets.score
               (Shooter2.Wave.ext (Shooter.Game.targets g')))
  /\ (forall rnd c g0 g ms ss,
        Shooter.Game.init rnd c = Ok g0 ->
        Session Shooter.Game.Factory1 missed1 struck1 g0 g ms ss ->
        Shooter.Targets.score (Shooter.Wave.ext (Shooter.Game.targets g))
        = length ms
        /\ (forall k, In k ms -> ~ In k ss)
        /\ (forall env g',
              Shooter.Game.update Shooter.Game.Factory1 env g = Ok g' ->
              Shooter.Hits.score (Shooter.Game.hits g)
              < Shooter.Hits.score (Shooter.Game.hits g') ->
              struck1 g g' <> []))
  /\ (forall rnd c g0 g ms ss,
        Shooter2.Game.init rnd c = Ok g0 ->
        Session Shooter2.Game.Factory2 missed2 struck2 g0 g ms ss ->
        Shooter2.Targets.score (Shooter2.Wave.ext (Shooter.Game.targets g))
        = length ms
        /\ (forall k, In k ms -> ~ In k ss)
        /\ (forall env g',
              Shooter.Game.update Shooter2.Game.Factory2 env g = Ok g' ->
              Shooter.Hits.score (Shooter.Game.hits g)
              < Shooter.Hits.score (Shooter.Game.hits g') ->
              struck2 g g' <> [])).
Proof.
  split; [|split; [|split]].
  - intros env g g' Hu. apply Game1_update_scores in Hu. lia.
  - intros env g g' Hu. apply Game2_update_scores in Hu. lia.
  - intros rnd c g0 g ms ss H0 Hs. apply Game1_init_ledger in H0.
    destruct (Session1_ledger g0 g ms ss H0 Hs) as (HL & Hd).
    split; [destruct HL as (_ & Hsc & _); exact Hsc|]. split; [exact Hd|].
    intros env g' Hu.
    exact (proj2 (proj2 (Ledger1_update env g g' ms ss HL Hd Hu))).
  - intros rnd c g0 g ms ss H0 Hs. apply Game2_init_ledger in H0.
    destruct (Session2_ledger g0 g ms ss H0 Hs) as (HL & Hd).
    split; [destruct HL as (_ & _ & Hsc & _); exact Hsc|]. split; [exact Hd|].
    intros env g' Hu.
    exact (proj2 (proj2 (Ledger2_update env g g' ms ss HL Hd Hu))).
Qed.

Lemma C3_scores_conserved_witness :
  let r1 := run_session Shooter.Game.Factory1 missed1 struck1 demo_inputs
              (demo_game 0) [] [] in
  let r2 := run_session Shooter2.Game.Factory2 missed2 struck2 demo_inputs
              demo2_game [] [] in
  (snd (fst r1) = [2%Z] /\ snd r1 = [0%Z]
   /\ forall k, In k (snd (fst r1)) -> ~ In k (snd r1))
  /\ (snd (fst r2) = [4%Z; 3%Z] /\ snd r2 = [2%Z]
      /\ forall k, In k (snd (fst r2)) -> ~ In k (snd r2)).
Proof.
  cbv zeta. split.
  - split; [vm_compute; reflexivity|]. split; [vm_compute; reflexivity|].
    refine (proj1 (proj2 (proj1 (proj2 (proj2 C3_scores_conserved))
                            demo_random demo_config (demo_game 0) _ _ _ _ _))).
    + vm_compute. reflexivity.
    + apply run_session_Session. apply session_start.
  - split; [vm_compute; reflexivity|]. split; [vm_compute; reflexivity|].
    refine (proj1 (proj2 (proj2 (proj2 (proj2 C3_scores_conserved))
                            demo_random demo_config demo2_game _ _ _ _ _))).
    + vm_compute. reflexivity.
    + apply run_session_Session. apply session_start.
Defined.

(* ================================================================== *)
(** * What a frame does to the attributes of the game *)
(* ================================================================== *)

Section FrameShared.
Import Shooter.

Lemma Targets1_update_shared rnd (w w' : Targets.t) g g' :
  Targets.update rnd w g = Ok (w', g') ->
  g' = (if Targets.score (Wave.ext w) <? Targets.score (Wave.ext w')
        then set_tr_miss true g else g).
Proof.
  intros H. pose proof (Targets1_update_score _ _ _ _ _ H)
    as (_ & vn & Hvn & Hsc).
  unfold Targets.update, Wave.update in H.
  bind_inv H as [w2 g2] Ef. bind_inv H as w3 Es. apply Ok_inj in H.
  injection H as <- <-.
  apply Targets1_fire_inv in Ef.
  destruct Ef as (vn' & vm & Hvn' & _ & _ & ->).
  rewrite Hvn in Hvn'. injection Hvn' as <-. rewrite Hsc.
  destruct vn.
  - replace (_ <? _) with true by (symmetry; apply Nat.ltb_lt; lia).
    reflexivity.
  - replace (_ <? _) with false by (symmetry; apply Nat.ltb_ge; lia).
    reflexivity.
Qed.

Lemma Bullets1_update_shared (w w' : Bullets.t) g g' :
  Bullets.update w g = Ok (w', g') -> g' = g.
Proof.
  unfold Bullets.update, Wave.update. intros H.
  bind_inv H as [w2 g2] Ef. bind_inv H as w3 Es. apply Ok_inj in H.
  injection H as <- <-.
  apply Bullets1_fire_inv in Ef. destruct Ef as (vn & vm & _ & _ & -> & _).
  reflexivity.
Qed.

Lemma Hits1_update_shared {E E1} (tg : Wave.t E) (bl : Wave.t E1) h g
  tg' bl' h' g' :
  Hits.update tg bl h g = Ok (tg', bl', h', g') ->
  g' = (if Hits.score h <? Hits.score h' then set_tr_hits true g else g).
Proof.
  unfold Hits.update, Wave.current. intros H.
  bind_inv H as [[[tg1 bl1] h1] g1] Hu. apply Ok_inj in H.
  injection H as <- <- <- <-. cbn [Hits.score Hits.age].
  assert (Hnone : g = (if Hits.score h <? Hits.score h
                       then set_tr_hits true g else g))
    by (rewrite Nat.ltb_irrefl; reflexivity).
  destruct (any _ && any _).
  - bind_inv Hu as [nz nz1] Ed.
    destruct (0 <? length nz) eqn:Enz.
    + bind_inv Hu as s Es. bind_inv Hu as vis' Evis.
      bind_inv Hu as wt Ewt. bind_inv Hu as xs Exs. bind_inv Hu as xp Exp.
      bind_inv Hu as s1 Es1. bind_inv Hu as vis1' Evis1.
      apply Ok_inj in Hu. injection Hu as <- <- <- <-.
      cbn [Hits.score]. apply Nat.ltb_lt in Enz.
      replace (_ <? _) with true by (symmetry; apply Nat.ltb_lt; lia).
      reflexivity.
    + apply Ok_inj in Hu. injection Hu as <- <- <- <-. exact Hnone.
  - apply Ok_inj in Hu. injection Hu as <- <- <- <-. exact Hnone.
Qed.

Lemma Targets2_update_shared rnd (w w' : Shooter2.Targets.t) g g' :
  Shooter2.Targets.update rnd w g = Ok (w', g') ->
  g' = (if Shooter2.Targets.score (Shooter2.Wave.ext w)
           <? Shooter2.Targets.score (Shooter2.Wave.ext w')
        then set_tr_miss true g else g).
Proof.
  intros H. pose proof (Targets2_update_score _ _ _ _ _ H) as Hsc.
  unfold Shooter2.Targets.update, Shooter2.Wave.update in H.
  destruct (Shooter2.Wave.cslice w) as [tbeg tend] eqn:Ecs.
  bind_inv H as [[w1 g1] n1] E1. bind_inv H as [[w2 g2] n2] E2.
  bind_inv H as w3 E3. apply Ok_inj in H. injection H as <- <-.
  replace tbeg with (fst (Shooter2.Wave.cslice w)) in E1
    by (rewrite Ecs; reflexivity).
  apply (expire_spec _ Targets2_leaving_frame) in E1.
  destruct E1 as (wl & Hhook & _).
  assert (Hg2 : g2 = g1).
  { unfold Shooter2.Wave.arrive in E2.
    destruct (_ =? tend)%Z.
    - bind_inv E2 as ia Eia. bind_inv E2 as [w' g'] Eent.
      unfold Shooter2.Wave.pass in Eent. apply Ok_inj in Eent.
      injection Eent as <- <-.
      bind_inv E2 as w4 E4. bind_inv E2 as tb Etb. apply Ok_inj in E2.
      injection E2 as _ <- _. reflexivity.
    - apply Ok_inj in E2. injection E2 as _ <- _. reflexivity. }
  subst g2. rewrite Hsc. destruct (expire_fires w).
  - destruct Hhook as (i & _ & Hl). unfold Shooter2.Targets.leaving in Hl.
    apply Ok_inj in Hl. injection Hl as _ <-.
    replace (_ <? _) with true by (symmetry; apply Nat.ltb_lt; lia).
    reflexivity.
  - destruct Hhook as (_ & ->).
    replace (_ <? _) with false by (symmetry; apply Nat.ltb_ge; lia).
    reflexivity.
Qed.

Lemma Bullets2_update_shared (w w' : Shooter2.Bullets.t) g g' :
  Shooter2.Bullets.update w g = Ok (w', g') -> g' = g.
Proof.
  unfold Shooter2.Bullets.update, Shooter2.Wave.update. intros H.
  destruct (Shooter2.Wave.cslice w) as [tbeg tend] eqn:Ecs.
  bind_inv H as [[w1 g1] n1] E1. bind_inv H as [[w2 g2] n2] E2.
  bind_inv H as w3 E3. apply Ok_inj in H. injection H as <- <-.
  replace tbeg with (fst (Shooter2.Wave.cslice w)) in E1
    by (rewrite Ecs; reflexivity).
  apply (expire_spec _ (@pass_frame _)) in E1.
  destruct E1 as (wl & Hhook & _).
  assert (Hg1 : g1 = g).
  { destruct (expire_fires w).
    - destruct Hhook as (i & _ & Hl). unfold Shooter2.Wave.pass in Hl.
      apply Ok_inj in Hl. injection Hl as _ <-. reflexivity.
    - destruct Hhook as (_ & ->). reflexivity. }
  subst g1. unfold Shooter2.Wave.arrive in E2.
  destruct (_ =? tend)%Z.
  - bind_inv E2 as ia Eia. bind_inv E2 as [w' g'] Eent.
    unfold Shooter2.Bullets.entering in Eent. bind_inv Eent as xp Exp.
    apply Ok_inj in Eent. injection Eent as <- <-.
    bind_inv E2 as w4 E4. bind_inv E2 as tb Etb. apply Ok_inj in E2.
    injection E2 as _ <- _. reflexivity.
  - apply Ok_inj in E2. injection E2 as _ <- _. reflexivity.
Qed.

Lemma Hits2_update_shared {E E1} (tg : Shooter2.Wave.t E)
  (bl : Shooter2.Wave.t E1) h g tg' bl' h' g' :
  Shooter2.Hits.update tg bl h g = Ok (tg', bl', h', g') ->
  g' = (if Hits.score h <? Hits.score h' then set_tr_hits true g else g).
Proof.
  unfold Shooter2.Hits.update. intros H.
  bind_inv H as [[[tg1 bl1] h1] g1] Hu. apply Ok_inj in H.
  injection H as <- <- <- <-. cbn [Hits.score Hits.age].
  assert (Hnone : g = (if Hits.score h <? Hits.score h
                       then set_tr_hits true g else g))
    by (rewrite Nat.ltb_irrefl; reflexivity).
  destruct (_ && _).
  - bind_inv Hu as [[nz nz1] r] Ed.
    destruct (0 <? length nz) eqn:Enz.
    + bind_inv Hu as it Eit. bind_inv Hu as al Eal. bind_inv Hu as ib Eib.
      bind_inv Hu as al1 Eal1. bind_inv Hu as rnz Ernz.
      bind_inv Hu as wt Ewt. bind_inv Hu as xs Exs. bind_inv Hu as xp Exp.
      apply Ok_inj in Hu. injection Hu as <- <- <- <-.
      cbn [Hits.score]. apply Nat.ltb_lt in Enz.
      replace (_ <? _) with true by (symmetry; apply Nat.ltb_lt; lia).
      reflexivity.
    + apply Ok_inj in Hu. injection Hu as <- <- <- <-. exact Hnone.
  - apply Ok_inj in Hu. injection Hu as <- <- <- <-. exact Hnone.
Qed.
End FrameShared.

Section FrameGame.
Import Shooter.
Context {T B H : Type}.
Variable F : Game.Factory T B H.

Hypothesis targets_shared :
  forall rnd w g w' g',
    Game.targets_update F rnd w g = Ok (w', g') ->
    g' = (if Game.targets_score F w <? Game.targets_score F w'
          then set_tr_miss true g else g).
Hypothesis bullets_shared :
  forall w g w' g', Game.bullets_update F w g = Ok (w', g') -> g' = g.
Hypothesis hits_shared :
  forall tg bl h g tg' bl' h' g',
    Game.hits_update F tg bl h g = Ok (tg', bl', h', g') ->
    Game.targets_score F tg' = Game.targets_score F tg
    /\ g' = (if Game.hits_score F h <? Game.hits_score F h'
             then set_tr_hits true g else g).

(** The attributes of the game after a call of [Game.update]. *)
Lemma Game_update_shared env g g' :
  Game.update F env g = Ok g' ->
  Game.shared g'
  = mkShared (fps (Game.shared g)) (tr_move (Game.shared g))
      (tr_quit (Game.shared g))
      (tr_hits (Game.shared g)
       || (Game.hits_score F (Game.hits g)
           <? Game.hits_score F (Game.hits g')))
      (tr_miss (Game.shared g)
       || (Game.targets_score F (Game.targets g)
           <? Game.targets_score F (Game.targets g')))
      (if tr_quit (Game.shared g) then avatar (Game.shared g)
       else Avatar.update (tr_move (Game.shared g))
              (avatar (Game.shared g))).
Proof.
  intros Hu. destruct (tr_quit (Game.shared g)) eqn:Hq.
  - unfold Game.update in Hu. rewrite Hq in Hu. apply Ok_inj in Hu.
    subst g'. cbn [Game.shared Game.hits Game.targets].
    rewrite !Nat.ltb_irrefl, !orb_false_r, <- Hq.
    destruct (Game.shared g); reflexivity.
  - destruct (Game_update_running F env g g' Hq Hu)
      as (g1 & time & d & Hc & ->).
    unfold Game.components_update in Hc.
    bind_inv Hc as [tg1 sh1] Et. bind_inv Hc as [bl2 sh2] Eb.
    bind_inv Hc as [[[tg3 bl3] h3] sh3] Eh. apply Ok_inj in Hc. subst g1.
    cbn [Game.shared Game.hits Game.targets].
    apply targets_shared in Et. apply bullets_shared in Eb.
    apply hits_shared in Eh. destruct Eh as (Hts & Hsh).
    subst sh3 sh2 sh1. rewrite Hts, <- Hq.
    destruct (Game.shared g) as [f m q hi mi av].
    cbn [fps tr_move tr_quit tr_hits tr_miss avatar set_avatar].
    destruct (_ <? Game.targets_score F tg1);
      destruct (Game.hits_score F (Game.hits g) <? _);
      cbn [set_tr_miss set_tr_hits fps tr_move tr_quit tr_hits tr_miss
             avatar];
      rewrite ?orb_true_r, ?orb_false_r; reflexivity.
Qed.

(** The sounds of a frame: [userinput], [update], then [useroutput]. *)
Lemma frame_sounds keys env g g' :
  Game.update F env (GameManager.userinput keys g) = Ok g' ->
  GameManager.useroutput g'
  = (if Game.hits_score F (Game.hits g)
        <? Game.hits_score F (Game.hits g')
     then ["hits"%string] else [])
    ++ (if Game.targets_score F (Game.targets g)
           <? Game.targets_score F (Game.targets g')
        then ["miss"%string] else []).
Proof.
  intros Hu. apply Game_update_shared in Hu.
  unfold GameManager.useroutput. rewrite Hu.
  cbn [tr_hits tr_miss Game.shared GameManager.userinput Game.hits
         Game.targets orb].
  reflexivity.
Qed.
End FrameGame.

Lemma Factory1_targets_shared rnd w g w' g' :
  Shooter.Game.targets_update Shooter.Game.Factory1 rnd w g = Ok (w', g') ->
  g' = (if Shooter.Game.targets_score Shooter.Game.Factory1 w
           <? Shooter.Game.targets_score Shooter.Game.Factory1 w'
        then Shooter.set_tr_miss true g else g).
Proof. exact (Targets1_update_shared rnd w w' g g'). Qed.

Lemma Factory1_hits_shared tg bl h g tg' bl' h' g' :
  Shooter.Game.hits_update Shooter.Game.Factory1 tg bl h g
  = Ok (tg', bl', h', g') ->
  Shooter.Game.targets_score Shooter.Game.Factory1 tg'
  = Shooter.Game.targets_score Shooter.Game.Factory1 tg
  /\ g' = (if Shooter.Game.hits_score Shooter.Game.Factory1 h
              <? Shooter.Game.hits_score Shooter.Game.Factory1 h'
           then Shooter.set_tr_hits true g else g).
Proof.
  cbn [Shooter.Game.hits_update Shooter.Game.targets_score
         Shooter.Game.hits_score Shooter.Game.Factory1].
  intros Hh. split; [|exact (Hits1_update_shared _ _ _ _ _ _ _ _ Hh)].
  apply Hits1_update_inv in Hh. destruct Hh as (s & vis' & _ & -> & _).
  reflexivity.
Qed.

Lemma Factory2_targets_shared rnd w g w' g' :
  Shooter.Game.targets_update Shooter2.Game.Factory2 rnd w g = Ok (w', g') ->
  g' = (if Shooter.Game.targets_score Shooter2.Game.Factory2 w
           <? Shooter.Game.targets_score Shooter2.Game.Factory2 w'
        then Shooter.set_tr_miss true g else g).
Proof. exact (Targets2_update_shared rnd w w' g g'). Qed.

Lemma Factory2_hits_shared tg bl h g tg' bl' h' g' :
  Shooter.Game.hits_update Shooter2.Game.Factory2 tg bl h g
  = Ok (tg', bl', h', g') ->
  Shooter.Game.targets_score Shooter2.Game.Factory2 tg'
  = Shooter.Game.targets_score Shooter2.Game.Factory2 tg
  /\ g' = (if Shooter.Game.hits_score Shooter2.Game.Factory2 h
              <? Shooter.Game.hits_score Shooter2.Game.Factory2 h'
           then Shooter.set_tr_hits true g else g).
Proof.
  cbn [Shooter.Game.hits_update Shooter.Game.targets_score
         Shooter.Game.hits_score Shooter2.Game.Factory2].
  intros Hh. split; [|exact (Hits2_update_shared _ _ _ _ _ _ _ _ Hh)].
  apply Hits2_update_inv in Hh.
  destruct Hh as (it & ib & al & al1 & _ & _ & -> & _). reflexivity.
Qed.

(** X1.  In both files the sounds of a frame tell the scores: in a frame
    of the loop ([userinput], [update], [useroutput]) the sound "hits" is
    asked for exactly when [hits.score] went up in that update, and the
    sound "miss" exactly when [targets.score] went up, "hits" first. *)
Theorem X1_sounds_follow_scores :
  (forall keys env g g',
      Shooter.Game.update Shooter.Game.Factory1 env
        (Shooter.GameManager.userinput keys g) = Ok g' ->
      Shooter.GameManager.useroutput g'
      = (if Shooter.Hits.score (Shooter.Game.hits g)
            <? Shooter.Hits.score (Shooter.Game.hits g')
         then ["hits"%string] else [])
        ++ (if Shooter.Targets.score
                 (Shooter.Wave.ext (Shooter.Game.targets g))
               <? Shooter.Targets.score
                    (Shooter.Wave.ext (Shooter.Game.targets g'))
            then ["miss"%string] else []))
  /\ (forall keys env g g',
        Shooter.Game.update Shooter2.Game.Factory2 env
          (Shooter.GameManager.userinput keys g) = Ok g' ->
        Shooter.GameManager.useroutput g'
        = (if Shooter.Hits.score (Shooter.Game.hits g)
              <? Shooter.Hits.score (Shooter.Game.hits g')
           then ["hits"%string] else [])
          ++ (if Shooter2.Targets.score
                   (Shooter2.Wave.ext (Shooter.Game.targets g))
                 <? Shooter2.Targets.score
                      (Shooter2.Wave.ext (Shooter.Game.targets g'))
              then ["miss"%string] else [])).
Proof.
  split; intros keys env g g' Hu.
  - exact (frame_sounds Shooter.Game.Factory1 Factory1_targets_shared
             (fun w g w' g' => Bullets1_update_shared w w' g g')
             Factory1_hits_shared keys env g g' Hu).
  - exact (frame_sounds Shooter2.Game.Factory2 Factory2_targets_shared
             (fun w g w' g' => Bullets2_update_shared w w' g g')
             Factory2_hits_shared keys env g g' Hu).
Qed.

Lemma X1_sounds_follow_scores_witness :
  Shooter.GameManager.useroutput (demo_game 1) = ["hits"%string].
Proof.
  exact (proj1 X1_sounds_follow_scores 0%Z demo_env (demo_game 0)
           (demo_game 1) ltac:(vm_compute; reflexivity)).
Defined.

(* ================================================================== *)
(** * The keyboard *)
(* ================================================================== *)

Section Keyboard.
Import Shooter.

Lemma KEYS_cases (name : string) :
  In (GameManager.KEYS name) [0; 1; 2; 4; 8]%Z.
Proof.
  unfold GameManager.KEYS.
  repeat match goal with
         | |- context [if ?c then _ else _] => destruct c
         end; simpl; tauto.
Qed.

Lemma keys_cases (keys : Z) :
  (0 <= keys < 16)%Z ->
  In keys [0; 1; 2; 3; 4; 5; 6; 7; 8; 9; 10; 11; 12; 13; 14; 15]%Z.
Proof. intros H. simpl. lia. Qed.

(** What precedes a '+' in the name of a key is dropped. *)
Lemma rsplit_last_prefix (acc pre name : string) :
  GameManager.rsplit_last acc (String.append pre (String "+" name))
  = GameManager.rsplit_last EmptyString name.
Proof.
  revert acc. induction pre as [|c pre IH]; intros acc; simpl.
  - reflexivity.
  - destruct (Ascii.eqb c "+"); apply IH.
Qed.

(** Setting and clearing one of the four bits of a 4-bit vector. *)
Lemma key_bits (keys b : Z) :
  (0 <= keys < 16)%Z -> In b [0; 1; 2; 4; 8]%Z ->
  (0 <= Z.lor keys b < 16)%Z
  /\ (0 <= Z.land keys (Z.lnot b) < 16)%Z
  /\ GameManager.pressed (Z.lor keys b) b = negb (b =? 0)%Z
  /\ GameManager.pressed (Z.land keys (Z.lnot b)) b = false
  /\ Z.land (Z.lor keys b) (Z.lnot b) = Z.land keys (Z.lnot b)
  /\ Z.lor (Z.lor keys b) b = Z.lor keys b
  /\ (b = 0%Z -> Z.lor keys b = keys /\ Z.land keys (Z.lnot b) = keys)
  /\ (forall b', In b' [1; 2; 4; 8]%Z -> b' <> b ->
        GameManager.pressed (Z.lor keys b) b' = GameManager.pressed keys b'
        /\ GameManager.pressed (Z.land keys (Z.lnot b)) b'
           = GameManager.pressed keys b').
Proof.
  intros Hk Hb. apply keys_cases in Hk. simpl in Hk, Hb.
  repeat match goal with
         | H : _ \/ _ |- _ => destruct H as [H | H]
         | H : False |- _ => destruct H
         end;
    subst;
    (split; [simpl; lia|]); (split; [simpl; lia|]);
    (split; [vm_compute; reflexivity|]);
    (split; [vm_compute; reflexivity|]);
    (split; [vm_compute; reflexivity|]);
    (split; [vm_compute; reflexivity|]);
    (split; [intros Hb0; first [discriminate Hb0
                               | split; vm_compute; reflexivity]|]);
    intros b' Hb' Hne; simpl in Hb';
    repeat match goal with
           | H : _ \/ _ |- _ => destruct H as [H | H]
           | H : False |- _ => destruct H
           end;
    subst; first [congruence | split; vm_compute; reflexivity].
Qed.

(** X2.  The bit-vector of the keys held, under [kpress] and [krelease]:
    it stays within four bits; a key event touches the bit of its key and
    no other; pressing sets the bit, releasing clears it, also when the
    key was pressed twice; a key that [KEYS] does not know changes
    nothing; and a modifier prefix ("ctrl+left") is dropped from the
    name of the key. *)
Theorem X2_key_events (keys : Z) (key : string) :
  (0 <= keys < 16)%Z ->
  let b := GameManager.KEYS (GameManager.rsplit_last EmptyString key) in
  (0 <= GameManager.kpress keys key < 16)%Z
  /\ (0 <= GameManager.krelease keys key < 16)%Z
  /\ GameManager.pressed (GameManager.kpress keys key) b
     = negb (b =? 0)%Z
  /\ GameManager.pressed (GameManager.krelease keys key) b = false
  /\ GameManager.krelease (GameManager.kpress keys key) key
     = GameManager.krelease keys key
  /\ GameManager.kpress (GameManager.kpress keys key) key
     = GameManager.kpress keys key
  /\ (b = 0%Z -> GameManager.kpress keys key = keys
                 /\ GameManager.krelease keys key = keys)
  /\ (forall b', In b' [1; 2; 4; 8]%Z -> b' <> b ->
        GameManager.pressed (GameManager.kpress keys key) b'
        = GameManager.pressed keys b'
        /\ GameManager.pressed (GameManager.krelease keys key) b'
           = GameManager.pressed keys b')
  /\ (forall pre,
        GameManager.kpress keys (String.append pre (String "+" key))
        = GameManager.kpress keys key
        /\ GameManager.krelease keys (String.append pre (String "+" key))
           = GameManager.krelease keys key).
Proof.
  intros Hk b.
  pose proof (key_bits keys b Hk (KEYS_cases _))
    as (H1 & H2 & H3 & H4 & H5 & H6 & H7 & H8).
  unfold GameManager.kpress, GameManager.krelease. fold b.
  repeat (split; [assumption|]).
  intros pre. rewrite rsplit_last_prefix. auto.
Qed.

Lemma X2_key_events_witness :
  GameManager.kpress 1 "ctrl+right" = 3%Z
  /\ GameManager.krelease 3 "left" = 2%Z.
Proof.
  pose proof (X2_key_events 1 "right" ltac:(lia)) as H1.
  pose proof (X2_key_events 3 "left" ltac:(lia)) as H3.
  cbv zeta in H1, H3.
  destruct H1 as (_ & _ & _ & _ & _ & _ & _ & _ & Hp).
  split.
  - change (GameManager.kpress 1 "ctrl+right")
      with (GameManager.kpress 1
              (String.append "ctrl" (String "+" "right"))).
    rewrite (proj1 (Hp "ctrl"%string)). vm_compute. reflexivity.
  - vm_compute. reflexivity.
Defined.
End Keyboard.

(* ================================================================== *)
(** * The move command and the avatar *)
(* ================================================================== *)

Section MoveCommand.
Import Shooter.

Lemma move_command_cases (keys : Z) :
  GameManager.move_command keys
  = ((Z.b2z (GameManager.pressed keys GameManager.KEY_MOVERIGHT)
      - Z.b2z (GameManager.pressed keys GameManager.KEY_MOVELEFT))
     * (if GameManager.pressed keys GameManager.KEY_BOOST then 2 else 1))%Z.
Proof.
  unfold GameManager.move_command.
  destruct (GameManager.pressed keys GameManager.KEY_BOOST); lia.
Qed.

(** A move of the avatar from inside [0, 1]: it goes by at most the
    command times the speed, and not at all on command 0. *)
Lemma Avatar_update_step (m : Z) (a : Avatar.t) :
  (0 <= Avatar.pos_x a <= 1)%Q -> (0 <= Avatar.xspeed a)%Q ->
  (Qabs (Avatar.pos_x (Avatar.update m a) - Avatar.pos_x a)
   <= inject_Z (Z.abs m) * Avatar.xspeed a)%Q
  /\ (m = 0%Z -> (Avatar.pos_x (Avatar.update m a) == Avatar.pos_x a)%Q)
  /\ ((0 <= m)%Z ->
      (Avatar.pos_x a <= Avatar.pos_x (Avatar.update m a))%Q)
  /\ ((m <= 0)%Z ->
      (Avatar.pos_x (Avatar.update m a) <= Avatar.pos_x a)%Q).
Proof.
  intros Hx Hv. unfold Avatar.update, clip. cbn [Avatar.pos_x].
  set (x := Avatar.pos_x a) in *. set (v := Avatar.xspeed a) in *.
  set (q := inject_Z m).
  assert (Hq : (inject_Z (Z.abs m) == Qabs q)%Q).
  { unfold q, Qabs, inject_Z. reflexivity. }
  assert (Hm0 : m = 0%Z -> (q == 0)%Q) by (intros ->; reflexivity).
  assert (Hmp : (0 <= m)%Z -> (0 <= q)%Q).
  { intros H. unfold q. change 0%Q with (inject_Z 0).
    rewrite <- Zle_Qle. exact H. }
  assert (Hmn : (m <= 0)%Z -> (q <= 0)%Q).
  { intros H. unfold q. change 0%Q with (inject_Z 0).
    rewrite <- Zle_Qle. exact H. }
  assert (Habs : (Qabs (q * v) == Qabs q * v)%Q).
  { rewrite Qabs_Qmult. rewrite (Qabs_pos v Hv). reflexivity. }
  clearbody q.
  assert (Hstep : (Qabs (Qmin (Qmax (x + q * v) 0) 1 - x) <= Qabs (q * v))%Q).
  { apply Qabs_Qle_condition.
    pose proof (Qle_Qabs (q * v)) as Hle.
    pose proof (Qle_Qabs (- (q * v))) as Hle'.
    rewrite Qabs_opp in Hle'.
    destruct (Q.max_spec (x + q * v) 0) as [[H1 H2]|[H1 H2]];
      destruct (Q.min_spec (Qmax (x + q * v) 0) 1) as [[H3 H4]|[H3 H4]];
      rewrite H4; rewrite H2 in *; lra. }
  split; [rewrite Hq, <- Habs; exact Hstep|].
  assert (Hsign : (0 <= q * v)%Q ->
                  (x <= Qmin (Qmax (x + q * v) 0) 1)%Q).
  { intros Hp.
    destruct (Q.max_spec (x + q * v) 0) as [[H1 H2]|[H1 H2]];
      destruct (Q.min_spec (Qmax (x + q * v) 0) 1) as [[H3 H4]|[H3 H4]];
      rewrite H4; rewrite H2 in *; lra. }
  assert (Hsign' : (q * v <= 0)%Q ->
                   (Qmin (Qmax (x + q * v) 0) 1 <= x)%Q).
  { intros Hp.
    destruct (Q.max_spec (x + q * v) 0) as [[H1 H2]|[H1 H2]];
      destruct (Q.min_spec (Qmax (x + q * v) 0) 1) as [[H3 H4]|[H3 H4]];
      rewrite H4; rewrite H2 in *; lra. }
  split; [|split].
  - intros H0. apply Hm0 in H0. apply Qle_antisym.
    + apply Hsign'. rewrite H0. lra.
    + apply Hsign. rewrite H0. lra.
  - intros H. apply Hsign. apply Qmult_le_0_compat; auto.
  - intros H. apply Hsign'. apply Hmn in H.
    assert (0 <= (- q) * v)%Q by (apply Qmult_le_0_compat; lra). lra.
Qed.

Lemma move_command_range (keys : Z) :
  (-2 <= GameManager.move_command keys <= 2)%Z
  /\ (GameManager.pressed keys GameManager.KEY_MOVELEFT
      = GameManager.pressed keys GameManager.KEY_MOVERIGHT ->
      GameManager.move_command keys = 0%Z)
  /\ (GameManager.pressed keys GameManager.KEY_BOOST = false ->
      (-1 <= GameManager.move_command keys <= 1)%Z).
Proof.
  rewrite move_command_cases.
  destruct (GameManager.pressed keys GameManager.KEY_MOVERIGHT),
    (GameManager.pressed keys GameManager.KEY_MOVELEFT),
    (GameManager.pressed keys GameManager.KEY_BOOST);
    simpl; repeat split; intros; try lia; try discriminate.
Qed.

Section Frame.
Context {T B H : Type}.
Variable F : Game.Factory T B H.
Hypothesis update_shared :
  forall env g g',
    Game.update F env g = Ok g' ->
    avatar (Game.shared g')
    = (if tr_quit (Game.shared g) then avatar (Game.shared g)
       else Avatar.update (tr_move (Game.shared g))
              (avatar (Game.shared g)))
    /\ tr_move (Game.shared g') = tr_move (Game.shared g).

Lemma frame_avatar keys env g g' :
  Game.update F env (GameManager.userinput keys g) = Ok g' ->
  let a := avatar (Game.shared g) in
  let a' := avatar (Game.shared g') in
  let m := GameManager.move_command keys in
  (-2 <= m <= 2)%Z
  /\ tr_move (Game.shared g') = m
  /\ a' = (if GameManager.pressed keys GameManager.KEY_TERMINATE
           then a else Avatar.update m a)
  /\ ((0 <= Avatar.pos_x a <= 1)%Q -> (0 <= Avatar.xspeed a)%Q ->
      (Qabs (Avatar.pos_x a' - Avatar.pos_x a)
       <= 2 * Avatar.xspeed a)%Q
      /\ (GameManager.pressed keys GameManager.KEY_MOVELEFT
          = GameManager.pressed keys GameManager.KEY_MOVERIGHT ->
          (Avatar.pos_x a' == Avatar.pos_x a)%Q)).
Proof.
  intros Hu a a' m. apply update_shared in Hu.
  cbn [GameManager.userinput Game.shared tr_quit tr_move avatar] in Hu.
  destruct Hu as (Ha & Hm). fold a in Ha. fold a' in Ha. fold m in Ha.
  pose proof (move_command_range keys) as (Hr & H0 & _). fold m in Hr, H0.
  split; [exact Hr|]. split; [exact Hm|]. split; [exact Ha|].
  intros Hx Hv. rewrite Ha.
  destruct (GameManager.pressed keys GameManager.KEY_TERMINATE).
  - split; [|intros _; reflexivity].
    setoid_replace (Avatar.pos_x a - Avatar.pos_x a)%Q with 0%Q by ring.
    simpl Qabs. lra.
  - destruct (Avatar_update_step m a Hx Hv) as (Hs & Hz & _).
    split; [|intros He; apply Hz, H0, He].
    eapply Qle_trans; [exact Hs|].
    apply Qmult_le_compat_r; [|exact Hv].
    change 2%Q with (inject_Z 2). rewrite <- Zle_Qle. lia.
Qed.
End Frame.

Lemma Game1_update_avatar env g g' :
  Game.update Game.Factory1 env g = Ok g' ->
  avatar (Game.shared g')
  = (if tr_quit (Game.shared g) then avatar (Game.shared g)
     else Avatar.update (tr_move (Game.shared g)) (avatar (Game.shared g)))
  /\ tr_move (Game.shared g') = tr_move (Game.shared g).
Proof.
  intros Hu.
  rewrite (Game_update_shared Game.Factory1 Factory1_targets_shared
             (fun w g w' g' => Bullets1_update_shared w w' g g')
             Factory1_hits_shared env g g' Hu).
  split; reflexivity.
Qed.

Lemma Game2_update_avatar env g g' :
  Game.update Shooter2.Game.Factory2 env g = Ok g' ->
  avatar (Game.shared g')
  = (if tr_quit (Game.shared g) then avatar (Game.shared g)
     else Avatar.update (tr_move (Game.shared g)) (avatar (Game.shared g)))
  /\ tr_move (Game.shared g') = tr_move (Game.shared g).
Proof.
  intros Hu.
  rewrite (Game_update_shared Shooter2.Game.Factory2 Factory2_targets_shared
             (fun w g w' g' => Bullets2_update_shared w w' g g')
             Factory2_hits_shared env g g' Hu).
  split; reflexivity.
Qed.

(** X3.  The avatar in a frame of the loop, in both files: the move
    command that [userinput] gives is within -2..2; the avatar is left as
    it is when the quit key is held, and is otherwise updated once with
    that command, whatever the waves and the hits do; from a position in
    [0, 1] and with a speed that is not negative it goes by at most twice
    its speed, and it stays where it is when left and right are both held
    or both released. *)
Theorem X3_avatar_frame :
  (forall keys env g g',
      Game.update Game.Factory1 env (GameManager.userinput keys g) = Ok g' ->
      let a := avatar (Game.shared g) in
      let a' := avatar (Game.shared g') in
      let m := GameManager.move_command keys in
      (-2 <= m <= 2)%Z
      /\ tr_move (Game.shared g') = m
      /\ a' = (if GameManager.pressed keys GameManager.KEY_TERMINATE
               then a else Avatar.update m a)
      /\ ((0 <= Avatar.pos_x a <= 1)%Q -> (0 <= Avatar.xspeed a)%Q ->
          (Qabs (Avatar.pos_x a' - Avatar.pos_x a)
           <= 2 * Avatar.xspeed a)%Q
          /\ (GameManager.pressed keys GameManager.KEY_MOVELEFT
              = GameManager.pressed keys GameManager.KEY_MOVERIGHT ->
              (Avatar.pos_x a' == Avatar.pos_x a)%Q)))
  /\ (forall keys env g g',
        Game.update Shooter2.Game.Factory2 env
          (GameManager.userinput keys g) = Ok g' ->
        let a := avatar (Game.shared g) in
        let a' := avatar (Game.shared g') in
        let m := GameManager.move_command keys in
        (-2 <= m <= 2)%Z
        /\ tr_move (Game.shared g') = m
        /\ a' = (if GameManager.pressed keys GameManager.KEY_TERMINATE
                 then a else Avatar.update m a)
        /\ ((0 <= Avatar.pos_x a <= 1)%Q -> (0 <= Avatar.xspeed a)%Q ->
            (Qabs (Avatar.pos_x a' - Avatar.pos_x a)
             <= 2 * Avatar.xspeed a)%Q
            /\ (GameManager.pressed keys GameManager.KEY_MOVELEFT
                = GameManager.pressed keys GameManager.KEY_MOVERIGHT ->
                (Avatar.pos_x a' == Avatar.pos_x a)%Q))).
Proof.
  split; intros keys env g g' Hu.
  - exact (frame_avatar Game.Factory1 Game1_update_avatar keys env g g' Hu).
  - exact (frame_avatar Shooter2.Game.Factory2 Game2_update_avatar
             keys env g g' Hu).
Qed.

Lemma X3_avatar_frame_witness :
  (Qabs (Avatar.pos_x (avatar (Game.shared (demo_game 1)))
         - Avatar.pos_x (avatar (Game.shared (demo_game 0))))
   <= 2 * Avatar.xspeed (avatar (Game.shared (demo_game 0))))%Q.
Proof.
  refine (proj1 (proj2 (proj2 (proj2
            (proj1 X3_avatar_frame 0%Z demo_env (demo_game 0) (demo_game 1)
               _))) _ _)).
  - vm_compute. reflexivity.
  - vm_compute. split; discriminate.
  - vm_compute. discriminate.
Defined.
End MoveCommand.

(* ================================================================== *)
(** * The loop of frames *)
(* ================================================================== *)

Section Loop.
Import Shooter.
Context {T B H : Type}.
Variable F : Game.Factory T B H.

Lemma loop_over inputs (g : Game.t T B H) :
  Game.gameover g = true -> GameManager.loop F inputs g = Ok g.
Proof.
  intros Hg. destruct inputs as [|[keys env] rest]; simpl; [reflexivity|].
  rewrite Hg. reflexivity.
Qed.

Lemma loop_app (l1 l2 : list (Z * Env)) (g : Game.t T B H) :
  GameManager.loop F (l1 ++ l2) g
  = (g1 <- GameManager.loop F l1 g ;; GameManager.loop F l2 g1).
Proof.
  revert g. induction l1 as [|[keys env] l1 IH]; intros g; simpl.
  - reflexivity.
  - destruct (Game.gameover g) eqn:Hg.
    + simpl. symmetry. apply loop_over. exact Hg.
    + destruct (Game.update F env (GameManager.userinput keys g))
        as [g'|e]; simpl; [apply IH | reflexivity].
Qed.

(** One frame that does not read the quit key. *)
Lemma frame_running keys env (g g' : Game.t T B H) :
  GameManager.pressed keys GameManager.KEY_TERMINATE = false ->
  Game.update F env (GameManager.userinput keys g) = Ok g' ->
  Game.nstep g' = Game.nstep g + 1
  /\ Game.gameover g' = Game.gameover g
  /\ (Game.perf g' * inject_Z (Z.of_nat (Game.nstep g'))
      == Game.perf g * inject_Z (Z.of_nat (Game.nstep g))
         + (clock_end env - clock_start env))%Q.
Proof.
  intros Hk Hu. unfold Game.update in Hu.
  cbn [GameManager.userinput Game.shared tr_quit] in Hu. rewrite Hk in Hu.
  bind_inv Hu as g1 Hc. bind_inv Hu as sc Hsc. bind_inv Hu as tm Htm.
  bind_inv Hu as d Hd. apply Ok_inj in Hu. subst g'.
  unfold Game.components_update in Hc.
  bind_inv Hc as [tg1 sh1] Et. bind_inv Hc as [bl2 sh2] Eb.
  bind_inv Hc as [[[tg3 bl3] h3] sh3] Eh. apply Ok_inj in Hc. subst g1.
  cbn [Game.nstep Game.gameover Game.perf GameManager.userinput] in *.
  split; [reflexivity|]. split; [reflexivity|].
  apply truediv_inv in Hd. destruct Hd as (Hn & ->).
  set (n1 := inject_Z (Z.of_nat (Game.nstep g + 1))) in *.
  assert (En : (n1 == inject_Z (Z.of_nat (Game.nstep g)) + 1)%Q).
  { unfold n1. rewrite Nat2Z.inj_add, inject_Z_plus. reflexivity. }
  rewrite En in Hn |- *. field. exact Hn.
Qed.

(** A frame that reads the quit key ends the game and counts nothing. *)
Lemma frame_quit keys env (g : Game.t T B H) :
  GameManager.pressed keys GameManager.KEY_TERMINATE = true ->
  exists g',
    Game.update F env (GameManager.userinput keys g) = Ok g'
    /\ Game.gameover g' = true
    /\ Game.nstep g' = Game.nstep g /\ Game.perf g' = Game.perf g
    /\ Game.targets g' = Game.targets g /\ Game.bullets g' = Game.bullets g
    /\ Game.hits g' = Game.hits g
    /\ Game.status g' = Game.gameover_text g.
Proof.
  intros Hk. unfold Game.update.
  cbn [GameManager.userinput Game.shared tr_quit]. rewrite Hk.
  eexists. split; [reflexivity|].
  cbn [Game.gameover Game.nstep Game.perf Game.targets Game.bullets
         Game.hits Game.status].
  repeat split.
Qed.

Lemma loop_running inputs : forall (g g' : Game.t T B H),
  Game.gameover g = false -> no_quit inputs ->
  GameManager.loop F inputs g = Ok g' ->
  Game.nstep g' = Game.nstep g + length inputs
  /\ Game.gameover g' = false
  /\ (Game.perf g' * inject_Z (Z.of_nat (Game.nstep g'))
      == Game.perf g * inject_Z (Z.of_nat (Game.nstep g)) + busy inputs)%Q.
Proof.
  induction inputs as [|[keys env] rest IH]; intros g g' Hg Hq Hl.
  - simpl in Hl. apply Ok_inj in Hl. subst g'. simpl.
    split; [lia|]. split; [exact Hg|]. ring.
  - simpl in Hl. rewrite Hg in Hl. bind_inv Hl as g1 Hu.
    inversion Hq as [|? ? Hk Hq']; subst. cbn [fst] in Hk.
    destruct (frame_running keys env g g1 Hk Hu) as (Hn1 & Hg1 & Hp1).
    rewrite Hg in Hg1.
    destruct (IH g1 g' Hg1 Hq' Hl) as (Hn & Hgo & Hp).
    split; [simpl; lia|]. split; [exact Hgo|].
    rewrite Hp, Hp1. cbn [busy fold_right snd]. fold (busy rest). ring.
Qed.

Lemma loop_quit l1 keys env l2 (g g1 : Game.t T B H) :
  Game.gameover g = false -> no_quit l1 ->
  GameManager.pressed keys GameManager.KEY_TERMINATE = true ->
  GameManager.loop F l1 g = Ok g1 ->
  exists g',
    GameManager.loop F (l1 ++ (keys, env) :: l2) g = Ok g'
    /\ Game.gameover g' = true
    /\ Game.nstep g' = Game.nstep g + length l1
    /\ Game.perf g' = Game.perf g1
    /\ Game.targets g' = Game.targets g1
    /\ Game.bullets g' = Game.bullets g1
    /\ Game.hits g' = Game.hits g1
    /\ Game.status g' = Game.gameover_text g1.
Proof.
  intros Hg Hq Hk Hl.
  destruct (loop_running l1 g g1 Hg Hq Hl) as (Hn & Hg1 & _).
  destruct (frame_quit keys env g1 Hk)
    as (g' & Hu & Hgo & Hn' & Hp & Ht & Hb & Hh & Hs).
  exists g'. rewrite loop_app, Hl. cbn [bind GameManager.loop].
  rewrite Hg1, Hu. cbn [bind]. rewrite (loop_over l2 g' Hgo).
  repeat split; try assumption. lia.
Qed.
End Loop.

(** X4.  The loop of frames, in both files (any component classes): as
    long as no input holds the quit key it makes one update per input, so
    that [nstep] goes up by their number; and [perf] is the mean time of an
    update: [perf * nstep] goes up by the time the updates took, by the two
    readings of the clock in each. *)
Theorem X4_loop_counts_frames {T B H} (F : Shooter.Game.Factory T B H)
    inputs (g g' : Shooter.Game.t T B H) :
  Shooter.Game.gameover g = false -> no_quit inputs ->
  Shooter.GameManager.loop F inputs g = Ok g' ->
  Shooter.Game.nstep g' = Shooter.Game.nstep g + length inputs
  /\ Shooter.Game.gameover g' = false
  /\ (Shooter.Game.perf g' * inject_Z (Z.of_nat (Shooter.Game.nstep g'))
      == Shooter.Game.perf g * inject_Z (Z.of_nat (Shooter.Game.nstep g))
         + busy inputs)%Q.
Proof. apply loop_running. Qed.

Lemma X4_loop_counts_frames_witness :
  Shooter.Game.nstep (demo_game 3) = 3
  /\ (Shooter.Game.perf (demo_game 3) * inject_Z 3 == 3 * (1 # 100))%Q.
Proof.
  destruct (X4_loop_counts_frames Shooter.Game.Factory1
              (repeat (0%Z, demo_env) 3) (demo_game 0) (demo_game 3))
    as (Hn & _ & Hp).
  - vm_compute. reflexivity.
  - repeat constructor.
  - vm_compute. reflexivity.
  - split; [exact Hn|]. rewrite Hn in Hp. rewrite Hp. vm_compute. reflexivity.
Defined.

(** X5.  The loop ends at the first input that holds the quit key: the
    inputs after it are not read; the update of that input counts no frame
    and leaves the components and [perf] as the frames before it left
    them; the status is the game-over text made from that [perf].  And the
    loop on a list of inputs is the loop on its first part, then the loop
    on the rest. *)
Theorem X5_loop_ends_at_quit {T B H} (F : Shooter.Game.Factory T B H)
    l1 keys env l2 (g g1 : Shooter.Game.t T B H) :
  Shooter.Game.gameover g = false -> no_quit l1 ->
  Shooter.GameManager.pressed keys Shooter.GameManager.KEY_TERMINATE = true ->
  Shooter.GameManager.loop F l1 g = Ok g1 ->
  (forall l l', Shooter.GameManager.loop F (l ++ l') g
                = (g2 <- Shooter.GameManager.loop F l g ;;
                   Shooter.GameManager.loop F l' g2))
  /\ exists g',
      Shooter.GameManager.loop F (l1 ++ (keys, env) :: l2) g = Ok g'
      /\ Shooter.Game.gameover g' = true
      /\ Shooter.Game.nstep g' = Shooter.Game.nstep g + length l1
      /\ Shooter.Game.perf g' = Shooter.Game.perf g1
      /\ Shooter.Game.targets g' = Shooter.Game.targets g1
      /\ Shooter.Game.bullets g' = Shooter.Game.bullets g1
      /\ Shooter.Game.hits g' = Shooter.Game.hits g1
      /\ Shooter.Game.status g' = Shooter.Game.gameover_text g1.
Proof.
  intros Hg Hq Hk Hl. split.
  - intros l l'. apply loop_app.
  - apply loop_quit; assumption.
Qed.

Lemma X5_loop_ends_at_quit_witness :
  exists g',
    Shooter.GameManager.loop Shooter.Game.Factory1
      (repeat (0%Z, demo_env) 2 ++ (8%Z, demo_env) :: demo_inputs)
      (demo_game 0) = Ok g'
    /\ Shooter.Game.gameover g' = true
    /\ Shooter.Game.nstep g' = 2
    /\ Shooter.Game.status g' = "Game over. Efficiency (logic): 2.00%"%string.
Proof.
  destruct (proj2 (X5_loop_ends_at_quit Shooter.Game.Factory1
                     (repeat (0%Z, demo_env) 2) 8%Z demo_env demo_inputs
                     (demo_game 0) (demo_game 2)
                     ltac:(vm_compute; reflexivity)
                     ltac:(repeat constructor)
                     ltac:(vm_compute; reflexivity)
                     ltac:(vm_compute; reflexivity)))
    as (g' & Hl & Hgo & Hn & _ & _ & _ & _ & Hs).
  exists g'. split; [exact Hl|]. split; [exact Hgo|].
  split; [rewrite Hn; vm_compute; reflexivity|].
  rewrite Hs. vm_compute. reflexivity.
Defined.

(* ================================================================== *)
(** * shooter.py: a constructed game runs *)
(* ================================================================== *)

Lemma select_total {A} (l : list A) (mask : list bool) :
  length l = length mask -> select l mask = Ok (select_mask l mask).
Proof. intros H. unfold select. rewrite H, Nat.eqb_refl. reflexivity. Qed.

Lemma mapM_total {A B} (f : A -> result B) (l : list A) :
  Forall (fun a => exists b, f a = Ok b) l -> exists r, mapM f l = Ok r.
Proof.
  intros H. induction H as [|a l (b & Hb) _ (r & IH)]; simpl.
  - eauto.
  - rewrite Hb. cbn [bind]. rewrite IH. cbn [bind]. eauto.
Qed.

Lemma nonzero_from_length k (mask : list bool) :
  length (nonzero_from k mask) = count_true mask.
Proof.
  revert k. induction mask as [|b mask IH]; intros k; [reflexivity|].
  simpl. rewrite count_true_cons. destruct b; simpl; rewrite IH; reflexivity.
Qed.

Lemma nonzero_length (mask : list bool) :
  length (nonzero mask) = count_true mask.
Proof. apply nonzero_from_length. Qed.

Lemma nonzero_bound (mask : list bool) :
  Forall (fun p => p < length mask) (nonzero mask).
Proof.
  apply Forall_forall. intros p Hp. apply In_nonzero in Hp.
  apply nth_error_Some. congruence.
Qed.

Lemma gather_bound (l : list nat) idx s (k : nat) :
  gather l idx = Ok s -> Forall (fun p => p < k) l ->
  Forall (fun p => p < k) s.
Proof.
  intros Hg Hl. apply Forall_forall. intros p Hp.
  apply In_nth_error in Hp. destruct Hp as (i & Hi).
  apply (proj1 (gather_nth _ _ _ i p Hg)) in Hi.
  destruct Hi as (j & _ & Hj). apply nth_error_In in Hj.
  rewrite Forall_forall in Hl. auto.
Qed.

Lemma arange_nonneg_bound (stop step : Z) l :
  arange 0 stop step = Ok l -> (0 <= stop)%Z ->
  Forall (fun x => (0 <= x < stop)%Z) l.
Proof.
  unfold arange. destruct (step =? 0)%Z eqn:Es; [discriminate|].
  apply Z.eqb_neq in Es. intros H Hs. apply Ok_inj in H. subst l.
  apply Forall_forall. intros x Hx. apply in_map_iff in Hx.
  destruct Hx as (k & <- & Hk). apply in_seq in Hk.
  rewrite Z.sub_0_r in Hk.
  destruct (Z_lt_le_dec step 0) as [Hneg | Hpos].
  - assert (0 <= - stop / step)%Z.
    { replace (- stop / step)%Z with (stop / (- step))%Z
        by (rewrite <- Z.div_opp_opp by lia; rewrite Z.opp_involutive;
            reflexivity).
      apply Z.div_pos; lia. }
    lia.
  - assert (Hstep : (0 < step)%Z) by lia.
    assert (Hk' : (- stop / step < - Z.of_nat k)%Z) by lia.
    destruct (Z_lt_le_dec (- stop) (step * - Z.of_nat k)) as [Hlt | Hge];
      [nia|].
    apply Z.div_le_lower_bound in Hge; lia.
Qed.

Lemma py_fill_ok {A} (idx : list Z) (v : A) (l : list A) :
  Forall (fun x => (0 <= x < Z.of_nat (length l))%Z) idx ->
  exists l', py_fill idx v l = Ok l'.
Proof.
  revert l. induction idx as [|i idx IH]; intros l H; simpl; [eauto|].
  inversion H as [|? ? Hi Hidx]; subst.
  replace (0 <=? i)%Z with true by (symmetry; apply Z.leb_le; lia).
  rewrite store_lt by lia. cbn [bind]. apply IH.
  rewrite set_nth_length. exact Hidx.
Qed.

Section Runs1.
Import Shooter.

Lemma Targets1_update_total rnd (w : Targets.t) g :
  Wave1_wf w -> exists w' g', Targets.update rnd w g = Ok (w', g').
Proof.
  intros (Hx & Hs & Hv & Hn).
  unfold Targets.update, Wave.update, Wave.fire.
  destruct (index_lt (Wave.visible w) (Wave.n w) ltac:(lia)) as (vn & Hvn).
  destruct (index_lt (Wave.visible w) (Wave.n w + Wave.N w) ltac:(lia))
    as (vm & Hvm).
  assert (Hstep : forall w2 : Targets.t,
             exists w', Wave.step (Targets.newpage rnd) (Wave.n w)
                          (Wave.N w) w2 = Ok w').
  { intros w2. unfold Wave.step, Targets.newpage.
    destruct (Wave.n w + 1 =? Wave.N w); cbn [bind]; eauto. }
  rewrite Hvn. cbn [bind].
  destruct vn.
  - destruct (Hstep (Wave.set_ext
                       (Targets.mkExt (Targets.rate (Wave.ext w))
                          (Targets.width (Wave.ext w))
                          (Targets.score (Wave.ext w) + 1)) w))
      as (w' & Hw').
    exists w', (set_tr_miss true g). unfold Targets.leaving.
    cbn [bind Wave.visible Wave.set_ext]. rewrite Hvm. cbn [bind].
    destruct vm; unfold Wave.pass; cbn [bind]; rewrite Hw'; reflexivity.
  - destruct (Hstep w) as (w' & Hw'). exists w', g.
    cbn [bind]. rewrite Hvm. cbn [bind].
    destruct vm; unfold Wave.pass; cbn [bind]; rewrite Hw'; reflexivity.
Qed.

Lemma Bullets1_newpage_total (w : Bullets.t) :
  Bullets.rload (Wave.ext w) <> 0%Z ->
  exists p, Bullets.newpage w = Ok p.
Proof.
  intros Hr. unfold Bullets.newpage.
  destruct (arange 0 (Z.of_nat (Wave.N w)) (Bullets.rload (Wave.ext w)))
    as [idx|e] eqn:Ea.
  - cbn [bind]. apply arange_nonneg_bound in Ea; [|lia].
    destruct (py_fill_ok idx true (repeat false (Wave.N w))) as (vis & Hvis).
    { rewrite repeat_length. exact Ea. }
    rewrite Hvis. cbn [bind]. eauto.
  - unfold arange in Ea. apply Z.eqb_neq in Hr. rewrite Hr in Ea.
    discriminate.
Qed.

Lemma Bullets1_update_total (w : Bullets.t) g :
  Wave1_wf w -> Bullets.rload (Wave.ext w) <> 0%Z ->
  exists w' g', Bullets.update w g = Ok (w', g').
Proof.
  intros (Hx & Hs & Hv & Hn) Hr.
  unfold Bullets.update, Wave.update, Wave.fire.
  destruct (index_lt (Wave.visible w) (Wave.n w) ltac:(lia)) as (vn & Hvn).
  destruct (index_lt (Wave.visible w) (Wave.n w + Wave.N w) ltac:(lia))
    as (vm & Hvm).
  assert (Hstep : forall w2 : Bullets.t,
             Wave.ext w2 = Wave.ext w ->
             exists w', Wave.step Bullets.newpage (Wave.n w)
                          (Wave.N w) w2 = Ok w').
  { intros w2 He. unfold Wave.step.
    destruct (Wave.n w + 1 =? Wave.N w); cbn [bind]; eauto.
    match goal with
    | |- context [Bullets.newpage ?w4] =>
        destruct (Bullets1_newpage_total w4) as (p & Hp)
    end.
    { cbn [Wave.ext Wave.shift_page Wave.set_visible Wave.set_xspeed
             Wave.set_xpos]. rewrite He. exact Hr. }
    rewrite Hp. cbn [bind]. eauto. }
  rewrite Hvn. cbn [bind].
  destruct vm.
  - destruct (Hstep (Wave.set_xpos
                       (set_nth (Wave.xpos w) (Wave.n w + Wave.N w)
                          (Avatar.pos_x (avatar g))) w) eq_refl)
      as (w' & Hw').
    exists w', g.
    destruct vn; unfold Wave.pass; cbn [bind]; rewrite Hvm; cbn [bind];
      unfold Bullets.entering, store;
      (replace (Wave.n w + Wave.N w <? length (Wave.xpos w)) with true
        by (symmetry; apply Nat.ltb_lt; lia));
      cbn [bind]; rewrite Hw'; reflexivity.
  - destruct (Hstep w eq_refl) as (w' & Hw'). exists w', g.
    destruct vn; unfold Wave.pass; cbn [bind]; rewrite Hvm; cbn [bind];
      rewrite Hw'; reflexivity.
Qed.

Lemma detect1_total h (x v : list Q) visible (x1 v1 : list Q) visible1 N0 N1 :
  length x = N0 -> length v = N0 -> length visible = N0 ->
  length x1 = N1 -> length v1 = N1 -> length visible1 = N1 ->
  length (Hits.clashmat h) = N0 ->
  Forall (fun row => length row = N1) (Hits.clashmat h) ->
  exists nz nz1,
    Hits.detect h x v visible x1 v1 visible1 = Ok (nz, nz1)
    /\ Forall (fun i => i < length (nonzero visible)) nz
    /\ Forall (fun j => j < length (nonzero visible1)) nz1.
Proof.
  intros Hx Hv Hvis Hx1 Hv1 Hvis1 Hc Hrows. unfold Hits.detect.
  rewrite !select_total by congruence. cbn [bind].
  destruct (mapM_total (fun row => select row visible1)
              (select_mask (Hits.clashmat h) visible)) as (m & Hm).
  { apply select_mask_Forall. eapply Forall_impl; [|exact Hrows].
    intros row Hr. cbv beta in *. rewrite select_total by congruence.
    eauto. }
  rewrite Hm. cbn [bind].
  destruct (nonzero2 _) as [nz nz1] eqn:Enz.
  exists nz, nz1. split; [reflexivity|].
  apply clashes_bounds in Enz. destruct Enz as (Hlen & Hent).
  rewrite !nonzero_length.
  rewrite <- (select_mask_length x visible) by congruence.
  rewrite <- (select_mask_length x1 visible1) by congruence.
  assert (Hb : forall k i j,
             nth_error nz k = Some i -> nth_error nz1 k = Some j ->
             i < length (select_mask x visible)
             /\ j < length (select_mask x1 visible1)).
  { intros k i j Hi Hj. destruct (Hent k i j Hi Hj) as (a & Ha).
    rewrite entry_outer in Ha.
    destruct (nth_error (select_mask x visible) i) eqn:E1; [|discriminate].
    destruct (nth_error (select_mask x1 visible1) j) eqn:E2;
      [|discriminate].
    split; apply nth_error_Some; congruence. }
  split; apply Forall_forall; intros i Hi; apply In_nth_error in Hi;
    destruct Hi as (k & Hk).
  - destruct (nth_error nz1 k) as [j|] eqn:Ej.
    + exact (proj1 (Hb k i j Hk Ej)).
    + apply nth_error_None in Ej.
      assert (k < length nz) by (apply nth_error_Some; congruence). lia.
  - destruct (nth_error nz k) as [j|] eqn:Ej.
    + exact (proj2 (Hb k j i Ej Hk)).
    + apply nth_error_None in Ej.
      assert (k < length nz1) by (apply nth_error_Some; congruence). lia.
Qed.

Lemma Hits_fits_age h N0 N1 :
  Hits_fits h N0 N1 -> Hits_fits (Hits.age h) N0 N1.
Proof.
  intros (H1 & H2 & H3 & H4). unfold Hits_fits, Hits.age.
  cbn [Hits.clashmat Hits.weight Hits.xpos]. rewrite length_map. auto.
Qed.

Lemma window_lengths {E} (w : Wave.t E) :
  Wave1_wf w ->
  length (window_xpos w) = Wave.N w
  /\ length (window_xspeed w) = Wave.N w
  /\ length (window_visible w) = Wave.N w.
Proof.
  intros (Hx & Hs & Hv & Hn).
  unfold window_xpos, window_xspeed, window_visible, Wave.current.
  cbn [fst snd]. rewrite !slice_length by lia. lia.
Qed.

Lemma struck_wf {E} (w : Wave.t E) vis' :
  Wave1_wf w -> length vis' = Wave.N w ->
  Wave1_wf (Wave.set_visible
              (set_slice (Wave.n w) (Wave.n w + Wave.N w) vis'
                 (Wave.visible w)) w).
Proof.
  intros (Hx & Hs & Hv & Hn) Hl. unfold Wave1_wf.
  cbn [Wave.xpos Wave.xspeed Wave.visible Wave.set_visible Wave.N Wave.n].
  rewrite set_slice_length by lia. auto.
Qed.

(** On two well-formed waves and arrays of their shape [Hits.update]
    raises nothing, and keeps all that. *)
Lemma Hits1_update_total {E E1} (tg : Wave.t E) (bl : Wave.t E1) h g :
  Wave1_wf tg -> Wave1_wf bl -> Hits_fits h (Wave.N tg) (Wave.N bl) ->
  exists tg' bl' h' g',
    Hits.update tg bl h g = Ok (tg', bl', h', g')
    /\ Wave1_wf tg' /\ Wave1_wf bl'
    /\ Wave.N tg' = Wave.N tg /\ Wave.N bl' = Wave.N bl
    /\ Wave.ext tg' = Wave.ext tg /\ Wave.ext bl' = Wave.ext bl
    /\ Hits_fits h' (Wave.N tg) (Wave.N bl).
Proof.
  intros Hwt Hwb Hf.
  destruct (window_lengths tg Hwt) as (Lx & Lv & Lvis).
  destruct (window_lengths bl Hwb) as (Lx1 & Lv1 & Lvis1).
  unfold window_xpos, window_xspeed, window_visible, Wave.current in *.
  cbn [fst snd] in *.
  unfold Hits.update, Wave.current.
  set (x := slice (Wave.n tg) (Wave.n tg + Wave.N tg) (Wave.xpos tg)) in *.
  set (v := slice (Wave.n tg) (Wave.n tg + Wave.N tg) (Wave.xspeed tg)) in *.
  set (vis := slice (Wave.n tg) (Wave.n tg + Wave.N tg) (Wave.visible tg))
    in *.
  set (x1 := slice (Wave.n bl) (Wave.n bl + Wave.N bl) (Wave.xpos bl)) in *.
  set (v1 := slice (Wave.n bl) (Wave.n bl + Wave.N bl) (Wave.xspeed bl))
    in *.
  set (vis1 := slice (Wave.n bl) (Wave.n bl + Wave.N bl) (Wave.visible bl))
    in *.
  assert (Hnone : exists tg' bl' h' g',
             Ok (tg, bl, Hits.age h, g) = Ok (tg', bl', h', g')
             /\ Wave1_wf tg' /\ Wave1_wf bl'
             /\ Wave.N tg' = Wave.N tg /\ Wave.N bl' = Wave.N bl
             /\ Wave.ext tg' = Wave.ext tg /\ Wave.ext bl' = Wave.ext bl
             /\ Hits_fits h' (Wave.N tg) (Wave.N bl)).
  { exists tg, bl, (Hits.age h), g.
    split; [reflexivity|]. repeat (split; [assumption || reflexivity|]).
    apply Hits_fits_age. exact Hf. }
  destruct (any vis && any vis1); [|exact Hnone].
  destruct Hf as (Hc & Hrows & Hw & Hxp).
  destruct (detect1_total h x v vis x1 v1 vis1 (Wave.N tg) (Wave.N bl)
              Lx Lv Lvis Lx1 Lv1 Lvis1 Hc Hrows)
    as (nz & nz1 & Hd & Hnz & Hnz1).
  rewrite Hd. cbn [bind].
  destruct (0 <? length nz).
  2: { apply Hnone. }
  destruct (gather_ok (nonzero vis) nz Hnz) as (s & Es).
  destruct (gather_ok (nonzero vis1) nz1 Hnz1) as (s1 & Es1).
  pose proof (gather_bound _ _ _ _ Es (nonzero_bound vis)) as Hs.
  pose proof (gather_bound _ _ _ _ Es1 (nonzero_bound vis1)) as Hs1.
  destruct (fill_ok s false vis Hs) as (vis' & Evis).
  destruct (fill_ok s (Hits.timeout h) (Hits.weight h)) as (wt & Ewt).
  { rewrite Hw, <- Lvis. exact Hs. }
  destruct (gather_ok x s) as (xs & Exs).
  { rewrite Lx, <- Lvis. exact Hs. }
  destruct (scatter_ok s xs (Hits.xpos h)) as (xp & Exp).
  { rewrite Hxp, <- Lvis. exact Hs. }
  destruct (fill_ok s1 false vis1 Hs1) as (vis1' & Evis1).
  rewrite Es. cbn [bind]. rewrite Evis. cbn [bind]. rewrite Ewt.
  cbn [bind]. rewrite Exs. cbn [bind]. rewrite Exp. cbn [bind].
  rewrite Es1. cbn [bind]. rewrite Evis1. cbn [bind].
  eexists _, _, _, _. split; [reflexivity|].
  apply fill_length in Evis, Evis1, Ewt. apply scatter_length in Exp.
  split; [apply struck_wf; [assumption | congruence]|].
  split; [apply struck_wf; [assumption | congruence]|].
  repeat (split; [reflexivity|]).
  apply Hits_fits_age. unfold Hits_fits.
  cbn [Hits.clashmat Hits.weight Hits.xpos].
  repeat split; try assumption; congruence.
Qed.

Lemma every_one {A} (l : list A) : every 1 0 l = l.
Proof. induction l as [|a l IH]; simpl; [|rewrite IH]; reflexivity. Qed.

Lemma linspace01_length (k : nat) : length (linspace01 k) = k.
Proof.
  destruct k as [|[|k]]; try reflexivity.
  unfold linspace01. rewrite length_map, length_seq. reflexivity.
Qed.

Lemma slice_step_unit {A} (orient : Z) (l yp : list A) :
  orient = 1%Z \/ orient = (-1)%Z ->
  slice_step orient l = Ok yp -> length yp = length l.
Proof.
  intros [-> | ->] H; unfold slice_step in H; simpl in H;
    rewrite every_one in H; apply Ok_inj in H; subst yp;
    rewrite ?length_rev; reflexivity.
Qed.

Lemma Wave1_init_shape {E} newpage fps v orient (e : E) w :
  Wave.init newpage fps v orient e = Ok w ->
  orient = 1%Z \/ orient = (-1)%Z ->
  (forall w0 p, newpage w0 = Ok p -> page_fits (Wave.N w0) p) ->
  Wave.N w <> 0 ->
  Wave1_wf w /\ length (Wave.ypos w) = Wave.N w /\ Wave.ext w = e
  /\ exists w0 p, newpage w0 = Ok p /\ Wave.ext w0 = e.
Proof.
  unfold Wave.init. intros H Ho Hfit HN.
  bind_inv H as q Eq. remember (py_int q) as Nz eqn:ENz.
  bind_inv H as xp Exp. bind_inv H as xs Exs. bind_inv H as vis Evis.
  bind_inv H as yp Eyp. bind_inv H as p Ep.
  apply Ok_inj in H. subst w.
  apply zeros_Ok in Exp, Exs, Evis.
  destruct Exp as (Hpos & ->). destruct Exs as (_ & ->).
  destruct Evis as (_ & ->).
  pose proof (Hfit _ _ Ep) as (P1 & P2 & P3). cbn [Wave.N] in P1, P2, P3.
  apply slice_step_unit in Eyp; [|exact Ho].
  rewrite linspace01_length in Eyp.
  assert (HM : Z.to_nat (2 * Nz) = 2 * Z.to_nat Nz) by lia.
  split; [|split; [exact Eyp | split; [reflexivity | eauto]]].
  unfold Wave1_wf, Wave.install_page, Wave.set_visible, Wave.set_xspeed,
    Wave.set_xpos in *.
  cbn [Wave.N Wave.xpos Wave.xspeed Wave.visible Wave.n] in *.
  rewrite !set_from_length; rewrite ?repeat_length, ?HM;
    try lia;
    try (replace (2 * Z.to_nat Nz - Z.to_nat Nz) with (Z.to_nat Nz) by lia;
         assumption).
Qed.

Lemma Hits1_init_fits fps width N0 r N1 r1 timeout h :
  Hits.init fps width N0 r N1 r1 timeout = Ok h ->
  length r = N0 -> length r1 = N1 ->
  N0 <> 0 /\ N1 <> 0 /\ Hits_fits h N0 N1.
Proof.
  unfold Hits.init. intros H Hr Hr1.
  bind_inv H as iN EiN. bind_inv H as iN1 EiN1. apply Ok_inj in H. subst h.
  apply truediv_inv in EiN, EiN1.
  split; [intros ->; apply (proj1 EiN); reflexivity|].
  split; [intros ->; apply (proj1 EiN1); reflexivity|].
  unfold Hits_fits. cbn [Hits.clashmat Hits.weight Hits.xpos].
  unfold mat_map, outer. rewrite !length_map, !repeat_length.
  repeat split; auto.
  apply Forall_forall. intros row Hrow. apply in_map_iff in Hrow.
  destruct Hrow as (row0 & <- & Hrow0). apply in_map_iff in Hrow0.
  destruct Hrow0 as (c & <- & _). rewrite !length_map. exact Hr1.
Qed.

Lemma Game1_init_sound rnd c g0 :
  Game.init rnd c = Ok g0 -> Game1_sound g0.
Proof.
  unfold Game.init. intros H.
  bind_inv H as av Eav. bind_inv H as tg Etg. bind_inv H as bl Ebl.
  bind_inv H as h Eh. apply Ok_inj in H. subst g0.
  unfold Avatar.init in Eav. bind_inv Eav as xs Exs.
  apply truediv_inv in Exs. destruct Exs as (Hfps & _).
  unfold Targets.init in Etg. bind_inv Etg as r Er.
  unfold Bullets.init in Ebl.
  destruct (Z.eq_dec (Z.of_nat (Wave.N tg)) 0) as [Ht0 | Ht0].
  { exfalso. unfold Hits.init in Eh.
    replace (Wave.N tg) with 0 in Eh by lia. discriminate Eh. }
  destruct (Z.eq_dec (Z.of_nat (Wave.N bl)) 0) as [Hb0 | Hb0].
  { exfalso. unfold Hits.init in Eh.
    replace (Wave.N bl) with 0 in Eh by lia.
    destruct (truediv 1 (inject_Z (Z.of_nat (Wave.N tg))));
      discriminate Eh. }
  destruct (Wave1_init_shape _ _ _ _ _ _ Etg (or_introl eq_refl)
              (Targets1_newpage_fits rnd) ltac:(lia))
    as (Hwt & Lyt & _ & _).
  destruct (Wave1_init_shape _ _ _ _ _ _ Ebl (or_intror eq_refl)
              Bullets1_newpage_fits ltac:(lia))
    as (Hwb & Lyb & Heb & w0 & p & Hp & He0).
  destruct (Hits1_init_fits _ _ _ _ _ _ _ _ Eh Lyt Lyb) as (_ & _ & Hf).
  unfold Game1_sound.
  cbn [Game.shared Game.targets Game.bullets Game.hits fps].
  split; [exact Hfps|]. split; [exact Hwt|]. split; [exact Hwb|].
  split; [|exact Hf].
  rewrite Heb. cbn [Bullets.rload]. intros Hr0.
  unfold Bullets.newpage in Hp. rewrite He0 in Hp. cbn [Bullets.rload] in Hp.
  rewrite Hr0 in Hp. unfold arange in Hp. simpl in Hp. discriminate.
Qed.

Lemma Bullets1_update_fields (w w' : Bullets.t) g g' :
  Bullets.update w g = Ok (w', g') ->
  Wave.N w' = Wave.N w /\ Wave.ext w' = Wave.ext w.
Proof.
  unfold Bullets.update, Wave.update. intros H.
  bind_inv H as [w2 g2] Ef. bind_inv H as w3 Es. apply Ok_inj in H.
  injection H as <- <-.
  apply Bullets1_fire_inv in Ef.
  destruct Ef as (vn & vm & _ & _ & _ & -> & _).
  apply step_fields in Es. destruct Es as (HN & He & _).
  rewrite HN, He. destruct vm; auto.
Qed.

Lemma Game1_sound_input keys g :
  Game1_sound g -> Game1_sound (GameManager.userinput keys g).
Proof. intros H. exact H. Qed.

(** From a sound state [Game.update] raises nothing, and the state it
    returns is sound. *)
Lemma Game1_update_total env g :
  Game1_sound g ->
  exists g', Game.update Game.Factory1 env g = Ok g' /\ Game1_sound g'.
Proof.
  intros (Hfps & Hwt & Hwb & Hr & Hf). unfold Game.update.
  destruct (tr_quit (Game.shared g)) eqn:Hq.
  - eexists. split; [reflexivity|]. unfold Game1_sound.
    cbn [Game.shared Game.targets Game.bullets Game.hits]. auto.
  - unfold Game.components_update.
    cbn [Game.targets_update Game.bullets_update Game.hits_update
           Game.targets_score Game.hits_score Game.Factory1].
    set (sh0 := set_avatar _ (Game.shared g)).
    destruct (Targets1_update_total (random env) (Game.targets g) sh0 Hwt)
      as (tg1 & sh1 & Et).
    pose proof (Targets1_update_wf _ _ _ _ _ Hwt Et) as Hwt1.
    pose proof (Targets1_update_score _ _ _ _ _ Et) as (HN1 & _).
    pose proof (Targets1_update_shared _ _ _ _ _ Et) as Hsh1.
    destruct (Bullets1_update_total (Game.bullets g) sh1 Hwb Hr)
      as (bl2 & sh2 & Eb).
    pose proof (Bullets1_update_wf _ _ _ _ Hwb Eb) as Hwb2.
    pose proof (Bullets1_update_fields _ _ _ _ Eb) as (HN2 & He2).
    pose proof (Bullets1_update_shared _ _ _ _ Eb) as Hsh2.
    rewrite <- HN1, <- HN2 in Hf.
    destruct (Hits1_update_total tg1 bl2 (Game.hits g) sh2 Hwt1 Hwb2 Hf)
      as (tg3 & bl3 & h3 & sh3 & Eh & Hwt3 & Hwb3 & HN3 & HN3' & _ & He3
          & Hf3).
    pose proof (Hits1_update_shared _ _ _ _ _ _ _ _ Eh) as Hsh3.
    rewrite Et. cbn [bind]. rewrite Eb. cbn [bind]. rewrite Eh.
    cbn [bind Game.hits Game.targets Game.nstep Game.shared Game.perf
           Game.gameover Game.bullets].
    rewrite score_text_total. cbn [bind].
    assert (Hfps3 : fps sh3 = fps (Game.shared g)).
    { rewrite Hsh3, Hsh2, Hsh1. unfold sh0.
      destruct (_ <? Hits.score h3), (_ <? Targets.score _); reflexivity. }
    rewrite truediv_Ok by (rewrite Hfps3; exact Hfps). cbn [bind].
    rewrite truediv_Ok by (apply inject_nat_nonzero; lia). cbn [bind].
    eexists. split; [reflexivity|]. unfold Game1_sound.
    cbn [Game.shared Game.targets Game.bullets Game.hits].
    rewrite Hfps3, He3, He2, HN3, HN3'. auto.
Qed.


Lemma Session1_sound missed struck g0 g ms ss :
  Game1_sound g0 -> Session Game.Factory1 missed struck g0 g ms ss ->
  Game1_sound g.
Proof.
  intros H0 Hs. induction Hs as [|g ms ss keys _ IH|g ms ss env g' _ IH Hu].
  - exact H0.
  - apply Game1_sound_input. exact IH.
  - destruct (Game1_update_total env g IH) as (g1 & Hu1 & Hs1).
    rewrite Hu in Hu1. apply Ok_inj in Hu1. subst g1. exact Hs1.
Qed.
End Runs1.



(* ================================================================== *)
(** * shooter2.py: a constructed game runs *)
(* ================================================================== *)

Lemma py_index_ok {A} (l : list A) (i : Z) :
  (0 <= i < Z.of_nat (length l))%Z ->
  exists a, py_index l i = Ok a /\ In a l.
Proof.
  intros Hi. unfold py_index.
  replace (0 <=? i)%Z with true by (symmetry; apply Z.leb_le; lia).
  destruct (index_lt l (Z.to_nat i) ltac:(lia)) as (a & Ha).
  exists a. split; [exact Ha|]. apply index_Ok in Ha.
  eapply nth_error_In; eauto.
Qed.

Lemma py_gather_ok {A} (l : list A) (idx : list Z) :
  Forall (fun i => (0 <= i < Z.of_nat (length l))%Z) idx ->
  exists r, py_gather l idx = Ok r /\ Forall (fun a => In a l) r
            /\ length r = length idx.
Proof.
  intros H. unfold py_gather. induction H as [|i idx Hi _ (r & Hr & Hin & Hl)].
  - exists []. simpl. auto.
  - destruct (py_index_ok l i Hi) as (a & Ha & Hal).
    exists (a :: r). simpl. rewrite Ha. cbn [bind]. rewrite Hr. cbn [bind].
    split; [reflexivity|]. split; [constructor; assumption | simpl; lia].
Qed.

Lemma py_scatter_ok {A} (idx : list Z) (vals l : list A) :
  Forall (fun i => (0 <= i < Z.of_nat (length l))%Z) idx ->
  exists l', py_scatter idx vals l = Ok l' /\ length l' = length l.
Proof.
  revert vals l. induction idx as [|i idx IH]; intros [|v vals] l H; simpl;
    eauto.
  inversion H as [|? ? Hi Hidx]; subst.
  replace (0 <=? i)%Z with true by (symmetry; apply Z.leb_le; lia).
  rewrite store_lt by lia. cbn [bind].
  destruct (IH vals (set_nth l (Z.to_nat i) v)) as (l' & Hl' & Hlen).
  { rewrite set_nth_length. exact Hidx. }
  exists l'. split; [exact Hl'|]. rewrite Hlen. apply set_nth_length.
Qed.

Section Runs2.
Import Shooter2.

(** The listed sprites of a wave: their indices are within the arrays,
    and their rows [born - cslice[0]] within the window. *)
Lemma listed_bounds {E} (w : Wave.t E) :
  Wave2_inv w ->
  Forall (fun i => i < Wave.M w) (Wave.current w)
  /\ Forall (fun r => (0 <= r < Z.of_nat (Wave.N w))%Z)
       (map (fun i => (nth i (Wave.born w) 0 - fst (Wave.cslice w))%Z)
            (Wave.current w))
  /\ length (Wave.current w) <= Wave.N w
  /\ length (Wave.born w) = Wave.M w /\ length (Wave.xpos w) = Wave.M w
  /\ length (Wave.xspeed w) = Wave.M w /\ length (Wave.alive w) = Wave.M w
  /\ length (Wave.ialive w) = Wave.N w.
Proof.
  intros (Hc & Hcs).
  destruct Hc as [cM cN cborn cxpos cxspeed calive cialive cnborn ctborn
                    cnext cfuture ccount cadm cwin csort].
  fold (Wave.current w) in cadm. unfold births_upto in cwin.
  fold (Wave.current w) in cwin.
  split; [eapply Forall_impl; [|exact cadm]; intros i Hi; cbv beta in *;
          lia|].
  split.
  - rewrite Forall_map in cwin |- *.
    eapply Forall_impl; [|exact cwin]. intros i Hi. cbv beta in *. lia.
  - split; [unfold Wave.current; rewrite length_firstn; lia|].
    auto 10.
Qed.

Lemma Forall_lt_le (l : list nat) (a b : nat) :
  Forall (fun i => i < a) l -> a <= b -> Forall (fun i => i < b) l.
Proof.
  intros H Hab. eapply Forall_impl; [|exact H]. intros i Hi.
  cbv beta in *. lia.
Qed.

Lemma detect2_total {E E1} h (tg : Wave.t E) (bl : Wave.t E1) :
  Wave2_inv tg -> Wave2_inv bl ->
  length (Shooter.Hits.clashmat h) = Wave.N tg ->
  Forall (fun row => length row = Wave.N bl) (Shooter.Hits.clashmat h) ->
  exists nz nz1 r,
    Hits.detect h tg bl (Wave.current tg) (Wave.current bl)
    = Ok (nz, nz1, r).
Proof.
  intros Ht Hb Hc Hrows.
  destruct (listed_bounds tg Ht)
    as (Ha & Hr & _ & Lb & Lx & Ls & _ & _).
  destruct (listed_bounds bl Hb)
    as (Ha1 & Hr1 & _ & Lb1 & Lx1 & Ls1 & _ & _).
  unfold Hits.detect.
  rewrite (gather_total (Wave.xpos bl) _ 0%Q) by (rewrite Lx1; exact Ha1).
  cbn [bind].
  rewrite (gather_total (Wave.xpos tg) _ 0%Q) by (rewrite Lx; exact Ha).
  cbn [bind].
  rewrite (gather_total (Wave.xspeed bl) _ 0%Q) by (rewrite Ls1; exact Ha1).
  cbn [bind].
  rewrite (gather_total (Wave.xspeed tg) _ 0%Q) by (rewrite Ls; exact Ha).
  cbn [bind].
  rewrite (gather_total (Wave.born tg) _ 0%Z) by (rewrite Lb; exact Ha).
  cbn [bind].
  rewrite (gather_total (Wave.born bl) _ 0%Z) by (rewrite Lb1; exact Ha1).
  cbn [bind]. rewrite !map_map.
  destruct (py_gather_ok (Shooter.Hits.clashmat h)
              (map (fun i => (nth i (Wave.born tg) 0 - fst (Wave.cslice tg))%Z)
                   (Wave.current tg)))
    as (rows & Hrows' & Hin & _).
  { rewrite Hc. exact Hr. }
  rewrite Hrows'. cbn [bind].
  destruct (mapM_total
              (fun row =>
                 py_gather row
                   (map (fun i => (nth i (Wave.born bl) 0
                                   - fst (Wave.cslice bl))%Z)
                        (Wave.current bl))) rows) as (m & Hm).
  { eapply Forall_impl; [|exact Hin]. intros row Hrow. cbv beta in *.
    rewrite Forall_forall in Hrows. specialize (Hrows _ Hrow).
    destruct (py_gather_ok row
                (map (fun i => (nth i (Wave.born bl) 0
                                - fst (Wave.cslice bl))%Z)
                     (Wave.current bl))) as (r & Hr' & _).
    { rewrite Hrows. exact Hr1. }
    eauto. }
  rewrite Hm. cbn [bind].
  destruct (nonzero2 _) as [nz nz1]. eauto.
Qed.

(** On waves that keep their invariant, and arrays of their shape,
    [Hits.update] raises nothing; the arrays keep their shape. *)
Lemma Hits2_update_total {E E1} (tg : Wave.t E) (bl : Wave.t E1) h g :
  Wave2_inv tg -> Wave2_inv bl \/ Wave2_idle bl ->
  Hits_fits h (Wave.N tg) (Wave.N bl) ->
  exists tg' bl' h' g',
    Hits.update tg bl h g = Ok (tg', bl', h', g')
    /\ Hits_fits h' (Wave.N tg) (Wave.N bl).
Proof.
  intros Ht Hb Hf. unfold Hits.update.
  assert (Hnone : exists tg' bl' h' g',
             Ok (tg, bl, Shooter.Hits.age h, g) = Ok (tg', bl', h', g')
             /\ Hits_fits h' (Wave.N tg) (Wave.N bl)).
  { exists tg, bl, (Shooter.Hits.age h), g. split; [reflexivity|].
    apply Hits_fits_age. exact Hf. }
  destruct ((0 <? length (Wave.current tg))
            && (0 <? length (Wave.current bl))) eqn:Hcond;
    [|exact Hnone].
  apply andb_true_iff in Hcond. destruct Hcond as (_ & Hl1).
  apply Nat.ltb_lt in Hl1.
  destruct Hb as [Hb | (Hidle & _)].
  2: { unfold Wave.current in Hl1. rewrite Hidle in Hl1. simpl in Hl1. lia. }
  destruct Hf as (Hc & Hrows & Hw & Hxp).
  destruct (detect2_total h tg bl Ht Hb Hc Hrows) as (nz & nz1 & r & Hd).
  rewrite Hd. cbn [bind].
  destruct (0 <? length nz); [|exact Hnone].
  destruct (detect2_bounds _ _ _ _ _ _ _ _ Hd) as (Hlen & Hnz & Hnz1 & Hr).
  destruct (listed_bounds tg Ht)
    as (Ha & Hrb & Hn & Lb & Lx & Ls & Lal & Lia).
  destruct (listed_bounds bl Hb)
    as (Ha1 & Hrb1 & Hn1 & Lb1 & Lx1 & Ls1 & Lal1 & Lia1).
  destruct (gather_ok (Wave.ialive tg) nz) as (it & Eit).
  { eapply Forall_lt_le; [exact Hnz | lia]. }
  destruct (gather_ok (Wave.ialive bl) nz1) as (ib & Eib).
  { eapply Forall_lt_le; [exact Hnz1 | lia]. }
  assert (Hit : Forall (fun i => i < Wave.M tg) it).
  { pose proof (gather_firstn_In _ (Wave.nalive tg) _ _ Eit Hnz) as Hin.
    rewrite Forall_forall in Hin, Ha |- *. intros i Hi. apply Ha, Hin, Hi. }
  assert (Hib : Forall (fun i => i < Wave.M bl) ib).
  { pose proof (gather_firstn_In _ (Wave.nalive bl) _ _ Eib Hnz1) as Hin.
    rewrite Forall_forall in Hin, Ha1 |- *. intros i Hi.
    apply Ha1, Hin, Hi. }
  destruct (fill_ok it false (Wave.alive tg)) as (al & Eal).
  { rewrite Lal. exact Hit. }
  destruct (fill_ok ib false (Wave.alive bl)) as (al1 & Eal1).
  { rewrite Lal1. exact Hib. }
  destruct (gather_ok r nz) as (rnz & Ernz).
  { rewrite Hr, length_map. exact Hnz. }
  assert (Hrnz : Forall (fun x => (0 <= x < Z.of_nat (Wave.N tg))%Z) rnz).
  { apply Forall_forall. intros x Hx. apply In_nth_error in Hx.
    destruct Hx as (k & Hk).
    apply (proj1 (gather_nth _ _ _ k x Ernz)) in Hk.
    destruct Hk as (i & _ & Hi). apply nth_error_In in Hi.
    rewrite Hr in Hi. rewrite Forall_forall in Hrb. apply Hrb. exact Hi. }
  destruct (py_fill_ok rnz (Shooter.Hits.timeout h) (Shooter.Hits.weight h))
    as (wt & Ewt).
  { rewrite Hw. exact Hrnz. }
  destruct (gather_ok (Wave.xpos tg) it) as (xs & Exs).
  { rewrite Lx. exact Hit. }
  destruct (py_scatter_ok rnz xs (Shooter.Hits.xpos h)) as (xp & Exp & Lxp).
  { rewrite Hxp. exact Hrnz. }
  rewrite Eit. cbn [bind]. rewrite Eal. cbn [bind]. rewrite Eib.
  cbn [bind]. rewrite Eal1. cbn [bind]. rewrite Ernz. cbn [bind].
  rewrite Ewt. cbn [bind]. rewrite Exs. cbn [bind]. rewrite Exp.
  cbn [bind].
  eexists _, _, _, _. split; [reflexivity|].
  apply Hits_fits_age. unfold Hits_fits.
  cbn [Shooter.Hits.clashmat Shooter.Hits.weight Shooter.Hits.xpos].
  apply py_fill_length in Ewt.
  repeat split; try assumption; congruence.
Qed.

Lemma Wave2_init_ypos {E} nc fps v orient (e : E) w :
  Wave.init nc fps v orient e = Ok w ->
  orient = 1%Z \/ orient = (-1)%Z ->
  (forall n t w0 w1, nc n t w0 = Ok w1 -> Wave.N w1 = Wave.N w0) ->
  length (Wave.ypos w) = Wave.N w.
Proof.
  unfold Wave.init. intros H Ho Hnc.
  bind_inv H as q Eq. remember (py_int q) as Nz eqn:ENz.
  remember (2 * Nz)%Z as Mz eqn:EMz.
  bind_inv H as bo Ebo. bind_inv H as xp Exp.
  bind_inv H as xs Exs. bind_inv H as al Eal. bind_inv H as ia Eia.
  bind_inv H as w1 E1. bind_inv H as tb Etb. bind_inv H as yp Eyp.
  apply Ok_inj in H. subst w. apply Hnc in E1. cbn [Wave.N] in E1.
  apply slice_step_unit in Eyp; [|exact Ho].
  rewrite linspace01_length in Eyp. unfold Wave.revive.
  cbn [Wave.ypos Wave.N Wave.set_ypos Wave.set_tborn Wave.set_alive].
  congruence.
Qed.

Lemma Targets2_newcontent_N rnd n t (w w' : Targets.t) :
  Targets.newcontent rnd n t w = Ok w' -> Wave.N w' = Wave.N w.
Proof.
  unfold Targets.newcontent. intros H.
  destruct (Wave.M w <? n); [discriminate|].
  destruct (Qlt_bool 0 _ && Qle_bool _ 1); [|discriminate].
  apply Ok_inj in H. subst w'. reflexivity.
Qed.

Lemma Bullets2_newcontent_N n t (w w' : Bullets.t) :
  Bullets.newcontent n t w = Ok w' -> Wave.N w' = Wave.N w.
Proof.
  unfold Bullets.newcontent. intros H. bind_inv H as ks Eks.
  apply Ok_inj in H. subst w'. reflexivity.
Qed.

Lemma Game2_init_sound rnd c g0 :
  Game.init rnd c = Ok g0 -> Game2_sound g0.
Proof.
  unfold Game.init. intros H.
  bind_inv H as av Eav. bind_inv H as tg Etg. bind_inv H as bl Ebl.
  bind_inv H as h Eh. apply Ok_inj in H. subst g0.
  unfold Shooter.Avatar.init in Eav. bind_inv Eav as xs Exs.
  apply truediv_inv in Exs. destruct Exs as (Hfps & _).
  destruct (Targets2_init_inv _ _ _ _ _ _ Etg) as (Hit & Hgt).
  assert (Lyt : length (Wave.ypos tg) = Wave.N tg).
  { unfold Targets.init in Etg. bind_inv Etg as r Er.
    exact (Wave2_init_ypos _ _ _ _ _ _ Etg (or_introl eq_refl)
             (Targets2_newcontent_N rnd)). }
  assert (Lyb : length (Wave.ypos bl) = Wave.N bl).
  { exact (Wave2_init_ypos _ _ _ _ _ _ Ebl (or_intror eq_refl)
             Bullets2_newcontent_N). }
  destruct (Hits1_init_fits _ _ _ _ _ _ _ _ Eh Lyt Lyb) as (_ & _ & Hf).
  unfold Game2_sound.
  cbn [Shooter.Game.shared Shooter.Game.targets Shooter.Game.bullets
         Shooter.Game.hits Shooter.fps].
  split; [exact Hfps|]. split; [exact Hit|]. split; [exact Hgt|].
  split; [|exact Hf].
  destruct (Z_le_gt_dec 1 (py_int (Shooter.Game.bullets_rload c
                                   * inject_Z (Shooter.Game.cfg_fps c))))
    as [Hgood | Hbad].
  - left. exact (Bullets2_init_inv _ _ _ _ Ebl Hgood).
  - right. exact (Bullets2_init_idle _ _ _ _ Ebl ltac:(lia)).
Qed.

Lemma idle_struck {E} (w : Wave.t E) al :
  Wave2_idle w -> Wave2_idle (Wave.set_alive al w).
Proof. intros H. exact H. Qed.

(** From a sound state [Game.update] raises nothing, and the state it
    returns is sound. *)
Lemma Game2_update_total env g :
  Game2_sound g ->
  exists g', Shooter.Game.update Game.Factory2 env g = Ok g'
             /\ Game2_sound g'.
Proof.
  intros (Hfps & Hit & Hgt & Hb & Hf). unfold Shooter.Game.update.
  destruct (Shooter.tr_quit (Shooter.Game.shared g)) eqn:Hq.
  - eexists. split; [reflexivity|]. unfold Game2_sound.
    cbn [Shooter.Game.shared Shooter.Game.targets Shooter.Game.bullets
           Shooter.Game.hits]. auto.
  - unfold Shooter.Game.components_update.
    cbn [Shooter.Game.targets_update Shooter.Game.bullets_update
           Shooter.Game.hits_update Shooter.Game.targets_score
           Shooter.Game.hits_score Game.Factory2].
    set (sh0 := Shooter.set_avatar _ (Shooter.Game.shared g)).
    destruct (Targets2_update_ok (random env) (Shooter.Game.targets g) sh0
                Hit Hgt) as (tg1 & sh1 & Et & _).
    pose proof (Targets2_update_inv _ _ _ _ _ Hit Hgt Et)
      as (Hit1 & Hgt1 & HN1 & _).
    pose proof (Targets2_update_shared _ _ _ _ _ Et) as Hsh1.
    assert (Hbl : exists bl2 sh2,
               Bullets.update (Shooter.Game.bullets g) sh1 = Ok (bl2, sh2)
               /\ Wave.N bl2 = Wave.N (Shooter.Game.bullets g)
               /\ ((Wave2_inv bl2 /\ Bullets2_good (Wave.ext bl2))
                   \/ Wave2_idle bl2)).
    { destruct Hb as [(Hib & Hgb) | Hidle].
      - destruct (Bullets2_update_ok (Shooter.Game.bullets g) sh1 Hib Hgb)
          as (bl2 & sh2 & Eb & _).
        pose proof (Bullets2_update_inv _ _ _ _ Hib Hgb Eb)
          as (Hib2 & Hgb2 & HN2 & _).
        exists bl2, sh2. auto.
      - destruct (Wave2_idle_update (@Wave.pass _) Bullets.entering
                    Bullets.newcontent (Shooter.Game.bullets g) sh1 Hidle)
          as (bl2 & Eb & Hidle2 & HN2).
        exists bl2, sh1. auto. }
    destruct Hbl as (bl2 & sh2 & Eb & HN2 & Hb2).
    pose proof (Bullets2_update_shared _ _ _ _ Eb) as Hsh2.
    rewrite <- HN1, <- HN2 in Hf.
    assert (Hb2' : Wave2_inv bl2 \/ Wave2_idle bl2)
      by (destruct Hb2 as [(Hi & _) | Hi]; auto).
    destruct (Hits2_update_total tg1 bl2 (Shooter.Game.hits g) sh2
                Hit1 Hb2' Hf)
      as (tg3 & bl3 & h3 & sh3 & Eh & Hf3).
    pose proof (Hits2_update_shared _ _ _ _ _ _ _ _ Eh) as Hsh3.
    pose proof (Hits2_update_inv _ _ _ _ _ _ _ _ Eh)
      as (it & ib & al & al1 & Eal & Eal1 & Htg3 & Hbl3 & _).
    rewrite Et. cbn [bind]. rewrite Eb. cbn [bind]. rewrite Eh.
    cbn [bind Shooter.Game.hits Shooter.Game.targets Shooter.Game.nstep
           Shooter.Game.shared Shooter.Game.perf Shooter.Game.gameover
           Shooter.Game.bullets].
    rewrite score_text_total. cbn [bind].
    assert (Hfps3 : Shooter.fps sh3 = Shooter.fps (Shooter.Game.shared g)).
    { rewrite Hsh3, Hsh2, Hsh1. unfold sh0.
      destruct (_ <? Shooter.Hits.score h3), (_ <? Targets.score _);
        reflexivity. }
    rewrite truediv_Ok by (rewrite Hfps3; exact Hfps). cbn [bind].
    rewrite truediv_Ok by (apply inject_nat_nonzero; lia). cbn [bind].
    eexists. split; [reflexivity|]. unfold Game2_sound.
    cbn [Shooter.Game.shared Shooter.Game.targets Shooter.Game.bullets
           Shooter.Game.hits].
    apply fill_length in Eal, Eal1. subst tg3 bl3.
    cbn [Wave.N Wave.ext Wave.set_alive].
    split; [rewrite Hfps3; exact Hfps|].
    split; [apply struck_inv; assumption|].
    split; [exact Hgt1|]. split; [|exact Hf3].
    destruct Hb2 as [(Hi & Hg) | Hi].
    + left. split; [apply struck_inv; assumption | exact Hg].
    + right. apply idle_struck. exact Hi.
Qed.


Lemma Session2_sound missed struck g0 g ms ss :
  Game2_sound g0 -> Session Game.Factory2 missed struck g0 g ms ss ->
  Game2_sound g.
Proof.
  intros H0 Hs. induction Hs as [|g ms ss keys _ IH|g ms ss env g' _ IH Hu].
  - exact H0.
  - exact IH.
  - destruct (Game2_update_total env g IH) as (g1 & Hu1 & Hs1).
    rewrite Hu in Hu1. apply Ok_inj in Hu1. subst g1. exact Hs1.
Qed.
End Runs2.



(* ================================================================== *)
(** * shooter.py: what [Hits.update] does *)
(* ================================================================== *)

Lemma scatter_gather_nth {A} (src : list A) : forall idx vals l l' j,
  gather src idx = Ok vals -> scatter idx vals l = Ok l' ->
  nth_error l' j
  = if existsb (Nat.eqb j) idx then nth_error src j else nth_error l j.
Proof.
  induction idx as [|i idx IH]; intros vals l l' j Hg Hs.
  - unfold gather in Hg. simpl in Hg. apply Ok_inj in Hg. subst vals.
    simpl in Hs. apply Ok_inj in Hs. subst l'. reflexivity.
  - unfold gather in Hg. simpl in Hg. bind_inv Hg as a Ea.
    bind_inv Hg as vals' Evals. apply Ok_inj in Hg. subst vals.
    simpl in Hs. bind_inv Hs as l1 El1. apply store_Ok in El1.
    destruct El1 as (Hi & ->).
    rewrite (IH vals' _ l' j Evals Hs). simpl.
    destruct (existsb (Nat.eqb j) idx); [rewrite orb_true_r; reflexivity|].
    rewrite orb_false_r, set_nth_nth.
    destruct (j =? i) eqn:Eji; [|reflexivity].
    apply Nat.eqb_eq in Eji. subst j. apply Nat.ltb_lt in Hi. rewrite Hi.
    apply index_Ok in Ea. symmetry. exact Ea.
Qed.

Section HitsEffect1.
Import Shooter.

(** The writes of [Hits.update]: [s] and [s1] are the window offsets of
    the targets and of the bullets of the pairs found, in the order of
    the pairs. *)
Lemma Hits1_update_effect {X X1} (tg : Wave.t X) (bl : Wave.t X1) h g
  tg' bl' h' g' :
  Hits.update tg bl h g = Ok (tg', bl', h', g') ->
  exists s s1 vis' vis1' wt xs xp,
    length s = length s1
    /\ Forall (fun j => nth_error (window_visible tg) j = Some true) s
    /\ Forall (fun j => nth_error (window_visible bl) j = Some true) s1
    /\ fill s false (window_visible tg) = Ok vis'
    /\ fill s1 false (window_visible bl) = Ok vis1'
    /\ fill s (Hits.timeout h) (Hits.weight h) = Ok wt
    /\ gather (window_xpos tg) s = Ok xs
    /\ scatter s xs (Hits.xpos h) = Ok xp
    /\ tg' = Wave.set_visible
               (set_slice (Wave.n tg) (Wave.n tg + Wave.N tg) vis'
                  (Wave.visible tg)) tg
    /\ bl' = Wave.set_visible
               (set_slice (Wave.n bl) (Wave.n bl + Wave.N bl) vis1'
                  (Wave.visible bl)) bl
    /\ h' = Hits.age
              (Hits.mk (Hits.timeout h) (Hits.tol h) (Hits.clashmat h)
                 (Hits.ypos h) xp wt (Hits.score h + length s))
    /\ (forall p q xp vp xq vq row m,
          nth_error (window_visible tg) p = Some true ->
          nth_error (window_visible bl) q = Some true ->
          nth_error (window_xpos tg) p = Some xp ->
          nth_error (window_xspeed tg) p = Some vp ->
          nth_error (window_xpos bl) q = Some xq ->
          nth_error (window_xspeed bl) q = Some vq ->
          nth_error (Hits.clashmat h) p = Some row ->
          nth_error row q = Some m ->
          (In (p, q) (combine s s1)
           <-> collide (Hits.tol h) (xq - xp) (vq - vp) m)).
Proof.
  unfold Hits.update, window_visible, window_xpos, window_xspeed,
    Wave.current.
  cbn [fst snd]. intros H.
  bind_inv H as [[[tg1 bl1] h1] g1] Hu. apply Ok_inj in H.
  injection H as <- <- <- <-.
  set (x := slice (Wave.n tg) (Wave.n tg + Wave.N tg) (Wave.xpos tg)) in *.
  set (v := slice (Wave.n tg) (Wave.n tg + Wave.N tg) (Wave.xspeed tg))
    in *.
  set (x1 := slice (Wave.n bl) (Wave.n bl + Wave.N bl) (Wave.xpos bl)) in *.
  set (v1 := slice (Wave.n bl) (Wave.n bl + Wave.N bl) (Wave.xspeed bl))
    in *.
  set (vis := slice (Wave.n tg) (Wave.n tg + Wave.N tg) (Wave.visible tg))
    in *.
  set (vis1 := slice (Wave.n bl) (Wave.n bl + Wave.N bl) (Wave.visible bl))
    in *.
  assert (Hnone :
    (forall p q xp vp xq vq row m,
        nth_error vis p = Some true -> nth_error vis1 q = Some true ->
        nth_error x p = Some xp -> nth_error v p = Some vp ->
        nth_error x1 q = Some xq -> nth_error v1 q = Some vq ->
        nth_error (Hits.clashmat h) p = Some row ->
        nth_error row q = Some m ->
        ~ collide (Hits.tol h) (xq - xp) (vq - vp) m) ->
    exists s s1 vis' vis1' wt xs xp,
      length s = length s1
      /\ Forall (fun j => nth_error vis j = Some true) s
      /\ Forall (fun j => nth_error vis1 j = Some true) s1
      /\ fill s false vis = Ok vis'
      /\ fill s1 false vis1 = Ok vis1'
      /\ fill s (Hits.timeout h) (Hits.weight h) = Ok wt
      /\ gather x s = Ok xs
      /\ scatter s xs (Hits.xpos h) = Ok xp
      /\ tg = Wave.set_visible
                (set_slice (Wave.n tg) (Wave.n tg + Wave.N tg) vis'
                   (Wave.visible tg)) tg
      /\ bl = Wave.set_visible
                (set_slice (Wave.n bl) (Wave.n bl + Wave.N bl) vis1'
                   (Wave.visible bl)) bl
      /\ Hits.age h
         = Hits.age
             (Hits.mk (Hits.timeout h) (Hits.tol h) (Hits.clashmat h)
                (Hits.ypos h) xp wt (Hits.score h + length s))
      /\ (forall p q xp vp xq vq row m,
            nth_error vis p = Some true -> nth_error vis1 q = Some true ->
            nth_error x p = Some xp -> nth_error v p = Some vp ->
            nth_error x1 q = Some xq -> nth_error v1 q = Some vq ->
            nth_error (Hits.clashmat h) p = Some row ->
            nth_error row q = Some m ->
            (In (p, q) (combine s s1)
             <-> collide (Hits.tol h) (xq - xp) (vq - vp) m))).
  { intros Hno.
    exists [], [], vis, vis1, (Hits.weight h), [], (Hits.xpos h). simpl.
    split; [reflexivity|]. split; [constructor|]. split; [constructor|].
    repeat (split; [reflexivity|]).
    split; [unfold vis; rewrite set_slice_same by lia; destruct tg;
            reflexivity|].
    split; [unfold vis1; rewrite set_slice_same by lia; destruct bl;
            reflexivity|].
    split; [rewrite Nat.add_0_r; destruct h; reflexivity|].
    intros p q xp vp xq vq row m Hp Hq Hxp Hvp Hxq Hvq Hrow Hm.
    split; [intros []|]. intros Hc. exfalso.
    exact (Hno p q xp vp xq vq row m Hp Hq Hxp Hvp Hxq Hvq Hrow Hm Hc). }
  destruct (any vis && any vis1) eqn:Eany.
  - bind_inv Hu as [nz nz1] Ed.
    assert (Hlen : length nz = length nz1).
    { pose proof Ed as Ed'. unfold Hits.detect in Ed'.
      bind_inv Ed' as a1 Ea1. bind_inv Ed' as a2 Ea2.
      bind_inv Ed' as a3 Ea3. bind_inv Ed' as a4 Ea4.
      bind_inv Ed' as a5 Ea5. bind_inv Ed' as a6 Ea6.
      apply Ok_inj in Ed'. apply clashes_bounds in Ed'. tauto. }
    destruct (0 <? length nz) eqn:Enz.
    + bind_inv Hu as s Es. bind_inv Hu as vis' Evis.
      bind_inv Hu as wt Ewt. bind_inv Hu as xs Exs. bind_inv Hu as xp Exp.
      bind_inv Hu as s1 Es1. bind_inv Hu as vis1' Evis1.
      apply Ok_inj in Hu. injection Hu as <- <- <- <-.
      exists s, s1, vis', vis1', wt, xs, xp.
      assert (Htrue : forall mask idx r,
                 gather (nonzero mask) idx = Ok r ->
                 Forall (fun j => nth_error mask j = Some true) r).
      { intros mask idx r Hr. apply Forall_forall. intros j Hj.
        apply In_nth_error in Hj. destruct Hj as (k & Hk).
        apply (proj1 (gather_nth _ _ _ k j Hr)) in Hk.
        destruct Hk as (i & _ & Hi). apply nth_error_In in Hi.
        apply In_nonzero in Hi. exact Hi. }
      split.
      { rewrite (gather_length _ _ _ Es), (gather_length _ _ _ Es1).
        exact Hlen. }
      split; [eapply Htrue; eauto|]. split; [eapply Htrue; eauto|].
      repeat (split; [assumption || reflexivity|]).
      split; [rewrite (gather_length _ _ _ Es); reflexivity|].
      exact (Hits1_detect_spec h x v vis x1 v1 vis1 nz nz1 s s1 Ed Es Es1).
    + apply Ok_inj in Hu. injection Hu as <- <- <- <-. apply Hnone.
      intros p q xp vp xq vq row m Hp Hq Hxp Hvp Hxq Hvq Hrow Hm Hc.
      apply Nat.ltb_ge in Enz.
      assert (nz = []) by (destruct nz; [reflexivity | simpl in Enz; lia]).
      subst nz. destruct nz1; [|discriminate].
      eapply (Hits1_detect_spec h x v vis x1 v1 vis1 [] [] [] [] Ed
                eq_refl eq_refl) in Hc; eauto.
  - apply Ok_inj in Hu. injection Hu as <- <- <- <-. apply Hnone.
    intros p q xp vp xq vq row m Hp Hq _ _ _ _ _ _ _.
      apply andb_false_iff in Eany.
      destruct Eany as [E | E];
        [assert (Ht : any vis = true) by (apply any_true; eauto)
        |assert (Ht : any vis1 = true) by (apply any_true; eauto)];
        congruence.
Qed.
End HitsEffect1.

Lemma slice_set_slice {A} lo hi vals (l : list A) :
  lo <= hi -> hi <= length l -> length vals = hi - lo ->
  slice lo hi (set_slice lo hi vals l) = vals.
Proof.
  intros H1 H2 H3. unfold slice, set_slice.
  rewrite skipn_app, length_firstn, Nat.min_l by lia.
  rewrite skipn_all2 by (rewrite length_firstn; lia).
  rewrite Nat.sub_diag. simpl.
  rewrite firstn_app, H3, Nat.sub_diag. simpl. rewrite app_nil_r.
  apply firstn_all2. lia.
Qed.

Lemma map_fst_combine {A B} (l : list A) (l' : list B) :
  length l = length l' -> map fst (combine l l') = l.
Proof.
  revert l'. induction l as [|a l IH]; intros [|b l'] H; simpl in *;
    try discriminate; [reflexivity|]. f_equal. apply IH. lia.
Qed.

Lemma map_snd_combine {A B} (l : list A) (l' : list B) :
  length l = length l' -> map snd (combine l l') = l'.
Proof.
  revert l'. induction l as [|a l IH]; intros [|b l'] H; simpl in *;
    try discriminate; [reflexivity|]. f_equal. apply IH. lia.
Qed.

Section HitsFrame1.
Import Shooter.

Lemma window_after_flags {X} (w : Wave.t X) vis' :
  Wave1_wf w -> length vis' = Wave.N w ->
  window_visible
    (Wave.set_visible
       (set_slice (Wave.n w) (Wave.n w + Wave.N w) vis' (Wave.visible w)) w)
  = vis'.
Proof.
  intros (_ & _ & Hv & Hn) Hl.
  unfold window_visible, Wave.current, Wave.set_visible.
  cbn [snd Wave.n Wave.N Wave.visible].
  apply slice_set_slice; lia.
Qed.

Lemma window_visible_length {X} (w : Wave.t X) :
  Wave1_wf w -> length (window_visible w) = Wave.N w.
Proof.
  intros (_ & _ & Hv & Hn). unfold window_visible, Wave.current.
  cbn [snd]. rewrite slice_length by lia. lia.
Qed.
End HitsFrame1.

(** X8. shooter.py, [Hits.update] on well-formed waves: a visible target
    and a visible bullet of the two windows are paired exactly when they
    collide; the score grows by the number of pairs; the flags of the
    paired targets and bullets are cleared and no other flag changes; a
    marker is left on the row of each paired target, at the target's
    position and with a full weight, and every weight then loses one,
    within [0, timeout].  Positions and speeds of the waves are kept. *)
Theorem X8_hits_update_effect {X X1}
  (tg : Shooter.Wave.t X) (bl : Shooter.Wave.t X1) h g tg' bl' h' g' :
  Wave1_wf tg -> Wave1_wf bl ->
  Shooter.Hits.update tg bl h g = Ok (tg', bl', h', g') ->
  exists pairs : list (nat * nat),
    (forall p q xp vp xq vq row m,
        nth_error (window_visible tg) p = Some true ->
        nth_error (window_visible bl) q = Some true ->
        nth_error (window_xpos tg) p = Some xp ->
        nth_error (window_xspeed tg) p = Some vp ->
        nth_error (window_xpos bl) q = Some xq ->
        nth_error (window_xspeed bl) q = Some vq ->
        nth_error (Shooter.Hits.clashmat h) p = Some row ->
        nth_error row q = Some m ->
        (In (p, q) pairs
         <-> collide (Shooter.Hits.tol h) (xq - xp) (vq - vp) m))
    /\ (forall p q, In (p, q) pairs ->
          nth_error (window_visible tg) p = Some true
          /\ nth_error (window_visible bl) q = Some true)
    /\ Shooter.Hits.score h' = Shooter.Hits.score h + length pairs
    /\ (forall j,
          nth_error (window_visible tg') j
          = if existsb (Nat.eqb j) (map fst pairs) then Some false
            else nth_error (window_visible tg) j)
    /\ (forall j,
          nth_error (window_visible bl') j
          = if existsb (Nat.eqb j) (map snd pairs) then Some false
            else nth_error (window_visible bl) j)
    /\ (forall j,
          nth_error (Shooter.Hits.xpos h') j
          = if existsb (Nat.eqb j) (map fst pairs)
            then nth_error (window_xpos tg) j
            else nth_error (Shooter.Hits.xpos h) j)
    /\ (forall j,
          nth_error (Shooter.Hits.weight h') j
          = option_map (fun w => clipZ (w - 1) 0 (Shooter.Hits.timeout h))
              (if existsb (Nat.eqb j) (map fst pairs)
               then Some (Shooter.Hits.timeout h)
               else nth_error (Shooter.Hits.weight h) j))
    /\ (Shooter.Wave.xpos tg' = Shooter.Wave.xpos tg
        /\ Shooter.Wave.xspeed tg' = Shooter.Wave.xspeed tg
        /\ Shooter.Wave.n tg' = Shooter.Wave.n tg
        /\ Shooter.Wave.ext tg' = Shooter.Wave.ext tg)
    /\ (Shooter.Wave.xpos bl' = Shooter.Wave.xpos bl
        /\ Shooter.Wave.xspeed bl' = Shooter.Wave.xspeed bl
        /\ Shooter.Wave.n bl' = Shooter.Wave.n bl
        /\ Shooter.Wave.ext bl' = Shooter.Wave.ext bl).
Proof.
  intros Wt Wb H. apply Hits1_update_effect in H.
  destruct H as (s & s1 & vis' & vis1' & wt & xs & xp & Hlen & Hs & Hs1
                 & Evis & Evis1 & Ewt & Exs & Exp & -> & -> & -> & Hdet).
  exists (combine s s1).
  rewrite (map_fst_combine _ _ Hlen), (map_snd_combine _ _ Hlen).
  split; [exact Hdet|]. split.
  { intros p q Hin. split.
    - apply in_combine_l in Hin. rewrite Forall_forall in Hs. auto.
    - apply in_combine_r in Hin. rewrite Forall_forall in Hs1. auto. }
  split.
  { cbn [Shooter.Hits.age Shooter.Hits.score]. rewrite length_combine.
    rewrite <- Hlen, Nat.min_id. reflexivity. }
  split.
  { intros j. rewrite window_after_flags;
      [|exact Wt
       |rewrite (fill_length _ _ _ _ Evis); apply window_visible_length;
        exact Wt].
    apply (fill_nth _ _ _ _ _ Evis). }
  split.
  { intros j. rewrite window_after_flags;
      [|exact Wb
       |rewrite (fill_length _ _ _ _ Evis1); apply window_visible_length;
        exact Wb].
    apply (fill_nth _ _ _ _ _ Evis1). }
  split.
  { intros j. cbn [Shooter.Hits.age Shooter.Hits.xpos].
    apply (scatter_gather_nth _ _ _ _ _ _ Exs Exp). }
  split.
  { intros j. cbn [Shooter.Hits.age Shooter.Hits.weight Shooter.Hits.timeout].
    rewrite nth_error_map, (fill_nth _ _ _ _ j Ewt). reflexivity. }
  split; destruct tg, bl; simpl; auto.
Qed.

Lemma X8_hits_update_effect_witness :
  exists pairs : list (nat * nat),
    Shooter.Hits.score (snd (fst demo_struck)) = 0 + length pairs
    /\ forall j,
         nth_error (window_visible (fst (fst (fst demo_struck)))) j
         = if existsb (Nat.eqb j) (map fst pairs) then Some false
           else nth_error (window_visible (fst demo_waves)) j.
Proof.
  destruct (X8_hits_update_effect (fst demo_waves) (snd demo_waves)
              (Shooter.Game.hits (demo_game 0))
              (Shooter.Game.shared (demo_game 0))
              (fst (fst (fst demo_struck))) (snd (fst (fst demo_struck)))
              (snd (fst demo_struck)) (snd demo_struck)
              ltac:(vm_compute; repeat split; lia)
              ltac:(vm_compute; repeat split; lia)
              ltac:(vm_compute; reflexivity))
    as (pairs & _ & _ & Hscore & Hflags & _).
  exists pairs. split; [exact Hscore | exact Hflags].
Defined.

(* ================================================================== *)
(** * shooter.py: when the bullets are fired *)
(* ================================================================== *)

Lemma py_fill_nth {A} (idx : list Z) (v : A) : forall l l' j,
  Forall (fun x => (0 <= x)%Z) idx ->
  py_fill idx v l = Ok l' ->
  nth_error l' j
  = if existsb (fun i => (i =? Z.of_nat j)%Z) idx then Some v
    else nth_error l j.
Proof.
  induction idx as [|i idx IH]; intros l l' j Hpos H; simpl in H.
  - apply Ok_inj in H. subst l'. reflexivity.
  - pose proof (Forall_inv Hpos) as Hi. cbv beta in Hi.
    pose proof (Forall_inv_tail Hpos) as Ht.
    replace (0 <=? i)%Z with true in H by (symmetry; apply Z.leb_le; lia).
    bind_inv H as l1 El1. apply store_Ok in El1. destruct El1 as (Hlt & ->).
    rewrite (IH _ _ j Ht H). simpl.
    destruct (existsb (fun i0 => (i0 =? Z.of_nat j)%Z) idx);
      [rewrite orb_true_r; reflexivity|].
    rewrite orb_false_r, set_nth_nth.
    destruct (i =? Z.of_nat j)%Z eqn:Eij.
    + apply Z.eqb_eq in Eij. replace (j =? Z.to_nat i) with true
        by (symmetry; apply Nat.eqb_eq; lia).
      apply Nat.ltb_lt in Hlt. rewrite Hlt. reflexivity.
    + apply Z.eqb_neq in Eij. replace (j =? Z.to_nat i) with false
        by (symmetry; apply Nat.eqb_neq; lia).
      reflexivity.
Qed.

Lemma arange_reload (N0 : nat) (r : Z) idx j :
  arange 0 (Z.of_nat N0) r = Ok idx -> j < N0 ->
  existsb (fun i => (i =? Z.of_nat j)%Z) idx = reload_flag r j.
Proof.
  unfold arange. destruct (r =? 0)%Z eqn:Er; [discriminate|].
  apply Z.eqb_neq in Er. intros H Hj. apply Ok_inj in H. subst idx.
  rewrite Z.sub_0_r. unfold reload_flag.
  apply eq_true_iff_eq. rewrite existsb_exists, andb_true_iff.
  rewrite Z.ltb_lt, Z.eqb_eq. split.
  - intros (x & Hx & Ex). apply Z.eqb_eq in Ex. subst x.
    apply in_map_iff in Hx. destruct Hx as (k & Hk & Hin).
    apply in_seq in Hin. simpl in Hk.
    destruct (Z_lt_le_dec r 0) as [Hneg | Hpos].
    + exfalso.
      assert (0 <= - Z.of_nat N0 / r)%Z.
      { replace (- Z.of_nat N0 / r)%Z with (Z.of_nat N0 / (- r))%Z
          by (rewrite <- Z.div_opp_opp by lia; rewrite Z.opp_involutive;
              reflexivity).
        apply Z.div_pos; lia. }
      lia.
    + split; [lia|]. rewrite <- Hk. apply Z.mod_mul. lia.
  - intros (Hr & Hm). exists (Z.of_nat j). split; [|apply Z.eqb_refl].
    apply in_map_iff. exists (Z.to_nat (Z.of_nat j / r)).
    assert (Hq : (0 <= Z.of_nat j / r)%Z) by (apply Z.div_pos; lia).
    assert (Hjr : (Z.of_nat j = r * (Z.of_nat j / r))%Z).
    { pose proof (Z.div_mod (Z.of_nat j) r ltac:(lia)). lia. }
    split; [simpl; rewrite Z2Nat.id by lia; lia|].
    apply in_seq. split; [lia|]. simpl.
    assert (- Z.of_nat N0 / r < - (Z.of_nat j / r))%Z.
    { apply Z.div_lt_upper_bound; [lia|]. nia. }
    lia.
Qed.

Lemma set_from_page_nth {A} lo (vals : list A) (l : list A) j :
  lo <= length l ->
  nth_error (set_from lo (Array vals) l) (lo + j) = nth_error vals j.
Proof.
  intros H. unfold set_from. simpl.
  rewrite nth_error_app2 by (rewrite length_firstn; lia).
  rewrite length_firstn. f_equal. lia.
Qed.

Section Reload1.
Import Shooter.

Lemma Bullets1_newpage_flags (w : Bullets.t) p :
  Bullets.newpage w = Ok p ->
  exists vis,
    Wave.page_visible p = Array vis /\ length vis = Wave.N w
    /\ forall j, j < Wave.N w ->
         nth_error vis j
         = Some (reload_flag (Bullets.rload (Wave.ext w)) j).
Proof.
  unfold Bullets.newpage. intros H.
  bind_inv H as idx Eidx. bind_inv H as vis Evis. apply Ok_inj in H.
  subst p. exists vis. cbn [Wave.page_visible].
  split; [reflexivity|].
  split; [rewrite (py_fill_length _ _ _ _ Evis); apply repeat_length|].
  intros j Hj.
  assert (Hpos : Forall (fun x => (0 <= x)%Z) idx).
  { eapply Forall_impl;
      [|exact (arange_nonneg_bound _ _ _ Eidx ltac:(lia))].
    simpl. intros; lia. }
  rewrite (py_fill_nth _ _ _ _ j Hpos Evis).
  rewrite (arange_reload _ _ _ j Eidx Hj).
  destruct (reload_flag (Bullets.rload (Wave.ext w)) j); [reflexivity|].
  apply nth_error_repeat. exact Hj.
Qed.

(** The flags after [step]: untouched when the page is not turned, and
    those of the new page in the second half when it is. *)
Lemma Bullets1_step_ahead n0 (w w' : Bullets.t) :
  length (Wave.visible w) = 2 * Wave.N w -> n0 < Wave.N w ->
  (forall s, n0 + 1 + Wave.N w <= s < 2 * Wave.N w ->
     nth_error (Wave.visible w) s
     = Some (reload_flag (Bullets.rload (Wave.ext w)) (s - Wave.N w))) ->
  Wave.step Bullets.newpage n0 (Wave.N w) w = Ok w' ->
  Reload_ahead w'.
Proof.
  intros Hv Hn Hah H.
  destruct (step_inv _ _ _ _ _ H) as [(En & p & Hp & ->) | (En & ->)].
  - apply Bullets1_newpage_flags in Hp.
    destruct Hp as (vis & Evis & Hlen & Hflags).
    change (length vis = Wave.N w) in Hlen.
    change (forall j, j < Wave.N w ->
              nth_error vis j
              = Some (reload_flag (Bullets.rload (Wave.ext w)) j))
      in Hflags.
    intros s Hs.
    change (nth_error
              (set_from (Wave.N w) (Wave.page_visible p)
                 (set_slice 0 (Wave.N w)
                    (skipn (Wave.N w) (Wave.visible w)) (Wave.visible w)))
              s
            = Some (reload_flag (Bullets.rload (Wave.ext w))
                      (s - Wave.N w))).
    change (0 + Wave.N w <= s < 2 * Wave.N w) in Hs.
    rewrite Evis.
    replace s with (Wave.N w + (s - Wave.N w)) at 1 by lia.
    rewrite set_from_page_nth
      by (rewrite set_slice_length; rewrite ?length_skipn; lia).
    apply Hflags. lia.
  - intros s Hs. exact (Hah s Hs).
Qed.

Lemma Bullets1_update_ahead (w w' : Bullets.t) g g' :
  Wave1_wf w -> Reload_ahead w ->
  Bullets.update w g = Ok (w', g') ->
  Reload_ahead w'
  /\ Wave.n w' = (Wave.n w + 1) mod Wave.N w
  /\ nth_error (window_visible w') (Wave.N w - 1)
     = Some (reload_flag (Bullets.rload (Wave.ext w)) (Wave.n w)).
Proof.
  intros (Hx & Hs & Hv & Hn) Hah H.
  pose proof H as H0.
  unfold Bullets.update, Wave.update in H.
  bind_inv H as [w2 g2] Ef. bind_inv H as w3 Es. apply Ok_inj in H.
  injection H as <- <-.
  apply Bullets1_fire_inv in Ef.
  destruct Ef as (vn & vm & _ & Hvm & _ & Hw2 & _).
  assert (Hvis2 : Wave.visible w2 = Wave.visible w)
    by (subst w2; destruct vm; reflexivity).
  assert (HN2 : Wave.N w2 = Wave.N w)
    by (subst w2; destruct vm; reflexivity).
  assert (He2 : Wave.ext w2 = Wave.ext w)
    by (subst w2; destruct vm; reflexivity).
  clear Hw2. rewrite <- HN2 in Es.
  split; [|split].
  - eapply Bullets1_step_ahead; [| | |exact Es].
    + rewrite Hvis2, HN2. exact Hv.
    + rewrite HN2. exact Hn.
    + intros s Hs'. rewrite Hvis2, He2, HN2 in *. apply Hah. lia.
  - apply step_fields in Es. destruct Es as (_ & _ & ->). rewrite HN2.
    destruct (Wave.n w + 1 =? Wave.N w) eqn:E.
    + apply Nat.eqb_eq in E. rewrite E. symmetry. apply Nat.Div0.mod_same.
    + apply Nat.eqb_neq in E. symmetry. apply Nat.mod_small. lia.
  - erewrite step_window_visible; [| | | | |exact Es];
      rewrite ?Hvis2, ?HN2; try assumption; try reflexivity; try lia.
    replace (Wave.n w + 1 + (Wave.N w - 1)) with (Wave.n w + Wave.N w)
      by lia.
    rewrite (Hah (Wave.n w + Wave.N w) ltac:(lia)).
    do 2 f_equal. lia.
Qed.
End Reload1.

Section Reload1Game.
Import Shooter.

Lemma Bullets1_init_ahead fps v rload w :
  Bullets.init fps v rload = Ok w -> Reload_ahead w /\ Wave.n w = 0.
Proof.
  unfold Bullets.init, Wave.init. intros H.
  bind_inv H as q Eq. remember (py_int q) as Nz eqn:ENz.
  bind_inv H as xp Exp. bind_inv H as xs Exs. bind_inv H as vis Evis.
  bind_inv H as yp Eyp. bind_inv H as p Ep.
  apply Ok_inj in H. subst w.
  apply zeros_Ok in Evis. destruct Evis as (Hpos & ->).
  apply Bullets1_newpage_flags in Ep.
  destruct Ep as (pv & Epv & Hlen & Hflags).
  cbn [Wave.N Wave.ext] in Hlen, Hflags.
  split; [|reflexivity]. intros s Hs.
  change (0 + Z.to_nat Nz <= s < 2 * Z.to_nat Nz) in Hs.
  change (nth_error
            (set_from (Z.to_nat Nz) (Wave.page_visible p)
               (repeat false (Z.to_nat (2 * Nz)))) s
          = Some (reload_flag (py_int (rload * inject_Z fps))
                    (s - Z.to_nat Nz))).
  rewrite Epv.
  replace s with (Z.to_nat Nz + (s - Z.to_nat Nz)) at 1 by lia.
  rewrite set_from_page_nth by (rewrite repeat_length; lia).
  apply Hflags. lia.
Qed.

Lemma Hits1_update_ahead {X} (tg : Wave.t X) (bl : Bullets.t) h g
  tg' bl' h' g' :
  Wave1_wf bl -> Reload_ahead bl ->
  Hits.update tg bl h g = Ok (tg', bl', h', g') ->
  Reload_ahead bl' /\ Wave.n bl' = Wave.n bl /\ Wave.N bl' = Wave.N bl
  /\ Wave.ext bl' = Wave.ext bl /\ window_xpos bl' = window_xpos bl.
Proof.
  intros Wb Hah H. apply Hits1_update_effect in H.
  destruct H as (s & s1 & vis' & vis1' & wt & xs & xp & _ & _ & _
                 & _ & Evis1 & _ & _ & _ & _ & -> & _).
  split; [|repeat split].
  intros k Hk.
  change (Wave.n bl + Wave.N bl <= k < 2 * Wave.N bl) in Hk.
  change (nth_error
            (set_slice (Wave.n bl) (Wave.n bl + Wave.N bl) vis1'
               (Wave.visible bl)) k
          = Some (reload_flag (Bullets.rload (Wave.ext bl))
                    (k - Wave.N bl))).
  pose proof Wb as (_ & _ & Hv & Hn).
  rewrite set_slice_nth;
    [| lia | lia
     | rewrite (fill_length _ _ _ _ Evis1), window_visible_length by exact Wb;
       lia].
  replace (k <? Wave.n bl) with false by (symmetry; apply Nat.ltb_ge; lia).
  replace (k <? Wave.n bl + Wave.N bl) with false
    by (symmetry; apply Nat.ltb_ge; lia).
  apply Hah. exact Hk.
Qed.

(** One frame: the flag of the slot that enters the window of the
    bullets, and where the bullet is when the flag is set. *)
Lemma Game1_update_reload env g g' :
  Game1_sound g -> Reload_sync g ->
  Game.update Game.Factory1 env g = Ok g' ->
  Reload_sync g'
  /\ (tr_quit (Game.shared g) = false ->
      exists tg1 sh1 bl2 sh3,
        Targets.update (random env) (Game.targets g)
          (set_avatar
             (Avatar.update (tr_move (Game.shared g))
                (avatar (Game.shared g))) (Game.shared g))
        = Ok (tg1, sh1)
        /\ Bullets.update (Game.bullets g) sh1 = Ok (bl2, sh1)
        /\ Hits.update tg1 bl2 (Game.hits g) sh1
           = Ok (Game.targets g', Game.bullets g', Game.hits g', sh3)
        /\ avatar sh1 = avatar (Game.shared g')
        /\ nth_error (window_visible bl2)
             (Wave.N (Game.bullets g) - 1)
           = Some (reload_flag
                     (Bullets.rload (Wave.ext (Game.bullets g)))
                     (Game.nstep g mod Wave.N (Game.bullets g)))
        /\ (reload_flag (Bullets.rload (Wave.ext (Game.bullets g)))
              (Game.nstep g mod Wave.N (Game.bullets g)) = true ->
            nth_error (window_xpos (Game.bullets g'))
              (Wave.N (Game.bullets g) - 1)
            = Some (Avatar.pos_x (avatar (Game.shared g'))))).
Proof.
  intros (Hfps & Wt & Wb & Hr & Hf) (Hah & Hsync) Hu.
  destruct (tr_quit (Game.shared g)) eqn:Hq.
  - split; [|discriminate].
    unfold Game.update in Hu. rewrite Hq in Hu. apply Ok_inj in Hu.
    subst g'. split; [exact Hah | exact Hsync].
  - pose proof (Game1_update_avatar env g g' Hu) as (Hav & _).
    rewrite Hq in Hav.
    destruct (Game_update_running Game.Factory1 env g g' Hq Hu)
      as (g1 & time & d & Hc & Hg').
    unfold Game.components_update in Hc.
    cbn [Game.targets_update Game.bullets_update Game.hits_update
           Game.Factory1] in Hc.
    bind_inv Hc as [tg1 sh1] Et. bind_inv Hc as [bl2 sh2] Eb.
    bind_inv Hc as [[[tg3 bl3] h3] sh3] Eh. apply Ok_inj in Hc. subst g1.
    cbn [Game.shared Game.nstep Game.gameover Game.perf Game.targets
           Game.bullets Game.hits] in Hg'.
    assert (Hb' : Game.bullets g' = bl3) by (subst g'; reflexivity).
    assert (Ht' : Game.targets g' = tg3) by (subst g'; reflexivity).
    assert (Hh' : Game.hits g' = h3) by (subst g'; reflexivity).
    assert (Hn' : Game.nstep g' = Game.nstep g + 1)
      by (subst g'; reflexivity).
    clear Hg'.
    pose proof (Bullets1_update_shared _ _ _ _ Eb) as ->.
    pose proof (Targets1_update_shared _ _ _ _ _ Et) as Hsh1.
    assert (Hav1 : avatar sh1
                   = Avatar.update (tr_move (Game.shared g))
                       (avatar (Game.shared g))).
    { rewrite Hsh1. destruct (_ <? _); reflexivity. }
    pose proof (Bullets1_update_wf _ _ _ _ Wb Eb) as Wb2.
    pose proof (Bullets1_update_fields _ _ _ _ Eb) as (HN2 & He2).
    destruct (Bullets1_update_ahead _ _ _ _ Wb Hah Eb)
      as (Hah2 & Hn2 & Hflag).
    destruct (Hits1_update_ahead _ _ _ _ _ _ _ _ Wb2 Hah2 Eh)
      as (Hah3 & Hn3 & HN3 & He3 & Hx3).
    split.
    + unfold Reload_sync. rewrite Hb', Hn'. split; [exact Hah3|].
      rewrite Hn3, HN3, Hn2, HN2, Hsync.
      rewrite Nat.Div0.add_mod_idemp_l. reflexivity.
    + intros _. exists tg1, sh1, bl2, sh3.
      rewrite Ht', Hb', Hh', Hav, <- Hsync.
      split; [exact Et|]. split; [exact Eb|]. split; [exact Eh|].
      split; [exact Hav1|]. split; [exact Hflag|].
      intros Hfire. rewrite Hx3, <- Hav1.
      apply (Bullets1_enter_at_avatar _ _ _ _ Wb Eb).
      rewrite (Hah (Wave.n (Game.bullets g) + Wave.N (Game.bullets g)))
        by (destruct Wb as (_ & _ & _ & Hn); lia).
      rewrite <- Hfire. do 2 f_equal. lia.
Qed.

Lemma Game1_init_reload rnd c g0 :
  Game.init rnd c = Ok g0 -> Reload_sync g0.
Proof.
  unfold Game.init. intros H.
  bind_inv H as av Eav. bind_inv H as tg Etg. bind_inv H as bl Ebl.
  bind_inv H as h Eh. apply Ok_inj in H. subst g0.
  apply Bullets1_init_ahead in Ebl. destruct Ebl as (Hah & Hn).
  split; [exact Hah|]. cbn [Game.bullets Game.nstep]. rewrite Hn.
  symmetry. apply Nat.Div0.mod_0_l.
Qed.

Lemma Session1_reload missed struck g0 g ms ss :
  Game1_sound g0 -> Reload_sync g0 ->
  Session Game.Factory1 missed struck g0 g ms ss ->
  Reload_sync g.
Proof.
  intros H0 R0 Hs.
  induction Hs as [|g ms ss keys Hs IH|g ms ss env g' Hs IH Hu].
  - exact R0.
  - exact IH.
  - pose proof (Session1_sound _ _ _ _ _ _ H0 Hs) as Hg.
    exact (proj1 (Game1_update_reload env g g' Hg IH Hu)).
Qed.
End Reload1Game.

(** X9.  shooter.py, the reload of the bullets in a session.  In the frame
    that follows [t] frame transitions, the slot that enters the window of
    the bullets holds a bullet exactly when [rload] is positive and divides
    [t mod N], [N] being the length of a page of bullets: the count restarts
    with each page, and no bullet is ever fired when [rload] is negative.
    The bullet is fired from where the avatar is once moved in that same
    frame, and [Hits.update] leaves it there. *)
Theorem X9_bullets_reload rnd c g0 g ms ss env g' :
  Shooter.Game.init rnd c = Ok g0 ->
  Session Shooter.Game.Factory1 missed1 struck1 g0 g ms ss ->
  Shooter.tr_quit (Shooter.Game.shared g) = false ->
  Shooter.Game.update Shooter.Game.Factory1 env g = Ok g' ->
  let bl := Shooter.Game.bullets g in
  let fired :=
    reload_flag (Shooter.Bullets.rload (Shooter.Wave.ext bl))
      (Shooter.Game.nstep g mod Shooter.Wave.N bl) in
  exists tg1 sh1 bl2 sh3,
    Shooter.Targets.update (random env) (Shooter.Game.targets g)
      (Shooter.set_avatar
         (Shooter.Avatar.update (Shooter.tr_move (Shooter.Game.shared g))
            (Shooter.avatar (Shooter.Game.shared g)))
         (Shooter.Game.shared g))
    = Ok (tg1, sh1)
    /\ Shooter.Bullets.update bl sh1 = Ok (bl2, sh1)
    /\ Shooter.Hits.update tg1 bl2 (Shooter.Game.hits g) sh1
       = Ok (Shooter.Game.targets g', Shooter.Game.bullets g',
             Shooter.Game.hits g', sh3)
    /\ Shooter.avatar sh1 = Shooter.avatar (Shooter.Game.shared g')
    /\ nth_error (window_visible bl2) (Shooter.Wave.N bl - 1) = Some fired
    /\ (fired = true ->
        nth_error (window_xpos (Shooter.Game.bullets g'))
          (Shooter.Wave.N bl - 1)
        = Some (Shooter.Avatar.pos_x
                  (Shooter.avatar (Shooter.Game.shared g')))).
Proof.
  intros H0 Hs Hq Hu. cbv zeta.
  pose proof (Game1_init_sound _ _ _ H0) as S0.
  pose proof (Game1_init_reload _ _ _ H0) as R0.
  pose proof (Session1_sound _ _ _ _ _ _ S0 Hs) as Sg.
  pose proof (Session1_reload _ _ _ _ _ _ S0 R0 Hs) as Rg.
  exact (proj2 (Game1_update_reload env g g' Sg Rg Hu) Hq).
Qed.

Lemma X9_bullets_reload_witness :
  nth_error (window_xpos (Shooter.Game.bullets (demo_game 1))) 1
  = Some (Shooter.Avatar.pos_x
            (Shooter.avatar (Shooter.Game.shared (demo_game 1)))).
Proof.
  destruct (X9_bullets_reload demo_random demo_config (demo_game 0)
              (demo_game 0) [] [] demo_env (demo_game 1)
              ltac:(vm_compute; reflexivity)
              (session_start _ _ _ _)
              ltac:(reflexivity)
              ltac:(vm_compute; reflexivity))
    as (tg1 & sh1 & bl2 & sh3 & _ & _ & _ & _ & _ & Hfire).
  exact (Hfire ltac:(vm_compute; reflexivity)).
Defined.

(* ================================================================== *)
(** * shooter2.py: when the bullets are admitted *)
(* ================================================================== *)

Section Reload2.
Import Shooter2.

Lemma Bullets2_expire_same tbeg (w : Bullets.t) g w1 g1 n1 :
  Wave.expire (@Wave.pass _) tbeg w g = Ok (w1, g1, n1) ->
  exists ia, w1 = Wave.set_ialive ia w.
Proof.
  unfold Wave.expire. intros H. destruct (0 <? Wave.nalive w).
  - bind_inv H as s Es. bind_inv H as a0 Ea0. bind_inv H as b0 Eb0.
    bind_inv H as [[w' g'] s1] Eh. bind_inv H as kept Ek.
    apply Ok_inj in H. injection H as <- <- <-.
    assert (Hw : w' = w).
    { destruct (b0 =? tbeg)%Z.
      - bind_inv Eh as s0 Es0. destruct s0.
        + unfold Wave.pass in Eh. cbn [bind] in Eh. apply Ok_inj in Eh.
          injection Eh as <- <- <-. reflexivity.
        + apply Ok_inj in Eh. injection Eh as <- <- <-. reflexivity.
      - apply Ok_inj in Eh. injection Eh as <- <- <-. reflexivity. }
    subst w'. eexists. reflexivity.
  - apply Ok_inj in H. injection H as <- <- <-.
    exists (Wave.ialive w). destruct w; reflexivity.
Qed.

Lemma Bullets2_recycle_born n tend (w w' : Bullets.t) :
  Wave.recycle Bullets.newcontent n tend w = Ok w' ->
  n <= Wave.M w -> length (Wave.born w) = Wave.M w ->
  n <= length (Wave.ialive w) ->
  Wave.nborn w' = n /\ Wave.M w' = Wave.M w /\ Wave.N w' = Wave.N w
  /\ Wave.ext w' = Wave.ext w /\ Wave.cslice w' = Wave.cslice w
  /\ forall k, n + k < Wave.M w ->
       nth_error (Wave.born w') (n + k)
       = Some (tend + Bullets.rload (Wave.ext w) * Z.succ (Z.of_nat k))%Z.
Proof.
  unfold Wave.recycle. intros H Hn Hb Hi.
  bind_inv H as bo Ebo. bind_inv H as xp Exp. bind_inv H as xs Exs.
  bind_inv H as w6 E6. apply Ok_inj in H. subst w'.
  pose proof (gather_length _ _ _ Ebo) as Lbo.
  rewrite length_firstn, Nat.min_l in Lbo by lia.
  rewrite Bullets2_newcontent_Ok in E6 by (wave2_fields; exact Hn).
  apply Ok_inj in E6. subst w6. wave2_fields.
  repeat split. intros k Hk.
  rewrite set_from_nth_ge
    by (rewrite ?set_slice_head_length; lia).
  replace (n + k - n) with k by lia.
  rewrite nth_error_map, nth_error_seq.
  replace (k <? Wave.M w - n) with true
    by (symmetry; apply Nat.ltb_lt; lia).
  reflexivity.
Qed.

(** The second block of [update] for the bullets: an admission moves
    the next birth frame one reload after the end of the window, also
    when the arrays are recycled. *)
Lemma Bullets2_arrive_reload tend n1 (w1 : Bullets.t) g1 w2 g2 n2 :
  Wave.arrive Bullets.entering Bullets.newcontent tend n1 w1 g1
  = Ok (w2, g2, n2) ->
  Wave.nborn w1 < Wave.M w1 -> length (Wave.born w1) = Wave.M w1 ->
  length (Wave.ialive w1) = Wave.N w1 -> Wave.M w1 = 2 * Wave.N w1 ->
  Reload2_ahead w1 ->
  Wave.ext w2 = Wave.ext w1 /\ Wave.N w2 = Wave.N w1
  /\ Wave.cslice w2 = Wave.cslice w1
  /\ Wave.tborn w2
     = (if (Wave.tborn w1 =? tend)%Z
        then tend + Bullets.rload (Wave.ext w1) else Wave.tborn w1)%Z
  /\ Reload2_ahead w2.
Proof.
  unfold Wave.arrive. intros H Hnb Hb Hia HM Hah.
  destruct (Wave.tborn w1 =? tend)%Z eqn:Et.
  - apply Z.eqb_eq in Et.
    bind_inv H as ia Eia. apply store_Ok in Eia. destruct Eia as (Hlt & ->).
    bind_inv H as [w' g'] Ee. unfold Bullets.entering in Ee.
    bind_inv Ee as xp Exp. apply Ok_inj in Ee. injection Ee as <- <-.
    wave2_fields_in H.
    destruct (Wave.nborn w1 + 1 =? Wave.M w1) eqn:EM.
    + apply Nat.eqb_eq in EM.
      bind_inv H as w4 E4. bind_inv H as tb Etb. apply index_Ok in Etb.
      apply Ok_inj in H. injection H as <- <- <-.
      apply Bullets2_recycle_born in E4;
        [| wave2_fields; rewrite ?set_nth_length; lia ..].
      wave2_fields_in E4.
      destruct E4 as (Enb & EM4 & EN4 & Ee4 & Ec4 & Hborn).
      assert (Htb : tb = (tend + Bullets.rload (Wave.ext w1))%Z).
      { rewrite Enb in Etb.
        pose proof (Hborn 0 ltac:(lia)) as H0.
        rewrite Nat.add_0_r in H0. rewrite H0 in Etb.
        injection Etb as <-. simpl Z.of_nat. lia. }
      wave2_fields. repeat split; try assumption.
      unfold Reload2_ahead. wave2_fields. rewrite Enb, EM4, Ee4.
      intros k Hk. rewrite (Hborn k Hk), Htb. f_equal. lia.
    + apply Nat.eqb_neq in EM.
      bind_inv H as w4 E4. apply Ok_inj in E4. subst w4.
      bind_inv H as tb Etb. apply index_Ok in Etb.
      apply Ok_inj in H. injection H as <- <- <-.
      wave2_fields_in Etb.
      assert (Htb : tb = (tend + Bullets.rload (Wave.ext w1))%Z).
      { rewrite (Hah 1 ltac:(lia)) in Etb. injection Etb as <-.
        rewrite Et. simpl Z.of_nat. lia. }
      wave2_fields. repeat split; try assumption.
      unfold Reload2_ahead. wave2_fields.
      intros k Hk.
      replace (Wave.nborn w1 + 1 + k) with (Wave.nborn w1 + (1 + k)) by lia.
      rewrite (Hah (1 + k) ltac:(lia)), Htb, Et. f_equal. lia.
  - apply Ok_inj in H. injection H as <- <- <-. auto.
Qed.

Lemma Bullets2_update_reload (w w' : Bullets.t) g g' :
  Wave2_inv w -> Reload2_ahead w ->
  Bullets.update w g = Ok (w', g') ->
  Wave.ext w' = Wave.ext w /\ Wave.N w' = Wave.N w
  /\ Wave.cslice w'
     = ((fst (Wave.cslice w) + 1)%Z, (snd (Wave.cslice w) + 1)%Z)
  /\ Wave.tborn w'
     = (if (Wave.tborn w =? snd (Wave.cslice w))%Z
        then snd (Wave.cslice w) + Bullets.rload (Wave.ext w)
        else Wave.tborn w)%Z
  /\ Reload2_ahead w'.
Proof.
  intros Hinv Hah H. unfold Bullets.update, Wave.update in H.
  destruct (Wave.cslice w) as [tbeg tend] eqn:Ecs.
  bind_inv H as [[w1 g1] n1] E1. bind_inv H as [[w2 g2] n2] E2.
  bind_inv H as w3 E3. apply Ok_inj in H. injection H as <- <-.
  replace tbeg with (fst (Wave.cslice w)) in E1 by (rewrite Ecs; reflexivity).
  pose proof (expire_core (@Wave.pass _) (@pass_frame _) _ _ _ _ _ Hinv E1)
    as (Hc1 & Hn1 & eN1 & ecs1 & eal1 & ebo1 & etb1 & enb1 & ecur1).
  apply Bullets2_expire_same in E1. destruct E1 as (ia & Hw1).
  assert (eext1 : Wave.ext w1 = Wave.ext w) by (subst w1; reflexivity).
  assert (eM1 : Wave.M w1 = Wave.M w) by (subst w1; reflexivity).
  clear Hw1.
  assert (Hah1 : Reload2_ahead w1).
  { unfold Reload2_ahead. rewrite enb1, eM1, ebo1, etb1, eext1. exact Hah. }
  destruct Hc1 as [cM cN cborn cxpos cxspeed calive cialive cnborn ctborn
                     cnext cfuture ccount cadm cwin csort].
  pose proof (Bullets2_arrive_reload _ _ _ _ _ _ _ E2 cnborn cborn cialive
                cM Hah1) as (eext2 & eN2 & ecs2 & etb2 & Hah2).
  apply advance_spec in E3. destruct E3 as (xp & _ & ->).
  wave2_fields. cbn [fst snd].
  split; [congruence|]. split; [congruence|]. split; [reflexivity|].
  split; [rewrite etb2, etb1, eext1; reflexivity|].
  exact Hah2.
Qed.

Lemma Bullets2_idle_update (w w' : Bullets.t) g g' :
  Wave2_idle w -> Bullets.update w g = Ok (w', g') ->
  Wave.ext w' = Wave.ext w /\ Wave.N w' = Wave.N w
  /\ Wave.cslice w'
     = ((fst (Wave.cslice w) + 1)%Z, (snd (Wave.cslice w) + 1)%Z)
  /\ Wave.tborn w' = Wave.tborn w
  /\ births w' = [].
Proof.
  intros (Hn & Ht) H.
  unfold Bullets.update, Wave.update, Wave.expire, Wave.arrive in H.
  destruct (Wave.cslice w) as [tbeg tend] eqn:Ecs. simpl in Ht.
  rewrite Hn in H. cbn [Nat.ltb Nat.leb bind] in H.
  replace (Wave.tborn w =? tend)%Z with false in H
    by (symmetry; apply Z.eqb_neq; lia).
  cbn [bind] in H. unfold Wave.advance in H. wave2_fields_in H.
  cbn [Nat.ltb Nat.leb bind] in H.
  apply Ok_inj in H. injection H as <- <-.
  wave2_fields. cbn [fst snd]. repeat split.
Qed.

Lemma reload2_flag_spec (r tborn : Z) (N0 t : nat) :
  (if (1 <=? r)%Z
   then (Z.of_nat t + Z.of_nat N0 <= tborn < Z.of_nat t + Z.of_nat N0 + r)%Z
        /\ ((tborn - Z.of_nat N0 + 1) mod r = 0)%Z
   else (tborn < Z.of_nat t + Z.of_nat N0)%Z) ->
  (tborn =? Z.of_nat t + Z.of_nat N0)%Z = reload2_flag r t.
Proof.
  unfold reload2_flag. destruct (1 <=? r)%Z eqn:Er.
  - apply Z.leb_le in Er. intros (Hrange & Hmod). cbn [andb].
    destruct ((Z.of_nat t + 1) mod r =? 0)%Z eqn:Em.
    + apply Z.eqb_eq in Em. apply Z.eqb_eq.
      set (d := (tborn - (Z.of_nat t + Z.of_nat N0))%Z).
      assert (Hd : (d mod r = 0)%Z).
      { replace d with ((tborn - Z.of_nat N0 + 1) - (Z.of_nat t + 1))%Z
          by (unfold d; lia).
        rewrite Zminus_mod, Hmod, Em. reflexivity. }
      rewrite Z.mod_small in Hd by (unfold d; lia). unfold d in Hd. lia.
    + apply Z.eqb_neq in Em. apply Z.eqb_neq. intros ->.
      apply Em. rewrite <- Hmod. f_equal. lia.
  - intros Hlt. cbn [andb]. apply Z.eqb_neq. lia.
Qed.

Lemma Bullets2_init_reload fps v rload (w : Bullets.t) :
  Bullets.init fps v rload = Ok w ->
  Wave.cslice w = (0%Z, Z.of_nat (Wave.N w))
  /\ Reload2_phase w /\ Reload2_ahead w.
Proof.
  unfold Bullets.init, Wave.init. intros H.
  bind_inv H as q Eq. remember (py_int q) as Nz eqn:ENz.
  bind_inv H as bo Ebo. bind_inv H as xp Exp.
  bind_inv H as xs Exs. bind_inv H as al Eal. bind_inv H as ia Eia.
  bind_inv H as w1 E1. bind_inv H as tb Etb. bind_inv H as yp Eyp.
  apply Ok_inj in H. subst w. apply zeros_Ok in Eia. destruct Eia as (HN & _).
  apply zeros_Ok in Ebo. destruct Ebo as (_ & ->).
  apply index_Ok in Etb.
  rewrite Bullets2_newcontent_Ok in E1 by (wave2_fields; lia).
  apply Ok_inj in E1. subst w1. wave2_fields_in Etb.
  remember (py_int (rload * inject_Z fps)) as r eqn:Er.
  assert (Hborn : forall k, k < Z.to_nat (2 * Nz) ->
             nth_error
               (set_from 0
                  (Array
                     (map (fun j => (Nz - 1 + r * Z.succ (Z.of_nat j))%Z)
                        (seq 0 (Z.to_nat (2 * Nz) - 0))))
                  (repeat 0%Z (Z.to_nat (2 * Nz)))) k
             = Some (Nz - 1 + r * Z.succ (Z.of_nat k))%Z).
  { intros k Hk. rewrite set_from_nth_ge by lia.
    rewrite nth_error_map, nth_error_seq, !Nat.sub_0_r.
    replace (k <? Z.to_nat (2 * Nz)) with true
      by (symmetry; apply Nat.ltb_lt; lia).
    reflexivity. }
  assert (HM : 0 < Z.to_nat (2 * Nz)).
  { destruct (Z.to_nat (2 * Nz)) eqn:E0; [|lia].
    exfalso. unfold set_from in Etb. simpl in Etb. discriminate. }
  cbn [Bullets.rload] in Etb.
  rewrite (Hborn 0 HM) in Etb. injection Etb as <-.
  unfold Reload2_phase, Reload2_ahead. wave2_fields. cbn [snd Bullets.rload].
  rewrite Z2Nat.id by lia.
  split; [reflexivity|]. split.
  - destruct (1 <=? r)%Z eqn:Hr.
    + apply Z.leb_le in Hr. split; [simpl Z.of_nat; lia|].
      match goal with
      | |- (?a mod r = 0)%Z =>
          replace a with r by (simpl Z.of_nat; lia)
      end.
      apply Z.mod_same. lia.
    + apply Z.leb_gt in Hr. simpl Z.of_nat. lia.
  - intros k Hk. rewrite Nat.add_0_l in *. rewrite (Hborn k Hk).
    f_equal. simpl Z.of_nat. lia.
Qed.
End Reload2.

Section Reload2Game.
Import Shooter2.

Lemma Reload2_struck (w : Bullets.t) al :
  (Reload2_phase w -> Reload2_phase (Wave.set_alive al w))
  /\ (Reload2_ahead w -> Reload2_ahead (Wave.set_alive al w)).
Proof. split; intros H; exact H. Qed.

(** One update of the bullets under the invariant of the game. *)
Lemma Bullets2_update_phase (w w' : Bullets.t) g g' (t : nat) :
  (Wave2_inv w /\ Bullets2_good (Wave.ext w)) \/ Wave2_idle w ->
  Wave.cslice w = (Z.of_nat t, (Z.of_nat t + Z.of_nat (Wave.N w))%Z) ->
  Reload2_phase w ->
  ((1 <= Bullets.rload (Wave.ext w))%Z -> Reload2_ahead w) ->
  Bullets.update w g = Ok (w', g') ->
  Wave.ext w' = Wave.ext w /\ Wave.N w' = Wave.N w
  /\ Wave.cslice w'
     = (Z.of_nat (t + 1), (Z.of_nat (t + 1) + Z.of_nat (Wave.N w'))%Z)
  /\ Reload2_phase w'
  /\ ((1 <= Bullets.rload (Wave.ext w'))%Z -> Reload2_ahead w')
  /\ births w'
     = select_mask (births w) (expire_mask w)
       ++ (if reload2_flag (Bullets.rload (Wave.ext w)) t
           then [(Z.of_nat t + Z.of_nat (Wave.N w))%Z] else []).
Proof.
  intros Hs Hcs Hph Hah H.
  pose proof (reload2_flag_spec (Bullets.rload (Wave.ext w)) (Wave.tborn w)
                (Wave.N w) t) as Hflag.
  unfold Reload2_phase in Hph. rewrite Hcs in Hph. cbn [snd] in Hph.
  cbv zeta in Hph. specialize (Hflag Hph).
  destruct Hs as [(Hinv & Hg) | Hidle].
  - unfold Bullets2_good in Hg.
    pose proof (Bullets2_update_reload _ _ _ _ Hinv (Hah Hg) H)
      as (He & HN & Hcs' & Htb & Hah').
    pose proof (Bullets2_update_inv _ _ _ _ Hinv Hg H)
      as (_ & _ & _ & Hb).
    rewrite Hcs in Hcs', Htb, Hb. cbn [fst snd] in Hcs', Htb, Hb.
    rewrite Hflag in Htb, Hb.
    split; [exact He|]. split; [exact HN|].
    split; [rewrite Hcs', HN; f_equal; lia|].
    split; [|split; [intros _; exact Hah' | exact Hb]].
    unfold Reload2_phase. rewrite Hcs', He, HN, Htb. cbn [snd]. cbv zeta.
    replace (1 <=? Bullets.rload (Wave.ext w))%Z with true in *
      by (symmetry; apply Z.leb_le; exact Hg).
    destruct Hph as (Hr & Hm).
    destruct (reload2_flag (Bullets.rload (Wave.ext w)) t) eqn:Ef.
    + apply Z.eqb_eq in Hflag. split; [lia|].
      replace (Z.of_nat t + Z.of_nat (Wave.N w)
               + Bullets.rload (Wave.ext w) - Z.of_nat (Wave.N w) + 1)%Z
        with (Wave.tborn w - Z.of_nat (Wave.N w) + 1
              + 1 * Bullets.rload (Wave.ext w))%Z by lia.
      rewrite Z.mod_add by lia. exact Hm.
    + apply Z.eqb_neq in Hflag. split; [lia | exact Hm].
  - pose proof (Bullets2_idle_update _ _ _ _ Hidle H)
      as (He & HN & Hcs' & Htb & Hb).
    destruct Hidle as (Hna & Hlt). rewrite Hcs in Hlt, Hcs'.
    cbn [fst snd] in Hlt, Hcs'.
    destruct (1 <=? Bullets.rload (Wave.ext w))%Z eqn:Er; [lia|].
    apply Z.leb_gt in Er.
    split; [exact He|]. split; [exact HN|].
    split; [rewrite Hcs', HN; f_equal; lia|].
    split; [|split; [rewrite He; lia|]].
    + unfold Reload2_phase. rewrite Hcs', He, Htb. cbn [snd]. cbv zeta.
      replace (1 <=? Bullets.rload (Wave.ext w))%Z with false
        by (symmetry; apply Z.leb_gt; exact Er).
      lia.
    + rewrite Hb. unfold reload2_flag.
      replace (1 <=? Bullets.rload (Wave.ext w))%Z with false
        by (symmetry; apply Z.leb_gt; exact Er).
      cbn [andb]. unfold births, births_upto. rewrite Hna. reflexivity.
Qed.

Lemma Game2_update_reload env g g' :
  Game2_sound g -> Reload2_sync g ->
  Shooter.Game.update Game.Factory2 env g = Ok g' ->
  Reload2_sync g'
  /\ (Shooter.tr_quit (Shooter.Game.shared g) = false ->
      exists tg1 sh1 bl2 sh3,
        Targets.update (random env) (Shooter.Game.targets g)
          (Shooter.set_avatar
             (Shooter.Avatar.update
                (Shooter.tr_move (Shooter.Game.shared g))
                (Shooter.avatar (Shooter.Game.shared g)))
             (Shooter.Game.shared g))
        = Ok (tg1, sh1)
        /\ Bullets.update (Shooter.Game.bullets g) sh1 = Ok (bl2, sh1)
        /\ Hits.update tg1 bl2 (Shooter.Game.hits g) sh1
           = Ok (Shooter.Game.targets g', Shooter.Game.bullets g',
                 Shooter.Game.hits g', sh3)
        /\ Wave.cslice (Shooter.Game.bullets g)
           = (Z.of_nat (Shooter.Game.nstep g),
              (Z.of_nat (Shooter.Game.nstep g)
               + Z.of_nat (Wave.N (Shooter.Game.bullets g)))%Z)
        /\ births bl2
           = select_mask (births (Shooter.Game.bullets g))
               (expire_mask (Shooter.Game.bullets g))
             ++ (if reload2_flag
                      (Bullets.rload (Wave.ext (Shooter.Game.bullets g)))
                      (Shooter.Game.nstep g)
                 then [(Z.of_nat (Shooter.Game.nstep g)
                        + Z.of_nat (Wave.N (Shooter.Game.bullets g)))%Z]
                 else [])).
Proof.
  intros (Hfps & Hit & Hgt & Hb & Hf) (Hcs & Hph & Hah) Hu.
  destruct (Shooter.tr_quit (Shooter.Game.shared g)) eqn:Hq.
  - split; [|discriminate].
    unfold Shooter.Game.update in Hu. rewrite Hq in Hu. apply Ok_inj in Hu.
    subst g'. split; [exact Hcs | split; [exact Hph | exact Hah]].
  - destruct (Game_update_running Game.Factory2 env g g' Hq Hu)
      as (g1 & time & d & Hc & Hg').
    unfold Shooter.Game.components_update in Hc.
    cbn [Shooter.Game.targets_update Shooter.Game.bullets_update
           Shooter.Game.hits_update Game.Factory2] in Hc.
    bind_inv Hc as [tg1 sh1] Et. bind_inv Hc as [bl2 sh2] Eb.
    bind_inv Hc as [[[tg3 bl3] h3] sh3] Eh. apply Ok_inj in Hc. subst g1.
    cbn [Shooter.Game.shared Shooter.Game.nstep Shooter.Game.gameover
           Shooter.Game.perf Shooter.Game.targets Shooter.Game.bullets
           Shooter.Game.hits] in Hg'.
    assert (Hb' : Shooter.Game.bullets g' = bl3) by (subst g'; reflexivity).
    assert (Ht' : Shooter.Game.targets g' = tg3) by (subst g'; reflexivity).
    assert (Hh' : Shooter.Game.hits g' = h3) by (subst g'; reflexivity).
    assert (Hn' : Shooter.Game.nstep g' = Shooter.Game.nstep g + 1)
      by (subst g'; reflexivity).
    clear Hg'.
    pose proof (Bullets2_update_shared _ _ _ _ Eb) as ->.
    pose proof (Bullets2_update_phase _ _ _ _ _ Hb Hcs Hph Hah Eb)
      as (He2 & HN2 & Hcs2 & Hph2 & Hah2 & Hbirths).
    pose proof (Hits2_update_inv _ _ _ _ _ _ _ _ Eh)
      as (it & ib & al & al1 & _ & _ & _ & Hbl3 & _).
    split.
    + unfold Reload2_sync. rewrite Hb', Hn', Hbl3. cbv zeta.
      split; [exact Hcs2|]. split; [exact Hph2 | exact Hah2].
    + intros _. exists tg1, sh1, bl2, sh3. rewrite Ht', Hb', Hh'.
      split; [exact Et|]. split; [exact Eb|]. split; [exact Eh|].
      split; [exact Hcs | exact Hbirths].
Qed.

Lemma Game2_init_reload rnd c g0 :
  Game.init rnd c = Ok g0 -> Reload2_sync g0.
Proof.
  unfold Game.init. intros H.
  bind_inv H as av Eav. bind_inv H as tg Etg. bind_inv H as bl Ebl.
  bind_inv H as h Eh. apply Ok_inj in H. subst g0.
  apply Bullets2_init_reload in Ebl. destruct Ebl as (Hcs & Hph & Hah).
  unfold Reload2_sync.
  cbn [Shooter.Game.bullets Shooter.Game.nstep]. cbv zeta.
  split; [rewrite Hcs; reflexivity|]. split; [exact Hph|].
  intros _. exact Hah.
Qed.

Lemma Session2_reload missed struck g0 g ms ss :
  Game2_sound g0 -> Reload2_sync g0 ->
  Session Game.Factory2 missed struck g0 g ms ss ->
  Reload2_sync g.
Proof.
  intros H0 R0 Hs.
  induction Hs as [|g ms ss keys Hs IH|g ms ss env g' Hs IH Hu].
  - exact R0.
  - exact IH.
  - pose proof (Session2_sound _ _ _ _ _ _ H0 Hs) as Hg.
    exact (proj1 (Game2_update_reload env g g' Hg IH Hu)).
Qed.
End Reload2Game.

(** X10.  shooter2.py, the reload of the bullets in a session.  After [t]
    frame transitions the window of the bullets is [(t, t + N)], and the
    update of that frame admits a bullet exactly when [rload] is at least
    one and divides [t + 1]: the alive bullets are then those kept by the
    compaction followed by one bullet born at frame [t + N], and otherwise
    those kept only.  The bullets so come every [rload] frames, the first
    one in update number [rload], also across the recycling of the arrays;
    with [rload] below one no bullet ever comes. *)
Theorem X10_bullets2_reload rnd c g0 g ms ss env g' :
  Shooter2.Game.init rnd c = Ok g0 ->
  Session Shooter2.Game.Factory2 missed2 struck2 g0 g ms ss ->
  Shooter.tr_quit (Shooter.Game.shared g) = false ->
  Shooter.Game.update Shooter2.Game.Factory2 env g = Ok g' ->
  let bl := Shooter.Game.bullets g in
  let t := Shooter.Game.nstep g in
  exists tg1 sh1 bl2 sh3,
    Shooter2.Targets.update (random env) (Shooter.Game.targets g)
      (Shooter.set_avatar
         (Shooter.Avatar.update (Shooter.tr_move (Shooter.Game.shared g))
            (Shooter.avatar (Shooter.Game.shared g)))
         (Shooter.Game.shared g))
    = Ok (tg1, sh1)
    /\ Shooter2.Bullets.update bl sh1 = Ok (bl2, sh1)
    /\ Shooter2.Hits.update tg1 bl2 (Shooter.Game.hits g) sh1
       = Ok (Shooter.Game.targets g', Shooter.Game.bullets g',
             Shooter.Game.hits g', sh3)
    /\ Shooter2.Wave.cslice bl
       = (Z.of_nat t, (Z.of_nat t + Z.of_nat (Shooter2.Wave.N bl))%Z)
    /\ births bl2
       = select_mask (births bl) (expire_mask bl)
         ++ (if reload2_flag
                  (Shooter2.Bullets.rload (Shooter2.Wave.ext bl)) t
             then [(Z.of_nat t + Z.of_nat (Shooter2.Wave.N bl))%Z]
             else []).
Proof.
  intros H0 Hs Hq Hu. cbv zeta.
  pose proof (Game2_init_sound _ _ _ H0) as S0.
  pose proof (Game2_init_reload _ _ _ H0) as R0.
  pose proof (Session2_sound _ _ _ _ _ _ S0 Hs) as Sg.
  pose proof (Session2_reload _ _ _ _ _ _ S0 R0 Hs) as Rg.
  exact (proj2 (Game2_update_reload env g g' Sg Rg Hu) Hq).
Qed.

Lemma X10_bullets2_reload_witness :
  exists bl2 : Shooter2.Bullets.t,
    births bl2
    = select_mask (births (Shooter.Game.bullets demo2_game))
        (expire_mask (Shooter.Game.bullets demo2_game))
      ++ (if reload2_flag
               (Shooter2.Bullets.rload
                  (Shooter2.Wave.ext (Shooter.Game.bullets demo2_game))) 0
          then [(Z.of_nat 0
                 + Z.of_nat
                     (Shooter2.Wave.N (Shooter.Game.bullets demo2_game)))%Z]
          else []).
Proof.
  destruct (X10_bullets2_reload demo_random demo_config demo2_game
              demo2_game [] [] demo_env
              (ok_or demo2_game
                 (Shooter.Game.update Shooter2.Game.Factory2 demo_env
                    demo2_game))
              ltac:(vm_compute; reflexivity)
              (session_start _ _ _ _)
              ltac:(reflexivity)
              ltac:(vm_compute; reflexivity))
    as (tg1 & sh1 & bl2 & sh3 & _ & _ & _ & _ & Hb).
  exists bl2. exact Hb.
Defined.

(* ================================================================== *)
(** * shooter.py: what is displayed *)
(* ================================================================== *)

Lemma linspace01_nth (k j : nat) :
  2 <= k -> j < k ->
  nth_error (linspace01 k) j
  = Some (inject_Z (Z.of_nat j) / inject_Z (Z.of_nat (k - 1)))%Q.
Proof.
  intros Hk Hj. destruct k as [|[|k]]; try lia.
  unfold linspace01. rewrite nth_error_map, nth_error_seq.
  replace (j <? S (S k)) with true by (symmetry; apply Nat.ltb_lt; lia).
  reflexivity.
Qed.

Lemma hstack_total {A B} (xs : list A) (ys : list B) :
  length xs = length ys -> hstack xs ys = Ok (combine xs ys).
Proof. intros H. unfold hstack. rewrite H, Nat.eqb_refl. reflexivity. Qed.

Lemma display_with_Ok {T B H : Type} dt db dh (g : Shooter.Game.t T B H)
  pt pb ph :
  dt (Shooter.Game.targets g) = Ok pt ->
  db (Shooter.Game.bullets g) = Ok pb ->
  dh (Shooter.Game.hits g) = Ok ph ->
  Shooter.Game.display_with dt db dh g
  = Ok (Shooter.Game.mkFrame (Shooter.Game.status g)
          (Shooter.Avatar.display (Shooter.avatar (Shooter.Game.shared g)))
          pt pb ph).
Proof.
  intros Ht Hb Hh. unfold Shooter.Game.display_with.
  rewrite Ht. cbn [bind]. rewrite Hb. cbn [bind]. rewrite Hh. reflexivity.
Qed.

Section Display1.
Import Shooter.

Lemma step_ypos {E} newpage n0 N0 (w w' : Wave.t E) :
  Wave.step newpage n0 N0 w = Ok w' -> Wave.ypos w' = Wave.ypos w.
Proof.
  intros H.
  destruct (step_inv _ _ _ _ _ H) as [(_ & p & _ & ->) | (_ & ->)];
    reflexivity.
Qed.

Lemma Targets1_update_ypos rnd (w w' : Targets.t) g g' :
  Targets.update rnd w g = Ok (w', g') ->
  Wave.ypos w' = Wave.ypos w /\ Wave.N w' = Wave.N w.
Proof.
  unfold Targets.update, Wave.update. intros H.
  bind_inv H as [w2 g2] Ef. bind_inv H as w3 Es. apply Ok_inj in H.
  injection H as <- <-.
  apply Targets1_fire_inv in Ef. destruct Ef as (vn & vm & _ & _ & -> & _).
  rewrite (step_ypos _ _ _ _ _ Es).
  apply step_fields in Es. destruct Es as (-> & _).
  destruct vn; auto.
Qed.

Lemma Bullets1_update_ypos (w w' : Bullets.t) g g' :
  Bullets.update w g = Ok (w', g') ->
  Wave.ypos w' = Wave.ypos w /\ Wave.N w' = Wave.N w.
Proof.
  unfold Bullets.update, Wave.update. intros H.
  bind_inv H as [w2 g2] Ef. bind_inv H as w3 Es. apply Ok_inj in H.
  injection H as <- <-.
  apply Bullets1_fire_inv in Ef.
  destruct Ef as (vn & vm & _ & _ & _ & -> & _).
  rewrite (step_ypos _ _ _ _ _ Es).
  apply step_fields in Es. destruct Es as (-> & _).
  destruct vm; auto.
Qed.

Lemma Hits1_update_ypos {X X1} (tg : Wave.t X) (bl : Wave.t X1) h g
  tg' bl' h' g' :
  Hits.update tg bl h g = Ok (tg', bl', h', g') ->
  Wave.ypos tg' = Wave.ypos tg /\ Wave.N tg' = Wave.N tg
  /\ Wave.ypos bl' = Wave.ypos bl /\ Wave.N bl' = Wave.N bl
  /\ Hits.ypos h' = Hits.ypos h.
Proof.
  intros H. apply Hits1_update_effect in H.
  destruct H as (s & s1 & vis' & vis1' & wt & xs & xp & _ & _ & _
                 & _ & _ & _ & _ & _ & -> & -> & -> & _).
  repeat split.
Qed.

Lemma Wave1_init_ypos {E} newpage fps v orient (e : E) w :
  Wave.init newpage fps v orient e = Ok w ->
  orient = 1%Z \/ orient = (-1)%Z ->
  Wave.ypos w
  = (if (orient =? 1)%Z then linspace01 (Wave.N w)
     else rev (linspace01 (Wave.N w))).
Proof.
  unfold Wave.init. intros H Ho.
  bind_inv H as q Eq. remember (py_int q) as Nz eqn:ENz.
  bind_inv H as xp Exp. bind_inv H as xs Exs. bind_inv H as vis Evis.
  bind_inv H as yp Eyp. bind_inv H as p Ep.
  apply Ok_inj in H. subst w.
  change (yp = (if (orient =? 1)%Z then linspace01 (Z.to_nat Nz)
                else rev (linspace01 (Z.to_nat Nz)))).
  destruct Ho as [-> | ->]; unfold slice_step in Eyp; simpl in Eyp;
    rewrite every_one in Eyp; apply Ok_inj in Eyp; subst yp; reflexivity.
Qed.

Lemma Game1_init_rows rnd c g0 :
  Game.init rnd c = Ok g0 -> Rows1 g0.
Proof.
  unfold Game.init. intros H.
  bind_inv H as av Eav. bind_inv H as tg Etg. bind_inv H as bl Ebl.
  bind_inv H as h Eh. apply Ok_inj in H. subst g0.
  unfold Targets.init in Etg. bind_inv Etg as r Er.
  unfold Bullets.init in Ebl.
  apply Wave1_init_ypos in Etg; [|left; reflexivity].
  apply Wave1_init_ypos in Ebl; [|right; reflexivity].
  simpl Z.eqb in Etg, Ebl. cbv iota in Etg, Ebl.
  unfold Hits.init in Eh. bind_inv Eh as iN EiN. bind_inv Eh as iN1 EiN1.
  apply Ok_inj in Eh. subst h.
  unfold Rows1. cbn [Game.targets Game.bullets Game.hits Hits.ypos].
  auto.
Qed.

Lemma Game1_update_rows env g g' :
  Rows1 g -> Game.update Game.Factory1 env g = Ok g' -> Rows1 g'.
Proof.
  intros (Rt & Rb & Rh) Hu.
  destruct (Game_update_cases Game.Factory1 env g g' Hu)
    as [(_ & _ & Et & Eb & Eh)
       | (_ & _ & sh0 & tg1 & sh1 & bl2 & sh2 & sh3 & Ht & Hb & Hh)].
  - unfold Rows1. rewrite Et, Eb, Eh. auto.
  - cbn [Game.targets_update Game.bullets_update Game.hits_update
           Game.Factory1] in Ht, Hb, Hh.
    apply Targets1_update_ypos in Ht. destruct Ht as (Yt & Nt).
    apply Bullets1_update_ypos in Hb. destruct Hb as (Yb & Nb).
    apply Hits1_update_ypos in Hh.
    destruct Hh as (Yt3 & Nt3 & Yb3 & Nb3 & Yh).
    unfold Rows1. rewrite Yt3, Nt3, Yb3, Nb3, Yh, Yt, Nt, Yb, Nb. auto.
Qed.


Lemma Wave1_display_total {E} (w : Wave.t E) :
  Wave1_wf w -> length (Wave.ypos w) = Wave.N w ->
  Wave.display w
  = Ok (select_mask (combine (window_xpos w) (Wave.ypos w))
          (window_visible w)).
Proof.
  intros Hw Hy. destruct (window_lengths w Hw) as (Lx & _ & Lv).
  unfold Wave.display.
  change (Wave.current w)
    with (window_xpos w, window_xspeed w, window_visible w).
  cbv iota. rewrite hstack_total by lia. cbn [bind].
  apply select_total. rewrite length_combine. lia.
Qed.

Lemma Hits1_display_total h N0 :
  length (Hits.xpos h) = N0 -> length (Hits.weight h) = N0 ->
  length (Hits.ypos h) = N0 ->
  Hits.display h
  = Ok (combine (select_mask (Hits.xpos h) (Hits.displayed h))
          (select_mask (Hits.ypos h) (Hits.displayed h))).
Proof.
  intros Hx Hwt Hy. unfold Hits.display. cbv zeta.
  assert (Lm : length (Hits.displayed h) = N0)
    by (unfold Hits.displayed; rewrite length_map; exact Hwt).
  rewrite !select_total by lia. cbn [bind].
  apply hstack_total. rewrite !select_mask_length by lia. reflexivity.
Qed.
End Display1.



(* ================================================================== *)
(** * shooter2.py: what is displayed *)
(* ================================================================== *)

Lemma py_gather_total {A} (l : list A) (idx : list Z) (d : A) :
  Forall (fun i => (0 <= i < Z.of_nat (length l))%Z) idx ->
  py_gather l idx = Ok (map (fun z => nth (Z.to_nat z) l d) idx).
Proof.
  intros H. unfold py_gather. induction H as [|i idx Hi _ IH]; simpl.
  - reflexivity.
  - unfold py_index at 1.
    replace (0 <=? i)%Z with true by (symmetry; apply Z.leb_le; lia).
    destruct (index_lt l (Z.to_nat i) ltac:(lia)) as (a & Ha).
    rewrite Ha. cbn [bind]. rewrite IH. cbn [bind].
    apply index_Ok in Ha. rewrite (nth_error_nth _ _ d Ha). reflexivity.
Qed.

Lemma combine_map_same {A B C} (f : A -> B) (g : A -> C) (l : list A) :
  combine (map f l) (map g l) = map (fun a => (f a, g a)) l.
Proof. induction l as [|a l IH]; simpl; [|rewrite IH]; reflexivity. Qed.

Section Rows2Wave.
Import Shooter2.
Context {E : Type}.
Variables leaving entering :
  nat -> Wave.t E -> Shooter.Shared -> result (Wave.t E * Shooter.Shared).
Variable newcontent : nat -> Z -> Wave.t E -> result (Wave.t E).

Hypothesis leaving_rows :
  forall i w g w' g', leaving i w g = Ok (w', g') ->
                      Wave.ypos w' = Wave.ypos w /\ Wave.N w' = Wave.N w.
Hypothesis entering_rows :
  forall i w g w' g', entering i w g = Ok (w', g') ->
                      Wave.ypos w' = Wave.ypos w /\ Wave.N w' = Wave.N w.
Hypothesis newcontent_rows :
  forall n t w w', newcontent n t w = Ok w' ->
                   Wave.ypos w' = Wave.ypos w /\ Wave.N w' = Wave.N w.

Lemma expire_rows tbeg (w : Wave.t E) g w1 g1 n1 :
  Wave.expire leaving tbeg w g = Ok (w1, g1, n1) ->
  Wave.ypos w1 = Wave.ypos w /\ Wave.N w1 = Wave.N w.
Proof.
  unfold Wave.expire. intros H. destruct (0 <? Wave.nalive w).
  - bind_inv H as s Es. bind_inv H as a0 Ea0. bind_inv H as b0 Eb0.
    bind_inv H as [[w' g'] s1] Eh. bind_inv H as kept Ek.
    apply Ok_inj in H. injection H as <- <- <-.
    change (Wave.ypos w' = Wave.ypos w /\ Wave.N w' = Wave.N w).
    destruct (b0 =? tbeg)%Z.
    + bind_inv Eh as s0 Es0. destruct s0.
      * bind_inv Eh as [w2 g2] El. apply Ok_inj in Eh.
        injection Eh as <- <- <-. eapply leaving_rows; eauto.
      * apply Ok_inj in Eh. injection Eh as <- <- <-. auto.
    + apply Ok_inj in Eh. injection Eh as <- <- <-. auto.
  - apply Ok_inj in H. injection H as <- <- <-. auto.
Qed.

Lemma recycle_rows n tend (w w' : Wave.t E) :
  Wave.recycle newcontent n tend w = Ok w' ->
  Wave.ypos w' = Wave.ypos w /\ Wave.N w' = Wave.N w.
Proof.
  unfold Wave.recycle. intros H.
  bind_inv H as bo Ebo. bind_inv H as xp Exp. bind_inv H as xs Exs.
  bind_inv H as w6 E6. apply Ok_inj in H. subst w'.
  apply newcontent_rows in E6. destruct E6 as (Y6 & N6).
  change (Wave.ypos w6 = Wave.ypos w /\ Wave.N w6 = Wave.N w).
  rewrite Y6, N6. split; reflexivity.
Qed.

Lemma arrive_rows tend n1 (w1 : Wave.t E) g1 w2 g2 n2 :
  Wave.arrive entering newcontent tend n1 w1 g1 = Ok (w2, g2, n2) ->
  Wave.ypos w2 = Wave.ypos w1 /\ Wave.N w2 = Wave.N w1.
Proof.
  unfold Wave.arrive. intros H. destruct (Wave.tborn w1 =? tend)%Z.
  - bind_inv H as ia Eia. bind_inv H as [w' g'] Ee.
    apply entering_rows in Ee. destruct Ee as (Ye & Ne).
    change (Wave.ypos w' = Wave.ypos w1) in Ye.
    change (Wave.N w' = Wave.N w1) in Ne.
    bind_inv H as w4 E4. bind_inv H as tb Etb.
    apply Ok_inj in H. injection H as <- <- <-.
    change (Wave.ypos w4 = Wave.ypos w1 /\ Wave.N w4 = Wave.N w1).
    destruct (Wave.nborn (Wave.set_nborn (Wave.nborn w' + 1) w')
              =? Wave.M (Wave.set_nborn (Wave.nborn w' + 1) w')).
    + apply recycle_rows in E4. destruct E4 as (Y4 & N4).
      rewrite Y4, N4. split; [exact Ye | exact Ne].
    + apply Ok_inj in E4. subst w4. split; [exact Ye | exact Ne].
  - apply Ok_inj in H. injection H as <- <- <-. auto.
Qed.

Lemma update_rows (w : Wave.t E) g w' g' :
  Wave.update leaving entering newcontent w g = Ok (w', g') ->
  Wave.ypos w' = Wave.ypos w /\ Wave.N w' = Wave.N w.
Proof.
  unfold Wave.update. intros H.
  destruct (Wave.cslice w) as [tbeg tend].
  bind_inv H as [[w1 g1] n1] E1. bind_inv H as [[w2 g2] n2] E2.
  bind_inv H as w3 E3. apply Ok_inj in H. injection H as <- <-.
  apply expire_rows in E1. apply arrive_rows in E2.
  apply advance_spec in E3. destruct E3 as (xp & _ & ->).
  change (Wave.ypos w2 = Wave.ypos w /\ Wave.N w2 = Wave.N w).
  destruct E1 as (Y1 & N1). destruct E2 as (Y2 & N2).
  split; congruence.
Qed.

Lemma init_rows fps v orient e (w : Wave.t E) :
  Wave.init newcontent fps v orient e = Ok w ->
  orient = 1%Z \/ orient = (-1)%Z ->
  Wave.ypos w
  = (if (orient =? 1)%Z then linspace01 (Wave.N w)
     else rev (linspace01 (Wave.N w))).
Proof.
  unfold Wave.init. intros H Ho.
  bind_inv H as q Eq. remember (py_int q) as Nz eqn:ENz.
  remember (2 * Nz)%Z as Mz eqn:EMz.
  bind_inv H as bo Ebo. bind_inv H as xp Exp.
  bind_inv H as xs Exs. bind_inv H as al Eal. bind_inv H as ia Eia.
  bind_inv H as w1 E1. bind_inv H as tb Etb. bind_inv H as yp Eyp.
  apply Ok_inj in H. subst w. apply newcontent_rows in E1.
  destruct E1 as (_ & N1). cbn [Wave.N] in N1.
  change (yp = (if (orient =? 1)%Z then linspace01 (Wave.N w1)
                else rev (linspace01 (Wave.N w1)))).
  rewrite N1.
  destruct Ho as [-> | ->]; unfold slice_step in Eyp; simpl in Eyp;
    rewrite every_one in Eyp; apply Ok_inj in Eyp; subst yp; reflexivity.
Qed.
End Rows2Wave.

Section Display2.
Import Shooter2.

Lemma pass_rows {E} i (w : Wave.t E) g w' g' :
  Wave.pass i w g = Ok (w', g') ->
  Wave.ypos w' = Wave.ypos w /\ Wave.N w' = Wave.N w.
Proof.
  unfold Wave.pass. intros H. apply Ok_inj in H. injection H as <- <-. auto.
Qed.

Lemma Targets2_leaving_rows i (w : Targets.t) g w' g' :
  Targets.leaving i w g = Ok (w', g') ->
  Wave.ypos w' = Wave.ypos w /\ Wave.N w' = Wave.N w.
Proof.
  unfold Targets.leaving. intros H. apply Ok_inj in H.
  injection H as <- <-. auto.
Qed.

Lemma Targets2_newcontent_rows rnd n t (w w' : Targets.t) :
  Targets.newcontent rnd n t w = Ok w' ->
  Wave.ypos w' = Wave.ypos w /\ Wave.N w' = Wave.N w.
Proof.
  unfold Targets.newcontent. intros H.
  destruct (Wave.M w <? n); [discriminate|].
  destruct (Qlt_bool 0 _ && Qle_bool _ 1); [|discriminate].
  apply Ok_inj in H. subst w'. auto.
Qed.

Lemma Bullets2_entering_rows i (w : Bullets.t) g w' g' :
  Bullets.entering i w g = Ok (w', g') ->
  Wave.ypos w' = Wave.ypos w /\ Wave.N w' = Wave.N w.
Proof.
  unfold Bullets.entering. intros H. bind_inv H as xp Exp.
  apply Ok_inj in H. injection H as <- <-. auto.
Qed.

Lemma Bullets2_newcontent_rows n t (w w' : Bullets.t) :
  Bullets.newcontent n t w = Ok w' ->
  Wave.ypos w' = Wave.ypos w /\ Wave.N w' = Wave.N w.
Proof.
  unfold Bullets.newcontent. intros H. bind_inv H as ks Eks.
  apply Ok_inj in H. subst w'. auto.
Qed.

Lemma Hits2_update_rows {X X1} (tg : Wave.t X) (bl : Wave.t X1) h g
  tg' bl' h' g' :
  Hits.update tg bl h g = Ok (tg', bl', h', g') ->
  Wave.ypos tg' = Wave.ypos tg /\ Wave.N tg' = Wave.N tg
  /\ Wave.ypos bl' = Wave.ypos bl /\ Wave.N bl' = Wave.N bl
  /\ Shooter.Hits.ypos h' = Shooter.Hits.ypos h.
Proof.
  intros H. pose proof (Hits2_update_inv _ _ _ _ _ _ _ _ H)
    as (it & ib & al & al1 & _ & _ & -> & -> & _).
  split; [reflexivity|]. split; [reflexivity|].
  split; [reflexivity|]. split; [reflexivity|].
  unfold Hits.update in H.
  bind_inv H as [[[tg1 bl1] h1] g1] Hu. apply Ok_inj in H.
  injection H as _ _ <- _. cbn [Shooter.Hits.age Shooter.Hits.ypos].
  destruct ((0 <? length (Wave.current tg))
            && (0 <? length (Wave.current bl))).
  - bind_inv Hu as [[nz nz1] r] Ed.
    destruct (0 <? length nz).
    + bind_inv Hu as it' Eit. bind_inv Hu as al' Eal.
      bind_inv Hu as ib' Eib. bind_inv Hu as al1' Eal1.
      bind_inv Hu as rnz Ernz. bind_inv Hu as wt Ewt.
      bind_inv Hu as xs Exs. bind_inv Hu as xp Exp.
      apply Ok_inj in Hu. injection Hu as _ _ <- _. reflexivity.
    + apply Ok_inj in Hu. injection Hu as _ _ <- _. reflexivity.
  - apply Ok_inj in Hu. injection Hu as _ _ <- _. reflexivity.
Qed.

Lemma Game2_init_rows rnd c g0 :
  Game.init rnd c = Ok g0 -> Rows2 g0.
Proof.
  unfold Game.init. intros H.
  bind_inv H as av Eav. bind_inv H as tg Etg. bind_inv H as bl Ebl.
  bind_inv H as h Eh. apply Ok_inj in H. subst g0.
  unfold Targets.init in Etg. bind_inv Etg as r Er.
  unfold Bullets.init in Ebl.
  apply (init_rows _ (Targets2_newcontent_rows rnd)) in Etg;
    [|left; reflexivity].
  apply (init_rows _ Bullets2_newcontent_rows) in Ebl;
    [|right; reflexivity].
  simpl Z.eqb in Etg, Ebl. cbv iota in Etg, Ebl.
  unfold Hits.init, Shooter.Hits.init in Eh.
  bind_inv Eh as iN EiN. bind_inv Eh as iN1 EiN1.
  apply Ok_inj in Eh. subst h.
  unfold Rows2.
  cbn [Shooter.Game.targets Shooter.Game.bullets Shooter.Game.hits
         Shooter.Hits.ypos].
  auto.
Qed.

Lemma Game2_update_rows env g g' :
  Rows2 g -> Shooter.Game.update Game.Factory2 env g = Ok g' -> Rows2 g'.
Proof.
  intros (Rt & Rb & Rh) Hu.
  destruct (Game_update_cases Game.Factory2 env g g' Hu)
    as [(_ & _ & Et & Eb & Eh)
       | (_ & _ & sh0 & tg1 & sh1 & bl2 & sh2 & sh3 & Ht & Hb & Hh)].
  - unfold Rows2. rewrite Et, Eb, Eh. auto.
  - cbn [Shooter.Game.targets_update Shooter.Game.bullets_update
           Shooter.Game.hits_update Game.Factory2] in Ht, Hb, Hh.
    apply (update_rows _ _ _ Targets2_leaving_rows (@pass_rows _)
             (Targets2_newcontent_rows (random env))) in Ht.
    destruct Ht as (Yt & Nt).
    apply (update_rows _ _ _ (@pass_rows _) Bullets2_entering_rows
             Bullets2_newcontent_rows) in Hb.
    destruct Hb as (Yb & Nb).
    apply Hits2_update_rows in Hh.
    destruct Hh as (Yt3 & Nt3 & Yb3 & Nb3 & Yh).
    unfold Rows2. rewrite Yt3, Nt3, Yb3, Nb3, Yh, Yt, Nt, Yb, Nb. auto.
Qed.


(** No row is out of the window: [born - t] is an index of [ypos] as it
    stands, and never counts from the end. *)
Lemma Wave2_display_total {E} (w : Wave.t E) :
  Wave2_inv w \/ Wave2_idle w ->
  length (Wave.ypos w) = Wave.N w ->
  Wave.display w = Ok (map (sprite2 w (Wave.ypos w)) (Wave.current w))
  /\ Forall (fun i =>
               (fst (Wave.cslice w) <= nth i (Wave.born w) 0
                < fst (Wave.cslice w) + Z.of_nat (Wave.N w))%Z)
       (Wave.current w)
  /\ length (Wave.current w) <= Wave.N w.
Proof.
  intros [Hinv | (Hn & _)] Hy.
  - destruct (listed_bounds w Hinv)
      as (Hidx & Hrows & Hlen & Lb & Lx & _).
    split; [|split; [|exact Hlen]].
    + unfold Wave.display. cbv zeta.
      rewrite (gather_total _ _ 0%Q) by (rewrite Lx; exact Hidx).
      cbn [bind].
      rewrite (gather_total _ _ 0%Z) by (rewrite Lb; exact Hidx).
      cbn [bind]. rewrite map_map.
      rewrite (py_gather_total _ _ 0%Q) by (rewrite Hy; exact Hrows).
      cbn [bind]. rewrite hstack_total by (rewrite !length_map; reflexivity).
      rewrite map_map, combine_map_same. reflexivity.
    + rewrite Forall_map in Hrows. eapply Forall_impl; [|exact Hrows].
      intros i Hi. cbv beta in Hi. lia.
  - assert (Hc : Wave.current w = [])
      by (unfold Wave.current; rewrite Hn; reflexivity).
    unfold Wave.display. rewrite Hc. cbv zeta.
    split; [reflexivity|]. split; [constructor | simpl; lia].
Qed.
End Display2.



(* ================================================================== *)
(** * shooter.py: the sprites stay on the screen *)
(* ================================================================== *)

Lemma course_moved (N0 n0 s : nat) (x v : Q) :
  n0 + 1 <= s ->
  (0 <= x <= 1)%Q ->
  (0 <= x + inject_Z (Z.of_nat (moves_left N0 n0 s)) * v <= 1)%Q ->
  let x3 := if s <? n0 + N0 then (x + v)%Q else x in
  (0 <= x3 <= 1)%Q
  /\ (0 <= x3 + inject_Z (Z.of_nat (moves_left N0 (n0 + 1) s)) * v <= 1)%Q.
Proof.
  intros Hs Hx Hr. cbv zeta. unfold moves_left in *.
  destruct (s <? n0 + N0) eqn:E.
  - apply Nat.ltb_lt in E.
    rewrite Nat.min_l in Hr by lia. rewrite Nat.min_l by lia.
    replace (Z.of_nat (s - n0 + 1)) with (Z.of_nat (s - (n0 + 1) + 1) + 1)%Z
      in Hr by lia.
    rewrite inject_Z_plus in Hr.
    set (r := inject_Z (Z.of_nat (s - (n0 + 1) + 1))) in *.
    assert (Hr1 : (1 <= r)%Q).
    { unfold r. change 1%Q with (inject_Z 1). rewrite <- Zle_Qle. lia. }
    change (inject_Z 1) with 1%Q in Hr.
    split; [|lra].
    destruct (Qlt_le_dec v 0) as [Hv | Hv].
    + assert (r * v <= v)%Q by nra. lra.
    + assert (v <= r * v)%Q by nra. lra.
  - apply Nat.ltb_ge in E.
    rewrite Nat.min_r in Hr by lia. rewrite Nat.min_r by lia.
    split; assumption.
Qed.

Section Screen1.
Import Shooter.

(** The two arrays of positions and speeds after [step]. *)
Lemma step_arrays {E} newpage n0 N0 (w w' : Wave.t E) :
  Wave.step newpage n0 N0 w = Ok w' ->
  let xs3 := set_slice n0 (n0 + N0)
               (map2 Qplus (slice n0 (n0 + N0) (Wave.xpos w))
                  (slice n0 (n0 + N0) (Wave.xspeed w)))
               (Wave.xpos w) in
  Wave.N w' = Wave.N w /\ Wave.ext w' = Wave.ext w
  /\ ((n0 + 1 = N0
       /\ exists w4 p,
           newpage w4 = Ok p
           /\ Wave.N w4 = Wave.N w /\ Wave.ext w4 = Wave.ext w
           /\ Wave.n w' = 0
           /\ Wave.xpos w'
              = set_from N0 (Wave.page_xpos p)
                  (set_slice 0 N0 (skipn N0 xs3) xs3)
           /\ Wave.xspeed w'
              = set_from N0 (Wave.page_xspeed p)
                  (set_slice 0 N0 (skipn N0 (Wave.xspeed w))
                     (Wave.xspeed w)))
      \/ (n0 + 1 <> N0 /\ Wave.n w' = n0 + 1
          /\ Wave.xpos w' = xs3 /\ Wave.xspeed w' = Wave.xspeed w)).
Proof.
  intros H. cbv zeta.
  destruct (step_inv _ _ _ _ _ H) as [(En & p & Hp & ->) | (En & ->)].
  - split; [reflexivity|]. split; [reflexivity|]. left.
    split; [exact En|]. eexists _, p. split; [exact Hp|].
    repeat split.
  - split; [reflexivity|]. split; [reflexivity|]. right. repeat split.
    exact En.
Qed.

Lemma turned_nth {A} N0 (vals arr : list A) (s : nat) :
  length arr = 2 * N0 -> length vals = N0 -> s < 2 * N0 ->
  nth_error (set_from N0 (Array vals) (set_slice 0 N0 (skipn N0 arr) arr)) s
  = if s <? N0 then nth_error arr (N0 + s) else nth_error vals (s - N0).
Proof.
  intros La Lv Hs.
  assert (Hl : length (set_slice 0 N0 (skipn N0 arr) arr) = 2 * N0).
  { rewrite set_slice_length; rewrite ?length_skipn; lia. }
  destruct (s <? N0) eqn:E.
  - apply Nat.ltb_lt in E. rewrite set_from_nth_lt by lia.
    rewrite set_slice_nth by (rewrite ?length_skipn; lia).
    change (s <? 0) with false. cbv iota.
    replace (s <? N0) with true by (symmetry; apply Nat.ltb_lt; lia).
    rewrite Nat.sub_0_r, nth_error_skipn. reflexivity.
  - apply Nat.ltb_ge in E. apply set_from_nth_ge; lia.
Qed.

Lemma Targets1_newpage_arrays rnd (w : Targets.t) p :
  Targets.newpage rnd w = Ok p ->
  Wave.page_xpos p = Array (uniform_row rnd 0 (Wave.N w))
  /\ Wave.page_xspeed p
     = Array (map (fun d => (d / inject_Z (Z.of_nat (Wave.N w)))%Q)
                (map2 Qminus (uniform_row rnd 1 (Wave.N w))
                   (uniform_row rnd 0 (Wave.N w)))).
Proof.
  unfold Targets.newpage. intros H. apply Ok_inj in H. subst p.
  split; reflexivity.
Qed.

(** A slot of a new page of targets: it starts on the screen, and ends
    on the screen after [N] moves. *)
Lemma Targets1_page_course rnd (N0 j : nat) x v :
  unit_draws rnd -> 0 < N0 ->
  nth_error (uniform_row rnd 0 N0) j = Some x ->
  nth_error (map (fun d => (d / inject_Z (Z.of_nat N0))%Q)
               (map2 Qminus (uniform_row rnd 1 N0) (uniform_row rnd 0 N0)))
    j = Some v ->
  (0 <= x <= 1)%Q /\ (0 <= x + inject_Z (Z.of_nat N0) * v <= 1)%Q.
Proof.
  intros Hu HN Hx Hv. unfold uniform_row in *.
  rewrite nth_error_map, map2_nth, !nth_error_map, nth_error_seq in Hv.
  rewrite nth_error_map, nth_error_seq in Hx.
  destruct (j <? N0); [|discriminate]. simpl in Hx, Hv.
  injection Hx as <-. injection Hv as <-.
  pose proof (Hu 0 j) as H0. pose proof (Hu 1 j) as H1.
  split; [exact H0|].
  assert (HNq : ~ (inject_Z (Z.of_nat N0) == 0)%Q).
  { change 0%Q with (inject_Z 0). rewrite inject_Z_injective. lia. }
  assert (Heq : (uniform rnd 0 j
                 + inject_Z (Z.of_nat N0)
                   * ((uniform rnd 1 j - uniform rnd 0 j)
                      / inject_Z (Z.of_nat N0))
                 == uniform rnd 1 j)%Q) by (field; exact HNq).
  rewrite Heq. exact H1.
Qed.

Lemma moved_slot (n0 N0 : nat) (xs vs : list Q) (s : nat) x' v :
  n0 + N0 <= length xs -> length vs = length xs ->
  n0 <= s ->
  nth_error
    (set_slice n0 (n0 + N0)
       (map2 Qplus (slice n0 (n0 + N0) xs) (slice n0 (n0 + N0) vs)) xs) s
  = Some x' ->
  nth_error vs s = Some v ->
  exists x, nth_error xs s = Some x
            /\ x' = (if s <? n0 + N0 then (x + v)%Q else x).
Proof.
  intros Hl Hlv Hs Hx' Hv. rewrite moved_nth in Hx' by lia.
  replace (n0 <=? s) with true in Hx' by (symmetry; apply Nat.leb_le; lia).
  cbn [andb] in Hx'. destruct (s <? n0 + N0).
  - rewrite Hv in Hx'. destruct (nth_error xs s) as [x|]; [|discriminate].
    injection Hx' as <-. eauto.
  - eauto.
Qed.

Lemma Targets1_update_course rnd (w w' : Targets.t) g g' :
  Wave1_wf w -> On_course w -> unit_draws rnd ->
  Targets.update rnd w g = Ok (w', g') -> On_course w'.
Proof.
  intros (Hx & Hs & Hv & Hn) Hc Hu H.
  unfold Targets.update, Wave.update in H.
  bind_inv H as [w2 g2] Ef. bind_inv H as w3 Es. apply Ok_inj in H.
  injection H as <- <-.
  apply Targets1_fire_inv in Ef. destruct Ef as (vn & vm & _ & _ & Hw2 & _).
  assert (X2 : Wave.xpos w2 = Wave.xpos w) by (subst w2; destruct vn; auto).
  assert (V2 : Wave.xspeed w2 = Wave.xspeed w)
    by (subst w2; destruct vn; auto).
  assert (N2 : Wave.N w2 = Wave.N w) by (subst w2; destruct vn; auto).
  clear Hw2.
  apply step_arrays in Es. cbv zeta in Es. rewrite X2, V2, N2 in Es.
  destruct Es as (HN & _ & [(En & w4 & p & Hp & N4 & _ & Hn' & Hx' & Hv')
                           | (En & Hn' & Hx' & Hv')]).
  - apply Targets1_newpage_arrays in Hp. destruct Hp as (Px & Pv).
    rewrite N4 in Px, Pv. rewrite Px in Hx'. rewrite Pv in Hv'.
    unfold On_course. rewrite HN, Hn', Hx', Hv'.
    intros s x' v _ Ex' Ev.
    assert (Hs2 : s < 2 * Wave.N w).
    { assert (Hlt : s < length
                          (set_from (Wave.N w)
                             (Array
                                (map (fun d =>
                                        (d / inject_Z
                                               (Z.of_nat (Wave.N w)))%Q)
                                   (map2 Qminus
                                      (uniform_row rnd 1 (Wave.N w))
                                      (uniform_row rnd 0 (Wave.N w)))))
                             (set_slice 0 (Wave.N w)
                                (skipn (Wave.N w) (Wave.xspeed w))
                                (Wave.xspeed w))))
        by (apply nth_error_Some; congruence).
      rewrite set_from_length in Hlt;
        rewrite set_slice_length in *; rewrite ?length_skipn;
        try lia.
      cbn [rhs_fits]. unfold uniform_row.
      rewrite length_map, map2_length, !length_map, !length_seq. lia. }
    rewrite turned_nth in Ex';
      [| rewrite moved_length; lia
       | unfold uniform_row; rewrite length_map, length_seq; reflexivity
       | exact Hs2].
    rewrite turned_nth in Ev;
      [| exact Hs
       | unfold uniform_row;
         rewrite length_map, map2_length, !length_map, !length_seq; lia
       | exact Hs2].
    destruct (s <? Wave.N w) eqn:EsN.
    + apply Nat.ltb_lt in EsN.
      destruct (moved_slot (Wave.n w) (Wave.N w) (Wave.xpos w)
                  (Wave.xspeed w) (Wave.N w + s) x' v
                  ltac:(lia) ltac:(lia) ltac:(lia) Ex' Ev)
        as (x & Hxs & ->).
      destruct (Hc (Wave.N w + s) x v ltac:(lia) Hxs Ev) as (B1 & B2).
      pose proof (course_moved (Wave.N w) (Wave.n w) (Wave.N w + s) x v
                    ltac:(lia) B1 B2) as HM.
      cbv zeta in HM.
      replace (moves_left (Wave.N w) 0 s)
        with (moves_left (Wave.N w) (Wave.n w + 1) (Wave.N w + s))
        by (unfold moves_left; lia).
      exact HM.
    + apply Nat.ltb_ge in EsN.
      replace (moves_left (Wave.N w) 0 s) with (Wave.N w)
        by (unfold moves_left; lia).
      exact (Targets1_page_course rnd (Wave.N w) (s - Wave.N w) x' v Hu
               ltac:(lia) Ex' Ev).
  - unfold On_course. rewrite HN, Hn', Hx', Hv'.
    intros s x' v Hs' Ex' Ev.
    destruct (moved_slot (Wave.n w) (Wave.N w) (Wave.xpos w)
                (Wave.xspeed w) s x' v
                ltac:(lia) ltac:(lia) ltac:(lia) Ex' Ev)
      as (x & Hxs & ->).
    destruct (Hc s x v ltac:(lia) Hxs Ev) as (B1 & B2).
    exact (course_moved (Wave.N w) (Wave.n w) s x v ltac:(lia) B1 B2).
Qed.

(** *** Bullets *)

Lemma turned_scalar_nth {A} N0 (a : A) (arr : list A) (s : nat) :
  length arr = 2 * N0 -> s < 2 * N0 ->
  nth_error (set_from N0 (Scalar a) (set_slice 0 N0 (skipn N0 arr) arr)) s
  = if s <? N0 then nth_error arr (N0 + s) else Some a.
Proof.
  intros La Hs.
  assert (Hl : length (set_slice 0 N0 (skipn N0 arr) arr) = 2 * N0).
  { rewrite set_slice_length; rewrite ?length_skipn; lia. }
  destruct (s <? N0) eqn:E.
  - apply Nat.ltb_lt in E. rewrite set_from_nth_lt by lia.
    rewrite set_slice_nth by (rewrite ?length_skipn; lia).
    change (s <? 0) with false. cbv iota.
    replace (s <? N0) with true by (symmetry; apply Nat.ltb_lt; lia).
    rewrite Nat.sub_0_r, nth_error_skipn. reflexivity.
  - apply Nat.ltb_ge in E. unfold set_from. cbn [broadcast].
    rewrite nth_error_app2 by (rewrite length_firstn; lia).
    rewrite length_firstn, Hl. apply nth_error_repeat. lia.
Qed.

Lemma Bullets1_newpage_arrays (w : Bullets.t) p :
  Bullets.newpage w = Ok p ->
  Wave.page_xpos p = Scalar (1 # 2)%Q /\ Wave.page_xspeed p = Scalar 0%Q.
Proof.
  unfold Bullets.newpage. intros H.
  bind_inv H as idx Eidx. bind_inv H as vis Evis. apply Ok_inj in H.
  subst p. split; reflexivity.
Qed.

Lemma Bullets1_update_rest (w w' : Bullets.t) g g' :
  Wave1_wf w -> At_rest w ->
  (0 <= Avatar.pos_x (avatar g) <= 1)%Q ->
  Bullets.update w g = Ok (w', g') -> At_rest w'.
Proof.
  intros (Hx & Hs & Hv & Hn) Hr Ha H.
  unfold Bullets.update, Wave.update in H.
  bind_inv H as [w2 g2] Ef. bind_inv H as w3 Es. apply Ok_inj in H.
  injection H as <- <-.
  apply Bullets1_fire_inv in Ef.
  destruct Ef as (vn & vm & _ & _ & _ & Hw2 & _).
  assert (V2 : Wave.xspeed w2 = Wave.xspeed w)
    by (subst w2; destruct vm; auto).
  assert (N2 : Wave.N w2 = Wave.N w) by (subst w2; destruct vm; auto).
  assert (L2 : length (Wave.xpos w2) = 2 * Wave.N w).
  { subst w2. destruct vm; [|exact Hx].
    cbn [Wave.xpos Wave.set_xpos]. rewrite set_nth_length. exact Hx. }
  assert (R2 : forall s x v,
             nth_error (Wave.xpos w2) s = Some x ->
             nth_error (Wave.xspeed w) s = Some v ->
             (0 <= x <= 1)%Q /\ (v == 0)%Q).
  { intros s x v Ex Ev. subst w2. destruct vm; [|exact (Hr s x v Ex Ev)].
    cbn [Wave.xpos Wave.set_xpos] in Ex. rewrite set_nth_nth in Ex.
    destruct (s =? Wave.n w + Wave.N w) eqn:E.
    - destruct (Wave.n w + Wave.N w <? length (Wave.xpos w));
        [|discriminate].
      injection Ex as <-. split; [exact Ha|].
      apply Nat.eqb_eq in E. subst s.
      destruct (nth_error (Wave.xpos w) (Wave.n w + Wave.N w)) as [x0|] eqn:E0.
      + exact (proj2 (Hr _ _ _ E0 Ev)).
      + apply nth_error_None in E0. lia.
    - exact (Hr s x v Ex Ev). }
  clear Hw2.
  apply step_arrays in Es. cbv zeta in Es. rewrite V2, N2 in Es.
  destruct Es as (HN & _ & [(En & w4 & p & Hp & N4 & _ & Hn' & Hx' & Hv')
                           | (En & Hn' & Hx' & Hv')]).
  - apply Bullets1_newpage_arrays in Hp. destruct Hp as (Px & Pv).
    rewrite Px in Hx'. rewrite Pv in Hv'.
    unfold At_rest. rewrite Hx', Hv'. intros s x' v Ex' Ev.
    assert (Hs2 : s < 2 * Wave.N w).
    { assert (Hlt : s < length
                          (set_from (Wave.N w) (Scalar 0%Q)
                             (set_slice 0 (Wave.N w)
                                (skipn (Wave.N w) (Wave.xspeed w))
                                (Wave.xspeed w))))
        by (apply nth_error_Some; congruence).
      rewrite set_from_length in Hlt;
        rewrite set_slice_length in *; rewrite ?length_skipn;
        try lia.
      exact I. }
    rewrite turned_scalar_nth in Ex' by (rewrite ?moved_length; lia).
    rewrite turned_scalar_nth in Ev by lia.
    destruct (s <? Wave.N w) eqn:EsN.
    + apply Nat.ltb_lt in EsN.
      destruct (moved_slot (Wave.n w) (Wave.N w) (Wave.xpos w2)
                  (Wave.xspeed w) (Wave.N w + s) x' v
                  ltac:(lia) ltac:(lia) ltac:(lia) Ex' Ev)
        as (x & Hxs & ->).
      destruct (R2 _ _ _ Hxs Ev) as (B & V0).
      split; [|exact V0]. destruct (_ <? _); lra.
    + injection Ex' as <-. injection Ev as <-. split; lra.
  - unfold At_rest. rewrite Hx', Hv'. intros s x' v Ex' Ev.
    assert (Hs2 : s < 2 * Wave.N w)
      by (rewrite <- Hs; apply nth_error_Some; congruence).
    destruct (Nat.le_gt_cases (Wave.n w) s) as [Hge | Hlt].
    + destruct (moved_slot (Wave.n w) (Wave.N w) (Wave.xpos w2)
                  (Wave.xspeed w) s x' v
                  ltac:(lia) ltac:(lia) ltac:(lia) Ex' Ev)
        as (x & Hxs & ->).
      destruct (R2 _ _ _ Hxs Ev) as (B & V0).
      split; [|exact V0]. destruct (_ <? _); lra.
    + rewrite moved_nth in Ex' by lia.
      replace (Wave.n w <=? s) with false in Ex'
        by (symmetry; apply Nat.leb_gt; lia).
      cbn [andb] in Ex'. exact (R2 _ _ _ Ex' Ev).
Qed.

(** *** Hits *)

Lemma window_on_course {X} (w : Wave.t X) j x :
  Wave1_wf w -> On_course w ->
  nth_error (window_xpos w) j = Some x -> (0 <= x <= 1)%Q.
Proof.
  intros (Hx & Hs & Hv & Hn) Hc Hj.
  unfold window_xpos, Wave.current in Hj. cbn [fst] in Hj.
  rewrite slice_nth in Hj. destruct (j <? _) eqn:E; [|discriminate].
  apply Nat.ltb_lt in E.
  destruct (nth_error (Wave.xspeed w) (Wave.n w + j)) as [v|] eqn:Ev.
  - exact (proj1 (Hc (Wave.n w + j) x v ltac:(lia) Hj Ev)).
  - apply nth_error_None in Ev. lia.
Qed.

Lemma window_at_rest {X} (w : Wave.t X) j x :
  Wave1_wf w -> At_rest w ->
  nth_error (window_xpos w) j = Some x -> (0 <= x <= 1)%Q.
Proof.
  intros (Hx & Hs & Hv & Hn) Hc Hj.
  unfold window_xpos, Wave.current in Hj. cbn [fst] in Hj.
  rewrite slice_nth in Hj. destruct (j <? _) eqn:E; [|discriminate].
  apply Nat.ltb_lt in E.
  destruct (nth_error (Wave.xspeed w) (Wave.n w + j)) as [v|] eqn:Ev.
  - exact (proj1 (Hc _ _ _ Hj Ev)).
  - apply nth_error_None in Ev. lia.
Qed.

Lemma Hits1_update_screen (tg : Targets.t) (bl : Bullets.t) h g
  tg' bl' h' g' :
  Wave1_wf tg -> On_course tg -> At_rest bl ->
  Forall (fun x => (0 <= x <= 1)%Q) (Hits.xpos h) ->
  Hits.update tg bl h g = Ok (tg', bl', h', g') ->
  On_course tg' /\ At_rest bl'
  /\ Forall (fun x => (0 <= x <= 1)%Q) (Hits.xpos h').
Proof.
  intros Wt Hc Hr Hh H. apply Hits1_update_effect in H.
  destruct H as (s & s1 & vis' & vis1' & wt & xs & xp & _ & _ & _
                 & _ & _ & _ & Exs & Exp & -> & -> & -> & _).
  split; [exact Hc|]. split; [exact Hr|].
  cbn [Hits.age Hits.xpos]. apply Forall_forall. intros x Hin.
  apply In_nth_error in Hin. destruct Hin as (j & Hj).
  rewrite (scatter_gather_nth _ _ _ _ _ j Exs Exp) in Hj.
  destruct (existsb (Nat.eqb j) s).
  - exact (window_on_course tg j x Wt Hc Hj).
  - rewrite Forall_forall in Hh. apply Hh. eapply nth_error_In; eauto.
Qed.

(** *** Construction *)

Lemma Wave1_init_arrays {X} newpage fps v orient (e : X) w :
  Wave.init newpage fps v orient e = Ok w ->
  Wave.n w = 0
  /\ exists w0 p,
       newpage w0 = Ok p /\ Wave.N w0 = Wave.N w
       /\ Wave.xpos w
          = set_from (Wave.N w) (Wave.page_xpos p)
              (repeat 0%Q (2 * Wave.N w))
       /\ Wave.xspeed w
          = set_from (Wave.N w) (Wave.page_xspeed p)
              (repeat 0%Q (2 * Wave.N w)).
Proof.
  unfold Wave.init. intros H.
  bind_inv H as q Eq. remember (py_int q) as Nz eqn:ENz.
  bind_inv H as xp Exp. bind_inv H as xs Exs. bind_inv H as vis Evis.
  bind_inv H as yp Eyp. bind_inv H as p Ep.
  apply Ok_inj in H. subst w.
  apply zeros_Ok in Exp, Exs. destruct Exp as (Hpos & ->).
  destruct Exs as (_ & ->).
  replace (Z.to_nat (2 * Nz)) with (2 * Z.to_nat Nz) in * by lia.
  split; [reflexivity|]. eexists _, p. split; [exact Ep|].
  repeat split.
Qed.

Lemma Targets1_init_course rnd fps v rate width (w : Targets.t) :
  unit_draws rnd -> Wave1_wf w ->
  Targets.init rnd fps v rate width = Ok w -> On_course w.
Proof.
  intros Hu (_ & _ & _ & HN) H. unfold Targets.init in H.
  bind_inv H as r Er. apply Wave1_init_arrays in H.
  destruct H as (Hn & w0 & p & Hp & N0 & Hx & Hv).
  apply Targets1_newpage_arrays in Hp. destruct Hp as (Px & Pv).
  rewrite N0 in Px, Pv. rewrite Px in Hx. rewrite Pv in Hv.
  unfold On_course. rewrite Hn, Hx, Hv. intros s x v' _ Ex Ev.
  destruct (Nat.lt_ge_cases s (Wave.N w)) as [Hlt | Hge].
  - rewrite set_from_nth_lt in Ex, Ev by (rewrite ?repeat_length; lia).
    rewrite nth_error_repeat in Ex, Ev by lia.
    injection Ex as <-. injection Ev as <-. split; [lra|].
    rewrite Qmult_0_r. lra.
  - rewrite set_from_nth_ge in Ex, Ev by (rewrite ?repeat_length; lia).
    assert (Hs2 : s - Wave.N w < Wave.N w).
    { assert (Hl : s - Wave.N w < length (uniform_row rnd 0 (Wave.N w)))
        by (apply nth_error_Some; congruence).
      unfold uniform_row in Hl. rewrite length_map, length_seq in Hl.
      exact Hl. }
    replace (moves_left (Wave.N w) 0 s) with (Wave.N w)
      by (unfold moves_left; lia).
    exact (Targets1_page_course rnd (Wave.N w) (s - Wave.N w) x v' Hu
             ltac:(lia) Ex Ev).
Qed.

Lemma Bullets1_init_rest fps v rload (w : Bullets.t) :
  Bullets.init fps v rload = Ok w -> At_rest w.
Proof.
  unfold Bullets.init. intros H. apply Wave1_init_arrays in H.
  destruct H as (Hn & w0 & p & Hp & N0 & Hx & Hv).
  apply Bullets1_newpage_arrays in Hp. destruct Hp as (Px & Pv).
  rewrite Px in Hx. rewrite Pv in Hv.
  unfold At_rest. rewrite Hx, Hv. unfold set_from. cbn [broadcast].
  intros s x v' Ex Ev.
  assert (Hin : forall (a : Q) l k y,
             nth_error (firstn k (repeat 0%Q l) ++ repeat a (l - k)) s
             = Some y -> y = 0%Q \/ y = a).
  { intros a l k y Hy. apply nth_error_In in Hy. apply in_app_or in Hy.
    destruct Hy as [Hy | Hy].
    - left. apply (repeat_spec l 0%Q y).
      rewrite <- (firstn_skipn k (repeat 0%Q l)). apply in_or_app.
      left. exact Hy.
    - right. apply repeat_spec in Hy. exact Hy. }
  rewrite repeat_length in Ex, Ev.
  apply Hin in Ex. apply Hin in Ev.
  destruct Ex as [-> | ->]; destruct Ev as [-> | ->]; split; lra.
Qed.

Lemma Game1_init_screen rnd c g0 :
  unit_draws rnd -> Game.init rnd c = Ok g0 -> On_screen1 g0.
Proof.
  intros Hu H. pose proof (Game1_init_sound _ _ _ H) as (_ & Wt & _).
  unfold Game.init in H.
  bind_inv H as av Eav. bind_inv H as tg Etg. bind_inv H as bl Ebl.
  bind_inv H as h Eh. apply Ok_inj in H. subst g0.
  cbn [Game.targets] in Wt.
  unfold On_screen1. cbn [Game.targets Game.bullets Game.hits].
  split; [exact (Targets1_init_course _ _ _ _ _ _ Hu Wt Etg)|].
  split; [exact (Bullets1_init_rest _ _ _ _ Ebl)|].
  unfold Hits.init in Eh. bind_inv Eh as iN EiN. bind_inv Eh as iN1 EiN1.
  apply Ok_inj in Eh. subst h. cbn [Hits.xpos].
  apply Forall_forall. intros x Hx. apply repeat_spec in Hx. subst x. lra.
Qed.

(** *** Frames *)

Lemma Game1_update_screen env g g' :
  Game1_sound g -> On_screen1 g -> unit_draws (random env) ->
  Game.update Game.Factory1 env g = Ok g' -> On_screen1 g'.
Proof.
  intros (_ & Wt & Wb & _) (Hc & Hr & Hh) Hu H.
  destruct (tr_quit (Game.shared g)) eqn:Hq.
  - unfold Game.update in H. rewrite Hq in H. apply Ok_inj in H. subst g'.
    split; [exact Hc | split; [exact Hr | exact Hh]].
  - destruct (Game_update_running Game.Factory1 env g g' Hq H)
      as (g1 & time & d & Hcu & Hg').
    unfold Game.components_update in Hcu.
    cbn [Game.targets_update Game.bullets_update Game.hits_update
           Game.Factory1] in Hcu.
    bind_inv Hcu as [tg1 sh1] Et. bind_inv Hcu as [bl2 sh2] Eb.
    bind_inv Hcu as [[[tg3 bl3] h3] sh3] Eh. apply Ok_inj in Hcu.
    subst g1.
    cbn [Game.shared Game.nstep Game.gameover Game.perf Game.targets
           Game.bullets Game.hits] in Hg'.
    assert (Hb' : Game.bullets g' = bl3) by (subst g'; reflexivity).
    assert (Ht' : Game.targets g' = tg3) by (subst g'; reflexivity).
    assert (Hh' : Game.hits g' = h3) by (subst g'; reflexivity).
    clear Hg'.
    pose proof (Targets1_update_shared _ _ _ _ _ Et) as Hsh1.
    assert (Hav : (0 <= Avatar.pos_x (avatar sh1) <= 1)%Q).
    { rewrite Hsh1.
      destruct (_ <? _); cbn [avatar set_tr_miss set_avatar];
        apply Avatar_update_bounds. }
    pose proof (Targets1_update_wf _ _ _ _ _ Wt Et) as Wt1.
    pose proof (Targets1_update_course _ _ _ _ _ Wt Hc Hu Et) as Hc1.
    pose proof (Bullets1_update_rest _ _ _ _ Wb Hr Hav Eb) as Hr2.
    unfold On_screen1. rewrite Ht', Hb', Hh'.
    exact (Hits1_update_screen _ _ _ _ _ _ _ _ Wt1 Hc1 Hr2 Hh Eh).
Qed.

Lemma Game1_loop_screen inputs : forall g g',
  Game1_sound g -> On_screen1 g ->
  Forall (fun i => unit_draws (random (snd i))) inputs ->
  GameManager.loop Game.Factory1 inputs g = Ok g' ->
  Game1_sound g' /\ On_screen1 g'.
Proof.
  induction inputs as [|[keys env] rest IH]; intros g g' Hs Ho Hu H;
    simpl in H.
  - apply Ok_inj in H. subst g'. auto.
  - destruct (Game.gameover g).
    + apply Ok_inj in H. subst g'. auto.
    + bind_inv H as g1 E1.
      pose proof (Forall_inv Hu) as Hu1. cbn [snd] in Hu1.
      destruct (Game1_update_total env (GameManager.userinput keys g)
                  (Game1_sound_input keys g Hs)) as (g2 & E2 & Hs2).
      rewrite E1 in E2. apply Ok_inj in E2. subst g2.
      apply (IH g1 g' Hs2); [|exact (Forall_inv_tail Hu) | exact H].
      exact (Game1_update_screen env _ _ (Game1_sound_input keys g Hs)
               Ho Hu1 E1).
Qed.

Lemma Game1_loop_rows inputs : forall g g',
  Rows1 g -> GameManager.loop Game.Factory1 inputs g = Ok g' -> Rows1 g'.
Proof.
  induction inputs as [|[keys env] rest IH]; intros g g' Hr H; simpl in H.
  - apply Ok_inj in H. subst g'. exact Hr.
  - destruct (Game.gameover g).
    + apply Ok_inj in H. subst g'. exact Hr.
    + bind_inv H as g1 E1. apply (IH g1 g'); [|exact H].
      exact (Game1_update_rows env (GameManager.userinput keys g) g1 Hr
               E1).
Qed.

Lemma linspace01_unit (k : nat) :
  Forall (fun y => (0 <= y <= 1)%Q) (linspace01 k).
Proof.
  destruct k as [|[|k]].
  - constructor.
  - constructor; [lra | constructor].
  - unfold linspace01. apply Forall_forall. intros y Hy.
    apply in_map_iff in Hy. destruct Hy as (i & <- & Hi).
    apply in_seq in Hi.
    replace (S (S k) - 1) with (S k) by lia.
    assert (Hd : (0 < inject_Z (Z.of_nat (S k)))%Q).
    { change 0%Q with (inject_Z 0). rewrite <- Zlt_Qlt. lia. }
    assert (Hi0 : (0 <= inject_Z (Z.of_nat i))%Q).
    { change 0%Q with (inject_Z 0). rewrite <- Zle_Qle. lia. }
    assert (Hi1 : (inject_Z (Z.of_nat i) <= inject_Z (Z.of_nat (S k)))%Q).
    { rewrite <- Zle_Qle. lia. }
    split.
    + apply Qle_shift_div_l; [exact Hd|]. lra.
    + apply Qle_shift_div_r; [exact Hd|]. lra.
Qed.

Lemma masked_points (xs ys : list Q) (mask : list bool) :
  Forall (fun x => (0 <= x <= 1)%Q) xs ->
  Forall (fun y => (0 <= y <= 1)%Q) ys ->
  Forall in_unit_square (select_mask (combine xs ys) mask).
Proof.
  intros Hx Hy. apply select_mask_Forall. apply Forall_forall.
  intros [x y] Hin. rewrite Forall_forall in Hx, Hy. split.
  - apply Hx. eapply in_combine_l; eauto.
  - apply Hy. eapply in_combine_r; eauto.
Qed.
End Screen1.

(** X13.  shooter.py, with the floats read as exact rationals: when every
    [uniform(0,1)] draw is within [0, 1], after the construction and any
    run of the frame loop the display raises nothing and every point it
    gives the artists for the targets, the bullets and the hit markers is
    within the unit square.  A target slot starts at a draw [x], gets the
    speed [(xc - x)/N] and is moved [N] times, so it goes from [x] to the
    draw [xc] without leaving [0, 1]; a bullet keeps the position of the
    avatar, which [Avatar.update] has clipped; a marker takes the position
    of a target of the window. *)
Theorem X13_on_screen rnd c g0 inputs g :
  Shooter.Game.init rnd c = Ok g0 ->
  unit_draws rnd ->
  Forall (fun i => unit_draws (random (snd i))) inputs ->
  Shooter.GameManager.loop Shooter.Game.Factory1 inputs g0 = Ok g ->
  exists fr,
    Shooter.Game.display g = Ok fr
    /\ Forall in_unit_square (Shooter.Game.frame_targets fr)
    /\ Forall in_unit_square (Shooter.Game.frame_bullets fr)
    /\ Forall in_unit_square (Shooter.Game.frame_hits fr).
Proof.
  intros H0 Hu0 Hu Hl.
  pose proof (Game1_init_sound _ _ _ H0) as S0.
  pose proof (Game1_init_screen _ _ _ Hu0 H0) as O0.
  pose proof (Game1_loop_rows _ _ _ (Game1_init_rows _ _ _ H0) Hl)
    as (Rt & Rb & Rh).
  destruct (Game1_loop_screen _ _ _ S0 O0 Hu Hl)
    as ((_ & Wt & Wb & _ & Hf) & (Hc & Hr & Hh)).
  destruct Hf as (_ & _ & Lw & Lx).
  eexists. split.
  - apply display_with_Ok.
    + apply (Wave1_display_total _ Wt). rewrite Rt. apply linspace01_length.
    + apply (Wave1_display_total _ Wb).
      rewrite Rb, length_rev. apply linspace01_length.
    + apply (Hits1_display_total _ _ Lx Lw).
      rewrite Rh. apply linspace01_length.
  - cbn [Shooter.Game.frame_targets Shooter.Game.frame_bullets
           Shooter.Game.frame_hits].
    split; [|split].
    + apply masked_points.
      * apply Forall_forall. intros x Hx. apply In_nth_error in Hx.
        destruct Hx as (j & Hj). exact (window_on_course _ j x Wt Hc Hj).
      * rewrite Rt. apply linspace01_unit.
    + apply masked_points.
      * apply Forall_forall. intros x Hx. apply In_nth_error in Hx.
        destruct Hx as (j & Hj). exact (window_at_rest _ j x Wb Hr Hj).
      * rewrite Rb. apply Forall_rev. apply linspace01_unit.
    + apply Forall_forall. intros [x y] Hin. split; cbn [fst snd].
      * apply in_combine_l in Hin. revert x Hin. apply Forall_forall.
        apply select_mask_Forall. exact Hh.
      * apply in_combine_r in Hin. revert y Hin. apply Forall_forall.
        apply select_mask_Forall. rewrite Rh. apply linspace01_unit.
Qed.

Lemma demo_random_unit : unit_draws demo_random.
Proof.
  intros r col. unfold demo_random. cbn [uniform].
  destruct r as [|[|[|r]]]; destruct col; split; lra.
Qed.

Lemma X13_on_screen_witness :
  exists fr,
    Shooter.Game.display (demo_game 3) = Ok fr
    /\ Forall in_unit_square (Shooter.Game.frame_targets fr)
    /\ Forall in_unit_square (Shooter.Game.frame_bullets fr)
    /\ Forall in_unit_square (Shooter.Game.frame_hits fr).
Proof.
  apply (X13_on_screen demo_random demo_config (demo_game 0)
           (repeat (0%Z, demo_env) 3) (demo_game 3)).
  - vm_compute. reflexivity.
  - exact demo_random_unit.
  - simpl. repeat (apply Forall_cons; [exact demo_random_unit|]).
    apply Forall_nil.
  - vm_compute. reflexivity.
Defined.

(* ================================================================== *)
(** * shooter2.py: what [Hits.update] does *)
(* ================================================================== *)

(** [l[idx] = vals] where index and value are both read off one list of
    keys, and two keys of the same index carry the same value: whatever
    the order of the writes, each index ends with the value of its keys. *)
Lemma py_scatter_keys {K A} (ix : K -> Z) (f : K -> A) :
  forall (keys : list K) (l l' : list A),
    (forall k, In k keys -> (0 <= ix k)%Z) ->
    (forall k k', In k keys -> In k' keys -> ix k = ix k' -> f k = f k') ->
    py_scatter (map ix keys) (map f keys) l = Ok l' ->
    length l' = length l
    /\ (forall k, In k keys -> nth_error l' (Z.to_nat (ix k)) = Some (f k))
    /\ (forall j, (forall k, In k keys -> Z.to_nat (ix k) <> j) ->
                  nth_error l' j = nth_error l j).
Proof.
  induction keys as [|k keys IH]; intros l l' Hpos Hsame H; simpl in H.
  - apply Ok_inj in H. subst l'.
    split; [reflexivity|]. split; [intros k []|]. reflexivity.
  - replace (0 <=? ix k)%Z with true in H
      by (symmetry; apply Z.leb_le; apply Hpos; left; reflexivity).
    bind_inv H as l1 E1. apply store_Ok in E1. destruct E1 as (Hlt & ->).
    destruct (IH _ _ (fun k0 Hk0 => Hpos k0 (or_intror Hk0))
                (fun a b Ha Hb => Hsame a b (or_intror Ha) (or_intror Hb)) H)
      as (Hlen & Hhit & Hmiss).
    rewrite set_nth_length in Hlen.
    split; [exact Hlen|]. split.
    + intros k0 [<- | Hk0]; [|exact (Hhit k0 Hk0)].
      destruct (existsb (fun z => (z =? ix k)%Z) (map ix keys)) eqn:Ex.
      * apply existsb_exists in Ex. destruct Ex as (z & Hz & Ez).
        apply Z.eqb_eq in Ez. subst z. apply in_map_iff in Hz.
        destruct Hz as (k' & Ek' & Hk').
        rewrite <- Ek', (Hhit k' Hk'). f_equal.
        apply Hsame; [right; exact Hk' | left; reflexivity | exact Ek'].
      * rewrite Hmiss.
        -- rewrite set_nth_nth, Nat.eqb_refl.
           apply Nat.ltb_lt in Hlt. rewrite Hlt. reflexivity.
        -- intros k' Hk' Heq.
           assert (Hc : existsb (fun z => (z =? ix k)%Z) (map ix keys) = true).
           { apply existsb_exists. exists (ix k'). split.
             - apply in_map. exact Hk'.
             - apply Z.eqb_eq.
               pose proof (Hpos k' (or_intror Hk')).
               pose proof (Hpos k (or_introl eq_refl)). lia. }
           congruence.
    + intros j Hj. rewrite Hmiss by (intros k' Hk'; apply Hj; right; exact Hk').
      rewrite set_nth_nth.
      replace (j =? Z.to_nat (ix k)) with false; [reflexivity|].
      symmetry. apply Nat.eqb_neq. intros ->.
      exact (Hj k (or_introl eq_refl) eq_refl).
Qed.

Lemma nth_firstn_lt {A} (l : list A) n i (d : A) :
  i < n -> nth i (firstn n l) d = nth i l d.
Proof.
  revert n i. induction l as [|a l IH]; intros [|n] [|i] H; simpl; try lia;
    auto.
  apply IH. lia.
Qed.

Section HitsEffect2.
Import Shooter2.

(** The writes of [Hits.update]: [nz] and [nz1] are the positions, in the
    two alive-index lists, of the targets and of the bullets of the pairs
    found. *)
Lemma Hits2_update_effect {X X1} (tg : Wave.t X) (bl : Wave.t X1) h g
  tg' bl' h' g' :
  Hits.update tg bl h g = Ok (tg', bl', h', g') ->
  exists nz nz1 al al1 wt xp,
    length nz = length nz1
    /\ Forall (fun i => i < length (Wave.current tg)) nz
    /\ Forall (fun j => j < length (Wave.current bl)) nz1
    /\ fill (map (fun i => nth i (Wave.ialive tg) 0) nz) false
         (Wave.alive tg) = Ok al
    /\ fill (map (fun j => nth j (Wave.ialive bl) 0) nz1) false
         (Wave.alive bl) = Ok al1
    /\ py_fill
         (map (fun i => (nth (nth i (Wave.current tg) 0%nat) (Wave.born tg) 0
                         - fst (Wave.cslice tg))%Z) nz)
         (Shooter.Hits.timeout h) (Shooter.Hits.weight h) = Ok wt
    /\ py_scatter
         (map (fun i => (nth (nth i (Wave.current tg) 0%nat) (Wave.born tg) 0
                         - fst (Wave.cslice tg))%Z) nz)
         (map (fun i => nth (nth i (Wave.ialive tg) 0) (Wave.xpos tg) 0%Q)
            nz)
         (Shooter.Hits.xpos h) = Ok xp
    /\ Forall (fun i => nth i (Wave.ialive tg) 0 < length (Wave.xpos tg)) nz
    /\ tg' = Wave.set_alive al tg /\ bl' = Wave.set_alive al1 bl
    /\ h' = Shooter.Hits.age
              (Shooter.Hits.mk (Shooter.Hits.timeout h) (Shooter.Hits.tol h)
                 (Shooter.Hits.clashmat h) (Shooter.Hits.ypos h) xp wt
                 (Shooter.Hits.score h + length nz))
    /\ (forall i j it ib xi vi xj vj bi bj row m,
          nth_error (Wave.current tg) i = Some it ->
          nth_error (Wave.current bl) j = Some ib ->
          nth_error (Wave.xpos tg) it = Some xi ->
          nth_error (Wave.xspeed tg) it = Some vi ->
          nth_error (Wave.xpos bl) ib = Some xj ->
          nth_error (Wave.xspeed bl) ib = Some vj ->
          nth_error (Wave.born tg) it = Some bi ->
          nth_error (Wave.born bl) ib = Some bj ->
          py_index (Shooter.Hits.clashmat h) (bi - fst (Wave.cslice tg))
          = Ok row ->
          py_index row (bj - fst (Wave.cslice bl)) = Ok m ->
          (In (i, j) (combine nz nz1)
           <-> collide (Shooter.Hits.tol h) (xj - xi) (vj - vi) m)).
Proof.
  unfold Hits.update. intros H.
  bind_inv H as [[[tg1 bl1] h1] g1] Hu. apply Ok_inj in H.
  injection H as <- <- <- <-.
  assert (Hnone :
    (forall i j it ib xi vi xj vj bi bj row m,
        nth_error (Wave.current tg) i = Some it ->
        nth_error (Wave.current bl) j = Some ib ->
        nth_error (Wave.xpos tg) it = Some xi ->
        nth_error (Wave.xspeed tg) it = Some vi ->
        nth_error (Wave.xpos bl) ib = Some xj ->
        nth_error (Wave.xspeed bl) ib = Some vj ->
        nth_error (Wave.born tg) it = Some bi ->
        nth_error (Wave.born bl) ib = Some bj ->
        py_index (Shooter.Hits.clashmat h) (bi - fst (Wave.cslice tg))
        = Ok row ->
        py_index row (bj - fst (Wave.cslice bl)) = Ok m ->
        ~ collide (Shooter.Hits.tol h) (xj - xi) (vj - vi) m) ->
    exists nz nz1 al al1 wt xp,
      length nz = length nz1
      /\ Forall (fun i => i < length (Wave.current tg)) nz
      /\ Forall (fun j => j < length (Wave.current bl)) nz1
      /\ fill (map (fun i => nth i (Wave.ialive tg) 0) nz) false
           (Wave.alive tg) = Ok al
      /\ fill (map (fun j => nth j (Wave.ialive bl) 0) nz1) false
           (Wave.alive bl) = Ok al1
      /\ py_fill
           (map (fun i => (nth (nth i (Wave.current tg) 0%nat) (Wave.born tg) 0
                           - fst (Wave.cslice tg))%Z) nz)
           (Shooter.Hits.timeout h) (Shooter.Hits.weight h) = Ok wt
      /\ py_scatter
           (map (fun i => (nth (nth i (Wave.current tg) 0%nat) (Wave.born tg) 0
                           - fst (Wave.cslice tg))%Z) nz)
           (map (fun i => nth (nth i (Wave.ialive tg) 0) (Wave.xpos tg) 0%Q)
              nz)
           (Shooter.Hits.xpos h) = Ok xp
      /\ Forall (fun i => nth i (Wave.ialive tg) 0 < length (Wave.xpos tg))
           nz
      /\ tg = Wave.set_alive al tg /\ bl = Wave.set_alive al1 bl
      /\ Shooter.Hits.age h
         = Shooter.Hits.age
             (Shooter.Hits.mk (Shooter.Hits.timeout h) (Shooter.Hits.tol h)
                (Shooter.Hits.clashmat h) (Shooter.Hits.ypos h) xp wt
                (Shooter.Hits.score h + length nz))
      /\ (forall i j it ib xi vi xj vj bi bj row m,
            nth_error (Wave.current tg) i = Some it ->
            nth_error (Wave.current bl) j = Some ib ->
            nth_error (Wave.xpos tg) it = Some xi ->
            nth_error (Wave.xspeed tg) it = Some vi ->
            nth_error (Wave.xpos bl) ib = Some xj ->
            nth_error (Wave.xspeed bl) ib = Some vj ->
            nth_error (Wave.born tg) it = Some bi ->
            nth_error (Wave.born bl) ib = Some bj ->
            py_index (Shooter.Hits.clashmat h) (bi - fst (Wave.cslice tg))
            = Ok row ->
            py_index row (bj - fst (Wave.cslice bl)) = Ok m ->
            (In (i, j) (combine nz nz1)
             <-> collide (Shooter.Hits.tol h) (xj - xi) (vj - vi) m))).
  { intros Hno.
    exists [], [], (Wave.alive tg), (Wave.alive bl), (Shooter.Hits.weight h),
      (Shooter.Hits.xpos h). simpl.
    split; [reflexivity|]. split; [constructor|]. split; [constructor|].
    repeat (split; [reflexivity|]). split; [constructor|].
    split; [symmetry; apply set_alive_same|].
    split; [symmetry; apply set_alive_same|].
    split; [rewrite Nat.add_0_r; destruct h; reflexivity|].
    intros i j it ib xi vi xj vj bi bj row m
      Hi Hj Hxi Hvi Hxj Hvj Hbi Hbj Hrow Hm.
    split; [intros []|]. intros Hc. exfalso.
    exact (Hno i j it ib xi vi xj vj bi bj row m
             Hi Hj Hxi Hvi Hxj Hvj Hbi Hbj Hrow Hm Hc). }
  destruct ((0 <? length (Wave.current tg))
            && (0 <? length (Wave.current bl))) eqn:Elen.
  - bind_inv Hu as [[nz nz1] r] Ed.
    pose proof (detect2_bounds _ _ _ _ _ _ _ _ Ed)
      as (Hlen & Hnz & Hnz1 & Hr).
    pose proof (Hits2_detect_spec _ _ _ _ _ _ _ _ Ed) as Hspec.
    destruct (0 <? length nz) eqn:Enz.
    + bind_inv Hu as it Eit. bind_inv Hu as al Eal. bind_inv Hu as ib Eib.
      bind_inv Hu as al1 Eal1. bind_inv Hu as rnz Ernz.
      bind_inv Hu as wt Ewt. bind_inv Hu as xs Exs. bind_inv Hu as xp Exp.
      apply Ok_inj in Hu. injection Hu as <- <- <- <-.
      pose proof (gather_valid _ _ _ Exs) as Vxs.
      rewrite (gather_map _ _ _ 0 Eit) in *.
      rewrite (gather_map _ _ _ 0 Eib) in *.
      rewrite (gather_map _ _ _ 0%Q Exs) in *.
      rewrite (gather_map _ _ _ 0%Z Ernz) in *.
      rewrite map_map in Exp.
      assert (Hrows : map (fun i => nth i r 0%Z) nz
                      = map (fun i =>
                               (nth (nth i (Wave.current tg) 0%nat)
                                  (Wave.born tg) 0
                                - fst (Wave.cslice tg))%Z) nz).
      { apply map_ext_in. intros i Hi. rewrite Forall_forall in Hnz.
        specialize (Hnz i Hi). rewrite Hr.
        set (F := fun i0 : nat =>
                    (nth i0 (Wave.born tg) 0 - fst (Wave.cslice tg))%Z).
        rewrite (nth_indep (map F (Wave.current tg)) 0%Z (F 0))
          by (rewrite length_map; exact Hnz).
        exact (map_nth F (Wave.current tg) 0 i). }
      rewrite Hrows in Ewt, Exp.
      exists nz, nz1, al, al1, wt, xp.
      split; [exact Hlen|]. split; [exact Hnz|]. split; [exact Hnz1|].
      split; [exact Eal|]. split; [exact Eal1|]. split; [exact Ewt|].
      split; [exact Exp|].
      split; [rewrite Forall_map in Vxs; exact Vxs|].
      split; [reflexivity|]. split; [reflexivity|].
      split; [reflexivity|]. exact Hspec.
    + apply Ok_inj in Hu. injection Hu as <- <- <- <-. apply Hnone.
      intros i j it ib xi vi xj vj bi bj row m
        Hi Hj Hxi Hvi Hxj Hvj Hbi Hbj Hrow Hm Hc.
      apply Nat.ltb_ge in Enz.
      assert (nz = []) by (destruct nz; [reflexivity | simpl in Enz; lia]).
      subst nz. destruct nz1; [|discriminate].
      apply (Hspec i j it ib xi vi xj vj bi bj row m
               Hi Hj Hxi Hvi Hxj Hvj Hbi Hbj Hrow Hm) in Hc.
      exact Hc.
  - apply Ok_inj in Hu. injection Hu as <- <- <- <-. apply Hnone.
    intros i j it ib xi vi xj vj bi bj row m Hi Hj _ _ _ _ _ _ _ _ _.
    apply andb_false_iff in Elen.
    assert (L1 : i < length (Wave.current tg))
      by (apply nth_error_Some; congruence).
    assert (L2 : j < length (Wave.current bl))
      by (apply nth_error_Some; congruence).
    destruct Elen as [E | E]; apply Nat.ltb_ge in E; lia.
Qed.
End HitsEffect2.

Section HitsFrame2.
Import Shooter2.

(** The rows of the listed sprites: within the window, and different
    for different sprites. *)
Lemma listed_rows {X} (w : Wave.t X) :
  Wave2_inv w ->
  (forall i, i < length (Wave.current w) ->
     (0 <= nth (nth i (Wave.current w) 0%nat) (Wave.born w) 0
           - fst (Wave.cslice w) < Z.of_nat (Wave.N w))%Z
     /\ nth i (Wave.current w) 0 = nth i (Wave.ialive w) 0)
  /\ (forall i i', i < length (Wave.current w) ->
        i' < length (Wave.current w) ->
        nth (nth i (Wave.current w) 0) (Wave.born w) 0%Z
        = nth (nth i' (Wave.current w) 0) (Wave.born w) 0%Z ->
        i = i').
Proof.
  intros Hinv. destruct (listed_bounds w Hinv) as (_ & Hrows & _).
  destruct Hinv as (Hc & _). pose proof (inv_sorted _ _ _ _ Hc) as Hsort.
  unfold births_upto in Hsort. fold (Wave.current w) in Hsort.
  split.
  - intros i Hi. split.
    + rewrite Forall_map, Forall_forall in Hrows.
      apply Hrows. apply nth_In. exact Hi.
    + unfold Wave.current in *. rewrite length_firstn in Hi.
      apply nth_firstn_lt. lia.
  - intros i i' Hi Hi' Heq.
    apply (sorted_nth_inj _ i i'
             (nth (nth i (Wave.current w) 0) (Wave.born w) 0%Z) Hsort).
    + rewrite nth_error_map, (nth_error_nth' _ 0 Hi). reflexivity.
    + rewrite nth_error_map, (nth_error_nth' _ 0 Hi'). cbn [option_map].
      f_equal. symmetry. exact Heq.
Qed.
End HitsFrame2.

(** X14.  shooter2.py, [Hits.update] on a wave of targets that keeps its
    invariant: a listed target and a listed bullet are paired exactly when
    they collide; the score grows by the number of pairs; the [alive] flags
    of the paired targets and bullets are cleared, no other flag changes,
    and nothing else of the two waves does; the row [born - cslice[0]] of
    each paired target gets a marker at the position of that target, with a
    full weight, and every weight then loses one, within [0, timeout]; the
    other rows keep their marker. *)
Theorem X14_hits2_update_effect {X X1}
  (tg : Shooter2.Wave.t X) (bl : Shooter2.Wave.t X1) h g tg' bl' h' g' :
  Wave2_inv tg ->
  Shooter2.Hits.update tg bl h g = Ok (tg', bl', h', g') ->
  let row := fun i : nat =>
    Z.to_nat (nth (nth i (Shooter2.Wave.ialive tg) 0%nat)
                (Shooter2.Wave.born tg) 0
              - fst (Shooter2.Wave.cslice tg))%Z in
  exists pairs : list (nat * nat),
    (forall i j it ib xi vi xj vj bi bj r m,
        nth_error (Shooter2.Wave.current tg) i = Some it ->
        nth_error (Shooter2.Wave.current bl) j = Some ib ->
        nth_error (Shooter2.Wave.xpos tg) it = Some xi ->
        nth_error (Shooter2.Wave.xspeed tg) it = Some vi ->
        nth_error (Shooter2.Wave.xpos bl) ib = Some xj ->
        nth_error (Shooter2.Wave.xspeed bl) ib = Some vj ->
        nth_error (Shooter2.Wave.born tg) it = Some bi ->
        nth_error (Shooter2.Wave.born bl) ib = Some bj ->
        py_index (Shooter.Hits.clashmat h)
          (bi - fst (Shooter2.Wave.cslice tg)) = Ok r ->
        py_index r (bj - fst (Shooter2.Wave.cslice bl)) = Ok m ->
        (In (i, j) pairs
         <-> collide (Shooter.Hits.tol h) (xj - xi) (vj - vi) m))
    /\ (forall i j, In (i, j) pairs ->
          i < length (Shooter2.Wave.current tg)
          /\ j < length (Shooter2.Wave.current bl))
    /\ Shooter.Hits.score h' = Shooter.Hits.score h + length pairs
    /\ tg' = Shooter2.Wave.set_alive (Shooter2.Wave.alive tg') tg
    /\ bl' = Shooter2.Wave.set_alive (Shooter2.Wave.alive bl') bl
    /\ (forall k,
          nth_error (Shooter2.Wave.alive tg') k
          = if existsb (Nat.eqb k)
                 (map (fun p => nth (fst p) (Shooter2.Wave.ialive tg) 0)
                    pairs)
            then Some false else nth_error (Shooter2.Wave.alive tg) k)
    /\ (forall k,
          nth_error (Shooter2.Wave.alive bl') k
          = if existsb (Nat.eqb k)
                 (map (fun p => nth (snd p) (Shooter2.Wave.ialive bl) 0)
                    pairs)
            then Some false else nth_error (Shooter2.Wave.alive bl) k)
    /\ (forall i j, In (i, j) pairs ->
          row i < Shooter2.Wave.N tg
          /\ nth_error (Shooter.Hits.xpos h') (row i)
             = nth_error (Shooter2.Wave.xpos tg)
                 (nth i (Shooter2.Wave.ialive tg) 0)
          /\ nth_error (Shooter.Hits.weight h') (row i)
             = Some (clipZ (Shooter.Hits.timeout h - 1) 0
                       (Shooter.Hits.timeout h)))
    /\ (forall k, (forall i j, In (i, j) pairs -> row i <> k) ->
          nth_error (Shooter.Hits.xpos h') k
          = nth_error (Shooter.Hits.xpos h) k
          /\ nth_error (Shooter.Hits.weight h') k
             = option_map
                 (fun w => clipZ (w - 1) 0 (Shooter.Hits.timeout h))
                 (nth_error (Shooter.Hits.weight h) k)).
Proof.
  intros Hinv H. cbv zeta. apply Hits2_update_effect in H.
  destruct H as (nz & nz1 & al & al1 & wt & xp & Hlen & Hnz & Hnz1 & Eal
                 & Eal1 & Ewt & Exp & Vx & -> & -> & -> & Hspec).
  destruct (listed_rows tg Hinv) as (Hrow & Hinj).
  rewrite Forall_forall in Hnz, Hnz1, Vx.
  set (ix := fun i : nat =>
               (nth (nth i (Shooter2.Wave.current tg) 0%nat)
                  (Shooter2.Wave.born tg) 0
                - fst (Shooter2.Wave.cslice tg))%Z) in *.
  set (f := fun i : nat =>
              nth (nth i (Shooter2.Wave.ialive tg) 0)
                (Shooter2.Wave.xpos tg) 0%Q) in *.
  assert (Hix : forall i, In i nz ->
              (0 <= ix i < Z.of_nat (Shooter2.Wave.N tg))%Z
              /\ ix i = (nth (nth i (Shooter2.Wave.ialive tg) 0%nat)
                           (Shooter2.Wave.born tg) 0
                         - fst (Shooter2.Wave.cslice tg))%Z).
  { intros i Hi. destruct (Hrow i (Hnz i Hi)) as (Hr & He).
    split; [exact Hr|]. unfold ix. rewrite He. reflexivity. }
  destruct (py_scatter_keys ix f nz _ _
              (fun i Hi => proj1 (proj1 (Hix i Hi)))
              ltac:(intros i i' Hi Hi' Heq; unfold ix in Heq;
                    assert (i = i')
                      by (apply Hinj; [apply Hnz; exact Hi
                                      | apply Hnz; exact Hi' | lia]);
                    subst i'; reflexivity)
              Exp) as (_ & Hhit & Hmiss).
  assert (Hpos : Forall (fun x => (0 <= x)%Z) (map ix nz)).
  { apply Forall_map. apply Forall_forall. intros i Hi.
    exact (proj1 (proj1 (Hix i Hi))). }
  exists (combine nz nz1).
  rewrite <- (map_map fst (fun i => nth i (Shooter2.Wave.ialive tg) 0)).
  rewrite <- (map_map snd (fun j => nth j (Shooter2.Wave.ialive bl) 0)).
  rewrite (map_fst_combine _ _ Hlen), (map_snd_combine _ _ Hlen).
  split; [exact Hspec|]. split.
  { intros i j Hin. split.
    - apply Hnz. eapply in_combine_l; eauto.
    - apply Hnz1. eapply in_combine_r; eauto. }
  split.
  { cbn [Shooter.Hits.age Shooter.Hits.score]. rewrite length_combine.
    rewrite <- Hlen, Nat.min_id. reflexivity. }
  split; [reflexivity|]. split; [reflexivity|].
  split; [intros k; apply (fill_nth _ _ _ _ k Eal)|].
  split; [intros k; apply (fill_nth _ _ _ _ k Eal1)|].
  cbn [Shooter.Hits.age Shooter.Hits.xpos Shooter.Hits.weight
         Shooter.Hits.timeout].
  split.
  - intros i j Hin. apply in_combine_l in Hin.
    destruct (Hix i Hin) as (Hr & He). rewrite <- He.
    split; [lia|]. split.
    + rewrite (Hhit i Hin). unfold f. symmetry.
      apply nth_error_nth'. apply Vx. exact Hin.
    + rewrite nth_error_map, (py_fill_nth _ _ _ _ (Z.to_nat (ix i)) Hpos Ewt).
      replace (existsb (fun z => (z =? Z.of_nat (Z.to_nat (ix i)))%Z)
                 (map ix nz)) with true; [reflexivity|].
      symmetry. apply existsb_exists. exists (ix i).
      split; [apply in_map; exact Hin|]. apply Z.eqb_eq. lia.
  - intros k Hk.
    assert (Hk' : forall i, In i nz -> Z.to_nat (ix i) <> k).
    { intros i Hi. destruct (Hix i Hi) as (_ & He). rewrite He.
      assert (exists j, In (i, j) (combine nz nz1)) as (j & Hj).
      { apply In_nth_error in Hi. destruct Hi as (p & Hp).
        assert (Hp1 : p < length nz1)
          by (rewrite <- Hlen; apply nth_error_Some; congruence).
        destruct (nth_error nz1 p) as [j|] eqn:Ej;
          [|apply nth_error_None in Ej; lia].
        exists j. eapply In_combine_nth; eauto. }
      exact (Hk i j Hj). }
    split; [exact (Hmiss k Hk')|].
    rewrite nth_error_map, (py_fill_nth _ _ _ _ k Hpos Ewt).
    replace (existsb (fun z => (z =? Z.of_nat k)%Z) (map ix nz)) with false;
      [reflexivity|].
    symmetry. apply not_true_is_false. intros Hex.
    apply existsb_exists in Hex. destruct Hex as (z & Hz & Ez).
    apply Z.eqb_eq in Ez. apply in_map_iff in Hz.
    destruct Hz as (i & <- & Hi). apply (Hk' i Hi). lia.
Qed.

Lemma X14_hits2_update_effect_witness :
  exists pairs : list (nat * nat),
    Shooter.Hits.score (snd (fst demo2_struck))
    = Shooter.Hits.score (Shooter.Game.hits demo2_game) + length pairs
    /\ forall k,
         nth_error (Shooter2.Wave.alive (fst (fst (fst demo2_struck)))) k
         = if existsb (Nat.eqb k)
                (map (fun p =>
                        nth (fst p)
                          (Shooter2.Wave.ialive (fst demo2_waves)) 0)
                   pairs)
           then Some false
           else nth_error (Shooter2.Wave.alive (fst demo2_waves)) k.
Proof.
  destruct (X14_hits2_update_effect (fst demo2_waves) (snd demo2_waves)
              (Shooter.Game.hits demo2_game)
              (Shooter.Game.shared demo2_game)
              (fst (fst (fst demo2_struck))) (snd (fst (fst demo2_struck)))
              (snd (fst demo2_struck)) (snd demo2_struck)
              ltac:(apply (Targets2_update_inv demo_random
                             (Shooter.Game.targets demo2_game)
                             (fst demo2_waves)
                             (Shooter.Game.shared demo2_game)
                             (Shooter.Game.shared demo2_game));
                    [apply (Targets2_init_inv demo_random 2 1 1 (1 # 25));
                     vm_compute; reflexivity
                    |vm_compute; reflexivity
                    |vm_compute; reflexivity])
              ltac:(vm_compute; reflexivity))
    as (pairs & _ & _ & Hscore & _ & _ & Halive & _).
  exists pairs. split; [exact Hscore | exact Halive].
Defined.

(* ================================================================== *)
(** * shooter2.py: the sprites stay on the screen *)
(* ================================================================== *)

Lemma gather_Forall {A} (P : A -> Prop) (l : list A) idx r :
  gather l idx = Ok r -> Forall P l -> Forall P r.
Proof.
  intros H Hl. apply Forall_forall. intros a Ha.
  apply In_nth_error in Ha. destruct Ha as (k & Hk).
  apply (gather_nth _ _ _ _ _ H) in Hk. destruct Hk as (i & _ & Hi).
  rewrite Forall_forall in Hl. apply Hl. eapply nth_error_In; eauto.
Qed.

Lemma firstn_Forall {A} (P : A -> Prop) n (l : list A) :
  Forall P l -> Forall P (firstn n l).
Proof.
  intros H. rewrite <- (firstn_skipn n l) in H.
  apply Forall_app in H. tauto.
Qed.

Lemma skipn_Forall {A} (P : A -> Prop) n (l : list A) :
  Forall P l -> Forall P (skipn n l).
Proof.
  intros H. rewrite <- (firstn_skipn n l) in H.
  apply Forall_app in H. tauto.
Qed.

Lemma set_slice_Forall {A} (P : A -> Prop) lo hi vals (l : list A) :
  Forall P vals -> Forall P l -> Forall P (set_slice lo hi vals l).
Proof.
  intros Hv Hl. unfold set_slice. apply Forall_app. split.
  - apply firstn_Forall. exact Hl.
  - apply Forall_app. split; [exact Hv | apply skipn_Forall; exact Hl].
Qed.

Lemma set_from_Forall {A} (P : A -> Prop) lo (v : rhs A) (l : list A) :
  Forall P l ->
  match v with Scalar a => P a | Array vals => Forall P vals end ->
  Forall P (set_from lo v l).
Proof.
  intros Hl Hv. unfold set_from. apply Forall_app. split.
  - apply firstn_Forall. exact Hl.
  - destruct v as [a | vals]; cbn [broadcast]; [|exact Hv].
    apply Forall_forall. intros x Hx. apply repeat_spec in Hx. subst x.
    exact Hv.
Qed.

Lemma set_nth_Forall {A} (P : A -> Prop) (l : list A) i x :
  Forall P l -> P x -> Forall P (set_nth l i x).
Proof.
  intros Hl Hx. apply Forall_forall. intros a Ha.
  apply In_nth_error in Ha. destruct Ha as (k & Hk).
  rewrite set_nth_nth in Hk. destruct (k =? i).
  - destruct (i <? length l); [|discriminate]. injection Hk as <-. exact Hx.
  - rewrite Forall_forall in Hl. apply Hl. eapply nth_error_In; eauto.
Qed.

Lemma scatter_Forall {A} (P : A -> Prop) idx : forall (vals l l' : list A),
  scatter idx vals l = Ok l' -> Forall P l -> Forall P vals -> Forall P l'.
Proof.
  induction idx as [|i idx IH]; intros vals l l' H Hl Hv.
  - destruct vals; simpl in H; apply Ok_inj in H; subst l'; exact Hl.
  - destruct vals as [|a vals]; simpl in H.
    + apply Ok_inj in H. subst l'. exact Hl.
    + bind_inv H as l1 E1. apply store_Ok in E1. destruct E1 as (_ & ->).
      apply (IH _ _ _ H).
      * apply set_nth_Forall; [exact Hl | exact (Forall_inv Hv)].
      * exact (Forall_inv_tail Hv).
Qed.

Lemma py_scatter_Forall {A} (P : A -> Prop) idx :
  forall (vals l l' : list A),
    py_scatter idx vals l = Ok l' -> Forall P l -> Forall P vals ->
    Forall P l'.
Proof.
  induction idx as [|i idx IH]; intros vals l l' H Hl Hv.
  - destruct vals; simpl in H; apply Ok_inj in H; subst l'; exact Hl.
  - destruct vals as [|a vals]; simpl in H.
    + apply Ok_inj in H. subst l'. exact Hl.
    + bind_inv H as l1 E1.
      assert (Hl1 : Forall P l1).
      { destruct (0 <=? i)%Z;
          [| destruct (- Z.of_nat (length l) <=? i)%Z; [|discriminate]];
          apply store_Ok in E1; destruct E1 as (_ & ->);
          apply set_nth_Forall; solve [exact Hl | exact (Forall_inv Hv)]. }
      exact (IH _ _ _ H Hl1 (Forall_inv_tail Hv)).
Qed.

Lemma map2_Forall {A B C} (P : A -> Prop) (Q0 : B -> Prop) (R : C -> Prop)
  (f : A -> B -> C) :
  (forall a b, P a -> Q0 b -> R (f a b)) ->
  forall l1 l2, Forall P l1 -> Forall Q0 l2 -> Forall R (map2 f l1 l2).
Proof.
  intros Hf l1. induction l1 as [|a l1 IH]; intros [|b l2] H1 H2; simpl;
    try constructor.
  - apply Hf; [exact (Forall_inv H1) | exact (Forall_inv H2)].
  - apply IH; [exact (Forall_inv_tail H1) | exact (Forall_inv_tail H2)].
Qed.

Section Screen2Bullets.
Import Shooter2.

Lemma Bullets2_arrive_rest tend n1 (w1 : Bullets.t) g1 w2 g2 n2 :
  Rest2 w1 -> (0 <= Shooter.Avatar.pos_x (Shooter.avatar g1) <= 1)%Q ->
  Wave.arrive Bullets.entering Bullets.newcontent tend n1 w1 g1
  = Ok (w2, g2, n2) ->
  Rest2 w2.
Proof.
  intros (Rx & Rv) Ha H. unfold Wave.arrive in H.
  destruct (Wave.tborn w1 =? tend)%Z.
  - bind_inv H as ia Eia. bind_inv H as [w' g'] Ee.
    unfold Bullets.entering in Ee. bind_inv Ee as xp Exp.
    apply Ok_inj in Ee. injection Ee as <- <-.
    apply store_Ok in Exp. destruct Exp as (_ & ->).
    wave2_fields_in H.
    assert (Rx1 : Forall (fun x => (0 <= x <= 1)%Q)
                    (set_nth (Wave.xpos w1) (Wave.nborn w1)
                       (Shooter.Avatar.pos_x (Shooter.avatar g1))))
      by (apply set_nth_Forall; assumption).
    bind_inv H as w4 E4. bind_inv H as tb Etb.
    apply Ok_inj in H. injection H as <- <- <-.
    destruct (Wave.nborn w1 + 1 =? Wave.M w1).
    + unfold Wave.recycle in E4. wave2_fields_in E4.
      bind_inv E4 as bo Ebo. bind_inv E4 as xp' Exp'.
      bind_inv E4 as xs Exs. bind_inv E4 as w6 E6.
      apply Ok_inj in E4. subst w4.
      unfold Bullets.newcontent in E6. wave2_fields_in E6.
      bind_inv E6 as ks Eks. apply Ok_inj in E6. subst w6.
      unfold Rest2. wave2_fields. split.
      * apply set_from_Forall; [|lra].
        apply set_slice_Forall; [|exact Rx1].
        exact (gather_Forall _ _ _ _ Exp' Rx1).
      * apply set_from_Forall; [|reflexivity].
        apply set_slice_Forall; [|exact Rv].
        exact (gather_Forall _ _ _ _ Exs Rv).
    + apply Ok_inj in E4. subst w4. unfold Rest2. wave2_fields.
      split; [exact Rx1 | exact Rv].
  - apply Ok_inj in H. injection H as <- <- <-. split; assumption.
Qed.

Lemma advance_rest (w w3 : Bullets.t) :
  Rest2 w -> Wave.advance w = Ok w3 -> Rest2 w3.
Proof.
  intros (Rx & Rv) H. unfold Wave.advance in H.
  destruct (0 <? Wave.nalive w).
  - bind_inv H as xa Exa. bind_inv H as va Eva. bind_inv H as xp Exp.
    apply Ok_inj in H. subst w3. unfold Rest2. wave2_fields.
    split; [|exact Rv].
    apply (scatter_Forall _ _ _ _ _ Exp Rx).
    apply (map2_Forall (fun x => (0 <= x <= 1)%Q) (fun v => (v == 0)%Q)).
    + intros x v Hx Hv. lra.
    + exact (gather_Forall _ _ _ _ Exa Rx).
    + exact (gather_Forall _ _ _ _ Eva Rv).
  - apply Ok_inj in H. subst w3. split; assumption.
Qed.

Lemma Bullets2_update_rest (w w' : Bullets.t) g g' :
  Rest2 w -> (0 <= Shooter.Avatar.pos_x (Shooter.avatar g) <= 1)%Q ->
  Bullets.update w g = Ok (w', g') -> Rest2 w'.
Proof.
  intros Hr Ha H. unfold Bullets.update, Wave.update in H.
  destruct (Wave.cslice w) as [tbeg tend].
  bind_inv H as [[w1 g1] n1] E1. bind_inv H as [[w2 g2] n2] E2.
  bind_inv H as w3 E3. apply Ok_inj in H. injection H as <- <-.
  assert (Hg1 : g1 = g).
  { unfold Wave.expire in E1. destruct (0 <? Wave.nalive w).
    - bind_inv E1 as s Es. bind_inv E1 as a0 Ea0. bind_inv E1 as b0 Eb0.
      bind_inv E1 as [[wa ga] s1] Eh. bind_inv E1 as kept Ek.
      apply Ok_inj in E1. injection E1 as _ <- _.
      destruct (b0 =? tbeg)%Z.
      + bind_inv Eh as s0 Es0. destruct s0.
        * unfold Wave.pass in Eh. cbn [bind] in Eh. apply Ok_inj in Eh.
          injection Eh as _ <- _. reflexivity.
        * apply Ok_inj in Eh. injection Eh as _ <- _. reflexivity.
      + apply Ok_inj in Eh. injection Eh as _ <- _. reflexivity.
    - apply Ok_inj in E1. injection E1 as _ <- _. reflexivity. }
  subst g1.
  apply Bullets2_expire_same in E1. destruct E1 as (ia & ->).
  assert (R1 : Rest2 (Wave.set_ialive ia w)) by exact Hr.
  pose proof (Bullets2_arrive_rest _ _ _ _ _ _ _ R1 Ha E2) as R2.
  assert (R2' : Rest2 (Wave.set_nalive n2 w2)) by exact R2.
  pose proof (advance_rest _ _ R2' E3) as R3. exact R3.
Qed.
End Screen2Bullets.

Lemma course2_moved (x v : Q) (r : Z) :
  (1 <= r)%Z -> (0 <= x <= 1)%Q -> (0 <= x + inject_Z r * v <= 1)%Q ->
  (0 <= x + v <= 1)%Q /\ (0 <= x + v + inject_Z (r - 1) * v <= 1)%Q.
Proof.
  intros Hr Hx Hc.
  replace r with ((r - 1) + 1)%Z in Hc by lia.
  rewrite inject_Z_plus in Hc. change (inject_Z 1) with 1%Q in Hc.
  set (q := inject_Z (r - 1)) in *.
  assert (Hq : (0 <= q)%Q).
  { unfold q. change 0%Q with (inject_Z 0). rewrite <- Zle_Qle. lia. }
  split; [|lra].
  destruct (Qlt_le_dec v 0) as [Hv | Hv].
  - assert (q * v <= 0)%Q by nra. lra.
  - assert (0 <= q * v)%Q by nra. lra.
Qed.

(** A fresh target: it starts at a draw and, after [N] moves, ends at
    another draw. *)
Lemma fresh_course rnd (len N0 j : nat) :
  unit_draws rnd -> 0 < N0 -> j < len ->
  let x := nth j (uniform_row rnd 0 len) 0%Q in
  let v := nth j
             (map (fun d => (d / inject_Z (Z.of_nat N0))%Q)
                (map2 Qminus (uniform_row rnd 1 len) (uniform_row rnd 0 len)))
             0%Q in
  (0 <= x <= 1)%Q /\ (0 <= x + inject_Z (Z.of_nat N0) * v <= 1)%Q.
Proof.
  intros Hu HN Hj. cbv zeta.
  assert (Ex : nth_error (uniform_row rnd 0 len) j = Some (uniform rnd 0 j)).
  { unfold uniform_row. rewrite nth_error_map, nth_error_seq.
    replace (j <? len) with true by (symmetry; apply Nat.ltb_lt; lia).
    reflexivity. }
  assert (Ev : nth_error
                 (map (fun d => (d / inject_Z (Z.of_nat N0))%Q)
                    (map2 Qminus (uniform_row rnd 1 len)
                       (uniform_row rnd 0 len))) j
               = Some ((uniform rnd 1 j - uniform rnd 0 j)
                       / inject_Z (Z.of_nat N0))%Q).
  { unfold uniform_row.
    rewrite nth_error_map, map2_nth, !nth_error_map, nth_error_seq.
    replace (j <? len) with true by (symmetry; apply Nat.ltb_lt; lia).
    reflexivity. }
  rewrite (nth_error_nth _ _ 0%Q Ex), (nth_error_nth _ _ 0%Q Ev).
  pose proof (Hu 0 j) as H0. pose proof (Hu 1 j) as H1.
  split; [exact H0|].
  assert (HNq : ~ (inject_Z (Z.of_nat N0) == 0)%Q).
  { change 0%Q with (inject_Z 0). rewrite inject_Z_injective. lia. }
  assert (Heq : (uniform rnd 0 j
                 + inject_Z (Z.of_nat N0)
                   * ((uniform rnd 1 j - uniform rnd 0 j)
                      / inject_Z (Z.of_nat N0))
                 == uniform rnd 1 j)%Q) by (field; exact HNq).
  rewrite Heq. exact H1.
Qed.

(** [l[keys] = vals] where the value written at a key depends on the key
    only. *)
Lemma scatter_keys {A} (f : nat -> A) :
  forall (keys : list nat) (l l' : list A),
    scatter keys (map f keys) l = Ok l' ->
    length l' = length l
    /\ (forall k, In k keys -> nth_error l' k = Some (f k))
    /\ (forall j, ~ In j keys -> nth_error l' j = nth_error l j).
Proof.
  induction keys as [|k keys IH]; intros l l' H; simpl in H.
  - apply Ok_inj in H. subst l'.
    split; [reflexivity|]. split; [intros k []|]. reflexivity.
  - bind_inv H as l1 E1. apply store_Ok in E1. destruct E1 as (Hlt & ->).
    destruct (IH _ _ H) as (Hlen & Hhit & Hmiss).
    rewrite set_nth_length in Hlen.
    split; [exact Hlen|]. split.
    + intros k0 [<- | Hk0]; [|exact (Hhit k0 Hk0)].
      destruct (in_dec Nat.eq_dec k keys) as [Hin | Hout].
      * exact (Hhit k Hin).
      * rewrite (Hmiss k Hout), set_nth_nth, Nat.eqb_refl.
        apply Nat.ltb_lt in Hlt. rewrite Hlt. reflexivity.
    + intros j Hj. rewrite Hmiss by (intros Hin; apply Hj; right; exact Hin).
      rewrite set_nth_nth.
      replace (j =? k) with false; [reflexivity|].
      symmetry. apply Nat.eqb_neq. intros ->. apply Hj. left. reflexivity.
Qed.

Lemma map2_map_same {A B C D} (f : B -> C -> D) (g : A -> B) (h : A -> C)
  (l : list A) :
  map2 f (map g l) (map h l) = map (fun a => f (g a) (h a)) l.
Proof. induction l as [|a l IH]; simpl; [|rewrite IH]; reflexivity. Qed.

Lemma nth_error_eq_nth {A} (l l' : list A) i j (d : A) :
  nth_error l' i = nth_error l j -> nth i l' d = nth j l d.
Proof.
  intros H. destruct (nth_error l j) as [a|] eqn:E.
  - rewrite (nth_error_nth _ _ d H), (nth_error_nth _ _ d E). reflexivity.
  - apply nth_error_None in H, E.
    rewrite !nth_overflow by lia. reflexivity.
Qed.

Lemma recycled_nth {A} n (v : rhs A) (vals l : list A) i (d : A) :
  length vals = n -> n <= length l -> i < n ->
  nth i (set_from n v (set_slice 0 n vals l)) d = nth i vals d.
Proof.
  intros Hv Hl Hi. apply nth_error_eq_nth.
  rewrite set_from_nth_lt by (rewrite ?set_slice_length; lia).
  rewrite set_slice_nth by lia.
  change (i <? 0) with false. cbv iota.
  replace (i <? n) with true by (symmetry; apply Nat.ltb_lt; lia).
  rewrite Nat.sub_0_r. reflexivity.
Qed.

Lemma fresh_nth {A} n (fresh vals l : list A) i (d : A) :
  length vals = n -> n <= length l -> n <= i ->
  nth i (set_from n (Array fresh) (set_slice 0 n vals l)) d
  = nth (i - n) fresh d.
Proof.
  intros Hv Hl Hi. apply nth_error_eq_nth.
  apply set_from_nth_ge; [rewrite set_slice_length; lia | exact Hi].
Qed.

Lemma nth_map_lt {A B} (F : A -> B) (l : list A) i (d : B) (d' : A) :
  i < length l -> nth i (map F l) d = F (nth i l d').
Proof.
  intros H. rewrite (nth_indep (map F l) d (F d'))
    by (rewrite length_map; exact H).
  apply map_nth.
Qed.

Section Screen2Targets.
Import Shooter2.

Lemma Targets2_expire_arrays tbeg (w : Targets.t) g w1 g1 n1 :
  Wave.expire Targets.leaving tbeg w g = Ok (w1, g1, n1) ->
  Wave.xpos w1 = Wave.xpos w /\ Wave.xspeed w1 = Wave.xspeed w
  /\ Wave.M w1 = Wave.M w.
Proof.
  unfold Wave.expire. intros H. destruct (0 <? Wave.nalive w).
  - bind_inv H as s Es. bind_inv H as a0 Ea0. bind_inv H as b0 Eb0.
    bind_inv H as [[w' g'] s1] Eh. bind_inv H as kept Ek.
    apply Ok_inj in H. injection H as <- <- <-.
    change (Wave.xpos w' = Wave.xpos w /\ Wave.xspeed w' = Wave.xspeed w
            /\ Wave.M w' = Wave.M w).
    destruct (b0 =? tbeg)%Z.
    + bind_inv Eh as s0 Es0. destruct s0.
      * bind_inv Eh as [w2 g2] El. apply Ok_inj in Eh.
        injection Eh as <- <- <-. unfold Targets.leaving in El.
        apply Ok_inj in El. injection El as <- <-. auto.
      * apply Ok_inj in Eh. injection Eh as <- <- <-. auto.
    + apply Ok_inj in Eh. injection Eh as <- <- <-. auto.
  - apply Ok_inj in H. injection H as <- <- <-. auto.
Qed.

(** The second block of [update] for the targets.  After it, every
    listed target has at least one move left, the one of this update,
    and the targets not admitted yet are fresh. *)
Lemma Targets2_arrive_course rnd tbeg tend n1 (w1 : Targets.t) g1
  w2 g2 n2 :
  unit_draws rnd ->
  Wave2_core w1 n1 (tbeg + 1) tend ->
  tend = (tbeg + Z.of_nat (Wave.N w1))%Z ->
  (forall i, In i (firstn n1 (Wave.ialive w1)) ->
     (0 <= nth i (Wave.xpos w1) 0 <= 1)%Q
     /\ (0 <= nth i (Wave.xpos w1) 0
              + inject_Z (nth i (Wave.born w1) 0%Z - tbeg)
                * nth i (Wave.xspeed w1) 0 <= 1)%Q) ->
  (forall i, Wave.nborn w1 <= i < Wave.M w1 ->
     (0 <= nth i (Wave.xpos w1) 0 <= 1)%Q
     /\ (0 <= nth i (Wave.xpos w1) 0
              + inject_Z (Z.of_nat (Wave.N w1))
                * nth i (Wave.xspeed w1) 0 <= 1)%Q) ->
  Wave.arrive (@Wave.pass _) (Targets.newcontent rnd) tend n1 w1 g1
  = Ok (w2, g2, n2) ->
  Wave.N w2 = Wave.N w1 /\ Wave.M w2 = Wave.M w1
  /\ (forall i, In i (firstn n2 (Wave.ialive w2)) ->
        (1 <= nth i (Wave.born w2) 0 - tbeg)%Z
        /\ (0 <= nth i (Wave.xpos w2) 0 <= 1)%Q
        /\ (0 <= nth i (Wave.xpos w2) 0
                 + inject_Z (nth i (Wave.born w2) 0%Z - tbeg)
                   * nth i (Wave.xspeed w2) 0 <= 1)%Q)
  /\ (forall i, Wave.nborn w2 <= i < Wave.M w2 ->
        (0 <= nth i (Wave.xpos w2) 0 <= 1)%Q
        /\ (0 <= nth i (Wave.xpos w2) 0
                 + inject_Z (Z.of_nat (Wave.N w2))
                   * nth i (Wave.xspeed w2) 0 <= 1)%Q).
Proof.
  intros Hu Hc Hcs HL HF H.
  destruct Hc as [cM cN cborn cxpos cxspeed calive cialive cnborn ctborn
                    cnext cfuture ccount cadm cwin csort].
  assert (HL1 : forall i, In i (firstn n1 (Wave.ialive w1)) ->
             (1 <= nth i (Wave.born w1) 0 - tbeg)%Z
             /\ (0 <= nth i (Wave.xpos w1) 0 <= 1)%Q
             /\ (0 <= nth i (Wave.xpos w1) 0
                      + inject_Z (nth i (Wave.born w1) 0%Z - tbeg)
                        * nth i (Wave.xspeed w1) 0 <= 1)%Q).
  { intros i Hi. split; [|exact (HL i Hi)].
    unfold births_upto in cwin. rewrite Forall_map, Forall_forall in cwin.
    specialize (cwin i Hi). cbv beta in cwin. lia. }
  unfold Wave.arrive in H. destruct (Wave.tborn w1 =? tend)%Z eqn:Et.
  - apply Z.eqb_eq in Et.
    bind_inv H as ia Eia. apply store_Ok in Eia. destruct Eia as (Hlt & ->).
    unfold Wave.pass in H. cbn [bind] in H. wave2_fields_in H.
    bind_inv H as w4 E4. bind_inv H as tb Etb.
    apply Ok_inj in H. injection H as <- <- <-.
    set (a := firstn (n1 + 1)
                (set_nth (Wave.ialive w1) n1 (Wave.nborn w1))) in *.
    assert (Ha : a = firstn n1 (Wave.ialive w1) ++ [Wave.nborn w1])
      by (apply firstn_set_nth_snoc; exact Hlt).
    assert (Hnew : nth (Wave.nborn w1) (Wave.born w1) 0%Z = tend)
      by (rewrite <- Et; apply nth_error_nth; exact ctborn).
    assert (HA : forall i, In i a ->
               (1 <= nth i (Wave.born w1) 0 - tbeg)%Z
               /\ (0 <= nth i (Wave.xpos w1) 0 <= 1)%Q
               /\ (0 <= nth i (Wave.xpos w1) 0
                        + inject_Z (nth i (Wave.born w1) 0%Z - tbeg)
                          * nth i (Wave.xspeed w1) 0 <= 1)%Q).
    { intros i Hi. rewrite Ha in Hi. apply in_app_or in Hi.
      destruct Hi as [Hi | [<- | []]]; [exact (HL1 i Hi)|].
      rewrite Hnew.
      replace (tend - tbeg)%Z with (Z.of_nat (Wave.N w1)) by lia.
      split; [lia|]. apply HF. lia. }
    destruct (Wave.nborn w1 + 1 =? Wave.M w1) eqn:EM.
    + apply Nat.eqb_eq in EM.
      unfold Wave.recycle in E4. wave2_fields_in E4.
      fold a in E4.
      bind_inv E4 as bo Ebo. bind_inv E4 as xp Exp.
      bind_inv E4 as xs Exs. bind_inv E4 as w6 E6.
      apply Ok_inj in E4. subst w4.
      unfold Targets.newcontent in E6. wave2_fields_in E6.
      destruct (Wave.M w1 <? n1 + 1); [discriminate|].
      destruct (Qlt_bool 0 _ && Qle_bool _ 1); [|discriminate].
      apply Ok_inj in E6. subst w6. wave2_fields.
      assert (La : length a = n1 + 1).
      { rewrite Ha, length_app, length_firstn. simpl. lia. }
      pose proof (gather_length _ _ _ Ebo) as Lbo.
      pose proof (gather_length _ _ _ Exp) as Lxp.
      pose proof (gather_length _ _ _ Exs) as Lxs.
      rewrite (gather_map _ _ _ 0%Z Ebo) in *.
      rewrite (gather_map _ _ _ 0%Q Exp) in *.
      rewrite (gather_map _ _ _ 0%Q Exs) in *.
      rewrite La in Lbo, Lxp, Lxs.
      split; [reflexivity|]. split; [reflexivity|]. split.
      * intros i Hi.
        rewrite set_slice_head in Hi by apply length_seq.
        apply in_seq in Hi.
        rewrite !recycled_nth by lia.
        rewrite (nth_map_lt _ a i 0%Z 0) by lia.
        rewrite !(nth_map_lt _ a i 0%Q 0) by lia.
        apply HA. apply nth_In. lia.
      * intros i Hi. rewrite !fresh_nth by lia.
        apply fresh_course; [exact Hu | exact cN | lia].
    + apply Ok_inj in E4. subst w4. wave2_fields.
      split; [reflexivity|]. split; [reflexivity|]. split.
      * intros i Hi. apply HA. exact Hi.
      * intros i Hi. apply HF. lia.
  - apply Ok_inj in H. injection H as <- <- <-.
    split; [reflexivity|]. split; [reflexivity|].
    split; [exact HL1 | exact HF].
Qed.

Lemma Targets2_update_course rnd (w w' : Targets.t) g g' :
  Wave2_inv w -> Targets2_good (Wave.ext w) -> Course2 w ->
  unit_draws rnd ->
  Targets.update rnd w g = Ok (w', g') -> Course2 w'.
Proof.
  intros Hinv Hg (HL & HF) Hu H.
  pose proof (Targets2_update_inv _ _ _ _ _ Hinv Hg H)
    as ((Hc' & _) & _).
  pose proof (inv_entered _ _ _ _ Hc') as Hent.
  unfold Targets.update, Wave.update in H.
  destruct (Wave.cslice w) as [tbeg tend] eqn:Ecs.
  bind_inv H as [[w1 g1] n1] E1. bind_inv H as [[w2 g2] n2] E2.
  bind_inv H as w3 E3. apply Ok_inj in H. injection H as <- <-.
  replace tbeg with (fst (Wave.cslice w)) in E1 by (rewrite Ecs; reflexivity).
  pose proof (expire_core Targets.leaving Targets2_leaving_frame
                _ _ _ _ _ Hinv E1)
    as (Hc1 & Hn1 & eN1 & ecs1 & eal1 & ebo1 & etb1 & enb1 & ecur1).
  pose proof (Targets2_expire_arrays _ _ _ _ _ _ E1) as (ex1 & es1 & eM1).
  destruct Hinv as (Hc & Hcs). rewrite Ecs in *. cbn [fst snd] in *.
  assert (HL1 : forall i, In i (firstn n1 (Wave.ialive w1)) ->
             (0 <= nth i (Wave.xpos w1) 0 <= 1)%Q
             /\ (0 <= nth i (Wave.xpos w1) 0
                      + inject_Z (nth i (Wave.born w1) 0%Z - tbeg)
                        * nth i (Wave.xspeed w1) 0 <= 1)%Q).
  { intros i Hi. rewrite ecur1 in Hi. rewrite ex1, es1, ebo1.
    apply HL. apply select_mask_In in Hi. destruct Hi as (k & Hk & _).
    eapply nth_error_In; eauto. }
  assert (HF1 : forall i, Wave.nborn w1 <= i < Wave.M w1 ->
             (0 <= nth i (Wave.xpos w1) 0 <= 1)%Q
             /\ (0 <= nth i (Wave.xpos w1) 0
                      + inject_Z (Z.of_nat (Wave.N w1))
                        * nth i (Wave.xspeed w1) 0 <= 1)%Q).
  { intros i Hi. rewrite ex1, es1, eN1. apply HF. lia. }
  destruct (Targets2_arrive_course rnd tbeg tend n1 w1 g1 w2 g2 n2 Hu Hc1
              ltac:(lia) HL1 HF1 E2) as (eN2 & eM2 & HL2 & HF2).
  wave2_fields_in Hent.
  assert (Hw3 : Wave.nalive w3 = n2
                /\ Wave.ialive w3 = Wave.ialive w2
                /\ Wave.nborn w3 = Wave.nborn w2
                /\ Wave.born w3 = Wave.born w2
                /\ Wave.xspeed w3 = Wave.xspeed w2
                /\ Wave.N w3 = Wave.N w2 /\ Wave.M w3 = Wave.M w2
                /\ (forall i, In i (firstn n2 (Wave.ialive w2)) ->
                      nth i (Wave.xpos w3) 0%Q
                      = (nth i (Wave.xpos w2) 0 + nth i (Wave.xspeed w2) 0)%Q)
                /\ (forall i, ~ In i (firstn n2 (Wave.ialive w2)) ->
                      nth i (Wave.xpos w3) 0%Q
                      = nth i (Wave.xpos w2) 0%Q)).
  { unfold Wave.advance in E3. wave2_fields_in E3.
    destruct (0 <? n2) eqn:En2.
    - bind_inv E3 as xa Exa. bind_inv E3 as va Eva. bind_inv E3 as xp Exp.
      apply Ok_inj in E3. subst w3. wave2_fields.
      rewrite (gather_map _ _ _ 0%Q Exa) in Exp.
      rewrite (gather_map _ _ _ 0%Q Eva) in Exp.
      rewrite map2_map_same in Exp.
      destruct (scatter_keys
                  (fun i => (nth i (Wave.xpos w2) 0
                             + nth i (Wave.xspeed w2) 0)%Q) _ _ _ Exp)
        as (_ & Hhit & Hmiss).
      repeat split.
      + intros i Hi. apply nth_error_nth. exact (Hhit i Hi).
      + intros i Hi. apply nth_error_eq_nth. exact (Hmiss i Hi).
    - apply Ok_inj in E3. subst w3. wave2_fields. repeat split.
      apply Nat.ltb_ge in En2. replace n2 with 0 by lia.
      intros i []. }
  destruct Hw3 as (ena3 & ei3 & enb3 & ebo3 & es3 & eN3 & eM3 & Hhit
                   & Hmiss).
  rewrite ena3, ei3, enb3 in Hent. rewrite Forall_forall in Hent.
  unfold Course2, Wave.current. wave2_fields. cbn [fst].
  rewrite ena3, ei3, enb3, ebo3, es3, eN3, eM3. split.
  - intros i Hi. cbv zeta. rewrite (Hhit i Hi).
    destruct (HL2 i Hi) as (Hr & Hx & Hxr).
    replace (nth i (Wave.born w2) 0 - (tbeg + 1))%Z
      with (nth i (Wave.born w2) 0 - tbeg - 1)%Z by lia.
    exact (course2_moved _ _ _ Hr Hx Hxr).
  - intros i Hi. cbv zeta.
    rewrite Hmiss by (intros Hin; specialize (Hent i Hin); lia).
    apply HF2. exact Hi.
Qed.
End Screen2Targets.

Lemma nth_Forall {A} (P : A -> Prop) (l : list A) i (d : A) :
  Forall P l -> P d -> P (nth i l d).
Proof.
  intros Hl Hd. destruct (Nat.lt_ge_cases i (length l)) as [H | H].
  - rewrite Forall_forall in Hl. apply Hl. apply nth_In. exact H.
  - rewrite nth_overflow by exact H. exact Hd.
Qed.

Section Screen2Game.
Import Shooter2.

Lemma Hits2_update_screen (tg : Targets.t) (bl : Bullets.t) h g
  tg' bl' h' g' :
  Course2 tg -> Rest2 bl ->
  Forall (fun x => (0 <= x <= 1)%Q) (Shooter.Hits.xpos h) ->
  Hits.update tg bl h g = Ok (tg', bl', h', g') ->
  Course2 tg' /\ Rest2 bl'
  /\ Forall (fun x => (0 <= x <= 1)%Q) (Shooter.Hits.xpos h').
Proof.
  intros Hc Hr Hh H. apply Hits2_update_effect in H.
  destruct H as (nz & nz1 & al & al1 & wt & xp & _ & Hnz & _ & _ & _ & _
                 & Exp & _ & -> & -> & -> & _).
  split; [exact Hc|]. split; [exact Hr|].
  cbn [Shooter.Hits.age Shooter.Hits.xpos].
  apply (py_scatter_Forall _ _ _ _ _ Exp Hh).
  apply Forall_map. apply Forall_forall. intros i Hi.
  rewrite Forall_forall in Hnz. specialize (Hnz i Hi).
  destruct Hc as (HL & _).
  assert (Hin : In (nth i (Wave.ialive tg) 0) (Wave.current tg)).
  { replace (nth i (Wave.ialive tg) 0) with (nth i (Wave.current tg) 0).
    - apply nth_In. exact Hnz.
    - unfold Wave.current in *. rewrite length_firstn in Hnz.
      apply nth_firstn_lt. lia. }
  exact (proj1 (HL _ Hin)).
Qed.

Lemma Targets2_init_course rnd fps v rate width (w : Targets.t) :
  unit_draws rnd ->
  Targets.init rnd fps v rate width = Ok w -> Course2 w.
Proof.
  intros Hu H.
  pose proof (Targets2_init_inv _ _ _ _ _ _ H) as ((Hc & _) & _).
  pose proof (inv_N _ _ _ _ Hc) as HN.
  unfold Targets.init in H. bind_inv H as r Er.
  unfold Wave.init in H.
  bind_inv H as q Eq. remember (py_int q) as Nz eqn:ENz.
  bind_inv H as bo Ebo. bind_inv H as xp Exp.
  bind_inv H as xs Exs. bind_inv H as al Eal. bind_inv H as ia Eia.
  bind_inv H as w1 E1. bind_inv H as tb Etb. bind_inv H as yp Eyp.
  apply Ok_inj in H. subst w.
  apply zeros_Ok in Exp, Exs. destruct Exp as (Hpos & ->).
  destruct Exs as (_ & ->).
  unfold Targets.newcontent in E1. wave2_fields_in E1.
  destruct (Z.to_nat (2 * Nz) <? 0); [discriminate|].
  destruct (Qlt_bool 0 _ && Qle_bool _ 1); [|discriminate].
  apply Ok_inj in E1. subst w1.
  wave2_fields_in HN.
  unfold Course2, Wave.current. wave2_fields. split.
  - intros i [].
  - intros i Hi. cbv zeta.
    assert (Hfresh : forall (fresh l : list Q),
               nth i (set_from 0 (Array fresh) l) 0%Q = nth i fresh 0%Q).
    { intros fresh l. apply nth_error_eq_nth.
      rewrite set_from_nth_ge by lia. rewrite Nat.sub_0_r. reflexivity. }
    rewrite !Hfresh. rewrite Nat.sub_0_r in *.
    apply fresh_course; [exact Hu | exact HN | lia].
Qed.

Lemma Bullets2_init_rest fps v rload (w : Bullets.t) :
  Bullets.init fps v rload = Ok w -> Rest2 w.
Proof.
  unfold Bullets.init, Wave.init. intros H.
  bind_inv H as q Eq. remember (py_int q) as Nz eqn:ENz.
  bind_inv H as bo Ebo. bind_inv H as xp Exp.
  bind_inv H as xs Exs. bind_inv H as al Eal. bind_inv H as ia Eia.
  bind_inv H as w1 E1. bind_inv H as tb Etb. bind_inv H as yp Eyp.
  apply Ok_inj in H. subst w.
  apply zeros_Ok in Exp, Exs. destruct Exp as (Hpos & ->).
  destruct Exs as (_ & ->).
  unfold Bullets.newcontent in E1. wave2_fields_in E1.
  bind_inv E1 as ks Eks. apply Ok_inj in E1. subst w1.
  unfold Rest2. wave2_fields.
  assert (Hz : forall (P : Q -> Prop) k, P 0%Q -> Forall P (repeat 0%Q k)).
  { intros P k HP. apply Forall_forall. intros x Hx.
    apply repeat_spec in Hx. subst x. exact HP. }
  split; apply set_from_Forall; try apply Hz; try lra; reflexivity.
Qed.

Lemma Game2_init_screen rnd c g0 :
  unit_draws rnd -> Game.init rnd c = Ok g0 -> On_screen2 g0.
Proof.
  intros Hu H. unfold Game.init in H.
  bind_inv H as av Eav. bind_inv H as tg Etg. bind_inv H as bl Ebl.
  bind_inv H as h Eh. apply Ok_inj in H. subst g0.
  unfold On_screen2.
  cbn [Shooter.Game.targets Shooter.Game.bullets Shooter.Game.hits].
  split; [exact (Targets2_init_course _ _ _ _ _ _ Hu Etg)|].
  split; [exact (Bullets2_init_rest _ _ _ _ Ebl)|].
  unfold Hits.init, Shooter.Hits.init in Eh.
  bind_inv Eh as iN EiN. bind_inv Eh as iN1 EiN1.
  apply Ok_inj in Eh. subst h. cbn [Shooter.Hits.xpos].
  apply Forall_forall. intros x Hx. apply repeat_spec in Hx. subst x. lra.
Qed.

Lemma Game2_update_screen env g g' :
  Game2_sound g -> On_screen2 g -> unit_draws (random env) ->
  Shooter.Game.update Game.Factory2 env g = Ok g' -> On_screen2 g'.
Proof.
  intros (_ & Wt & Gt & _) (Hc & Hr & Hh) Hu H.
  destruct (Shooter.tr_quit (Shooter.Game.shared g)) eqn:Hq.
  - unfold Shooter.Game.update in H. rewrite Hq in H. apply Ok_inj in H.
    subst g'. split; [exact Hc | split; [exact Hr | exact Hh]].
  - destruct (Game_update_running Game.Factory2 env g g' Hq H)
      as (g1 & time & d & Hcu & Hg').
    unfold Shooter.Game.components_update in Hcu.
    cbn [Shooter.Game.targets_update Shooter.Game.bullets_update
           Shooter.Game.hits_update Game.Factory2] in Hcu.
    bind_inv Hcu as [tg1 sh1] Et. bind_inv Hcu as [bl2 sh2] Eb.
    bind_inv Hcu as [[[tg3 bl3] h3] sh3] Eh. apply Ok_inj in Hcu.
    subst g1.
    cbn [Shooter.Game.shared Shooter.Game.nstep Shooter.Game.gameover
           Shooter.Game.perf Shooter.Game.targets Shooter.Game.bullets
           Shooter.Game.hits] in Hg'.
    assert (Hb' : Shooter.Game.bullets g' = bl3) by (subst g'; reflexivity).
    assert (Ht' : Shooter.Game.targets g' = tg3) by (subst g'; reflexivity).
    assert (Hh' : Shooter.Game.hits g' = h3) by (subst g'; reflexivity).
    clear Hg'.
    pose proof (Targets2_update_shared _ _ _ _ _ Et) as Hsh1.
    assert (Hav : (0 <= Shooter.Avatar.pos_x (Shooter.avatar sh1) <= 1)%Q).
    { rewrite Hsh1.
      destruct (_ <? _);
        cbn [Shooter.avatar Shooter.set_tr_miss Shooter.set_avatar];
        apply Avatar_update_bounds. }
    pose proof (Targets2_update_course _ _ _ _ _ Wt Gt Hc Hu Et) as Hc1.
    pose proof (Bullets2_update_rest _ _ _ _ Hr Hav Eb) as Hr2.
    unfold On_screen2. rewrite Ht', Hb', Hh'.
    exact (Hits2_update_screen _ _ _ _ _ _ _ _ Hc1 Hr2 Hh Eh).
Qed.

Lemma Game2_loop_screen inputs : forall g g',
  Game2_sound g -> On_screen2 g -> Rows2 g ->
  Forall (fun i => unit_draws (random (snd i))) inputs ->
  Shooter.GameManager.loop Game.Factory2 inputs g = Ok g' ->
  Game2_sound g' /\ On_screen2 g' /\ Rows2 g'.
Proof.
  induction inputs as [|[keys env] rest IH]; intros g g' Hs Ho Hr Hu H;
    simpl in H.
  - apply Ok_inj in H. subst g'. auto.
  - destruct (Shooter.Game.gameover g).
    + apply Ok_inj in H. subst g'. auto.
    + bind_inv H as g1 E1.
      pose proof (Forall_inv Hu) as Hu1. cbn [snd] in Hu1.
      destruct (Game2_update_total env
                  (Shooter.GameManager.userinput keys g) Hs)
        as (g2 & E2 & Hs2).
      rewrite E1 in E2. apply Ok_inj in E2. subst g2.
      apply (IH g1 g' Hs2); [| |exact (Forall_inv_tail Hu) | exact H].
      * exact (Game2_update_screen env
                 (Shooter.GameManager.userinput keys g) g1 Hs Ho Hu1 E1).
      * exact (Game2_update_rows env
                 (Shooter.GameManager.userinput keys g) g1 Hr E1).
Qed.
End Screen2Game.

(** X15.  shooter2.py, with the floats read as exact rationals: when every
    [uniform(0,1)] draw is within [0, 1], after the construction and any
    run of the frame loop the display raises nothing and every point it
    gives the artists for the targets, the bullets and the hit markers is
    within the unit square.  A target is admitted with its row [N], is
    moved once in each update while it is listed, and so reaches row [r]
    with [r] moves left before the position its speed aims at. *)
Theorem X15_on_screen2 rnd c g0 inputs g :
  Shooter2.Game.init rnd c = Ok g0 ->
  unit_draws rnd ->
  Forall (fun i => unit_draws (random (snd i))) inputs ->
  Shooter.GameManager.loop Shooter2.Game.Factory2 inputs g0 = Ok g ->
  exists fr,
    Shooter2.Game.display g = Ok fr
    /\ Forall in_unit_square (Shooter.Game.frame_targets fr)
    /\ Forall in_unit_square (Shooter.Game.frame_bullets fr)
    /\ Forall in_unit_square (Shooter.Game.frame_hits fr).
Proof.
  intros H0 Hu0 Hu Hl.
  pose proof (Game2_init_sound _ _ _ H0) as S0.
  pose proof (Game2_init_screen _ _ _ Hu0 H0) as O0.
  pose proof (Game2_init_rows _ _ _ H0) as R0.
  destruct (Game2_loop_screen _ _ _ S0 O0 R0 Hu Hl)
    as ((_ & Wt & _ & Wb & Hf) & ((HL & _) & (Rx & _) & Hh)
        & (Rt & Rb & Rh)).
  destruct Hf as (_ & _ & Lw & Lx).
  assert (Wb' : Wave2_inv (Shooter.Game.bullets g)
                \/ Wave2_idle (Shooter.Game.bullets g))
    by (destruct Wb as [(Hi & _) | Hi]; auto).
  destruct (Wave2_display_total _ (or_introl Wt)
              ltac:(rewrite Rt; apply linspace01_length))
    as (Dt & _ & _).
  destruct (Wave2_display_total _ Wb'
              ltac:(rewrite Rb, length_rev; apply linspace01_length))
    as (Db & _ & _).
  eexists. split.
  - apply display_with_Ok; [exact Dt | exact Db|].
    apply (Hits1_display_total _ _ Lx Lw).
    rewrite Rh. apply linspace01_length.
  - cbn [Shooter.Game.frame_targets Shooter.Game.frame_bullets
           Shooter.Game.frame_hits].
    assert (Hzero : (0 <= 0 <= 1)%Q) by lra.
    split; [|split].
    + apply Forall_map. apply Forall_forall. intros i Hi.
      split; cbn [fst snd sprite2].
      * exact (proj1 (HL i Hi)).
      * apply nth_Forall; [|exact Hzero]. rewrite Rt. apply linspace01_unit.
    + apply Forall_map. apply Forall_forall. intros i Hi.
      split; cbn [fst snd sprite2].
      * apply nth_Forall; [exact Rx | exact Hzero].
      * apply nth_Forall; [|exact Hzero].
        rewrite Rb. apply Forall_rev. apply linspace01_unit.
    + apply Forall_forall. intros [x y] Hin. split; cbn [fst snd].
      * apply in_combine_l in Hin. revert x Hin. apply Forall_forall.
        apply select_mask_Forall. exact Hh.
      * apply in_combine_r in Hin. revert y Hin. apply Forall_forall.
        apply select_mask_Forall. rewrite Rh. apply linspace01_unit.
Qed.

Lemma X15_on_screen2_witness :
  exists fr,
    Shooter2.Game.display
      (ok_or demo2_game
         (Shooter.GameManager.loop Shooter2.Game.Factory2
            (repeat (0%Z, demo_env) 3) demo2_game)) = Ok fr
    /\ Forall in_unit_square (Shooter.Game.frame_targets fr)
    /\ Forall in_unit_square (Shooter.Game.frame_bullets fr)
    /\ Forall in_unit_square (Shooter.Game.frame_hits fr).
Proof.
  apply (X15_on_screen2 demo_random demo_config demo2_game
           (repeat (0%Z, demo_env) 3)).
  - vm_compute. reflexivity.
  - exact demo_random_unit.
  - simpl. repeat (apply Forall_cons; [exact demo_random_unit|]).
    apply Forall_nil.
  - vm_compute. reflexivity.
Defined.

(* ================================================================== *)
(** * shooter2.py: the update in which a sprite enters *)
(* ================================================================== *)

Section Entry2.
Import Shooter2.

(** The third block of [update]: every listed sprite is moved once, and
    nothing else changes. *)
Lemma advance_listed {E} n2 (w2 w3 : Wave.t E) :
  Wave.advance (Wave.set_nalive n2 w2) = Ok w3 ->
  Wave.nalive w3 = n2 /\ Wave.ialive w3 = Wave.ialive w2
  /\ Wave.nborn w3 = Wave.nborn w2 /\ Wave.born w3 = Wave.born w2
  /\ Wave.xspeed w3 = Wave.xspeed w2
  /\ Wave.N w3 = Wave.N w2 /\ Wave.M w3 = Wave.M w2
  /\ (forall i, In i (firstn n2 (Wave.ialive w2)) ->
        nth i (Wave.xpos w3) 0%Q
        = (nth i (Wave.xpos w2) 0 + nth i (Wave.xspeed w2) 0)%Q)
  /\ (forall i, ~ In i (firstn n2 (Wave.ialive w2)) ->
        nth i (Wave.xpos w3) 0%Q = nth i (Wave.xpos w2) 0%Q).
Proof.
  intros E3. unfold Wave.advance in E3. wave2_fields_in E3.
  destruct (0 <? n2) eqn:En2.
  - bind_inv E3 as xa Exa. bind_inv E3 as va Eva. bind_inv E3 as xp Exp.
    apply Ok_inj in E3. subst w3. wave2_fields.
    rewrite (gather_map _ _ _ 0%Q Exa) in Exp.
    rewrite (gather_map _ _ _ 0%Q Eva) in Exp.
    rewrite map2_map_same in Exp.
    destruct (scatter_keys
                (fun i => (nth i (Wave.xpos w2) 0
                           + nth i (Wave.xspeed w2) 0)%Q) _ _ _ Exp)
      as (_ & Hhit & Hmiss).
    repeat split.
    + intros i Hi. apply nth_error_nth. exact (Hhit i Hi).
    + intros i Hi. apply nth_error_eq_nth. exact (Hmiss i Hi).
  - apply Ok_inj in E3. subst w3. wave2_fields. repeat split.
    apply Nat.ltb_ge in En2. replace n2 with 0 by lia.
    intros i [].
Qed.

Lemma snoc_nth {A} (l : list A) (x : A) n :
  length l = n -> nth_error (l ++ [x]) n = Some x.
Proof.
  intros <-. rewrite nth_error_app2 by lia. rewrite Nat.sub_diag.
  reflexivity.
Qed.

(** The entry of a bullet, before the sprites are moved. *)
Lemma Bullets2_arrive_entry tend n1 (w1 : Bullets.t) g1 w2 g2 n2 :
  Wave.tborn w1 = tend ->
  n1 + 1 <= Wave.M w1 ->
  length (Wave.born w1) = Wave.M w1 ->
  length (Wave.xpos w1) = Wave.M w1 ->
  length (Wave.xspeed w1) = Wave.M w1 ->
  Wave.arrive Bullets.entering Bullets.newcontent tend n1 w1 g1
  = Ok (w2, g2, n2) ->
  n2 = n1 + 1
  /\ exists i',
      nth_error (firstn n2 (Wave.ialive w2)) n1 = Some i'
      /\ nth i' (Wave.born w2) 0%Z = nth (Wave.nborn w1) (Wave.born w1) 0%Z
      /\ nth i' (Wave.xspeed w2) 0%Q
         = nth (Wave.nborn w1) (Wave.xspeed w1) 0%Q
      /\ nth i' (Wave.xpos w2) 0%Q
         = Shooter.Avatar.pos_x (Shooter.avatar g1).
Proof.
  intros Et HM Lb Lx Ls H. unfold Wave.arrive in H.
  replace (Wave.tborn w1 =? tend)%Z with true in H
    by (symmetry; apply Z.eqb_eq; exact Et).
  bind_inv H as ia Eia. apply store_Ok in Eia. destruct Eia as (Hlt & ->).
  bind_inv H as [w' g'] Ee. unfold Bullets.entering in Ee.
  bind_inv Ee as xp Exp. apply Ok_inj in Ee. injection Ee as <- <-.
  apply store_Ok in Exp. wave2_fields_in Exp. destruct Exp as (Hnb & ->).
  wave2_fields_in H.
  bind_inv H as w4 E4. bind_inv H as tb Etb.
  apply Ok_inj in H. injection H as <- <- <-.
  split; [reflexivity|].
  set (a := firstn (n1 + 1)
              (set_nth (Wave.ialive w1) n1 (Wave.nborn w1))) in *.
  assert (Ha : a = firstn n1 (Wave.ialive w1) ++ [Wave.nborn w1])
    by (apply firstn_set_nth_snoc; exact Hlt).
  assert (La1 : length (firstn n1 (Wave.ialive w1)) = n1)
    by (rewrite length_firstn; lia).
  assert (Hlast : nth_error a n1 = Some (Wave.nborn w1))
    by (rewrite Ha; apply snoc_nth; exact La1).
  assert (Hx : nth (Wave.nborn w1)
                 (set_nth (Wave.xpos w1) (Wave.nborn w1)
                    (Shooter.Avatar.pos_x (Shooter.avatar g1))) 0%Q
               = Shooter.Avatar.pos_x (Shooter.avatar g1)).
  { apply nth_error_nth. rewrite set_nth_nth, Nat.eqb_refl.
    apply Nat.ltb_lt in Hnb. rewrite Hnb. reflexivity. }
  destruct (Wave.nborn w1 + 1 =? Wave.M w1) eqn:EM.
  - unfold Wave.recycle in E4. wave2_fields_in E4. fold a in E4.
    bind_inv E4 as bo Ebo. bind_inv E4 as xp' Exp'.
    bind_inv E4 as xs Exs. bind_inv E4 as w6 E6.
    apply Ok_inj in E4. subst w4.
    unfold Bullets.newcontent in E6. wave2_fields_in E6.
    bind_inv E6 as ks Eks. apply Ok_inj in E6. subst w6. wave2_fields.
    assert (La : length a = n1 + 1).
    { rewrite Ha, length_app, La1. simpl. lia. }
    pose proof (gather_length _ _ _ Ebo) as Lbo.
    pose proof (gather_length _ _ _ Exp') as Lxp.
    pose proof (gather_length _ _ _ Exs) as Lxs.
    rewrite (gather_map _ _ _ 0%Z Ebo) in *.
    rewrite (gather_map _ _ _ 0%Q Exp') in *.
    rewrite (gather_map _ _ _ 0%Q Exs) in *.
    rewrite La in Lbo, Lxp, Lxs.
    exists n1. rewrite set_slice_head by apply length_seq.
    split; [rewrite nth_error_seq;
            replace (n1 <? n1 + 1) with true
              by (symmetry; apply Nat.ltb_lt; lia); reflexivity|].
    rewrite !recycled_nth by (rewrite ?set_nth_length; lia).
    rewrite (nth_map_lt _ a n1 0%Z 0) by lia.
    rewrite !(nth_map_lt _ a n1 0%Q 0) by lia.
    rewrite (nth_error_nth _ _ 0 Hlast).
    split; [reflexivity|]. split; [reflexivity | exact Hx].
  - apply Ok_inj in E4. subst w4. wave2_fields.
    exists (Wave.nborn w1). fold a.
    split; [exact Hlast|]. split; [reflexivity|].
    split; [reflexivity | exact Hx].
Qed.

(** The entry of a target. *)
Lemma Targets2_arrive_entry rnd tend n1 (w1 : Targets.t) g1 w2 g2 n2 :
  Wave.tborn w1 = tend ->
  n1 + 1 <= Wave.M w1 ->
  length (Wave.born w1) = Wave.M w1 ->
  length (Wave.xpos w1) = Wave.M w1 ->
  length (Wave.xspeed w1) = Wave.M w1 ->
  Wave.arrive (@Wave.pass _) (Targets.newcontent rnd) tend n1 w1 g1
  = Ok (w2, g2, n2) ->
  n2 = n1 + 1
  /\ exists i',
      nth_error (firstn n2 (Wave.ialive w2)) n1 = Some i'
      /\ nth i' (Wave.born w2) 0%Z = nth (Wave.nborn w1) (Wave.born w1) 0%Z
      /\ nth i' (Wave.xspeed w2) 0%Q
         = nth (Wave.nborn w1) (Wave.xspeed w1) 0%Q
      /\ nth i' (Wave.xpos w2) 0%Q
         = nth (Wave.nborn w1) (Wave.xpos w1) 0%Q.
Proof.
  intros Et HM Lb Lx Ls H. unfold Wave.arrive in H.
  replace (Wave.tborn w1 =? tend)%Z with true in H
    by (symmetry; apply Z.eqb_eq; exact Et).
  bind_inv H as ia Eia. apply store_Ok in Eia. destruct Eia as (Hlt & ->).
  unfold Wave.pass in H. cbn [bind] in H. wave2_fields_in H.
  bind_inv H as w4 E4. bind_inv H as tb Etb.
  apply Ok_inj in H. injection H as <- <- <-.
  split; [reflexivity|].
  set (a := firstn (n1 + 1)
              (set_nth (Wave.ialive w1) n1 (Wave.nborn w1))) in *.
  assert (Ha : a = firstn n1 (Wave.ialive w1) ++ [Wave.nborn w1])
    by (apply firstn_set_nth_snoc; exact Hlt).
  assert (La1 : length (firstn n1 (Wave.ialive w1)) = n1)
    by (rewrite length_firstn; lia).
  assert (Hlast : nth_error a n1 = Some (Wave.nborn w1))
    by (rewrite Ha; apply snoc_nth; exact La1).
  destruct (Wave.nborn w1 + 1 =? Wave.M w1) eqn:EM.
  - unfold Wave.recycle in E4. wave2_fields_in E4. fold a in E4.
    bind_inv E4 as bo Ebo. bind_inv E4 as xp' Exp'.
    bind_inv E4 as xs Exs. bind_inv E4 as w6 E6.
    apply Ok_inj in E4. subst w4.
    unfold Targets.newcontent in E6. wave2_fields_in E6.
    destruct (Wave.M w1 <? n1 + 1); [discriminate|].
    destruct (Qlt_bool 0 _ && Qle_bool _ 1); [|discriminate].
    apply Ok_inj in E6. subst w6. wave2_fields.
    assert (La : length a = n1 + 1).
    { rewrite Ha, length_app, La1. simpl. lia. }
    pose proof (gather_length _ _ _ Ebo) as Lbo.
    pose proof (gather_length _ _ _ Exp') as Lxp.
    pose proof (gather_length _ _ _ Exs) as Lxs.
    rewrite (gather_map _ _ _ 0%Z Ebo) in *.
    rewrite (gather_map _ _ _ 0%Q Exp') in *.
    rewrite (gather_map _ _ _ 0%Q Exs) in *.
    rewrite La in Lbo, Lxp, Lxs.
    exists n1. rewrite set_slice_head by apply length_seq.
    split; [rewrite nth_error_seq;
            replace (n1 <? n1 + 1) with true
              by (symmetry; apply Nat.ltb_lt; lia); reflexivity|].
    rewrite !recycled_nth by lia.
    rewrite (nth_map_lt _ a n1 0%Z 0) by lia.
    rewrite !(nth_map_lt _ a n1 0%Q 0) by lia.
    rewrite (nth_error_nth _ _ 0 Hlast).
    split; [reflexivity|]. split; reflexivity.
  - apply Ok_inj in E4. subst w4. wave2_fields.
    exists (Wave.nborn w1). fold a.
    split; [exact Hlast|]. split; [reflexivity|]. split; reflexivity.
Qed.


Lemma expire_shared {X} tbeg (w : Wave.t X) g w1 g1 n1 :
  Wave.expire (@Wave.pass _) tbeg w g = Ok (w1, g1, n1) -> g1 = g.
Proof.
  unfold Wave.expire. intros E1. destruct (0 <? Wave.nalive w).
  - bind_inv E1 as s Es. bind_inv E1 as a0 Ea0. bind_inv E1 as b0 Eb0.
    bind_inv E1 as [[wa ga] s1] Eh. bind_inv E1 as kept Ek.
    apply Ok_inj in E1. injection E1 as _ <- _.
    destruct (b0 =? tbeg)%Z.
    + bind_inv Eh as s0 Es0. destruct s0.
      * unfold Wave.pass in Eh. cbn [bind] in Eh. apply Ok_inj in Eh.
        injection Eh as _ <- _. reflexivity.
      * apply Ok_inj in Eh. injection Eh as _ <- _. reflexivity.
    + apply Ok_inj in Eh. injection Eh as _ <- _. reflexivity.
  - apply Ok_inj in E1. injection E1 as _ <- _. reflexivity.
Qed.

Lemma last_listed {A} (l : list A) n x :
  length l = n + 1 -> nth_error l n = Some x -> l = firstn n l ++ [x].
Proof.
  intros Hl Hn. rewrite <- (firstn_skipn n l) at 1. f_equal.
  pose proof (length_skipn n l) as Ls. rewrite Hl in Ls.
  rewrite <- (firstn_skipn n l) in Hn.
  rewrite nth_error_app2 in Hn by (rewrite length_firstn; lia).
  rewrite length_firstn in Hn.
  replace (n - Nat.min n (length l)) with 0 in Hn by lia.
  destruct (skipn n l) as [|y [|z r]]; simpl in Ls; try lia.
  simpl in Hn. congruence.
Qed.

(** The last two blocks of [update] once a sprite has entered: it is
    listed last, it is moved with the others, it keeps its birth frame. *)
Lemma entered_moved {X} (w2 w3 : Wave.t X) n1 n2 i' c :
  n2 = n1 + 1 -> n2 <= length (Wave.ialive w2) ->
  nth_error (firstn n2 (Wave.ialive w2)) n1 = Some i' ->
  Wave.advance (Wave.set_nalive n2 w2) = Ok w3 ->
  Wave.current (Wave.set_cslice c w3)
  = firstn n1 (firstn n2 (Wave.ialive w2)) ++ [i']
  /\ Wave.born (Wave.set_cslice c w3) = Wave.born w2
  /\ nth i' (Wave.xpos (Wave.set_cslice c w3)) 0%Q
     = (nth i' (Wave.xpos w2) 0 + nth i' (Wave.xspeed w2) 0)%Q.
Proof.
  intros Hn2 Hlen Hnth E3.
  destruct (advance_listed _ _ _ E3)
    as (ena3 & ei3 & _ & ebo3 & _ & _ & _ & Hhit & _).
  unfold Wave.current. wave2_fields. rewrite ena3, ei3. split.
  - apply last_listed; [|exact Hnth]. rewrite length_firstn. lia.
  - split; [exact ebo3|]. apply Hhit. eapply nth_error_In. exact Hnth.
Qed.

Lemma Bullets2_update_entry (w w' : Bullets.t) g g' :
  Wave2_inv w -> Bullets2_good (Wave.ext w) ->
  Wave.tborn w = snd (Wave.cslice w) ->
  Bullets.update w g = Ok (w', g') ->
  exists kept i',
    Wave.current w' = kept ++ [i']
    /\ (nth i' (Wave.born w') 0 - fst (Wave.cslice w'))%Z
       = (Z.of_nat (Wave.N w) - 1)%Z
    /\ nth i' (Wave.xpos w') 0%Q
       = (Shooter.Avatar.pos_x (Shooter.avatar g)
          + nth (Wave.nborn w) (Wave.xspeed w) 0)%Q.
Proof.
  intros Hinv Hgood Et H.
  pose proof (Bullets2_update_inv _ _ _ _ Hinv Hgood H)
    as ((Hc' & _) & _ & eN' & _).
  pose proof (inv_ialive _ _ _ _ Hc') as Li'.
  unfold Bullets.update, Wave.update in H.
  destruct (Wave.cslice w) as [tbeg tend] eqn:Ecs.
  bind_inv H as [[w1 g1] n1] E1. bind_inv H as [[w2 g2] n2] E2.
  bind_inv H as w3 E3. apply Ok_inj in H. injection H as <- <-.
  replace tbeg with (fst (Wave.cslice w)) in E1 by (rewrite Ecs; reflexivity).
  pose proof (expire_shared _ _ _ _ _ _ E1) as ->.
  pose proof (expire_core (@Wave.pass _) (@pass_frame _)
                _ _ _ _ _ Hinv E1)
    as (Hc1 & Hn1 & eN1 & ecs1 & eal1 & ebo1 & etb1 & enb1 & ecur1).
  assert (es1 : Wave.xspeed w1 = Wave.xspeed w).
  { apply Bullets2_expire_same in E1. destruct E1 as (ia & ->).
    reflexivity. }
  destruct Hinv as (Hc & Hcs). rewrite Ecs in *. cbn [fst snd] in *.
  pose proof (inv_M _ _ _ _ Hc1) as eM1.
  destruct (Bullets2_arrive_entry tend n1 w1 g w2 g2 n2
              ltac:(congruence) ltac:(lia)
              (inv_born _ _ _ _ Hc1) (inv_xpos _ _ _ _ Hc1)
              (inv_xspeed _ _ _ _ Hc1) E2)
    as (Hn2 & i' & Hnth & Hbo & Hsp & Hx).
  wave2_fields_in Li'. wave2_fields_in eN'.
  destruct (advance_listed _ _ _ E3)
    as (_ & ei3 & _ & _ & _ & eN3 & _).
  rewrite ei3 in Li'. rewrite eN3 in eN'.
  destruct (entered_moved w2 w3 n1 n2 i' ((tbeg + 1)%Z, (tend + 1)%Z)
              Hn2 ltac:(lia) Hnth E3) as (Hcur & Hborn & Hxp).
  exists (firstn n1 (firstn n2 (Wave.ialive w2))), i'.
  split; [exact Hcur|]. split.
  - rewrite Hborn, Hbo.
    rewrite (nth_error_nth _ _ 0%Z (inv_tborn _ _ _ _ Hc1)).
    wave2_fields. cbn [fst]. lia.
  - rewrite Hxp, Hx, Hsp, enb1, es1. reflexivity.
Qed.

Lemma Targets2_update_entry rnd (w w' : Targets.t) g g' :
  Wave2_inv w -> Targets2_good (Wave.ext w) ->
  Wave.tborn w = snd (Wave.cslice w) ->
  Targets.update rnd w g = Ok (w', g') ->
  exists kept i',
    Wave.current w' = kept ++ [i']
    /\ (nth i' (Wave.born w') 0 - fst (Wave.cslice w'))%Z
       = (Z.of_nat (Wave.N w) - 1)%Z
    /\ nth i' (Wave.xpos w') 0%Q
       = (nth (Wave.nborn w) (Wave.xpos w) 0
          + nth (Wave.nborn w) (Wave.xspeed w) 0)%Q.
Proof.
  intros Hinv Hgood Et H.
  pose proof (Targets2_update_inv _ _ _ _ _ Hinv Hgood H)
    as ((Hc' & _) & _ & eN' & _).
  pose proof (inv_ialive _ _ _ _ Hc') as Li'.
  unfold Targets.update, Wave.update in H.
  destruct (Wave.cslice w) as [tbeg tend] eqn:Ecs.
  bind_inv H as [[w1 g1] n1] E1. bind_inv H as [[w2 g2] n2] E2.
  bind_inv H as w3 E3. apply Ok_inj in H. injection H as <- <-.
  replace tbeg with (fst (Wave.cslice w)) in E1 by (rewrite Ecs; reflexivity).
  pose proof (expire_core Targets.leaving Targets2_leaving_frame
                _ _ _ _ _ Hinv E1)
    as (Hc1 & Hn1 & eN1 & ecs1 & eal1 & ebo1 & etb1 & enb1 & ecur1).
  pose proof (Targets2_expire_arrays _ _ _ _ _ _ E1) as (ex1 & es1 & _).
  destruct Hinv as (Hc & Hcs). rewrite Ecs in *. cbn [fst snd] in *.
  pose proof (inv_M _ _ _ _ Hc1) as eM1.
  destruct (Targets2_arrive_entry rnd tend n1 w1 g1 w2 g2 n2
              ltac:(congruence) ltac:(lia)
              (inv_born _ _ _ _ Hc1) (inv_xpos _ _ _ _ Hc1)
              (inv_xspeed _ _ _ _ Hc1) E2)
    as (Hn2 & i' & Hnth & Hbo & Hsp & Hx).
  wave2_fields_in Li'. wave2_fields_in eN'.
  destruct (advance_listed _ _ _ E3)
    as (_ & ei3 & _ & _ & _ & eN3 & _).
  rewrite ei3 in Li'. rewrite eN3 in eN'.
  destruct (entered_moved w2 w3 n1 n2 i' ((tbeg + 1)%Z, (tend + 1)%Z)
              Hn2 ltac:(lia) Hnth E3) as (Hcur & Hborn & Hxp).
  exists (firstn n1 (firstn n2 (Wave.ialive w2))), i'.
  split; [exact Hcur|]. split.
  - rewrite Hborn, Hbo.
    rewrite (nth_error_nth _ _ 0%Z (inv_tborn _ _ _ _ Hc1)).
    wave2_fields. cbn [fst]. lia.
  - rewrite Hxp, Hx, Hsp, enb1, ex1, es1. reflexivity.
Qed.

(** What is drawn of a wave whose last listed sprite is [i']. *)
Lemma display_last {X} (w : Wave.t X) kept i' :
  Wave2_inv w -> length (Wave.ypos w) = Wave.N w ->
  Wave.current w = kept ++ [i'] ->
  Wave.display w
  = Ok (map (sprite2 w (Wave.ypos w)) kept ++ [sprite2 w (Wave.ypos w) i']).
Proof.
  intros Hinv Hy Hcur.
  destruct (Wave2_display_total w (or_introl Hinv) Hy) as (-> & _).
  rewrite Hcur, map_app. reflexivity.
Qed.
End Entry2.

Lemma linspace01_first (k : nat) :
  0 < k -> (nth 0 (linspace01 k) 0 == 0)%Q.
Proof.
  intros Hk. destruct k as [|[|k]]; [lia | reflexivity |].
  rewrite (nth_error_nth _ _ 0%Q (linspace01_nth (S (S k)) 0
                                    ltac:(lia) ltac:(lia))).
  unfold Qdiv. apply Qmult_0_l.
Qed.

Lemma linspace01_last (k : nat) :
  2 <= k -> (nth (k - 1) (linspace01 k) 0 == 1)%Q.
Proof.
  intros Hk.
  rewrite (nth_error_nth _ _ 0%Q (linspace01_nth k (k - 1)
                                    ltac:(lia) ltac:(lia))).
  unfold Qdiv. apply Qmult_inv_r.
  change 0%Q with (inject_Z 0). rewrite inject_Z_injective. lia.
Qed.

Lemma nth_Forall_default {A} (P : A -> Prop) (l : list A) (d : A) i :
  Forall P l -> P d -> P (nth i l d).
Proof.
  intros Hl Hd. destruct (nth_in_or_default i l d) as [Hin | ->].
  - rewrite Forall_forall in Hl. exact (Hl _ Hin).
  - exact Hd.
Qed.

(** X16. shooter2.py, [Bullets.update]: when the next bullet is due (its
    birth frame [tborn] is the end of the window), the update returns, and
    the wave then draws that bullet last, in the column of the avatar and
    on the bottom line. *)
Theorem X16_bullet_leaves_avatar (w : Shooter2.Bullets.t) (g : Shooter.Shared) :
  Wave2_inv w -> Bullets2_good (Shooter2.Wave.ext w) ->
  Forall (fun v => (v == 0)%Q) (Shooter2.Wave.xspeed w) ->
  Shooter2.Wave.ypos w = rev (linspace01 (Shooter2.Wave.N w)) ->
  Shooter2.Wave.tborn w = snd (Shooter2.Wave.cslice w) ->
  exists w' g' pts x y,
    Shooter2.Bullets.update w g = Ok (w', g')
    /\ Shooter2.Wave.display w' = Ok (pts ++ [(x, y)])
    /\ (x == Shooter.Avatar.pos_x (Shooter.avatar g))%Q
    /\ (y == 0)%Q.
Proof.
  intros Hinv Hgood Hv Hy Et.
  destruct (Bullets2_update_ok w g Hinv Hgood) as (w' & g' & Hu & _).
  destruct (Bullets2_update_inv _ _ _ _ Hinv Hgood Hu)
    as (Hinv' & _ & eN & _).
  destruct (update_rows _ _ _ (@pass_rows _) Bullets2_entering_rows
              Bullets2_newcontent_rows w g w' g' Hu) as (Yb & _).
  destruct (Bullets2_update_entry _ _ _ _ Hinv Hgood Et Hu)
    as (kept & i' & Hcur & Hrow & Hx).
  pose proof (inv_N _ _ _ _ (proj1 Hinv)) as HN.
  assert (Ly : length (Shooter2.Wave.ypos w') = Shooter2.Wave.N w').
  { rewrite Yb, Hy, length_rev, linspace01_length. symmetry. exact eN. }
  exists w', g', (map (sprite2 w' (Shooter2.Wave.ypos w')) kept),
    (fst (sprite2 w' (Shooter2.Wave.ypos w') i')),
    (snd (sprite2 w' (Shooter2.Wave.ypos w') i')).
  split; [exact Hu|]. split.
  - rewrite (display_last w' kept i' Hinv' Ly Hcur).
    rewrite <- surjective_pairing. reflexivity.
  - unfold sprite2. cbn [fst snd]. split.
    + rewrite Hx.
      pose proof (nth_Forall_default (fun v => (v == 0)%Q)
                    (Shooter2.Wave.xspeed w) 0%Q (Shooter2.Wave.nborn w)
                    Hv ltac:(reflexivity)) as H0.
      cbv beta in H0. rewrite H0. ring.
    + rewrite Hrow, Yb, Hy.
      replace (Z.to_nat (Z.of_nat (Shooter2.Wave.N w) - 1))
        with (Shooter2.Wave.N w - 1) by lia.
      rewrite rev_nth by (rewrite linspace01_length; lia).
      rewrite linspace01_length.
      replace (Shooter2.Wave.N w - S (Shooter2.Wave.N w - 1)) with 0 by lia.
      apply linspace01_first. exact HN.
Qed.

Lemma X16_bullet_leaves_avatar_witness :
  exists w' g' pts x y,
    Shooter2.Bullets.update demo2_bullets (Shooter.Game.shared demo2_game)
    = Ok (w', g')
    /\ Shooter2.Wave.display w' = Ok (pts ++ [(x, y)])
    /\ (x == Shooter.Avatar.pos_x
               (Shooter.avatar (Shooter.Game.shared demo2_game)))%Q
    /\ (y == 0)%Q.
Proof.
  apply (X16_bullet_leaves_avatar demo2_bullets
           (Shooter.Game.shared demo2_game)).
  - apply (Bullets2_init_inv 2 1 (1 # 2)); vm_compute; [reflexivity|].
    intros H; discriminate H.
  - apply (Bullets2_init_inv 2 1 (1 # 2) demo2_bullets);
      vm_compute; [reflexivity|]. intros H; discriminate H.
  - vm_compute. repeat (apply Forall_cons; [reflexivity|]). apply Forall_nil.
  - vm_compute. reflexivity.
  - vm_compute. reflexivity.
Defined.

(** X17. shooter2.py, [Targets.update]: when the next target is due, the
    update returns, and the wave then draws that target last, on the top
    line, one step away from the position prepared for it: it has already
    been moved once when it is first drawn. *)
Theorem X17_target_enters_moved (rnd : Random) (w : Shooter2.Targets.t)
  (g : Shooter.Shared) :
  Wave2_inv w -> Targets2_good (Shooter2.Wave.ext w) ->
  2 <= Shooter2.Wave.N w ->
  Shooter2.Wave.ypos w = linspace01 (Shooter2.Wave.N w) ->
  Shooter2.Wave.tborn w = snd (Shooter2.Wave.cslice w) ->
  exists w' g' pts x y,
    Shooter2.Targets.update rnd w g = Ok (w', g')
    /\ Shooter2.Wave.display w' = Ok (pts ++ [(x, y)])
    /\ x = (nth (Shooter2.Wave.nborn w) (Shooter2.Wave.xpos w) 0
            + nth (Shooter2.Wave.nborn w) (Shooter2.Wave.xspeed w) 0)%Q
    /\ (y == 1)%Q.
Proof.
  intros Hinv Hgood HN Hy Et.
  destruct (Targets2_update_ok rnd w g Hinv Hgood) as (w' & g' & Hu & _).
  destruct (Targets2_update_inv _ _ _ _ _ Hinv Hgood Hu)
    as (Hinv' & _ & eN & _).
  destruct (update_rows _ _ _ Targets2_leaving_rows (@pass_rows _)
              (Targets2_newcontent_rows rnd) w g w' g' Hu) as (Yt & _).
  destruct (Targets2_update_entry _ _ _ _ _ Hinv Hgood Et Hu)
    as (kept & i' & Hcur & Hrow & Hx).
  assert (Ly : length (Shooter2.Wave.ypos w') = Shooter2.Wave.N w').
  { rewrite Yt, Hy, linspace01_length. symmetry. exact eN. }
  exists w', g', (map (sprite2 w' (Shooter2.Wave.ypos w')) kept),
    (fst (sprite2 w' (Shooter2.Wave.ypos w') i')),
    (snd (sprite2 w' (Shooter2.Wave.ypos w') i')).
  split; [exact Hu|]. split.
  - rewrite (display_last w' kept i' Hinv' Ly Hcur).
    rewrite <- surjective_pairing. reflexivity.
  - unfold sprite2. cbn [fst snd]. split; [exact Hx|].
    rewrite Hrow, Yt, Hy.
    replace (Z.to_nat (Z.of_nat (Shooter2.Wave.N w) - 1))
      with (Shooter2.Wave.N w - 1) by lia.
    apply linspace01_last. exact HN.
Qed.

Lemma X17_target_enters_moved_witness :
  exists w' g' pts x y,
    Shooter2.Targets.update demo_random demo2_targets
      (Shooter.Game.shared demo2_game) = Ok (w', g')
    /\ Shooter2.Wave.display w' = Ok (pts ++ [(x, y)])
    /\ x = (nth (Shooter2.Wave.nborn demo2_targets)
              (Shooter2.Wave.xpos demo2_targets) 0
            + nth (Shooter2.Wave.nborn demo2_targets)
                (Shooter2.Wave.xspeed demo2_targets) 0)%Q
    /\ (y == 1)%Q.
Proof.
  apply (X17_target_enters_moved demo_random demo2_targets
           (Shooter.Game.shared demo2_game)).
  - apply (Targets2_init_inv demo_random 2 1 1 (1 # 25)).
    vm_compute. reflexivity.
  - apply (Targets2_init_inv demo_random 2 1 1 (1 # 25) demo2_targets).
    vm_compute. reflexivity.
  - vm_compute. lia.
  - vm_compute. reflexivity.
  - vm_compute. reflexivity.
Defined.
